(** * nbtee: a non-blocking tee

    A shallow embedding of [sink.go] (the per-sink worker) and of the
    [Writer] of package nbtee (the coordinator [run] and its public entry
    points), followed by the properties of the specification and by
    further properties of the code.

    Goroutines are modelled by their control points, channels by their
    buffers, and the whole program by an executable interleaving step
    function: a step is one statement of one goroutine that reads or
    writes what another goroutine can see.  Statements are taken together
    only where no other goroutine can tell the difference:
    - a send and the receive it meets on an unbuffered channel ([w.cmd],
      [cmd.done], the acknowledgement of a flush) are one step;
    - in [for len(s.c) > 0 { <-s.c }] the test and the receive are one
      step, the drain goroutine being the only receiver of [s.c];
    - the choice of the next entry of [range sinks] goes with the first
      statement executed on it, and [make] with the statement using the
      new channel;
    - [s.err = ...] and [if s.err != nil] after a write go with the write.
    A call of [sink.Close] is a single step: calls of [Close] that overlap
    are not modelled.  [BufsPerSink] is a natural number ([make] panics on
    a negative size). *)

From Stdlib Require Import List Arith Bool Lia Permutation.
From Stdlib Require Import Strings.Byte.
Import ListNotations.

Set Implicit Arguments.

(** ** Go values *)

Definition bytes := list byte.

(** A value of type [[]byte]: [None] is the nil slice, [Some l] a non-nil
    slice with contents [l] (possibly empty). *)
Definition item := option bytes.

Definition go_len (b : item) : nat :=
  match b with None => 0 | Some l => length l end.

(** [bufcopy := make([]byte, len(buf)); copy(bufcopy, buf)]: the contents of
    the copy, which is never the nil slice. *)
Definition copy_of (buf : item) : bytes :=
  match buf with None => [] | Some l => l end.

(** [ErrNotFound] and the errors an [io.Writer] or [io.Closer] may return. *)
Inductive error := ErrNotFound | ErrIO (n : nat).

(** Identity of an [io.Writer] given to [Add]; [None] is the nil interface. *)
Definition target := nat.
Definition iface := option target.

(** A [*sink]: index into the store of allocated sinks. *)
Definition sid := nat.

(** Identity of a channel made by [make(chan struct{})] or
    [make(chan *sink)]. *)
Definition chanid := nat.

(** What a blocking or panicking Go statement may do. *)
Inductive outcome (A : Type) :=
| Done (a : A)
| Blocked
| Panic.
Arguments Blocked {A}.
Arguments Panic {A}.

Definition obind {A B} (o : outcome A) (k : A -> outcome B) : outcome B :=
  match o with Done a => k a | Blocked => Blocked | Panic => Panic end.

Notation "x <- e ;; k" := (obind e (fun x => k))
  (at level 61, e at next level, right associativity).

(** Update of the [n]-th cell of a store; no effect out of range. *)
Fixpoint upd {A} (n : nat) (x : A) (l : list A) : list A :=
  match l, n with
  | [], _ => []
  | _ :: r, 0 => x :: r
  | y :: r, S m => y :: upd m x r
  end.

(** ** Channels *)

Module Chan.

Record t (A : Type) := Mk { cbuf : list A; ccap : nat; cclosed : bool }.

Section Ops.
Variable A : Type.

Definition make (n : nat) : t A := Mk [] n false.

(** [cap(ch)] and [len(ch)].  An unbuffered channel has length 0 even while
    a value is being handed over to a parked receiver. *)
Definition cap (ch : t A) : nat := ccap ch.
Definition len (ch : t A) : nat :=
  if ccap ch =? 0 then 0 else length (cbuf ch).

(** Can a send proceed at once?  With a buffer there must be a free slot;
    without one, a receiver must be parked on the channel ([parked]) and
    not already have been handed a value. *)
Definition has_room (ch : t A) (parked : bool) : bool :=
  if ccap ch =? 0 then parked && (length (cbuf ch) =? 0)
  else length (cbuf ch) <? ccap ch.

Definition push (ch : t A) (x : A) : t A :=
  Mk (cbuf ch ++ [x]) (ccap ch) (cclosed ch).

(** [ch <- x] *)
Definition send (ch : t A) (x : A) (parked : bool) : outcome (t A) :=
  if cclosed ch then Panic
  else if has_room ch parked then Done (push ch x)
  else Blocked.

(** [select { case ch <- x: default: }]; the boolean tells whether the
    value was sent. *)
Definition try_send (ch : t A) (x : A) (parked : bool) : outcome (t A * bool) :=
  if cclosed ch then Panic
  else if has_room ch parked then Done (push ch x, true)
  else Done (ch, false).

(** [v, ok := <-ch] *)
Definition recv (ch : t A) : outcome (option A * t A) :=
  match cbuf ch with
  | x :: r => Done (Some x, Mk r (ccap ch) (cclosed ch))
  | [] => if cclosed ch then Done (None, ch) else Blocked
  end.

(** [close(ch)] *)
Definition close (ch : t A) : outcome (t A) :=
  if cclosed ch then Panic else Done (Mk (cbuf ch) (ccap ch) true).

End Ops.
End Chan.

(** ** Targets: the wrapped [io.Writer]s *)

(** A target records the slices passed to its [Write] ([calls], oldest
    first) and how often it was closed.  Its behaviour is given by the
    results of its coming [Write] calls ([wres]; nil once exhausted) and,
    when it implements [io.Closer], by the result of [Close]. *)
Record tstate := TState {
  calls : list item;
  wres : list (option error);
  closer : option (option error);
  nclose : nat
}.

(** A [bytes.Buffer]: every write succeeds, and it is no [io.Closer]. *)
Definition buffer : tstate := TState [] [] None 0.

(** What a [bytes.Buffer] holds after these calls. *)
Definition content (t : tstate) : bytes := concat (map copy_of (calls t)).

Definition t_Write (t : tstate) (b : item) : tstate * option error :=
  (TState (calls t ++ [b]) (tl (wres t)) (closer t) (nclose t),
   hd None (wres t)).

(** [w, ok := s.Writer.(io.Closer)] followed by [w.Close()]. *)
Definition t_Close (t : tstate) : option (tstate * option error) :=
  match closer t with
  | None => None
  | Some r => Some (TState (calls t) (wres t) (closer t) (S (nclose t)), r)
  end.

Definition tstates := list tstate.
Definition tget (ts : tstates) (t : target) : tstate := nth t ts buffer.

(** ** The sink ([sink.go]) *)

(** Control points of the goroutine running [sink.drain]. *)
Inductive dpc :=
| DRange (p : bool)           (* for buf := range s.c; p: parked on the receive *)
| DLen                        (* for len(s.c) > 0 { <-s.c } *)
| DSelect                     (* select { case f := <-s.flushers: ... default: break F } *)
| DAck (f : option chanid)    (* f <- struct{}{} *)
| DWrite (b : item)           (* _, s.err = s.Writer.Write(buf) *)
| DErrCloseDone               (* close(s.done), after a failed write *)
| DErrClose                   (* s.Close() *)
| DErrRange (p : bool)        (* for _ = range s.c { }; p: parked on the receive *)
| DCloseDone                  (* close(s.done), after the loop *)
| DCloseFlushers              (* close(s.flushers) *)
| DExit                       (* drain has returned *)
| DPanic.

(** The struct [sink], with [done] reduced to whether it is closed, and the
    control point of the goroutine started for it by [go s.drain()]. *)
Record sink := Sink {
  Writer : iface;
  c : Chan.t item;
  done : bool;
  flushers : Chan.t chanid;
  err : option error;
  drain : dpc
}.

Definition set_Writer (s : sink) (w : iface) : sink :=
  Sink w (c s) (done s) (flushers s) (err s) (drain s).
Definition set_c (s : sink) (ch : Chan.t item) : sink :=
  Sink (Writer s) ch (done s) (flushers s) (err s) (drain s).
Definition set_done (s : sink) (d : bool) : sink :=
  Sink (Writer s) (c s) d (flushers s) (err s) (drain s).
Definition set_flushers (s : sink) (ch : Chan.t chanid) : sink :=
  Sink (Writer s) (c s) (done s) ch (err s) (drain s).
Definition set_err (s : sink) (e : option error) : sink :=
  Sink (Writer s) (c s) (done s) (flushers s) e (drain s).
Definition set_drain (s : sink) (p : dpc) : sink :=
  Sink (Writer s) (c s) (done s) (flushers s) (err s) p.

(** The sink built by [Writer.Add], its goroutine started but not yet
    waiting on the receive. *)
Definition new_sink (w : iface) (bufsPerSink : nat) : sink :=
  Sink w (Chan.make item bufsPerSink) false (Chan.make chanid 1) None
       (DRange false).

(** Is the drain goroutine parked on a receive from [s.c]? *)
Definition parked (s : sink) : bool :=
  match drain s with
  | DRange p | DErrRange p => p
  | _ => false
  end.

(** What a step of a goroutine lets the outside see. *)
Inductive event :=
| Tau
| EvWrite (t : target) (b : item) (r : option error)
                                       (* the target's Write was called with b and returned r *)
| EvClose (t : option target) (e : option error)
                                       (* sink.Close closed t, if any, and returned e *)
| EvAck (f : option chanid).           (* a value was sent on f *)

(** [sink.Close]: waits for [s.done]; closes the writer if it is an
    [io.Closer], keeps the first error, and forgets the writer. *)
Definition sink_Close (s : sink) (ts : tstates)
  : outcome (sink * tstates * event) :=
  if negb (done s) then Blocked
  else
    match Writer s with
    | None => Done (s, ts, EvClose None (err s))
    | Some t =>
      match t_Close (tget ts t) with
      | None => Done (s, ts, EvClose None (err s))
      | Some (tst, r) =>
        let e := match err s with None => r | Some _ => err s end in
        Done (set_Writer (set_err s e) None, upd t tst ts, EvClose (Some t) e)
      end
    end.

(** The error returned by a call of [sink.Close]. *)
Definition returned (ev : event) : option error :=
  match ev with EvClose _ e => e | _ => None end.

(** The condition [cap(s.c) > 1 && len(s.c)+1 == cap(s.c)]. *)
Definition near_full (ch : Chan.t item) : bool :=
  (1 <? Chan.cap ch) && (Chan.len ch + 1 =? Chan.cap ch).

(** The statements of [sink.Write] and [sink.Flush] that act on the sink:
    [s.c <- nil], [select { case s.c <- buf: default: }] and
    [s.flushers <- done]. *)
Definition send_nil (s : sink) : outcome sink :=
  ch <- Chan.send (c s) None (parked s) ;;
  Done (set_c s ch).

Definition try_send_buf (s : sink) (buf : item) : outcome sink :=
  r <- Chan.try_send (c s) buf (parked s) ;;
  Done (set_c s (fst r)).

Definition register (s : sink) (f : chanid) : outcome sink :=
  ch <- Chan.send (flushers s) f false ;;
  Done (set_flushers s ch).

(** [sink.Write], run without interruption. *)
Definition sink_Write (s : sink) (buf : item)
  : outcome (sink * (nat * option error)) :=
  if done s then Done (s, (0, err s))
  else if near_full (c s) then
    s' <- send_nil s ;;
    Done (s', (go_len buf, None))
  else
    s' <- try_send_buf s buf ;;
    Done (s', (go_len buf, None)).

(** [sink.Flush] up to its last statement, run without interruption; the
    boolean tells whether [<-done] is still to come. *)
Definition sink_Flush (s : sink) (f : chanid) : outcome (sink * bool) :=
  if done s then Done (s, false)
  else
    s1 <- register s f ;;
    s2 <- send_nil s1 ;;
    Done (s2, true).

(** One step of [sink.drain].  A receive that finds nothing parks the
    goroutine on the channel, where it stays until a value or the closing
    arrives.  At [DAck f] the step is the send on [f], which needs the
    flusher to be receiving; the caller sees to that. *)
Definition drain_step (s : sink) (ts : tstates)
  : outcome (sink * tstates * event) :=
  match drain s with
  | DRange p =>
    match Chan.recv (c s) with
    | Done (Some None, ch) => Done (set_drain (set_c s ch) DLen, ts, Tau)
    | Done (Some buf, ch) => Done (set_drain (set_c s ch) (DWrite buf), ts, Tau)
    | Done (None, _) => Done (set_drain s DCloseDone, ts, Tau)
    | Blocked => if p then Blocked else Done (set_drain s (DRange true), ts, Tau)
    | Panic => Panic
    end
  | DLen =>
    if 0 <? Chan.len (c s) then
      r <- Chan.recv (c s) ;;
      Done (set_c s (snd r), ts, Tau)
    else Done (set_drain s DSelect, ts, Tau)
  | DSelect =>
    match Chan.cbuf (flushers s) with
    | f :: r =>
      Done (set_drain
              (set_flushers s (Chan.Mk r (Chan.ccap (flushers s))
                                         (Chan.cclosed (flushers s))))
              (DAck (Some f)), ts, Tau)
    | [] =>
      if Chan.cclosed (flushers s)
      then Done (set_drain s (DAck None), ts, Tau)
      else Done (set_drain s (DRange false), ts, Tau)
    end
  | DAck None => Blocked
  | DAck (Some f) => Done (set_drain s DSelect, ts, EvAck (Some f))
  | DWrite b =>
    match Writer s with
    | None => Done (set_drain s DPanic, ts, Tau)
    | Some t =>
      let (tst, r) := t_Write (tget ts t) b in
      Done (set_drain (set_err s r)
                      (match r with Some _ => DErrCloseDone | None => DRange false end),
            upd t tst ts, EvWrite t b r)
    end
  | DErrCloseDone =>
    if done s then Done (set_drain s DPanic, ts, Tau)
    else Done (set_drain (set_done s true) DErrClose, ts, Tau)
  | DErrClose =>
    r <- sink_Close s ts ;;
    Done (set_drain (fst (fst r)) (DErrRange false), snd (fst r), snd r)
  | DErrRange p =>
    match Chan.recv (c s) with
    | Done (Some _, ch) => Done (set_drain (set_c s ch) (DErrRange false), ts, Tau)
    | Done (None, _) => Done (set_drain s DExit, ts, Tau)
    | Blocked => if p then Blocked else Done (set_drain s (DErrRange true), ts, Tau)
    | Panic => Panic
    end
  | DCloseDone =>
    if done s then Done (set_drain s DPanic, ts, Tau)
    else Done (set_drain (set_done s true) DCloseFlushers, ts, Tau)
  | DCloseFlushers =>
    match Chan.close (flushers s) with
    | Done ch => Done (set_drain (set_flushers s ch) DExit, ts, Tau)
    | _ => Done (set_drain s DPanic, ts, Tau)
    end
  | DExit => Blocked
  | DPanic => Blocked
  end.

(** ** The coordinator ([Writer.run]) *)

(** [map[interface{}]*sink]: each key occurs at most once. *)
Definition registry := list (iface * sid).

Definition key_eqb (a b : iface) : bool :=
  match a, b with
  | None, None => true
  | Some x, Some y => x =? y
  | _, _ => false
  end.

Fixpoint lookup (k : iface) (m : registry) : option sid :=
  match m with
  | [] => None
  | (k', v) :: r => if key_eqb k k' then Some v else lookup k r
  end.

Definition delete (k : iface) (m : registry) : registry :=
  filter (fun e => negb (key_eqb k (fst e))) m.

Definition insert (k : iface) (v : sid) (m : registry) : registry :=
  (k, v) :: delete k m.

(** The sinks visited by [for _, s := range sinks]. *)
Definition fanout (m : registry) : list sid := map snd m.

(** Go visits the entries of a map in an unspecified order: every way of
    taking one element out of those still to be visited. *)
Fixpoint picks {A} (l : list A) : list (A * list A) :=
  match l with
  | [] => []
  | x :: r => (x, r) :: map (fun p => (fst p, x :: snd p)) (picks r)
  end.

(** [case cmdAdd] of [run]. *)
Definition run_cmdAdd (sinks : registry) (heap : list sink) (s : sid)
  : outcome (registry * list sink) :=
  match nth_error heap s with
  | None => Panic
  | Some sk =>
    match lookup (Writer sk) sinks with
    | Some _ =>
      ch <- Chan.close (c sk) ;;
      Done (sinks, upd s (set_c sk ch) heap)
    | None => Done (insert (Writer sk) s sinks, heap)
    end
  end.

(** [case cmdRemove] of [run], up to what it sends on [cmd.done] before
    closing it: the sink found, if any. *)
Definition run_cmdRemove (sinks : registry) (heap : list sink) (w : iface)
  : outcome (registry * list sink * option sid) :=
  match lookup w sinks with
  | Some s =>
    match nth_error heap s with
    | None => Panic
    | Some sk =>
      ch <- Chan.close (c sk) ;;
      Done (delete w sinks, upd s (set_c sk ch) heap, Some s)
    end
  | None => Done (sinks, heap, None)
  end.

(** [sink, ok := <-done] in [Writer.Remove], and what it returns. *)
Definition Remove_return (reply : option sid) : option sid * option error :=
  match reply with
  | Some s => (Some s, None)
  | None => (None, Some ErrNotFound)
  end.

(** ** The whole program *)

(** The calls a client makes on a started [Writer]. *)
Inductive call :=
| Add (w : iface)
| Remove (w : iface)
| RemoveAndClose (w : iface)
| CloseHandle (s : sid)        (* Close on the handle that Remove returned *)
| Write (buf : item)
| Flush
| Close.

(** What the calls return ([Add] and [Flush] return nothing). *)
Inductive ret :=
| RetWrite (n : nat) (e : option error)
| RetRemove (h : option sid) (e : option error)
| RetErr (e : option error).

(** Control points of the client inside a call. *)
Inductive kpc :=
| KNext                                     (* about to make the next call *)
| KAddSend (s : sid)                        (* Add: w.cmd <- cmdAdd(s) *)
| KFlushWait (r : chanid)                   (* Flush: <-done *)
| KRemoveWait (r : chanid)                  (* sink, ok := <-done *)
| KRACDone (s : sid)                        (* <-sink.done; sink.Flush(); sink.Close() *)
| KCloseWait                                (* Close: <-w.done *)
| KPanic.

(** Control points of [run]. *)
Inductive cpc :=
| CRange                                            (* for cmd := range w.cmd *)
| CAdd (s : sid)
| CRemove (w : iface) (r : chanid)
| CRemoveSend (s : sid) (r : chanid)                (* cmd.done <- s *)
| CRemoveClose (r : chanid)                         (* close(cmd.done) *)
| CFlush (r : chanid) (rest : list sid)             (* for _, s := range sinks { s.Flush() }; close(cmd) *)
| CFlushReg (s : sid) (r : chanid) (rest : list sid)     (* done := make(chan struct{}); s.flushers <- done *)
| CFlushNil (s : sid) (f r : chanid) (rest : list sid)   (* s.c <- nil *)
| CFlushWait (s : sid) (f r : chanid) (rest : list sid)  (* <-done *)
| CWrite (b : bytes) (rest : list sid)              (* for _, s := range sinks { s.Write(cmd) } *)
| CWriteLen (b : bytes) (s : sid) (rest : list sid) (* if cap(s.c) > 1 && ... *)
| CWriteGap (b : bytes) (s : sid) (rest : list sid) (* s.c <- nil *)
| CWriteTry (b : bytes) (s : sid) (rest : list sid) (* select { case s.c <- buf: default: } *)
| CShutdown (rest : list sid)                       (* for _, s := range sinks { close(s.c) }; close(w.done) *)
| CExit
| CPanic.

Record world := World {
  BufsPerSink : nat;
  prog : list call;          (* the client's calls still to make *)
  kp : kpc;
  rets : list ret;           (* what its calls returned so far *)
  cmd_closed : bool;         (* w.cmd *)
  wdone : bool;              (* w.done *)
  cp : cpc;
  sinks : registry;          (* the local variable of run *)
  heap : list sink;
  targets : tstates;
  nextc : chanid;
  closed : list chanid       (* reply channels that were closed *)
}.

(** The state after [NewWriter(n).Start()], with the given targets and the
    calls the client is going to make. *)
Definition init (n : nat) (ts : tstates) (p : list call) : world :=
  World n p KNext [] false false CRange [] [] ts 0 [].

Definition set_client (W : world) (p : list call) (k : kpc) (rs : list ret) :=
  World (BufsPerSink W) p k rs (cmd_closed W) (wdone W) (cp W) (sinks W)
        (heap W) (targets W) (nextc W) (closed W).
Definition set_cp (W : world) (k : cpc) :=
  World (BufsPerSink W) (prog W) (kp W) (rets W) (cmd_closed W) (wdone W) k
        (sinks W) (heap W) (targets W) (nextc W) (closed W).
Definition set_sinks (W : world) (m : registry) :=
  World (BufsPerSink W) (prog W) (kp W) (rets W) (cmd_closed W) (wdone W)
        (cp W) m (heap W) (targets W) (nextc W) (closed W).
Definition set_heap (W : world) (h : list sink) :=
  World (BufsPerSink W) (prog W) (kp W) (rets W) (cmd_closed W) (wdone W)
        (cp W) (sinks W) h (targets W) (nextc W) (closed W).
Definition set_targets (W : world) (ts : tstates) :=
  World (BufsPerSink W) (prog W) (kp W) (rets W) (cmd_closed W) (wdone W)
        (cp W) (sinks W) (heap W) ts (nextc W) (closed W).
Definition set_cmd_closed (W : world) :=
  World (BufsPerSink W) (prog W) (kp W) (rets W) true (wdone W)
        (cp W) (sinks W) (heap W) (targets W) (nextc W) (closed W).
Definition set_wdone (W : world) :=
  World (BufsPerSink W) (prog W) (kp W) (rets W) (cmd_closed W) true
        (cp W) (sinks W) (heap W) (targets W) (nextc W) (closed W).
Definition fresh_chan (W : world) :=
  World (BufsPerSink W) (prog W) (kp W) (rets W) (cmd_closed W) (wdone W)
        (cp W) (sinks W) (heap W) (targets W) (S (nextc W)) (closed W).
Definition close_chan (W : world) (r : chanid) :=
  World (BufsPerSink W) (prog W) (kp W) (rets W) (cmd_closed W) (wdone W)
        (cp W) (sinks W) (heap W) (targets W) (nextc W) (r :: closed W).

Definition is_closed (W : world) (r : chanid) : bool :=
  existsb (Nat.eqb r) (closed W).

(** The commands that [run] receives on [w.cmd]; a [cmdRemove] and a
    [cmdFlush] carry the channel on which [run] answers. *)
Inductive cmd :=
| cmdAdd (s : sid)
| cmdRemove (w : iface) (done : chanid)
| cmdWrite (b : bytes)
| cmdFlush (done : chanid).

(** [switch cmd := cmd.(type)]: where [run] goes on having received [x]. *)
Definition run_case (W : world) (x : cmd) : cpc :=
  match x with
  | cmdAdd s => CAdd s
  | cmdRemove w r => CRemove w r
  | cmdFlush r => CFlush r (fanout (sinks W))
  | cmdWrite b => CWrite b (fanout (sinks W))
  end.

(** [w.cmd <- x]: the channel is unbuffered, so the send happens together
    with the receive of [run]; the client goes on as told by [after]. *)
Definition cmd_send (W : world) (x : cmd) (after : world -> world) : list world :=
  if cmd_closed W then [set_client W (prog W) KPanic (rets W)]
  else
    match cp W with
    | CRange => [after (set_cp W (run_case W x))]
    | _ => []
    end.

(** [sink.Close] called by the client, which then goes on with [p]. *)
Definition client_Close (W : world) (s : sid) (p : list call) : list world :=
  match nth_error (heap W) s with
  | None => [set_client W (prog W) KPanic (rets W)]
  | Some sk =>
    match sink_Close sk (targets W) with
    | Done (sk', ts, ev) =>
      [set_client (set_targets (set_heap W (upd s sk' (heap W))) ts)
                  p KNext (rets W ++ [RetErr (returned ev)])]
    | Blocked => []
    | Panic => [set_client W (prog W) KPanic (rets W)]
    end
  end.

(** The steps of the client inside each method of [Writer]; [p] are the
    calls it makes afterwards. *)

(** [Writer.Add]: the sink is built and its goroutine started, then the
    sink is sent to [run]. *)
Definition Writer_Add (W : world) (w : iface) (p : list call) : list world :=
  match kp W with
  | KNext =>
    [set_client (set_heap W (heap W ++ [new_sink w (BufsPerSink W)]))
                (prog W) (KAddSend (length (heap W))) (rets W)]
  | KAddSend s => cmd_send W (cmdAdd s) (fun V => set_client V p KNext (rets W))
  | _ => []
  end.

(** [Writer.Remove] *)
Definition Writer_Remove (W : world) (w : iface) (p : list call) : list world :=
  match kp W with
  | KNext =>
    cmd_send W (cmdRemove w (nextc W))
             (fun V => fresh_chan (set_client V (prog W) (KRemoveWait (nextc W)) (rets W)))
  | KRemoveWait r =>
    match cp W with
    | CRemoveSend s r' =>
      if r =? r' then
        let (h, e) := Remove_return (Some s) in
        [set_client (set_cp W (CRemoveClose r)) p KNext (rets W ++ [RetRemove h e])]
      else []
    | _ =>
      if is_closed W r then
        let (h, e) := Remove_return None in
        [set_client W p KNext (rets W ++ [RetRemove h e])]
      else []
    end
  | _ => []
  end.

(** [Writer.RemoveAndClose]; its last three statements are one step: once
    [sink.done] is closed, [sink.Flush] returns at once. *)
Definition Writer_RemoveAndClose (W : world) (w : iface) (p : list call)
  : list world :=
  match kp W with
  | KNext =>
    cmd_send W (cmdRemove w (nextc W))
             (fun V => fresh_chan (set_client V (prog W) (KRemoveWait (nextc W)) (rets W)))
  | KRemoveWait r =>
    match cp W with
    | CRemoveSend s r' =>
      if r =? r' then
        [set_client (set_cp W (CRemoveClose r)) (prog W) (KRACDone s) (rets W)]
      else []
    | _ =>
      if is_closed W r then
        [set_client W p KNext (rets W ++ [RetErr (Some ErrNotFound)])]
      else []
    end
  | KRACDone s => client_Close W s p
  | _ => []
  end.

(** [Writer.Write] *)
Definition Writer_Write (W : world) (buf : item) (p : list call) : list world :=
  match kp W with
  | KNext =>
    cmd_send W (cmdWrite (copy_of buf))
             (fun V => set_client V p KNext (rets W ++ [RetWrite (go_len buf) None]))
  | _ => []
  end.

(** [Writer.Flush] *)
Definition Writer_Flush (W : world) (p : list call) : list world :=
  match kp W with
  | KNext =>
    cmd_send W (cmdFlush (nextc W))
             (fun V => fresh_chan (set_client V (prog W) (KFlushWait (nextc W)) (rets W)))
  | KFlushWait r => if is_closed W r then [set_client W p KNext (rets W)] else []
  | _ => []
  end.

(** [Writer.Close], on a started Writer ([w.done] is not nil); [w.err] is
    never assigned, so nil is returned. *)
Definition Writer_Close (W : world) (p : list call) : list world :=
  match kp W with
  | KNext =>
    if cmd_closed W then [set_client W (prog W) KPanic (rets W)]
    else [set_client (set_cmd_closed W) (prog W) KCloseWait (rets W)]
  | KCloseWait =>
    if wdone W then [set_client W p KNext (rets W ++ [RetErr None])] else []
  | _ => []
  end.

(** [Close] on the handle that [Remove] returned. *)
Definition handle_Close (W : world) (s : sid) (p : list call) : list world :=
  match kp W with
  | KNext => client_Close W s p
  | _ => []
  end.

(** The steps of the client. *)
Definition client_steps (W : world) : list world :=
  match prog W with
  | [] => []
  | Add w :: p => Writer_Add W w p
  | Remove w :: p => Writer_Remove W w p
  | RemoveAndClose w :: p => Writer_RemoveAndClose W w p
  | CloseHandle s :: p => handle_Close W s p
  | Write buf :: p => Writer_Write W buf p
  | Flush :: p => Writer_Flush W p
  | Close :: p => Writer_Close W p
  end.

(** A statement of [run] acting on the sink [s]. *)
Definition on_sink (W : world) (s : sid) (f : sink -> outcome (sink * cpc))
  : list world :=
  match nth_error (heap W) s with
  | None => [set_cp W CPanic]
  | Some sk =>
    match f sk with
    | Done (sk', k) => [set_cp (set_heap W (upd s sk' (heap W))) k]
    | Blocked => []
    | Panic => [set_cp W CPanic]
    end
  end.

(** The steps of [run]; the receive from [w.cmd] is part of the sender's
    step, and the receive of a flush acknowledgement part of the drain's. *)
Definition coord_steps (W : world) : list world :=
  match cp W with
  | CRange => if cmd_closed W then [set_cp W (CShutdown (fanout (sinks W)))] else []
  | CAdd s =>
    match run_cmdAdd (sinks W) (heap W) s with
    | Done (m, h) => [set_cp (set_heap (set_sinks W m) h) CRange]
    | _ => [set_cp W CPanic]
    end
  | CRemove w r =>
    match run_cmdRemove (sinks W) (heap W) w with
    | Done (m, h, Some s) => [set_cp (set_heap (set_sinks W m) h) (CRemoveSend s r)]
    | Done (m, h, None) => [set_cp (set_heap (set_sinks W m) h) (CRemoveClose r)]
    | _ => [set_cp W CPanic]
    end
  | CRemoveSend _ _ => []
  | CRemoveClose r => [set_cp (close_chan W r) CRange]
  | CFlush r [] => [set_cp (close_chan W r) CRange]
  | CFlush r rest =>
    flat_map (fun p : sid * list sid =>
      on_sink W (fst p) (fun sk =>
        if done sk then Done (sk, CFlush r (snd p))
        else Done (sk, CFlushReg (fst p) r (snd p))))
      (picks rest)
  | CFlushReg s r rest =>
    map fresh_chan
      (on_sink W s (fun sk =>
         sk' <- register sk (nextc W) ;;
         Done (sk', CFlushNil s (nextc W) r rest)))
  | CFlushNil s f r rest =>
    on_sink W s (fun sk =>
      sk' <- send_nil sk ;;
      Done (sk', CFlushWait s f r rest))
  | CFlushWait _ _ _ _ => []
  | CWrite b [] => [set_cp W CRange]
  | CWrite b rest =>
    flat_map (fun p : sid * list sid =>
      on_sink W (fst p) (fun sk =>
        if done sk then Done (sk, CWrite b (snd p))
        else Done (sk, CWriteLen b (fst p) (snd p))))
      (picks rest)
  | CWriteLen b s rest =>
    on_sink W s (fun sk =>
      if near_full (c sk) then Done (sk, CWriteGap b s rest)
      else Done (sk, CWriteTry b s rest))
  | CWriteGap b s rest =>
    on_sink W s (fun sk =>
      sk' <- send_nil sk ;;
      Done (sk', CWrite b rest))
  | CWriteTry b s rest =>
    on_sink W s (fun sk =>
      sk' <- try_send_buf sk (Some b) ;;
      Done (sk', CWrite b rest))
  | CShutdown [] => if wdone W then [set_cp W CPanic] else [set_cp (set_wdone W) CExit]
  | CShutdown rest =>
    flat_map (fun p : sid * list sid =>
      on_sink W (fst p) (fun sk =>
        ch <- Chan.close (c sk) ;;
        Done (set_c sk ch, CShutdown (snd p))))
      (picks rest)
  | CExit => []
  | CPanic => []
  end.

(** The steps of the drain goroutine of the sink at [i]. *)
Definition drain_steps_at (W : world) (i : sid) (sk : sink) : list world :=
  match drain_step sk (targets W) with
  | Done (sk', ts, ev) =>
    let V := set_targets (set_heap W (upd i sk' (heap W))) ts in
    match ev with
    | EvAck f =>
      match cp W with
      | CFlushWait s f' r rest =>
        if (s =? i) && match f with Some g => g =? f' | None => false end
        then [set_cp V (CFlush r rest)] else []
      | _ => []
      end
    | _ => [V]
    end
  | _ => []
  end.

Fixpoint drain_steps_from (W : world) (i : sid) (l : list sink) : list world :=
  match l with
  | [] => []
  | sk :: r => drain_steps_at W i sk ++ drain_steps_from W (S i) r
  end.

Definition drain_steps (W : world) : list world :=
  drain_steps_from W 0 (heap W).

(** Has some goroutine panicked? *)
Definition panicked (W : world) : bool :=
  match kp W with KPanic => true | _ => false end
  || match cp W with CPanic => true | _ => false end
  || existsb (fun s => match drain s with DPanic => true | _ => false end)
             (heap W).

(** All the worlds one step of one goroutine away; a panic ends the
    program. *)
Definition step (W : world) : list world :=
  if panicked W then []
  else client_steps W ++ coord_steps W ++ drain_steps W.

Inductive reachable (W : world) : world -> Prop :=
| reach_refl : reachable W W
| reach_step V V' : reachable W V -> In V' (step V) -> reachable W V'.

(** The client has made all its calls. *)
Definition finished (W : world) : bool :=
  match kp W, prog W with
  | KNext, [] => true
  | _, _ => false
  end.

(** ** One sink and its users *)

(** What can happen to a sink: the statements of [sink.Write] and
    [sink.Flush] that act on it (whoever runs them, and whenever), the
    closing of its queue by [run], a call of its [Close], a step of its
    drain goroutine, and other goroutines using the targets (which cannot
    change whether a target is an [io.Closer]). *)
Inductive act :=
| AWriteGap                  (* sink.Write: s.c <- nil *)
| AWriteTry (buf : item)     (* sink.Write(buf): select { case s.c <- buf: default: } *)
| AFlushReg (f : chanid)     (* sink.Flush: s.flushers <- done *)
| AFlushNil                  (* sink.Flush: s.c <- nil *)
| ACloseC                    (* run: close(s.c) *)
| AClose                     (* s.Close() *)
| ADrain                     (* a step of s.drain() *)
| AOther (ts : tstates).

Definition same_kind (ts ts' : tstates) : Prop :=
  forall t, closer (tget ts' t) = closer (tget ts t).

Definition act_step (a : act) (s : sink) (ts : tstates)
  : outcome (sink * tstates * event) :=
  match a with
  | AWriteGap | AFlushNil => s' <- send_nil s ;; Done (s', ts, Tau)
  | AWriteTry buf => s' <- try_send_buf s buf ;; Done (s', ts, Tau)
  | AFlushReg f => s' <- register s f ;; Done (s', ts, Tau)
  | ACloseC => ch <- Chan.close (c s) ;; Done (set_c s ch, ts, Tau)
  | AClose => sink_Close s ts
  | ADrain => drain_step s ts
  | AOther ts' => Done (s, ts', Tau)
  end.

(** A run of a sink: the actions taken, each with the event it produced. *)
Inductive run_of : sink * tstates -> list (act * event) -> sink * tstates -> Prop :=
| run_nil st : run_of st [] st
| run_snoc st tr s ts a s' ts' ev :
    run_of st tr (s, ts) ->
    act_step a s ts = Done (s', ts', ev) ->
    (forall o, a = AOther o -> same_kind ts o) ->
    run_of st (tr ++ [(a, ev)]) (s', ts').

(** The errors of the failed writes, the errors returned by the calls of
    [Close], and the targets closed, in a run. *)
Definition failure (x : act * event) : option error :=
  match snd x with EvWrite _ _ r => r | _ => None end.

Fixpoint failures (tr : list (act * event)) : list error :=
  match tr with
  | [] => []
  | x :: r => match failure x with Some e => e :: failures r | None => failures r end
  end.

Fixpoint close_returns (tr : list (act * event)) : list (option error) :=
  match tr with
  | [] => []
  | (_, EvClose _ e) :: r => e :: close_returns r
  | _ :: r => close_returns r
  end.

Fixpoint closings (tr : list (act * event)) : list target :=
  match tr with
  | [] => []
  | (_, EvClose (Some t) _) :: r => t :: closings r
  | _ :: r => closings r
  end.

(** Whole calls on a sink, none of them interrupted by the drain. *)
Inductive op :=
| OpWrite (buf : item)
| OpFlush (f : chanid)
| OpClose
| OpCloseC
| OpDrain.

Definition op_step (o : op) (s : sink) (ts : tstates) : outcome (sink * tstates) :=
  match o with
  | OpWrite buf => r <- sink_Write s buf ;; Done (fst r, ts)
  | OpFlush f => r <- sink_Flush s f ;; Done (fst r, ts)
  | OpClose => r <- sink_Close s ts ;; Done (fst r)
  | OpCloseC => ch <- Chan.close (c s) ;; Done (set_c s ch, ts)
  | OpDrain => r <- drain_step s ts ;; Done (fst r)
  end.

Inductive ops_of : sink * tstates -> list op -> sink * tstates -> Prop :=
| ops_nil st : ops_of st [] st
| ops_cons s ts o s' ts' l st :
    op_step o s ts = Done (s', ts') ->
    ops_of (s', ts') l st ->
    ops_of (s, ts) (o :: l) st.

(** The drain goroutine left alone for [k] steps. *)
Fixpoint drain_n (k : nat) (s : sink) (ts : tstates) : sink * tstates :=
  match k with
  | 0 => (s, ts)
  | S j =>
    match drain_step s ts with
    | Done (s', ts', _) => drain_n j s' ts'
    | _ => (s, ts)
    end
  end.

(** The sink that [run] is offering a buffer to, inside [s.Write(cmd)]. *)
Definition offering (W : world) : option (bytes * sid) :=
  match cp W with
  | CWriteLen b s _ | CWriteGap b s _ | CWriteTry b s _ => Some (b, s)
  | _ => None
  end.

(** ** Slices and their arrays *)

Module Mem.

(** A slice is nil or a window on an allocated array. *)
Inductive slice := Nil | Slice (arr off n : nat).

Definition store := list (list byte).

Definition len (sl : slice) : nat :=
  match sl with Nil => 0 | Slice _ _ n => n end.

Definition read (m : store) (sl : slice) : bytes :=
  match sl with
  | Nil => []
  | Slice a o n => firstn n (skipn o (nth a m []))
  end.

Definition valid (m : store) (sl : slice) : Prop :=
  match sl with
  | Nil => True
  | Slice a o n => a < length m /\ o + n <= length (nth a m [])
  end.

(** [make([]byte, n)] *)
Definition make (m : store) (n : nat) : store * slice :=
  (m ++ [repeat x00 n], Slice (length m) 0 n).

(** Overwrite the cells of [l] from position [o] on with [data]. *)
Definition blit (l : bytes) (o : nat) (data : bytes) : bytes :=
  firstn o l ++ data ++ skipn (o + length data) l.

(** [copy(dst, src)] *)
Definition copy (m : store) (dst src : slice) : store * nat :=
  match dst with
  | Nil => (m, 0)
  | Slice a o n =>
    let data := firstn (Nat.min n (len src)) (read m src) in
    (upd a (blit (nth a m []) o data) m, length data)
  end.

(** [sl[i] = v]; out of range it panics and stores nothing. *)
Definition poke (m : store) (sl : slice) (i : nat) (v : byte) : store :=
  match sl with
  | Nil => m
  | Slice a o n =>
    if i <? n then upd a (blit (nth a m []) (o + i) [v]) m else m
  end.

Fixpoint pokes (m : store) (sl : slice) (ws : list (nat * byte)) : store :=
  match ws with
  | [] => m
  | (i, v) :: r => pokes (poke m sl i v) sl r
  end.

(** [Writer.Write]: the store afterwards, the slice sent as [cmdWrite] on
    [w.cmd], and the values returned. *)
Definition Writer_Write (m : store) (buf : slice)
  : store * slice * (nat * option error) :=
  let (m1, bufcopy) := make m (len buf) in
  let (m2, _) := copy m1 bufcopy buf in
  (m2, bufcopy, (len buf, None)).

(** The slice as a value: what [copy_of] yields for it. *)
Definition value (m : store) (sl : slice) : item :=
  match sl with Nil => None | _ => Some (read m sl) end.

End Mem.

(** ** Deciding equality of worlds *)

Definition error_eq_dec (x y : error) : {x = y} + {x <> y}.
Proof. decide equality; apply Nat.eq_dec. Defined.

Definition option_eq_dec {A} (d : forall x y : A, {x = y} + {x <> y})
  (x y : option A) : {x = y} + {x <> y}.
Proof. decide equality. Defined.

Definition bytes_eq_dec (x y : bytes) : {x = y} + {x <> y}.
Proof. apply list_eq_dec, Byte.byte_eq_dec. Defined.

Definition chan_eq_dec {A} (d : forall x y : A, {x = y} + {x <> y})
  (x y : Chan.t A) : {x = y} + {x <> y}.
Proof.
  decide equality; [apply Bool.bool_dec | apply Nat.eq_dec | apply list_eq_dec, d].
Defined.

Definition dpc_eq_dec (x y : dpc) : {x = y} + {x <> y}.
Proof.
  decide equality;
    [apply Bool.bool_dec | apply option_eq_dec, Nat.eq_dec
    | apply option_eq_dec, bytes_eq_dec | apply Bool.bool_dec].
Defined.

Definition sink_eq_dec (x y : sink) : {x = y} + {x <> y}.
Proof.
  decide equality;
    [ apply dpc_eq_dec
    | apply option_eq_dec, error_eq_dec
    | apply chan_eq_dec, Nat.eq_dec
    | apply Bool.bool_dec
    | apply chan_eq_dec, option_eq_dec, bytes_eq_dec
    | apply option_eq_dec, Nat.eq_dec ].
Defined.

Definition tstate_eq_dec (x y : tstate) : {x = y} + {x <> y}.
Proof.
  decide equality;
    [ apply Nat.eq_dec
    | apply option_eq_dec, option_eq_dec, error_eq_dec
    | apply list_eq_dec, option_eq_dec, error_eq_dec
    | apply list_eq_dec, option_eq_dec, bytes_eq_dec ].
Defined.

Definition call_eq_dec (x y : call) : {x = y} + {x <> y}.
Proof.
  decide equality;
    try apply option_eq_dec; try apply Nat.eq_dec; apply bytes_eq_dec.
Defined.

Definition ret_eq_dec (x y : ret) : {x = y} + {x <> y}.
Proof.
  decide equality;
    try apply option_eq_dec; try apply error_eq_dec; apply Nat.eq_dec.
Defined.

Definition kpc_eq_dec (x y : kpc) : {x = y} + {x <> y}.
Proof. decide equality; apply Nat.eq_dec. Defined.

Definition cpc_eq_dec (x y : cpc) : {x = y} + {x <> y}.
Proof.
  decide equality;
    try apply list_eq_dec; try apply option_eq_dec;
    try apply Nat.eq_dec; apply Byte.byte_eq_dec.
Defined.

Definition world_eq_dec (x y : world) : {x = y} + {x <> y}.
Proof.
  decide equality;
    try apply list_eq_dec;
    try apply Nat.eq_dec; try apply Bool.bool_dec;
    try apply tstate_eq_dec; try apply sink_eq_dec;
    try apply cpc_eq_dec; try apply kpc_eq_dec;
    try apply ret_eq_dec; try apply call_eq_dec.
  decide equality; [apply Nat.eq_dec | apply option_eq_dec, Nat.eq_dec].
Defined.

Definition world_eqb (x y : world) : bool :=
  if world_eq_dec x y then true else false.

(** ** Exploring every interleaving *)

(** [steps k W V]: some run of [k] steps leads from [W] to [V]. *)
Inductive steps : nat -> world -> world -> Prop :=
| steps_O W : steps 0 W W
| steps_S k W V U : In V (step W) -> steps k V U -> steps (S k) W U.

Fixpoint dedup (l : list world) : list world :=
  match l with
  | [] => []
  | x :: r => if existsb (world_eqb x) r then dedup r else x :: dedup r
  end.

(** The worlds [k] steps away from [cur], for [k] = 0, 1, ...: all of them
    must satisfy [P], and after [n] rounds none may be left. *)
Fixpoint explore (n : nat) (P : world -> bool) (cur : list world) : bool :=
  match n with
  | 0 => match cur with [] => true | _ => false end
  | S m => forallb P cur && explore m P (dedup (flat_map step cur))
  end.

(** Follow a schedule: at each step, the number of the successor taken. *)
Fixpoint follow (sched : list nat) (W : world) : option world :=
  match sched with
  | [] => Some W
  | i :: r =>
    match nth_error (step W) i with
    | Some V => follow r V
    | None => None
    end
  end.

(** ** The scenario of [TestAddRemove] *)

Definition B : iface := Some 0.

Definition scenario : list call :=
  [Add B; Write (Some [x01; x02; x03]); Flush; Remove B;
   Write (Some [x04; x05; x06]); Flush;
   Add B; Write (Some [x07; x08; x09]); Flush; Close].

(** What must hold in every world of the scenario: no goroutine has
    panicked; the target never gets anything but the first and the third
    write, in this order; once the client is through, it has got both; and
    as long as the client is not through, some goroutine can move. *)
Definition scenario_ok (W : world) : bool :=
  let got := calls (tget (targets W) 0) in
  negb (panicked W) &&
  (if list_eq_dec (option_eq_dec bytes_eq_dec) got [] then true
   else if list_eq_dec (option_eq_dec bytes_eq_dec) got [Some [x01; x02; x03]] then true
   else if list_eq_dec (option_eq_dec bytes_eq_dec) got
             [Some [x01; x02; x03]; Some [x07; x08; x09]] then true
   else false)
  && (if finished W
      then if bytes_eq_dec (content (tget (targets W) 0))
                           [x01; x02; x03; x07; x08; x09]
           then true else false
      else match step W with [] => false | _ => true end).

(** The race of two flushes in a row. *)
Definition two_flushes : list call :=
  [Add B; Flush; Write (Some [x01]); Flush].

(** ** What holds of a sink throughout *)

(** The control points of the drain goroutine behind [close(s.done)]. *)
Definition past_done (p : dpc) : bool :=
  match p with
  | DErrClose | DErrRange _ | DCloseFlushers | DExit => true
  | _ => false
  end.

(** The control points behind the end of [for buf := range s.c]. *)
Definition past_range (p : dpc) : bool :=
  match p with
  | DCloseDone | DCloseFlushers | DExit => true
  | _ => false
  end.

Record sink_wf (s : sink) : Prop := {
  wf_done : done s = past_done (drain s);
  wf_range : past_range (drain s) = true ->
             Chan.cbuf (c s) = [] /\ Chan.cclosed (c s) = true;
  wf_flushers : Chan.cclosed (flushers s) = true -> drain s = DExit;
  wf_err : err s <> None -> done s = true \/ drain s = DErrCloseDone
}.

(** What a run from a new sink for [w] has established when it has
    produced [tr] and led to [s] and [ts]. *)
Record run_inv (w : iface) (tr : list (act * event)) (s : sink) (ts : tstates)
  : Prop := {
  ri_wf : sink_wf s;
  ri_Writer : Writer s = w \/ Writer s = None;
  ri_queue : forall x, In x (Chan.cbuf (c s)) ->
             x = None \/ In (AWriteTry x) (map fst tr);
  ri_write : forall x, drain s = DWrite x ->
             x <> None /\ In (AWriteTry x) (map fst tr);
  ri_failed : failures tr = [] \/
              exists e, failures tr = [e] /\ err s = Some e;
  ri_origin : err s <> None -> failures tr <> [] \/ close_returns tr <> [];
  ri_returns : forall r, In r (close_returns tr) -> r = err s;
  ri_returned : close_returns tr <> [] ->
                done s = true /\
                match Writer s with
                | None => True
                | Some t => closer (tget ts t) = None
                end;
  ri_closings : closings tr = [] \/
                exists t, closings tr = [t] /\ w = Some t /\ Writer s = None
}.

(** Run a list of actions, none of them [AOther], from a sink. *)
Fixpoint exec (l : list act) (tr : list (act * event)) (s : sink) (ts : tstates)
  : option (list (act * event) * sink * tstates) :=
  match l with
  | [] => Some (tr, s, ts)
  | AOther _ :: _ => None
  | a :: r =>
    match act_step a s ts with
    | Done (s', ts', ev) => exec r (tr ++ [(a, ev)]) s' ts'
    | _ => None
    end
  end.

(** A target whose first [Write] fails, and whose [Close] fails too. *)
Definition failing_target : tstate :=
  TState [] [Some (ErrIO 2)] (Some (Some (ErrIO 1))) 0.

(** A target whose [Close] fails. *)
Definition closing_target : tstate := TState [] [] (Some (Some (ErrIO 1))) 0.


(** ** What holds of the registry throughout *)

(** The buffer that [run] is about to send to the sink at [i], if any. *)
Definition sending (W : world) (i : sid) : option bytes :=
  match cp W with
  | CWriteTry b s _ => if s =? i then Some b else None
  | _ => None
  end.

(** What a step may do to a sink: the writer is kept or forgotten, and a
    buffer that is new in the queue is the one being sent. *)
Definition sink_step (o : option bytes) (sk sk' : sink) : Prop :=
  (Writer sk' = Writer sk \/ Writer sk' = None)
  /\ forall x, In (Some x) (Chan.cbuf (c sk')) ->
               In (Some x) (Chan.cbuf (c sk)) \/ o = Some x.

Definition heap_step (W V : world) : Prop :=
  forall i sk, nth_error (heap W) i = Some sk ->
    exists sk', nth_error (heap V) i = Some sk'
                /\ sink_step (sending W i) sk sk'.

(** The sinks still to be visited by a write are registered. *)
Definition offer_ok (m : registry) (k : cpc) : Prop :=
  match k with
  | CWrite _ rest => incl rest (fanout m)
  | CWriteLen _ s rest | CWriteGap _ s rest | CWriteTry _ s rest =>
    incl (s :: rest) (fanout m)
  | _ => True
  end.

Record reg_inv (W : world) : Prop := {
  rg_nodup : NoDup (map fst (sinks W));
  rg_sink : forall k i, In (k, i) (sinks W) ->
            exists sk, nth_error (heap W) i = Some sk
                       /\ (Writer sk = k \/ Writer sk = None);
  rg_offer : offer_ok (sinks W) (cp W)
}.

(** What a step of [run] keeps and tells. *)
Definition coord_frame (W V : world) : Prop :=
  reg_inv V /\ heap_step W V
  /\ (sinks V = sinks W \/ (exists s, cp W = CAdd s) \/ (exists w r, cp W = CRemove w r))
  /\ (forall w r, cp W = CRemove w r -> cp V = CPanic \/ lookup w (sinks V) = None).

(** ** Queues of another capacity *)

Definition omap {A B} (f : A -> B) (o : outcome A) : outcome B :=
  match o with Done a => Done (f a) | Blocked => Blocked | Panic => Panic end.

(** The same sink, and the same world, with queues of capacity [n]. *)
Definition recap_sink (n : nat) (s : sink) : sink :=
  set_c s (Chan.Mk (Chan.cbuf (c s)) n (Chan.cclosed (c s))).

Definition recap (n : nat) (W : world) : world :=
  World n (prog W) (kp W) (rets W) (cmd_closed W) (wdone W) (cp W) (sinks W)
        (map (recap_sink n) (heap W)) (targets W) (nextc W) (closed W).

(** Queues of capacity 4 that hold at most two values: what is done with
    them does not depend on the capacity being 4 or more. *)
Definition roomy_sink (s : sink) : bool :=
  (Chan.ccap (c s) =? 4) && (length (Chan.cbuf (c s)) <=? 2).

Definition roomy (W : world) : bool :=
  (BufsPerSink W =? 4) && forallb roomy_sink (heap W).

Definition recap2 {A} (n : nat) (r : sink * A) : sink * A :=
  (recap_sink n (fst r), snd r).

Definition recap3 (n : nat) (r : sink * tstates * event)
  : sink * tstates * event :=
  (recap_sink n (fst (fst r)), snd (fst r), snd r).

(** The check of the scenario, together with that of the queues. *)
Definition scenario_roomy (W : world) : bool := scenario_ok W && roomy W.

(** ** Notions for the further properties *)

(** [subseq l m]: [l] is [m] with some elements left out. *)
Inductive subseq {A} : list A -> list A -> Prop :=
| subseq_nil : subseq [] []
| subseq_skip x l m : subseq l m -> subseq l (x :: m)
| subseq_take x l m : subseq l m -> subseq (x :: l) (x :: m).

(** The slices passed to the target's [Write] in a run, oldest first, and
    the slices that [sink.Write] offered to the queue with
    [select { case s.c <- buf: default: }]. *)
Definition written (tr : list (act * event)) : list item :=
  flat_map (fun x => match snd x with EvWrite _ b _ => [b] | _ => [] end) tr.

Definition offered (tr : list (act * event)) : list item :=
  flat_map (fun x => match fst x with AWriteTry b => [b] | _ => [] end) tr.

Definition is_data (x : item) : bool :=
  match x with Some _ => true | None => false end.

(** What the drain goroutine has received and not yet written, and the
    data behind it in the queue. *)
Definition in_flight (s : sink) : list item :=
  match drain s with DWrite b => [b] | _ => [] end
  ++ filter is_data (Chan.cbuf (c s)).

(** The control points of the drain goroutine after a failed write. *)
Definition failed (p : dpc) : bool :=
  match p with
  | DErrCloseDone | DErrClose | DErrRange _ | DExit | DPanic => true
  | _ => false
  end.

(** The target [t] of [ts] after more calls of [Write], all successful. *)
Definition wrote (ts : tstates) (t : target) (l : list item) : tstates :=
  upd t (TState (calls (tget ts t) ++ l) (wres (tget ts t))
                (closer (tget ts t)) (nclose (tget ts t))) ts.

(** The data at the head of a queue, up to its first nil marker. *)
Fixpoint ahead (q : list item) : list bytes :=
  match q with
  | Some b :: r => b :: ahead r
  | _ => []
  end.

Fixpoint behind (q : list item) : list item :=
  match q with
  | Some b :: r => behind r
  | _ => q
  end.

(** The steps the drain goroutine is away from acknowledging a flush. *)
Definition to_ack (s : sink) : nat :=
  let q := Chan.cbuf (c s) in
  match drain s with
  | DRange _ => 2 * length (ahead q) + length (behind q) + 2
  | DWrite _ => 2 * length (ahead q) + length (behind q) + 3
  | DLen => length q + 2
  | DSelect => 1
  | _ => 0
  end.

(** What the target will have been handed when the drain goroutine gets
    to the marker. *)
Definition to_write (s : sink) : list item :=
  match drain s with
  | DRange _ => map Some (ahead (Chan.cbuf (c s)))
  | DWrite b => b :: map Some (ahead (Chan.cbuf (c s)))
  | _ => []
  end.

(** A sink with a flush under way that only its drain goroutine acts on,
    writing to a target that takes every write. *)
Definition flushing_alone (t : target) (f : chanid) (s : sink) (ts : tstates) : Prop :=
  Writer s = Some t /\ t < length ts /\ wres (tget ts t) = []
  /\ 0 < Chan.ccap (c s)
  /\ match drain s with
     | DRange _ | DWrite _ => In None (Chan.cbuf (c s)) /\ Chan.cbuf (flushers s) = [f]
     | DLen => Chan.cbuf (flushers s) = [f]
     | DSelect => Chan.cbuf (c s) = [] /\ Chan.cbuf (flushers s) = [f]
     | DAck g => g = Some f /\ Chan.cbuf (c s) = [] /\ Chan.cbuf (flushers s) = []
     | _ => False
     end.

(** What a step of the program is to one sink: one of the actions on it,
    or an action of another goroutine on the targets. *)
Definition acted (ts ts' : tstates) (sk sk' : sink) : Prop :=
  exists a ev, act_step a sk ts = Done (sk', ts', ev)
               /\ (forall o, a = AOther o -> same_kind ts o).

Definition heap_acts (W V : world) : Prop :=
  forall i sk', nth_error (heap V) i = Some sk' ->
    (exists sk, nth_error (heap W) i = Some sk
                /\ acted (targets W) (targets V) sk sk')
    \/ (nth_error (heap W) i = None
        /\ targets V = targets W
        /\ exists w, sk' = new_sink w (BufsPerSink W)).

(** The sinks made by [Add] that [run] has not yet looked up. *)
Definition pending (W : world) : list sid :=
  match kp W with KAddSend s => [s] | _ => [] end
  ++ match cp W with CAdd s => [s] | _ => [] end.

(** The sinks that [run] is working on or has still to visit in a loop over
    its registry. *)
Definition visiting (k : cpc) : list sid :=
  match k with
  | CFlush _ rest | CWrite _ rest | CShutdown rest => rest
  | CFlushReg s _ rest | CFlushNil s _ _ rest | CFlushWait s _ _ rest
  | CWriteLen _ s rest | CWriteGap _ s rest | CWriteTry _ s rest => s :: rest
  | _ => []
  end.

(** [run] has left its loop over [w.cmd]. *)
Definition shutting (k : cpc) : bool :=
  match k with CShutdown _ | CExit => true | _ => false end.

(** The sinks whose queue nobody has closed: those not yet looked up, and
    those registered that the final loop of [run] has not yet visited. *)
Definition open_now (W : world) (i : sid) : Prop :=
  In i (pending W)
  \/ (In i (fanout (sinks W))
      /\ (shutting (cp W) = false \/ In i (visiting (cp W)))).

Record winv (W : world) : Prop := {
  wi_nodup : NoDup (pending W ++ fanout (sinks W));
  wi_valid : forall i, In i (pending W ++ fanout (sinks W)) -> i < length (heap W);
  wi_status : forall i sk, nth_error (heap W) i = Some sk ->
              (Chan.cclosed (c sk) = false <-> open_now W i);
  wi_visiting : NoDup (visiting (cp W))
                /\ incl (visiting (cp W)) (fanout (sinks W));
  wi_wdone : wdone W = true -> cp W = CExit
}.

(** What a step of the client does, as far as the other goroutines can
    tell. *)
Inductive client_shape (W V : world) : Prop :=
| cs_panic :
    kp V = KPanic -> cp V = cp W -> heap V = heap W -> targets V = targets W ->
    cmd_closed V = cmd_closed W -> prog V = prog W ->
    (cmd_closed W = true
     /\ ((kp W = KNext /\ prog W <> []) \/ exists s, kp W = KAddSend s))
    \/ (exists s, nth_error (heap W) s = None
                  /\ (kp W = KRACDone s
                      \/ (kp W = KNext /\ exists p, prog W = CloseHandle s :: p))) ->
    client_shape W V
| cs_alloc w p :
    prog W = Add w :: p -> kp W = KNext -> kp V = KAddSend (length (heap W)) ->
    heap V = heap W ++ [new_sink w (BufsPerSink W)] ->
    cp V = cp W -> targets V = targets W ->
    cmd_closed V = cmd_closed W -> prog V = prog W ->
    client_shape W V
| cs_send x :
    cp W = CRange -> cmd_closed W = false -> cp V = run_case W x ->
    heap V = heap W -> targets V = targets W -> cmd_closed V = false ->
    match x with
    | cmdAdd s => (exists w, prog W = Add w :: prog V) /\ kp W = KAddSend s /\ kp V = KNext
    | cmdRemove w r =>
      (prog W = Remove w :: tl (prog W) \/ prog W = RemoveAndClose w :: tl (prog W))
      /\ prog V = prog W /\ kp W = KNext /\ kp V = KRemoveWait r
    | cmdWrite b => (exists buf, prog W = Write buf :: prog V) /\ kp W = KNext /\ kp V = KNext
    | cmdFlush r => prog W = Flush :: tl (prog W) /\ prog V = prog W
                    /\ kp W = KNext /\ kp V = KFlushWait r
    end ->
    client_shape W V
| cs_got s r :
    cp W = CRemoveSend s r -> cp V = CRemoveClose r -> kp W = KRemoveWait r ->
    heap V = heap W -> targets V = targets W -> cmd_closed V = cmd_closed W ->
    ((exists w, prog W = Remove w :: prog V) /\ kp V = KNext
     \/ (exists w, prog W = RemoveAndClose w :: tl (prog W))
        /\ prog V = prog W /\ kp V = KRACDone s) ->
    client_shape W V
| cs_return :
    cp V = cp W -> heap V = heap W -> targets V = targets W ->
    cmd_closed V = cmd_closed W -> kp V = KNext ->
    (exists r w, kp W = KRemoveWait r
                 /\ (prog W = Remove w :: prog V
                     \/ prog W = RemoveAndClose w :: prog V))
    \/ (exists r, kp W = KFlushWait r /\ prog W = Flush :: prog V)
    \/ (kp W = KCloseWait /\ wdone W = true /\ prog W = Close :: prog V) ->
    client_shape W V
| cs_closing p :
    prog W = Close :: p -> kp W = KNext -> kp V = KCloseWait ->
    cmd_closed W = false -> cmd_closed V = true ->
    cp V = cp W -> heap V = heap W -> targets V = targets W -> prog V = prog W ->
    client_shape W V
| cs_sink_close s sk sk' ev :
    nth_error (heap W) s = Some sk ->
    sink_Close sk (targets W) = Done (sk', targets V, ev) ->
    heap V = upd s sk' (heap W) ->
    cp V = cp W -> cmd_closed V = cmd_closed W -> kp V = KNext ->
    prog V = tl (prog W) ->
    (kp W = KNext /\ exists p, prog W = CloseHandle s :: p)
    \/ (kp W = KRACDone s /\ exists w p, prog W = RemoveAndClose w :: p) ->
    client_shape W V.

(** The sink at [s] is missing, or is as [P] says. *)
Definition bad_sink (h : list sink) (s : sid) (P : sink -> Prop) : Prop :=
  nth_error h s = None \/ exists sk, nth_error h s = Some sk /\ P sk.

(** What makes the next statement of [run] panic: a sink that is not
    there, the closing of a closed channel, a send on a closed channel. *)
Definition coord_panics (W : world) : Prop :=
  let closed_c := fun sk => Chan.cclosed (c sk) = true in
  match cp W with
  | CAdd s =>
    bad_sink (heap W) s
      (fun sk => lookup (Writer sk) (sinks W) <> None /\ closed_c sk)
  | CRemove w _ =>
    exists s, lookup w (sinks W) = Some s /\ bad_sink (heap W) s closed_c
  | CFlush _ rest | CWrite _ rest =>
    exists x, In x rest /\ nth_error (heap W) x = None
  | CShutdown [] => wdone W = true
  | CShutdown rest => exists x, In x rest /\ bad_sink (heap W) x closed_c
  | CFlushReg s _ _ =>
    bad_sink (heap W) s (fun sk => Chan.cclosed (flushers sk) = true)
  | CFlushNil s _ _ _ | CWriteGap _ s _ | CWriteTry _ s _ =>
    bad_sink (heap W) s closed_c
  | CWriteLen _ s _ => nth_error (heap W) s = None
  | _ => False
  end.

(** A step of [run] to the control point [k], with the sinks [h] and the
    registry [m]. *)
Definition moves (W V : world) (k : cpc) (h : list sink) (m : registry) : Prop :=
  cp V = k /\ heap V = h /\ sinks V = m
  /\ kp V = kp W /\ prog V = prog W /\ cmd_closed V = cmd_closed W
  /\ targets V = targets W /\ BufsPerSink V = BufsPerSink W.

Inductive coord_shape (W V : world) : Prop :=
| co_panic :
    moves W V CPanic (heap W) (sinks W) -> coord_panics W -> coord_shape W V
| co_shutdown :
    cp W = CRange -> cmd_closed W = true -> wdone V = wdone W ->
    moves W V (CShutdown (fanout (sinks W))) (heap W) (sinks W) ->
    coord_shape W V
| co_add_dup s sk ch :
    cp W = CAdd s -> nth_error (heap W) s = Some sk ->
    lookup (Writer sk) (sinks W) <> None ->
    Chan.close (c sk) = Done ch -> wdone V = wdone W ->
    moves W V CRange (upd s (set_c sk ch) (heap W)) (sinks W) ->
    coord_shape W V
| co_add_new s sk :
    cp W = CAdd s -> nth_error (heap W) s = Some sk ->
    lookup (Writer sk) (sinks W) = None -> wdone V = wdone W ->
    moves W V CRange (heap W) ((Writer sk, s) :: sinks W) ->
    coord_shape W V
| co_remove w r s sk ch :
    cp W = CRemove w r -> lookup w (sinks W) = Some s ->
    nth_error (heap W) s = Some sk ->
    Chan.close (c sk) = Done ch -> wdone V = wdone W ->
    moves W V (CRemoveSend s r) (upd s (set_c sk ch) (heap W)) (delete w (sinks W)) ->
    coord_shape W V
| co_remove_none w r :
    cp W = CRemove w r -> lookup w (sinks W) = None -> wdone V = wdone W ->
    moves W V (CRemoveClose r) (heap W) (sinks W) ->
    coord_shape W V
| co_back :
    (exists r, cp W = CRemoveClose r) \/ (exists r, cp W = CFlush r [])
    \/ (exists b, cp W = CWrite b []) ->
    wdone V = wdone W ->
    moves W V CRange (heap W) (sinks W) ->
    coord_shape W V
| co_flush_pick r rest x rest' sk :
    cp W = CFlush r rest -> In (x, rest') (picks rest) ->
    nth_error (heap W) x = Some sk -> wdone V = wdone W ->
    moves W V (if done sk then CFlush r rest' else CFlushReg x r rest')
          (heap W) (sinks W) ->
    coord_shape W V
| co_flush_reg s r rest sk sk' :
    cp W = CFlushReg s r rest -> nth_error (heap W) s = Some sk ->
    register sk (nextc W) = Done sk' -> wdone V = wdone W ->
    moves W V (CFlushNil s (nextc W) r rest) (upd s sk' (heap W)) (sinks W) ->
    coord_shape W V
| co_flush_nil s f r rest sk sk' :
    cp W = CFlushNil s f r rest -> nth_error (heap W) s = Some sk ->
    send_nil sk = Done sk' -> wdone V = wdone W ->
    moves W V (CFlushWait s f r rest) (upd s sk' (heap W)) (sinks W) ->
    coord_shape W V
| co_write_pick b rest x rest' sk :
    cp W = CWrite b rest -> In (x, rest') (picks rest) ->
    nth_error (heap W) x = Some sk -> wdone V = wdone W ->
    moves W V (if done sk then CWrite b rest' else CWriteLen b x rest')
          (heap W) (sinks W) ->
    coord_shape W V
| co_write_len b s rest sk :
    cp W = CWriteLen b s rest -> nth_error (heap W) s = Some sk ->
    wdone V = wdone W ->
    moves W V (if near_full (c sk) then CWriteGap b s rest else CWriteTry b s rest)
          (heap W) (sinks W) ->
    coord_shape W V
| co_write_gap b s rest sk sk' :
    cp W = CWriteGap b s rest -> nth_error (heap W) s = Some sk ->
    send_nil sk = Done sk' -> wdone V = wdone W ->
    moves W V (CWrite b rest) (upd s sk' (heap W)) (sinks W) ->
    coord_shape W V
| co_write_try b s rest sk sk' :
    cp W = CWriteTry b s rest -> nth_error (heap W) s = Some sk ->
    try_send_buf sk (Some b) = Done sk' -> wdone V = wdone W ->
    moves W V (CWrite b rest) (upd s sk' (heap W)) (sinks W) ->
    coord_shape W V
| co_shut_pick rest x rest' sk ch :
    cp W = CShutdown rest -> In (x, rest') (picks rest) ->
    nth_error (heap W) x = Some sk ->
    Chan.close (c sk) = Done ch -> wdone V = wdone W ->
    moves W V (CShutdown rest') (upd x (set_c sk ch) (heap W)) (sinks W) ->
    coord_shape W V
| co_exit :
    cp W = CShutdown [] -> wdone W = false -> wdone V = true ->
    moves W V CExit (heap W) (sinks W) ->
    coord_shape W V.

(** What a step of a drain goroutine does, as far as the others can tell. *)
Definition drain_shape (W V : world) : Prop :=
  exists i sk sk' ev,
    nth_error (heap W) i = Some sk
    /\ drain_step sk (targets W) = Done (sk', targets V, ev)
    /\ heap V = upd i sk' (heap W)
    /\ sinks V = sinks W /\ kp V = kp W /\ prog V = prog W
    /\ cmd_closed V = cmd_closed W /\ wdone V = wdone W
    /\ BufsPerSink V = BufsPerSink W
    /\ (((forall f, ev <> EvAck f) /\ cp V = cp W)
        \/ exists f r rest,
             ev = EvAck (Some f) /\ cp W = CFlushWait i f r rest
             /\ cp V = CFlush r rest).

(** The sinks of [V] are those of [W], with the same queues open. *)
Definition same_open (W V : world) : Prop :=
  length (heap V) = length (heap W)
  /\ forall i sk', nth_error (heap V) i = Some sk' ->
       exists sk, nth_error (heap W) i = Some sk
                  /\ Chan.cclosed (c sk') = Chan.cclosed (c sk).

(** When [run] is about to send the gap marker, the queue has a free
    slot. *)
Definition gap_ok (W : world) : Prop :=
  forall b s rest, cp W = CWriteGap b s rest ->
    forall sk, nth_error (heap W) s = Some sk ->
      length (Chan.cbuf (c sk)) < Chan.ccap (c sk).

(** The steps [run] is away from the end of [case cmdWrite]. *)
Definition write_left (k : cpc) : nat :=
  match k with
  | CWrite _ rest => 3 * length rest + 1
  | CWriteLen _ _ rest => 3 * length rest + 3
  | CWriteGap _ _ rest | CWriteTry _ _ rest => 3 * length rest + 2
  | _ => 0
  end.

(** A client that keeps to the documentation: it adds no nil writer, calls
    [Close] only on the handle of a sink that was made ([k] sinks were made
    so far), and calls nothing after [Writer.Close]. *)
Fixpoint proper (k : nat) (p : list call) : bool :=
  match p with
  | [] => true
  | Add None :: _ => false
  | Add (Some _) :: r => proper (S k) r
  | CloseHandle s :: r => (s <? k) && proper k r
  | Close :: r => match r with [] => true | _ => false end
  | _ :: r => proper k r
  end.

(** The sinks made before the call the client is in. *)
Definition made (W : world) : nat :=
  match kp W with KAddSend s => s | _ => length (heap W) end.

Record pinv (W : world) : Prop := {
  pi_proper : proper (made W) (prog W) = true;
  pi_closed : cmd_closed W = true ->
              (kp W = KCloseWait /\ prog W = [Close])
              \/ (kp W = KNext /\ prog W = []);
  pi_add : forall s, kp W = KAddSend s -> S s = length (heap W);
  pi_handle : (forall s, kp W = KRACDone s -> s < length (heap W))
              /\ (forall s r, cp W = CRemoveSend s r -> s < length (heap W));
  pi_writer : forall i sk, nth_error (heap W) i = Some sk ->
              drain sk <> DPanic /\ (done sk = false -> Writer sk <> None)
}.

(** The flush that [run] has registered with the sink at [i] and that is not
    yet acknowledged. *)
Definition flushing (k : cpc) (i : sid) : option chanid :=
  match k with
  | CFlushNil s f _ _ | CFlushWait s f _ _ => if s =? i then Some f else None
  | _ => None
  end.

(** The flushers of a sink hold the flush that [run] has registered, until
    the drain goroutine has taken it to acknowledge it, and nothing else. *)
Definition flush_ok (k : cpc) (i : sid) (sk : sink) : Prop :=
  match flushing k i with
  | Some f =>
    (Chan.cbuf (flushers sk) = [f] /\ forall g, drain sk <> DAck g)
    \/ (Chan.cbuf (flushers sk) = [] /\ drain sk = DAck (Some f))
  | None => Chan.cbuf (flushers sk) = [] /\ forall g, drain sk <> DAck g
  end.

Definition finv (W : world) : Prop :=
  forall i sk, nth_error (heap W) i = Some sk -> flush_ok (cp W) i sk.

(** How far the drain goroutine of a sink with a closed queue is from its
    end. *)
Definition drain_rank (p : dpc) : nat :=
  match p with
  | DWrite _ => 7
  | DLen => 6
  | DSelect => 5
  | DRange _ => 4
  | DErrCloseDone => 3
  | DErrClose | DCloseDone => 2
  | DErrRange _ | DCloseFlushers => 1
  | _ => 0
  end.

Definition drain_left (s : sink) : nat :=
  8 * length (Chan.cbuf (c s)) + drain_rank (drain s).

(** A sink whose queue is closed and that has no flush to acknowledge. *)
Definition winding_up (s : sink) : Prop :=
  sink_wf s /\ Chan.cclosed (c s) = true
  /\ Chan.cbuf (flushers s) = [] /\ (forall g, drain s <> DAck g)
  /\ drain s <> DPanic /\ (done s = false -> Writer s <> None).

(** The control points of [drain] between a failed write and the end. *)
Definition on_error_path (p : dpc) : bool :=
  match p with
  | DErrCloseDone | DErrClose | DErrRange _ => true
  | _ => false
  end.

(** Calls of [sink.Write] in a row, with no step of the drain goroutine in
    between: the sink afterwards and what the calls returned. *)
Fixpoint sink_Writes (s : sink) (bufs : list item)
  : outcome (sink * list (nat * option error)) :=
  match bufs with
  | [] => Done (s, [])
  | b :: r =>
    x <- sink_Write s b ;;
    y <- sink_Writes (fst x) r ;;
    Done (fst y, snd x :: snd y)
  end.

(** The scenario of [TestRemoveAndClose]. *)
Definition rac_scenario : list call :=
  [Add B; Write (Some [x01; x02; x03]); RemoveAndClose B;
   Write (Some [x04; x05; x06]); Close].

(** What must hold in every world of that scenario: no goroutine has
    panicked; the target gets nothing but the first write; once the client
    is through, the target has got it and every call has returned without
    error; and as long as the client is not through, some goroutine can
    move. *)
Definition rac_ok (W : world) : bool :=
  let got := calls (tget (targets W) 0) in
  negb (panicked W) &&
  (if list_eq_dec (option_eq_dec bytes_eq_dec) got [] then true
   else if list_eq_dec (option_eq_dec bytes_eq_dec) got [Some [x01; x02; x03]] then true
   else false)
  && (if finished W
      then (if list_eq_dec (option_eq_dec bytes_eq_dec) got [Some [x01; x02; x03]]
            then true else false)
           && (if list_eq_dec ret_eq_dec (rets W)
                    [RetWrite 3 None; RetErr None; RetWrite 3 None; RetErr None]
               then true else false)
      else match step W with [] => false | _ => true end).

Definition rac_roomy (W : world) : bool := rac_ok W && roomy W.

Definition is_flush (x : call) : bool :=
  match x with Flush => true | _ => false end.

(** [run] is in [case cmdFlush]. *)
Definition flush_cp (k : cpc) : bool :=
  match k with
  | CFlush _ _ | CFlushReg _ _ _ | CFlushNil _ _ _ _ | CFlushWait _ _ _ _ => true
  | _ => false
  end.

(** The channel [cmd.done] of the [cmdRemove] that [run] is working on. *)
Definition reply_of (k : cpc) : option chanid :=
  match k with
  | CRemove _ r | CRemoveSend _ r | CRemoveClose r => Some r
  | _ => None
  end.

(** The call that the client is in. *)
Definition kp_prog (W : world) : Prop :=
  match kp W with
  | KNext | KPanic => True
  | KAddSend _ => exists w q, prog W = Add w :: q
  | KFlushWait _ => exists q, prog W = Flush :: q
  | KRemoveWait _ =>
    exists w q, prog W = Remove w :: q \/ prog W = RemoveAndClose w :: q
  | KRACDone _ => exists w q, prog W = RemoveAndClose w :: q
  | KCloseWait => exists q, prog W = Close :: q
  end.

(** How the client and [run] stand to each other when the client never
    calls [Flush]. *)
Record linv (W : world) : Prop := {
  li_prog : kp_prog W;
  li_noflush : existsb is_flush (prog W) = false /\ flush_cp (cp W) = false;
  li_fresh : (forall x, In x (closed W) -> x < nextc W)
             /\ (forall r, kp W = KRemoveWait r -> r < nextc W)
             /\ (forall r, reply_of (cp W) = Some r -> r < nextc W);
  li_wait : forall r, kp W = KRemoveWait r ->
            reply_of (cp W) = Some r \/ is_closed W r = true;
  li_asked : forall r, reply_of (cp W) = Some r -> cp W <> CRemoveClose r ->
             kp W = KRemoveWait r /\ is_closed W r = false;
  li_gone : forall s, kp W = KRACDone s \/ (exists r, cp W = CRemoveSend s r) ->
            exists sk, nth_error (heap W) s = Some sk
                       /\ Chan.cclosed (c sk) = true;
  li_close : kp W = KCloseWait -> cmd_closed W = true;
  li_exit : cp W = CExit -> wdone W = true
}.

(** [run] is at a statement that does not wait for another goroutine. *)
Definition busy (k : cpc) : bool :=
  match k with
  | CAdd _ | CRemove _ _ | CRemoveClose _ | CShutdown _
  | CWrite _ _ | CWriteLen _ _ _ | CWriteGap _ _ _ | CWriteTry _ _ _ => true
  | _ => false
  end.

(** Calls of [sink.Write], the drain goroutine taking two steps after each
    (the receive from [s.c] and the call of the target's [Write]): the
    sink and the targets afterwards, and what the calls returned. *)
Fixpoint feed (s : sink) (ts : tstates) (bufs : list bytes)
  : outcome (sink * tstates * list (nat * option error)) :=
  match bufs with
  | [] => Done (s, ts, [])
  | b :: r =>
    x <- sink_Write s (Some b) ;;
    let y := drain_n 2 (fst x) ts in
    z <- feed (fst y) (snd y) r ;;
    Done (fst (fst z), snd (fst z), snd x :: snd z)
  end.

(** The steps that a drain goroutine has before it, at most, if nothing
    more is queued: 8 for each value in the queue, and those that its
    control point leaves. *)
Definition drain_rest (p : dpc) : nat :=
  match p with
  | DWrite _ => 9
  | DLen => 8
  | DSelect => 7
  | DRange false => 6
  | DRange true => 5
  | DErrCloseDone => 4
  | DErrClose => 3
  | DErrRange false | DCloseDone => 2
  | DErrRange true | DCloseFlushers => 1
  | _ => 0
  end.

Definition drain_due (s : sink) : nat :=
  8 * length (Chan.cbuf (c s)) + drain_rest (drain s).

(** The steps that [run] has before it in the command it is working on,
    with those of the drain goroutines that it will bring about, and
    those of its final loop. *)
Definition run_due (W : world) : nat :=
  match cp W with
  | CAdd _ => 2
  | CRemove _ _ => 3
  | CRemoveSend _ _ => 2
  | CRemoveClose _ => 1
  | CWrite _ rest => 11 * length rest + 1
  | CWriteLen _ _ rest => 11 * length rest + 11
  | CWriteGap _ _ rest | CWriteTry _ _ rest => 11 * length rest + 10
  | CShutdown rest => length rest + 1
  | _ => 0
  end
  + (if shutting (cp W) then 0 else length (fanout (sinks W)) + 3).

(** The steps that the calls [p] take, of the client, of [run] and of the
    drain goroutines, at most, when [h] sinks have been made. *)
Fixpoint calls_due (h : nat) (p : list call) : nat :=
  match p with
  | [] => 0
  | Add _ :: q => 10 + calls_due (S h) q
  | Remove _ :: q => 6 + calls_due h q
  | RemoveAndClose _ :: q => 7 + calls_due h q
  | CloseHandle _ :: q => 1 + calls_due h q
  | Write _ :: q => 11 * h + 3 + calls_due h q
  | Flush :: q => calls_due h q
  | Close :: q => 2 + calls_due h q
  end.

Definition client_due (W : world) : nat :=
  let h := length (heap W) in
  match kp W with
  | KNext => calls_due h (prog W)
  | KAddSend _ => 3 + calls_due h (tl (prog W))
  | KRemoveWait _ =>
    match prog W with
    | RemoveAndClose _ :: q => 3 + calls_due h q
    | _ => 2 + calls_due h (tl (prog W))
    end
  | KRACDone _ | KCloseWait => 1 + calls_due h (tl (prog W))
  | _ => 0
  end.

(** A bound on the steps that the program can still take. *)
Definition due (W : world) : nat :=
  client_due W + run_due W + list_sum (map drain_due (heap W)).

(** * Properties *)

Lemma world_eqb_eq x y : world_eqb x y = true -> x = y.
Proof. unfold world_eqb. destruct (world_eq_dec x y); congruence. Qed.

Lemma dedup_In x l : In x l -> In x (dedup l).
Proof.
  induction l as [|y r IH]; simpl; auto.
  intros [->|H].
  - destruct (existsb (world_eqb x) r) eqn:E; [|now left].
    apply existsb_exists in E. destruct E as (z & Hz & Hxz).
    apply world_eqb_eq in Hxz. subst z. auto.
  - destruct (existsb (world_eqb y) r); [|right]; auto.
Qed.

Lemma explore_sound n P : forall cur W k V,
  explore n P cur = true -> In W cur -> steps k W V ->
  P V = true /\ k < n.
Proof.
  induction n as [|n IH]; simpl; intros cur W k V He Hin Hs.
  - destruct cur; [contradiction | discriminate].
  - apply andb_prop in He. destruct He as [Hall He].
    inversion Hs; subst.
    + split; [|lia]. rewrite forallb_forall in Hall. auto.
    + assert (Hnext : In V0 (dedup (flat_map step cur))).
      { apply dedup_In, in_flat_map. eauto. }
      destruct (IH _ _ _ _ He Hnext H0). split; [assumption | lia].
Qed.

Lemma reachable_steps W V : reachable W V -> exists k, steps k W V.
Proof.
  assert (snoc : forall k A M, steps k A M -> forall N, In N (step M) ->
                               steps (S k) A N).
  { induction 1; intros N HN.
    - econstructor; [eassumption | constructor].
    - econstructor; [eassumption | auto]. }
  induction 1 as [|V V' _ [k IH] Hin].
  - exists 0. constructor.
  - exists (S k). eauto.
Qed.

Lemma reachable_trans W V U : reachable W V -> reachable V U -> reachable W U.
Proof. intros H1 H2. induction H2; [assumption | econstructor; eauto]. Qed.

Lemma follow_reachable sched : forall W V,
  follow sched W = Some V -> reachable W V.
Proof.
  induction sched as [|i r IH]; simpl; intros W V H.
  - injection H as <-. constructor.
  - destruct (nth_error (step W) i) as [U|] eqn:E; [|discriminate].
    apply nth_error_In in E.
    eapply reachable_trans; [|apply IH; eassumption].
    econstructor; [constructor | assumption].
Qed.

(** ** The example scenario (C1) *)

Lemma scenario_ok_spec W :
  scenario_ok W = true ->
  (finished W = true ->
   content (tget (targets W) 0) = [x01; x02; x03; x07; x08; x09])
  /\ (finished W = false -> step W <> [])
  /\ ~ In (Some [x04; x05; x06]) (calls (tget (targets W) 0))
  /\ panicked W = false.
Proof.
  unfold scenario_ok. intros H. apply andb_prop in H. destruct H as [Hc Hf].
  apply andb_prop in Hc. destruct Hc as [Hp Hc].
  apply negb_true_iff in Hp.
  repeat split; [| | | exact Hp].
  - intros E. rewrite E in Hf.
    destruct (bytes_eq_dec _ _); [assumption | discriminate].
  - intros E. rewrite E in Hf. destruct (step W); [discriminate | discriminate].
  - repeat match type of Hc with
           | (if ?d then _ else _) = true => destruct d as [->|_]
           end; try discriminate; simpl; intuition discriminate.
Qed.

(** *** The steps do not depend on a capacity that is never reached *)

Section Recap.
Variable n : nat.
Hypothesis Hn : 4 <= n.

Local Abbreviation rs := (recap_sink n).

Lemma roomy_sink_spec s :
  roomy_sink s = true -> Chan.ccap (c s) = 4 /\ length (Chan.cbuf (c s)) <= 2.
Proof.
  unfold roomy_sink. intros H. apply andb_prop in H. destruct H as [H1 H2].
  apply Nat.eqb_eq in H1. apply Nat.leb_le in H2. auto.
Qed.

Lemma has_room_recap s p :
  roomy_sink s = true ->
  Chan.has_room (c (rs s)) p = true /\ Chan.has_room (c s) p = true.
Proof.
  intros H. apply roomy_sink_spec in H. destruct H as [Hc Hl].
  assert (E0 : (n =? 0) = false) by (apply Nat.eqb_neq; lia).
  unfold Chan.has_room. cbn [recap_sink set_c c Chan.ccap Chan.cbuf].
  rewrite Hc, E0. change (4 =? 0) with false. cbv iota.
  split; apply Nat.ltb_lt; lia.
Qed.

Lemma near_full_recap s :
  roomy_sink s = true ->
  near_full (c (rs s)) = false /\ near_full (c s) = false.
Proof.
  intros H. apply roomy_sink_spec in H. destruct H as [Hc Hl].
  assert (E0 : (n =? 0) = false) by (apply Nat.eqb_neq; lia).
  unfold near_full, Chan.cap, Chan.len. cbn [recap_sink set_c c Chan.ccap Chan.cbuf].
  rewrite Hc, E0. change (4 =? 0) with false. cbv iota.
  split; apply andb_false_iff; right; apply Nat.eqb_neq; lia.
Qed.

Lemma send_nil_recap s :
  roomy_sink s = true -> send_nil (rs s) = omap rs (send_nil s).
Proof.
  intros H. unfold send_nil, Chan.send.
  destruct (@has_room_recap s (parked s) H) as [H1 H2].
  change (parked (rs s)) with (parked s). rewrite H1, H2.
  destruct s as [w0 [q cp0 cl] d0 fl e0 p0]. simpl. destruct cl; reflexivity.
Qed.

Lemma try_send_buf_recap s b :
  roomy_sink s = true -> try_send_buf (rs s) b = omap rs (try_send_buf s b).
Proof.
  intros H. unfold try_send_buf, Chan.try_send.
  destruct (@has_room_recap s (parked s) H) as [H1 H2].
  change (parked (rs s)) with (parked s). rewrite H1, H2.
  destruct s as [w0 [q cp0 cl] d0 fl e0 p0]. simpl. destruct cl; reflexivity.
Qed.

Lemma register_recap s f : register (rs s) f = omap rs (register s f).
Proof.
  unfold register, Chan.send.
  destruct s as [w0 [q cp0 cl] d0 [fq fc fcl] e0 p0]. simpl.
  destruct fcl; [reflexivity|].
  destruct (Chan.has_room _ _); reflexivity.
Qed.

Lemma close_recap s :
  obind (Chan.close (c (rs s))) (fun ch => Done (set_c (rs s) ch))
  = omap rs (obind (Chan.close (c s)) (fun ch => Done (set_c s ch))).
Proof.
  unfold Chan.close. destruct s as [w0 [q cp0 cl] d0 fl e0 p0]. simpl.
  destruct cl; reflexivity.
Qed.

Lemma sink_Close_recap s ts :
  sink_Close (rs s) ts = omap (recap3 n) (sink_Close s ts).
Proof.
  unfold sink_Close. destruct s as [w0 [q cp0 cl] d0 fl e0 p0]. simpl.
  destruct d0; simpl; [|reflexivity].
  destruct w0 as [t|]; [|reflexivity].
  destruct (t_Close (tget ts t)) as [[tst r]|]; reflexivity.
Qed.

Lemma drain_step_recap s ts :
  roomy_sink s = true ->
  drain_step (rs s) ts = omap (recap3 n) (drain_step s ts).
Proof.
  intros H. apply roomy_sink_spec in H. destruct H as [Hc Hl].
  assert (E0 : (n =? 0) = false) by (apply Nat.eqb_neq; lia).
  unfold drain_step. change (drain (rs s)) with (drain s).
  destruct (drain s) eqn:Ep.
  - unfold Chan.recv. destruct s as [w0 [q cp0 cl] d0 fl e0 p0]. simpl.
    destruct q as [|[b|] rest]; [destruct cl; [|destruct p] | |]; reflexivity.
  - unfold Chan.len, Chan.recv.
    destruct s as [w0 [q cp0 cl] d0 fl e0 p0]. simpl in *. subst cp0.
    rewrite E0. simpl. destruct q as [|x rest]; [reflexivity|].
    simpl. reflexivity.
  - destruct s as [w0 [q cp0 cl] d0 [fq fc fcl] e0 p0]. simpl.
    destruct fq; [destruct fcl|]; reflexivity.
  - destruct f; reflexivity.
  - destruct s as [w0 [q cp0 cl] d0 fl e0 p0]. simpl.
    destruct w0 as [t|]; reflexivity.
  - destruct s as [w0 [q cp0 cl] d0 fl e0 p0]. simpl. destruct d0; reflexivity.
  - rewrite sink_Close_recap.
    destruct (sink_Close s ts) as [[[s1 ts1] ev1]| |]; reflexivity.
  - unfold Chan.recv. destruct s as [w0 [q cp0 cl] d0 fl e0 p0]. simpl.
    destruct q as [|x rest]; [destruct cl; [|destruct p] |]; reflexivity.
  - destruct s as [w0 [q cp0 cl] d0 fl e0 p0]. simpl. destruct d0; reflexivity.
  - unfold Chan.close. destruct s as [w0 [q cp0 cl] d0 [fq fc fcl] e0 p0]. simpl.
    destruct fcl; reflexivity.
  - reflexivity.
  - reflexivity.
Qed.

Lemma map_upd {A B} (f : A -> B) (l : list A) : forall i x,
  map f (upd i x l) = upd i (f x) (map f l).
Proof.
  induction l as [|y l IH]; intros [|i] x; simpl; auto. now rewrite IH.
Qed.

Lemma map_flat_map {A B C} (g : B -> C) (f : A -> list B) (l : list A) :
  map g (flat_map f l) = flat_map (fun x => map g (f x)) l.
Proof.
  induction l as [|x l IH]; simpl; auto. now rewrite map_app, IH.
Qed.

Lemma roomy_heap W s sk :
  roomy W = true -> nth_error (heap W) s = Some sk -> roomy_sink sk = true.
Proof.
  unfold roomy. intros H Hs. apply andb_prop in H. destruct H as [_ H].
  rewrite forallb_forall in H. apply H. eapply nth_error_In; eassumption.
Qed.

Lemma on_sink_recap W s f :
  (forall sk, nth_error (heap W) s = Some sk ->
              f (rs sk) = omap (recap2 n) (f sk)) ->
  on_sink (recap n W) s f = map (recap n) (on_sink W s f).
Proof.
  intros Hf. unfold on_sink. simpl. rewrite nth_error_map.
  destruct (nth_error (heap W) s) as [sk|] eqn:Es; simpl; [|reflexivity].
  rewrite (Hf sk eq_refl).
  destruct (f sk) as [[sk' k]| |]; simpl; try reflexivity.
  unfold recap. simpl. rewrite map_upd. reflexivity.
Qed.

Lemma client_steps_recap W :
  roomy W = true -> client_steps (recap n W) = map (recap n) (client_steps W).
Proof.
  intros Hr.
  assert (HB : BufsPerSink W = 4).
  { unfold roomy in Hr. apply andb_prop in Hr. destruct Hr as [H _].
    now apply Nat.eqb_eq. }
  assert (Hclose : forall s p,
            client_Close (recap n W) s p = map (recap n) (client_Close W s p)).
  { intros s p. unfold client_Close. simpl. rewrite nth_error_map.
    destruct (nth_error (heap W) s) as [sk|] eqn:Es; simpl; [|reflexivity].
    rewrite sink_Close_recap.
    destruct (sink_Close sk (targets W)) as [[[sk' ts] ev]| |]; simpl;
      try reflexivity.
    unfold recap. simpl. now rewrite map_upd. }
  clear Hr. destruct W as [bps prg k rts cc wd cpc0 sk hp tg nx cl].
  unfold client_steps, Writer_Add, Writer_Remove, Writer_RemoveAndClose,
    Writer_Write, Writer_Flush, Writer_Close, handle_Close, cmd_send,
    run_case, is_closed in *.
  simpl in *. subst bps.
  destruct prg as [|[] p]; destruct k;
    try reflexivity; try apply Hclose;
    repeat match goal with
           | |- context [if ?x then _ else _] => destruct x eqn:?
           | |- context [match cpc0 with _ => _ end] => destruct cpc0
           end; simpl; try reflexivity.
  unfold recap. simpl. rewrite map_app, length_map. reflexivity.
Qed.

Lemma run_cmdAdd_recap m h s :
  run_cmdAdd m (map rs h) s
  = omap (fun r => (fst r, map rs (snd r))) (run_cmdAdd m h s).
Proof.
  unfold run_cmdAdd. rewrite nth_error_map.
  destruct (nth_error h s) as [sk|]; simpl; [|reflexivity].
  change (Writer (rs sk)) with (Writer sk).
  destruct (lookup (Writer sk) m); [|reflexivity].
  unfold Chan.close. destruct sk as [w0 [q cp0 cl] d0 fl e0 p0]. simpl.
  destruct cl; simpl; [reflexivity|]. now rewrite map_upd.
Qed.

Lemma run_cmdRemove_recap m h w :
  run_cmdRemove m (map rs h) w
  = omap (fun r => (fst (fst r), map rs (snd (fst r)), snd r)) (run_cmdRemove m h w).
Proof.
  unfold run_cmdRemove. destruct (lookup w m) as [s|]; [|reflexivity].
  rewrite nth_error_map.
  destruct (nth_error h s) as [sk|]; simpl; [|reflexivity].
  unfold Chan.close. destruct sk as [w0 [q cp0 cl] d0 fl e0 p0]. simpl.
  destruct cl; simpl; [reflexivity|]. now rewrite map_upd.
Qed.

Lemma coord_steps_recap W :
  roomy W = true -> coord_steps (recap n W) = map (recap n) (coord_steps W).
Proof.
  intros Hr.
  assert (Hroom : forall s sk, nth_error (heap W) s = Some sk -> roomy_sink sk = true).
  { intros s sk. apply roomy_heap. assumption. }
  assert (Hpick : forall (F : sid * list sid -> sink -> outcome (sink * cpc)) rest,
            (forall p sk, nth_error (heap W) (fst p) = Some sk ->
                          F p (rs sk) = omap (recap2 n) (F p sk)) ->
            flat_map (fun p => on_sink (recap n W) (fst p) (F p)) (picks rest)
            = map (recap n) (flat_map (fun p => on_sink W (fst p) (F p)) (picks rest))).
  { intros F rest HF. rewrite map_flat_map. apply flat_map_ext.
    intros p. apply on_sink_recap. apply HF. }
  unfold coord_steps. change (cp (recap n W)) with (cp W).
  change (sinks (recap n W)) with (sinks W).
  change (cmd_closed (recap n W)) with (cmd_closed W).
  change (wdone (recap n W)) with (wdone W).
  change (nextc (recap n W)) with (nextc W).
  change (heap (recap n W)) with (map rs (heap W)).
  destruct (cp W) eqn:Ec.
  - destruct (cmd_closed W); reflexivity.
  - rewrite run_cmdAdd_recap.
    destruct (run_cmdAdd (sinks W) (heap W) s) as [[m h]| |]; reflexivity.
  - rewrite run_cmdRemove_recap.
    destruct (run_cmdRemove (sinks W) (heap W) w) as [[[m h] [s|]]| |]; reflexivity.
  - reflexivity.
  - reflexivity.
  - destruct rest as [|x rest]; [reflexivity|].
    apply (Hpick (fun p sk => if done sk then Done (sk, CFlush r (snd p))
                              else Done (sk, CFlushReg (fst p) r (snd p)))).
    intros p sk _. change (done (rs sk)) with (done sk).
    destruct (done sk); reflexivity.
  - rewrite on_sink_recap, !map_map; [apply map_ext; reflexivity|].
    intros sk _. rewrite register_recap.
    destruct (register sk (nextc W)); reflexivity.
  - apply on_sink_recap. intros sk Hs. rewrite (@send_nil_recap sk (Hroom _ _ Hs)).
    destruct (send_nil sk); reflexivity.
  - reflexivity.
  - destruct rest as [|x rest]; [reflexivity|].
    apply (Hpick (fun p sk => if done sk then Done (sk, CWrite b (snd p))
                              else Done (sk, CWriteLen b (fst p) (snd p)))).
    intros p sk _. change (done (rs sk)) with (done sk).
    destruct (done sk); reflexivity.
  - apply on_sink_recap. intros sk Hs.
    destruct (@near_full_recap sk (Hroom _ _ Hs)) as [-> ->]. reflexivity.
  - apply on_sink_recap. intros sk Hs. rewrite (@send_nil_recap sk (Hroom _ _ Hs)).
    destruct (send_nil sk); reflexivity.
  - apply on_sink_recap. intros sk Hs.
    rewrite (@try_send_buf_recap sk (Some b) (Hroom _ _ Hs)).
    destruct (try_send_buf sk (Some b)); reflexivity.
  - destruct rest as [|x rest]; [destruct (wdone W); reflexivity|].
    apply (Hpick (fun p sk => ch <- Chan.close (c sk) ;;
                              Done (set_c sk ch, CShutdown (snd p)))).
    intros p sk _. unfold Chan.close.
    destruct sk as [w0 [q cp0 cl] d0 fl e0 p0]. simpl. destruct cl; reflexivity.
  - reflexivity.
  - reflexivity.
Qed.

Lemma drain_steps_at_recap W i sk :
  roomy_sink sk = true ->
  drain_steps_at (recap n W) i (rs sk) = map (recap n) (drain_steps_at W i sk).
Proof.
  intros Hr. unfold drain_steps_at.
  change (targets (recap n W)) with (targets W).
  change (cp (recap n W)) with (cp W).
  change (heap (recap n W)) with (map rs (heap W)).
  rewrite (@drain_step_recap sk (targets W) Hr).
  destruct (drain_step sk (targets W)) as [[[sk' ts] ev]| |]; simpl; try reflexivity.
  assert (E : set_targets (set_heap (recap n W) (upd i (rs sk') (map rs (heap W)))) ts
              = recap n (set_targets (set_heap W (upd i sk' (heap W))) ts)).
  { unfold recap. simpl. now rewrite map_upd. }
  rewrite E.
  destruct ev; try reflexivity.
  destruct (cp W); try reflexivity.
  destruct ((s =? i) && match f with Some g => g =? f0 | None => false end);
    reflexivity.
Qed.

Lemma drain_steps_from_recap W l : forall i,
  forallb roomy_sink l = true ->
  drain_steps_from (recap n W) i (map rs l)
  = map (recap n) (drain_steps_from W i l).
Proof.
  induction l as [|sk l IH]; intros i H; simpl; [reflexivity|].
  simpl in H. apply andb_prop in H. destruct H as [H1 H2].
  rewrite map_app, (@drain_steps_at_recap W i sk H1), (IH _ H2). reflexivity.
Qed.

Lemma panicked_recap W : panicked (recap n W) = panicked W.
Proof.
  unfold panicked. simpl. f_equal.
  induction (heap W) as [|sk l IH]; simpl; [reflexivity|]. now rewrite IH.
Qed.

Lemma step_recap W :
  roomy W = true -> step (recap n W) = map (recap n) (step W).
Proof.
  intros Hr. unfold step. rewrite panicked_recap.
  destruct (panicked W); [reflexivity|].
  rewrite !map_app, (@client_steps_recap W Hr), (@coord_steps_recap W Hr).
  do 2 f_equal. unfold drain_steps.
  change (heap (recap n W)) with (map rs (heap W)).
  apply drain_steps_from_recap.
  unfold roomy in Hr. apply andb_prop in Hr. tauto.
Qed.

End Recap.



Lemma steps_reachable k W V : steps k W V -> reachable W V.
Proof.
  induction 1 as [W|k W V U Hin _ IH]; [constructor|].
  eapply reachable_trans; [|exact IH].
  econstructor; [constructor | exact Hin].
Qed.

Lemma steps_recap n (Hn : 4 <= n) : forall k W0 V,
  (forall j U, steps j W0 U -> roomy U = true) ->
  steps k (recap n W0) V ->
  exists V0, steps k W0 V0 /\ V = recap n V0.
Proof.
  induction k as [|k IH]; intros W0 V Hroomy Hs; inversion Hs; subst.
  - exists W0. split; [constructor | reflexivity].
  - rewrite (@step_recap n Hn W0 (Hroomy 0 W0 (steps_O W0))) in H0.
    apply in_map_iff in H0. destruct H0 as (V1 & <- & Hin).
    destruct (IH V1 V) as (V0 & Hs0 & ->); [|assumption|].
    + intros j U HU. apply (Hroomy (S j)). econstructor; eassumption.
    + exists V0. split; [econstructor; eassumption | reflexivity].
Qed.

Lemma steps_recap_fwd n (Hn : 4 <= n) k W0 V0 :
  steps k W0 V0 ->
  (forall j U, steps j W0 U -> roomy U = true) ->
  steps k (recap n W0) (recap n V0).
Proof.
  induction 1 as [W|k W V U Hin Hs IH]; intros Hroomy; [constructor|].
  apply steps_S with (V := recap n V).
  - rewrite (@step_recap n Hn W (Hroomy 0 W (steps_O W))).
    apply in_map. assumption.
  - apply IH. intros j U' HU. apply (Hroomy (S j)). econstructor; eassumption.
Qed.

Lemma scenario_explored n :
  1 <= n <= 3 -> explore 70 scenario_ok [init n [buffer] scenario] = true.
Proof.
  intros Hn.
  assert (n = 1 \/ n = 2 \/ n = 3) as [->|[->| ->]] by lia;
    vm_cast_no_check (eq_refl true).
Qed.

Lemma scenario_explored_roomy :
  explore 70 scenario_roomy [init 4 [buffer] scenario] = true.
Proof. vm_cast_no_check (eq_refl true). Qed.

(** C1, as amended: on a started Writer whose queue depth [BufsPerSink] is
    at least 1, whatever the interleaving of the client, of [run] and of
    the drain goroutines, the scenario of [TestAddRemove] comes to its end
    within 70 steps without ever getting stuck, the target B has then been
    written exactly [1,2,3,7,8,9], the write made after [Remove(B)] never
    reaches B, and no goroutine panics. *)
Theorem scenario_delivers (n : nat) (Hn : 1 <= n) :
  (exists W, reachable (init n [buffer] scenario) W /\ finished W = true)
  /\ forall k W, steps k (init n [buffer] scenario) W ->
       k < 70
       /\ (finished W = true ->
           content (tget (targets W) 0) = [x01; x02; x03; x07; x08; x09])
       /\ (finished W = false -> step W <> [])
       /\ ~ In (Some [x04; x05; x06]) (calls (tget (targets W) 0))
       /\ panicked W = false.
Proof.
  pose (sched := [0; 0; 0; 0; 0; 0; 0; 1; 1; 0; 0; 0; 0; 0; 0; 0; 0; 0;
                  0; 0; 0; 0; 0; 0; 0; 0; 0; 0; 0; 0; 0; 0; 0; 0; 0; 0;
                  2; 2; 0; 0; 0; 0; 0; 1; 1; 1; 1; 0; 0; 0; 0; 0; 0; 0]).
  destruct (le_lt_dec n 3) as [Hle|Hgt].
  - (* depths 1, 2 and 3: explored one by one *)
    split.
    + assert (H : exists W, follow sched (init n [buffer] scenario) = Some W
                            /\ finished W = true).
      { assert (n = 1 \/ n = 2 \/ n = 3) as [->|[->| ->]] by lia;
          vm_compute; eexists; split; reflexivity. }
      destruct H as (W & HW & Hf). exists W. split; [|assumption].
      eapply follow_reachable; eassumption.
    + intros k W Hs.
      destruct (@explore_sound 70 scenario_ok [init n [buffer] scenario]
                               (init n [buffer] scenario) k W)
        as [HP Hk]; [apply scenario_explored; lia | now left | assumption |].
      split; [assumption | apply scenario_ok_spec; assumption].
  - (* depth 4 and more: as with depth 4, where no queue holds more than 2 *)
    assert (Hroomy : forall j U, steps j (init 4 [buffer] scenario) U ->
                       scenario_ok U = true /\ roomy U = true /\ j < 70).
    { intros j U HU.
      destruct (@explore_sound 70 scenario_roomy [init 4 [buffer] scenario]
                               (init 4 [buffer] scenario) j U)
        as [HP Hj]; [apply scenario_explored_roomy | now left | assumption |].
      apply andb_prop in HP. tauto. }
    change (init n [buffer] scenario) with (recap n (init 4 [buffer] scenario)).
    split.
    + assert (H : exists W, follow sched (init 4 [buffer] scenario) = Some W
                            /\ finished W = true).
      { vm_compute; eexists; split; reflexivity. }
      destruct H as (W & HW & Hf).
      apply follow_reachable, reachable_steps in HW. destruct HW as [k Hk].
      exists (recap n W). split; [|exact Hf].
      apply steps_reachable with (k := k).
      apply steps_recap_fwd; [lia | assumption |].
      intros j U HU. apply (Hroomy j U HU).
    + intros k W Hs.
      destruct (@steps_recap n ltac:(lia) k (init 4 [buffer] scenario) W)
        as (V0 & Hs0 & ->); [|assumption|].
      { intros j U HU. apply (Hroomy j U HU). }
      destruct (Hroomy k V0 Hs0) as (Hok & Hr & Hk).
      split; [assumption|].
      destruct (scenario_ok_spec _ Hok) as (H1 & H2 & H3 & H4).
      split; [exact H1|]. split; [|split; [exact H3|]].
      * intros Hf. rewrite (@step_recap n ltac:(lia) V0 Hr).
        specialize (H2 Hf). destruct (step V0); [congruence | discriminate].
      * rewrite panicked_recap. exact H4.
Qed.

Lemma scenario_delivers_witness :
  1 <= 4
  /\ exists W, reachable (init 4 [buffer] scenario) W
               /\ finished W = true
               /\ content (tget (targets W) 0) = [x01; x02; x03; x07; x08; x09].
Proof.
  split; [lia|].
  destruct (@scenario_delivers 4 ltac:(lia)) as [(W & Hr & Hf) Hall].
  exists W. split; [exact Hr|]. split; [exact Hf|].
  destruct (reachable_steps Hr) as [k Hk].
  apply (proj1 (proj2 (Hall k W Hk)) Hf).
Defined.

(** C1 as stated does not hold for every queue depth: with
    [BufsPerSink = 0] the writes are offered while the drain goroutine is
    not yet waiting on its queue, are dropped, and the client comes to the
    end of the scenario with nothing written to B. *)
Lemma scenario_depth0_loses_writes :
  exists W, reachable (init 0 [buffer] scenario) W
            /\ finished W = true
            /\ content (tget (targets W) 0) = [].
Proof.
  assert (H : exists W,
             follow [0; 0; 0; 0; 0; 0; 0; 1; 0; 0; 0; 0; 0; 0; 0; 0; 0; 0; 0;
                     0; 0; 0; 0; 0; 0; 0; 0; 0; 0; 0; 0; 0; 0; 0; 0; 2; 0; 0;
                     0; 0; 0; 1; 1; 1; 1; 0; 0; 0; 0; 0; 0; 0]
                    (init 0 [buffer] scenario) = Some W
             /\ finished W = true
             /\ content (tget (targets W) 0) = []).
  { vm_compute. eexists. repeat split. }
  destruct H as (W & HW & H). exists W. split; [|assumption].
  eapply follow_reachable; eassumption.
Qed.

(** ** Flush (C2) *)

(** C2 fails on the code.  With [BufsPerSink = 4], after
    [Add(B); Flush(); Write([1]); Flush()] the drain goroutine, still in the
    loop that acknowledges flushers after the first flush, can take the
    second flush's channel before its nil marker is queued: the second
    [Flush] returns while the written buffer is still in the queue of the
    registered sink and nothing has reached B. *)
Theorem flush_returns_early :
  exists W sk,
    reachable (init 4 [buffer] two_flushes) W
    /\ finished W = true
    /\ lookup B (sinks W) = Some 0
    /\ nth_error (heap W) 0 = Some sk
    /\ done sk = false
    /\ Chan.cbuf (c sk) = [Some [x01]; None]
    /\ calls (tget (targets W) 0) = [].
Proof.
  assert (H : exists W sk,
             follow [0; 0; 0; 0; 0; 0; 0; 0; 0; 0; 0; 0; 0; 0; 0; 0; 0; 0; 0;
                     0; 0; 1; 0; 0; 0; 0]
                    (init 4 [buffer] two_flushes) = Some W
             /\ finished W = true
             /\ lookup B (sinks W) = Some 0
             /\ nth_error (heap W) 0 = Some sk
             /\ done sk = false
             /\ Chan.cbuf (c sk) = [Some [x01]; None]
             /\ calls (tget (targets W) 0) = []).
  { vm_compute. do 2 eexists. repeat split. }
  destruct H as (W & sk & HW & H). exists W, sk. split; [|assumption].
  eapply follow_reachable; eassumption.
Qed.

(** ** The gap marker of [sink.Write] (C3) *)

(** C3 as stated does not hold for a queue of capacity 1: an empty such
    queue is within one slot of being full, and [sink.Write] queues the
    data itself, not a gap marker. *)
Lemma write_depth1_keeps_data :
  let s := new_sink B 1 in
  done s = false
  /\ Chan.len (c s) + 1 = Chan.cap (c s)
  /\ sink_Write s (Some [x01])
     = Done (set_c s (Chan.push (c s) (Some [x01])), (1, None)).
Proof. repeat split. Qed.

(** C3, as amended: for a sink that is not terminal, whose queue has not
    been closed and has a capacity above 1, when the queue is one slot
    short of full, [sink.Write] queues a gap marker (the nil slice) in
    place of the data, which is dropped, and reports the whole length
    without error. *)
Theorem write_queues_gap_marker (s : sink) (buf : item) :
  done s = false ->
  Chan.cclosed (c s) = false ->
  1 < Chan.cap (c s) ->
  Chan.len (c s) + 1 = Chan.cap (c s) ->
  sink_Write s buf = Done (set_c s (Chan.push (c s) None), (go_len buf, None)).
Proof.
  intros Hd Hc Hcap Hlen.
  unfold sink_Write, near_full, send_nil, Chan.send, Chan.has_room.
  rewrite Hd, Hc.
  assert (E1 : (1 <? Chan.cap (c s)) = true) by now apply Nat.ltb_lt.
  assert (E2 : (Chan.len (c s) + 1 =? Chan.cap (c s)) = true) by now apply Nat.eqb_eq.
  rewrite E1, E2. simpl.
  unfold Chan.len, Chan.cap in *.
  destruct (Chan.ccap (c s) =? 0) eqn:E0.
  - apply Nat.eqb_eq in E0. lia.
  - assert (E3 : (length (Chan.cbuf (c s)) <? Chan.ccap (c s)) = true)
      by (apply Nat.ltb_lt; lia).
    rewrite E3. reflexivity.
Qed.

Lemma write_queues_gap_marker_witness :
  let s := set_c (new_sink B 2) (Chan.Mk [Some [x01]] 2 false) in
  sink_Write s (Some [x02])
  = Done (set_c s (Chan.Mk [Some [x01]; None] 2 false), (1, None)).
Proof.
  intros s.
  apply (@write_queues_gap_marker s (Some [x02]));
    [reflexivity | reflexivity | simpl; lia | reflexivity].
Defined.

(** ** Remove (C7) *)

Lemma lookup_delete k m : lookup k (delete k m) = None.
Proof.
  induction m as [|[k' v] r IH]; simpl; auto.
  destruct (key_eqb k k') eqn:E; simpl; auto. now rewrite E.
Qed.

Lemma nth_error_upd_same {A} (l : list A) : forall i x y,
  nth_error l i = Some y -> nth_error (upd i x l) i = Some x.
Proof.
  induction l as [|z r IH]; intros [|i] x y H; simpl in *; try discriminate; eauto.
Qed.

Lemma nth_error_upd_other {A} (l : list A) : forall i j x,
  i <> j -> nth_error (upd i x l) j = nth_error l j.
Proof.
  induction l as [|z r IH]; intros [|i] [|j] x H; simpl; auto; try lia.
Qed.

Lemma length_upd {A} (l : list A) : forall i x, length (upd i x l) = length l.
Proof. induction l; intros [|i] x; simpl; auto. Qed.

(** C7: [Remove] returns [ErrNotFound] exactly when the target is not in
    the registry, and then changes nothing.  When the target is
    registered (its sink allocated, its queue still open), [Remove]
    returns that sink as the handle and no error; the target is no longer
    in the registry; and the queue of the sink has been closed with its
    contents, the done signal and the drain goroutine as they were: the
    drain has not been waited for. *)
Theorem Remove_NotFound_iff_unregistered
  (sinks : registry) (heap : list sink) (w : iface)
  (Hreg : forall s, lookup w sinks = Some s ->
          exists sk, nth_error heap s = Some sk /\ Chan.cclosed (c sk) = false) :
  exists sinks' heap' reply,
    run_cmdRemove sinks heap w = Done (sinks', heap', reply)
    /\ (snd (Remove_return reply) = Some ErrNotFound <-> lookup w sinks = None)
    /\ (lookup w sinks = None ->
        fst (Remove_return reply) = None /\ sinks' = sinks /\ heap' = heap)
    /\ (forall s, lookup w sinks = Some s ->
        Remove_return reply = (Some s, None)
        /\ lookup w sinks' = None
        /\ exists sk sk',
             nth_error heap s = Some sk /\ nth_error heap' s = Some sk'
             /\ Chan.cclosed (c sk') = true
             /\ Chan.cbuf (c sk') = Chan.cbuf (c sk)
             /\ done sk' = done sk /\ drain sk' = drain sk
             /\ Writer sk' = Writer sk /\ err sk' = err sk).
Proof.
  unfold run_cmdRemove.
  destruct (lookup w sinks) as [s|] eqn:E.
  - destruct (Hreg s eq_refl) as (sk & Hsk & Hopen).
    rewrite Hsk. unfold Chan.close. rewrite Hopen. simpl.
    do 3 eexists. split; [reflexivity|]. simpl.
    split; [split; discriminate|]. split; [discriminate|].
    intros s' Hs'. injection Hs' as <-.
    split; [reflexivity|]. split; [apply lookup_delete|].
    exists sk. eexists. split; [assumption|].
    split; [eapply nth_error_upd_same; eassumption|]. simpl. auto 10.
  - do 3 eexists. split; [reflexivity|]. simpl.
    split; [tauto|]. split; [auto|]. discriminate.
Qed.

Lemma Remove_NotFound_iff_unregistered_witness :
  exists sinks' heap',
    run_cmdRemove [(B, 0)] [new_sink B 4] B = Done (sinks', heap', Some 0)
    /\ lookup B sinks' = None.
Proof.
  destruct (@Remove_NotFound_iff_unregistered [(B, 0)] [new_sink B 4] B)
    as (sinks' & heap' & reply & Hrun & _ & _ & Hfound).
  - intros s Hs. simpl in Hs. injection Hs as <-.
    exists (new_sink B 4). split; reflexivity.
  - destruct (Hfound 0 eq_refl) as (Hret & Hgone & _).
    destruct reply as [s|]; [|discriminate].
    injection Hret as ->. exists sinks', heap'. split; assumption.
Defined.

(** ** Adding a target twice (C6) *)

Lemma upd_app_last {A} (l : list A) x y : upd (length l) y (l ++ [x]) = l ++ [y].
Proof. induction l; simpl; congruence. Qed.

Lemma upd_app_l {A} (l r : list A) : forall i x,
  i < length l -> upd i x (l ++ r) = upd i x l ++ r.
Proof.
  induction l as [|z l IH]; intros [|i] x H; simpl in *; try lia; auto.
  rewrite IH by lia. reflexivity.
Qed.

(** C6: when the target is registered (its sink allocated and its queue
    open), the [cmdAdd] of a second sink for it, whether its goroutine is
    already waiting or not, leaves the registry as it was and every sink
    allocated before untouched, without panic; the new sink has its queue
    closed while still empty, and its drain goroutine exits within three
    steps without calling the target; one [Remove] then takes the target
    out of the registry, returning the first sink, and a second one finds
    nothing. *)
Theorem Add_twice_is_noop
  (sinks : registry) (heap : list sink) (w : iface) (n : nat) (p : bool)
  (s0 : sid) (sk0 : sink)
  (Hreg : lookup w sinks = Some s0)
  (Hs0 : nth_error heap s0 = Some sk0)
  (Hopen : Chan.cclosed (c sk0) = false) :
  let s1 := length heap in
  let fresh := set_drain (new_sink w n) (DRange p) in
  exists heap2 sk1,
    run_cmdAdd sinks (heap ++ [fresh]) s1 = Done (sinks, heap2)
    /\ (forall i, i < length heap -> nth_error heap2 i = nth_error heap i)
    /\ nth_error heap2 s1 = Some sk1
    /\ Chan.cbuf (c sk1) = [] /\ Chan.cclosed (c sk1) = true
    /\ (forall ts, exists sk2,
          drain_n 3 sk1 ts = (sk2, ts)
          /\ drain sk2 = DExit /\ done sk2 = true /\ err sk2 = None)
    /\ (exists heap3,
          run_cmdRemove sinks heap2 w = Done (delete w sinks, heap3, Some s0)
          /\ lookup w (delete w sinks) = None
          /\ run_cmdRemove (delete w sinks) heap3 w
             = Done (delete w sinks, heap3, None)).
Proof.
  intros s1 fresh.
  assert (Hlt : s0 < length heap) by (apply nth_error_Some; congruence).
  exists (heap ++ [set_c fresh (Chan.Mk [] n true)]).
  exists (set_c fresh (Chan.Mk [] n true)).
  split.
  { unfold run_cmdAdd, s1. rewrite nth_error_app2, Nat.sub_diag by lia.
    simpl. rewrite Hreg. simpl. now rewrite upd_app_last. }
  split. { intros i Hi. now apply nth_error_app1. }
  split. { unfold s1. now rewrite nth_error_app2, Nat.sub_diag by lia. }
  split; [reflexivity|]. split; [reflexivity|].
  split. { intros ts. eexists. simpl. split; [reflexivity|]. auto. }
  exists (upd s0 (set_c sk0 (Chan.Mk (Chan.cbuf (c sk0)) (Chan.ccap (c sk0)) true)) heap
          ++ [set_c fresh (Chan.Mk [] n true)]).
  split.
  { unfold run_cmdRemove. rewrite Hreg, nth_error_app1, Hs0 by assumption.
    unfold Chan.close. rewrite Hopen. simpl. now rewrite upd_app_l. }
  split; [apply lookup_delete|].
  unfold run_cmdRemove. now rewrite lookup_delete.
Qed.

Lemma Add_twice_is_noop_witness :
  exists heap2,
    run_cmdAdd [(B, 0)] ([new_sink B 4] ++ [new_sink B 4]) 1
    = Done ([(B, 0)], heap2)
    /\ nth_error heap2 0 = Some (new_sink B 4).
Proof.
  destruct (@Add_twice_is_noop [(B, 0)] [new_sink B 4] B 4 false 0 (new_sink B 4)
              eq_refl eq_refl eq_refl)
    as (heap2 & sk1 & Hadd & Hold & _).
  exists heap2. split; [exact Hadd|]. apply (Hold 0). simpl. lia.
Defined.

(** ** The copy made by [Writer.Write] (C8) *)

Lemma read_app m r sl : Mem.valid m sl -> Mem.read (m ++ r) sl = Mem.read m sl.
Proof.
  destruct sl as [|a o n]; simpl; auto. intros [Ha _].
  now rewrite app_nth1.
Qed.

Lemma length_read m sl : Mem.valid m sl -> length (Mem.read m sl) = Mem.len sl.
Proof.
  destruct sl as [|a o n]; simpl; auto. intros [_ Hn].
  rewrite length_firstn, length_skipn. lia.
Qed.

Lemma Writer_Write_store m buf :
  Mem.valid m buf ->
  Mem.Writer_Write m buf
  = (m ++ [Mem.read m buf], Mem.Slice (length m) 0 (Mem.len buf),
     (Mem.len buf, None)).
Proof.
  intros Hv. unfold Mem.Writer_Write, Mem.make, Mem.copy.
  rewrite Nat.min_id, (@read_app m _ buf Hv).
  rewrite <- (@length_read m buf Hv) at 2. rewrite firstn_all.
  rewrite app_nth2, Nat.sub_diag by lia. simpl nth.
  unfold Mem.blit. simpl firstn. rewrite Nat.add_0_l, (@length_read m buf Hv).
  rewrite <- (repeat_length x00 (Mem.len buf)) at 1. rewrite skipn_all.
  rewrite app_nil_r, upd_app_last. simpl. reflexivity.
Qed.

Lemma pokes_app m data sl ws :
  match sl with Mem.Slice a _ _ => a < length m | Mem.Nil => True end ->
  exists m', Mem.pokes (m ++ [data]) sl ws = m' ++ [data] /\ length m' = length m.
Proof.
  revert m. induction ws as [|[i v] r IH]; intros m Hsl; simpl.
  - eauto.
  - destruct sl as [|a o n]; simpl.
    + apply (IH m Hsl).
    + destruct (i <? n).
      * rewrite upd_app_l by assumption.
        destruct (IH (upd a (Mem.blit (nth a (m ++ [data]) []) (o + i) [v]) m))
          as (m' & E & L); [now rewrite length_upd|].
        exists m'. split; [exact E|]. now rewrite L, length_upd.
      * apply (IH m Hsl).
Qed.

(** C8: for every buffer of the caller (nil, or a window on an allocated
    array), [Writer.Write] returns the length of the buffer and no error;
    what it sends to [run] is a slice that is not nil, on an array of its
    own, with the contents of the buffer; and whatever the caller stores
    afterwards through the buffer, or through any other slice it had, the
    slice sent still reads as the buffer did at the call. *)
Theorem Write_takes_a_copy (m : Mem.store) (buf : Mem.slice)
  (Hbuf : Mem.valid m buf) :
  exists m2 bufcopy,
    Mem.Writer_Write m buf = (m2, bufcopy, (Mem.len buf, None))
    /\ bufcopy <> Mem.Nil
    /\ Mem.value m2 bufcopy = Some (copy_of (Mem.value m buf))
    /\ forall (sl : Mem.slice) (ws : list (nat * byte)),
         Mem.valid m sl ->
         Mem.read (Mem.pokes m2 sl ws) bufcopy = Mem.read m buf.
Proof.
  rewrite (@Writer_Write_store m buf Hbuf). do 2 eexists.
  split; [reflexivity|]. split; [discriminate|].
  assert (Hread : forall m', length m' = length m ->
            Mem.read (m' ++ [Mem.read m buf]) (Mem.Slice (length m) 0 (Mem.len buf))
            = Mem.read m buf).
  { intros m' L. simpl. rewrite app_nth2, L, Nat.sub_diag by lia. simpl.
    rewrite <- (@length_read m buf Hbuf). apply firstn_all. }
  split.
  - transitivity (Some (Mem.read (m ++ [Mem.read m buf])
                                 (Mem.Slice (length m) 0 (Mem.len buf))));
      [reflexivity|].
    f_equal. etransitivity; [apply (Hread m eq_refl)|].
    destruct buf; reflexivity.
  - intros sl ws Hsl.
    destruct (@pokes_app m (Mem.read m buf) sl ws) as (m' & E & L).
    { destruct sl; simpl in *; tauto. }
    exact (eq_trans (f_equal (fun x => Mem.read x _) E) (Hread m' L)).
Qed.

Lemma Write_takes_a_copy_witness :
  let m := [[x01; x02; x03]] in
  let buf := Mem.Slice 0 0 3 in
  exists m2 bufcopy,
    Mem.Writer_Write m buf = (m2, bufcopy, (3, None))
    /\ Mem.read (Mem.pokes m2 buf [(0, x09); (2, x08)]) bufcopy = [x01; x02; x03].
Proof.
  intros m buf.
  destruct (@Write_takes_a_copy m buf) as (m2 & bufcopy & E & _ & _ & H).
  - simpl. lia.
  - exists m2, bufcopy. split; [exact E|].
    apply (H buf [(0, x09); (2, x08)]). simpl. lia.
Defined.

(** ** Every run of a sink *)

Lemma failures_snoc tr x :
  failures (tr ++ [x]) = failures tr ++ match failure x with Some e => [e] | None => [] end.
Proof.
  induction tr as [|y r IH]; simpl.
  - destruct (failure x); reflexivity.
  - rewrite IH. destruct (failure y); reflexivity.
Qed.

Lemma close_returns_snoc tr x :
  close_returns (tr ++ [x]) =
  close_returns tr ++ match snd x with EvClose _ e => [e] | _ => [] end.
Proof.
  induction tr as [|[a ev] r IH]; simpl.
  - destruct x as [a [|? ? ?|? ?|?]]; reflexivity.
  - rewrite IH. destruct ev; reflexivity.
Qed.

Lemma closings_snoc tr x :
  closings (tr ++ [x]) =
  closings tr ++ match snd x with EvClose (Some t) _ => [t] | _ => [] end.
Proof.
  induction tr as [|[a ev] r IH]; simpl.
  - destruct x as [a [|? ? ?|[?|] ?|?]]; reflexivity.
  - rewrite IH. destruct ev as [|? ? ?|[?|] ?|?]; reflexivity.
Qed.

Lemma closer_tget_upd ts t tst t' :
  closer tst = closer (tget ts t) ->
  closer (tget (upd t tst ts) t') = closer (tget ts t').
Proof.
  unfold tget. revert t t'.
  induction ts as [|x r IH]; intros [|t] [|t'] H; simpl in *; auto.
Qed.

Lemma In_acts_snoc (tr : list (act * event)) x y :
  In y (map fst tr) -> In y (map fst (tr ++ [x])).
Proof. rewrite map_app, in_app_iff. auto. Qed.

Lemma run_inv_new w n ts : run_inv w [] (new_sink w n) ts.
Proof.
  constructor; simpl; auto; try contradiction; try discriminate;
    try (intros H; now elim H).
  constructor; simpl; auto; try discriminate.
Qed.

(** A step without a write to the target and without a call of [Close]. *)
Lemma run_inv_tau w tr s ts a ev s' :
  run_inv w tr s ts ->
  ev = Tau \/ (exists f, ev = EvAck f) ->
  Writer s' = Writer s -> err s' = err s ->
  (done s = true -> done s' = true) ->
  sink_wf s' ->
  (forall x, In x (Chan.cbuf (c s')) ->
             In x (Chan.cbuf (c s)) \/ x = None \/ a = AWriteTry x) ->
  (forall x, drain s' = DWrite x ->
             x <> None /\ (drain s = DWrite x \/ In x (Chan.cbuf (c s)))) ->
  run_inv w (tr ++ [(a, ev)]) s' ts.
Proof.
  intros [Hwf HW Hq Hw Hfa Ho Hre Hrd Hcl] Hev EW Ee Ed Hwf' Eq Ew.
  assert (Ef : failure (a, ev) = None) by (destruct Hev as [->|[f ->]]; reflexivity).
  assert (Ec : match ev with EvClose _ e => [e] | _ => [] end = [])
    by (destruct Hev as [->|[f ->]]; reflexivity).
  assert (Eg : match ev with EvClose (Some t) _ => [t] | _ => [] end = [])
    by (destruct Hev as [->|[f ->]]; reflexivity).
  constructor; rewrite ?failures_snoc, ?close_returns_snoc, ?closings_snoc, ?Ef;
    simpl; rewrite ?Ec, ?Eg, ?app_nil_r, ?EW, ?Ee; auto.
  - intros x Hx. destruct (Eq x Hx) as [H|[H|H]]; auto.
    + destruct (Hq x H); auto using In_acts_snoc.
    + right. rewrite map_app, in_app_iff. right. simpl. auto.
  - intros x Hx. destruct (Ew x Hx) as [Hn [H|H]]; split; auto.
    + destruct (Hw x H). auto using In_acts_snoc.
    + destruct (Hq x H); [congruence | auto using In_acts_snoc].
  - intros H. destruct (Hrd H). auto.
Qed.

(** A step that leaves alone everything but the queue and the flushers. *)
Lemma run_inv_quiet w tr s ts a s' :
  run_inv w tr s ts ->
  Writer s' = Writer s -> done s' = done s -> err s' = err s ->
  drain s' = drain s ->
  (Chan.cclosed (flushers s') = true -> Chan.cclosed (flushers s) = true) ->
  (past_range (drain s) = true ->
   Chan.cbuf (c s') = [] /\ Chan.cclosed (c s') = true) ->
  (forall x, In x (Chan.cbuf (c s')) ->
             In x (Chan.cbuf (c s)) \/ x = None \/ a = AWriteTry x) ->
  run_inv w (tr ++ [(a, Tau)]) s' ts.
Proof.
  intros Hinv EW Ed Ee Ep Efl Er Eq.
  apply run_inv_tau with (s := s); auto; try congruence.
  - destruct Hinv as [[Hd Hr Hf He] _ _ _ _ _ _ _ _].
    constructor; rewrite ?Ed, ?Ee, ?Ep; auto.
  - intros x Hx. rewrite Ep in Hx. destruct Hinv. destruct (ri_write0 x Hx). auto.
Qed.

Lemma t_Close_closer t tst r : t_Close t = Some (tst, r) -> closer tst = closer t.
Proof.
  unfold t_Close. destruct (closer t) eqn:E; [|discriminate].
  intros H. injection H as <- <-. simpl. auto.
Qed.

Lemma t_Close_None t : t_Close t = None -> closer t = None.
Proof. unfold t_Close. destruct (closer t); [discriminate | auto]. Qed.

(** A call of [sink.Close], by the drain goroutine itself (which then goes
    on to discard its queue) or by anyone else. *)
Lemma run_inv_Close w tr s ts s1 ts1 ev a p :
  run_inv w tr s ts ->
  sink_Close s ts = Done (s1, ts1, ev) ->
  p = drain s \/ (drain s = DErrClose /\ p = DErrRange false) ->
  run_inv w (tr ++ [(a, ev)]) (set_drain s1 p) ts1.
Proof.
  intros [[Hd Hr Hf He] HW Hq Hw Hfa Ho Hre Hrd Hcl] Hc Hp.
  unfold sink_Close in Hc.
  destruct (done s) eqn:Ed; simpl in Hc; [|discriminate].
  assert (Hpd : past_done p = true).
  { destruct Hp as [->|[_ ->]]; [congruence | reflexivity]. }
  assert (Hpr : past_range p = true -> past_range (drain s) = true).
  { destruct Hp as [->|[_ ->]]; [auto | discriminate]. }
  assert (Hpf : drain s = DExit -> p = DExit).
  { destruct Hp as [->|[E _]]; [auto | congruence]. }
  assert (Hpw : forall x, p = DWrite x -> drain s = DWrite x).
  { destruct Hp as [->|[_ ->]]; [auto | discriminate]. }
  assert (Hkeep :
    forall e0, s1 = s -> ts1 = ts -> ev = EvClose None (err s) ->
    match Writer s with None => True | Some t => closer (tget ts t) = None end ->
    e0 = tt -> run_inv w (tr ++ [(a, ev)]) (set_drain s1 p) ts1).
  { intros _ -> -> -> Hk _.
    constructor; rewrite ?failures_snoc, ?close_returns_snoc, ?closings_snoc;
      simpl; rewrite ?app_nil_r; auto.
    - constructor; simpl; rewrite ?Ed, ?Hpd; auto.
    - intros x Hx. destruct (Hq x Hx); auto using In_acts_snoc.
    - intros x Hx. destruct (Hw x (Hpw x Hx)). auto using In_acts_snoc.
    - intros _. right. intros H. now destruct (close_returns tr).
    - intros r Hin. apply in_app_iff in Hin. destruct Hin as [H|[H|[]]]; auto. }
  destruct (Writer s) as [t|] eqn:EW.
  2:{ injection Hc as <- <- <-. apply (Hkeep tt); auto. }
  destruct (t_Close (tget ts t)) as [[tst r]|] eqn:Ec.
  2:{ injection Hc as <- <- <-. apply (Hkeep tt); auto using t_Close_None. }
  injection Hc as <- <- <-. clear Hkeep.
  assert (Hnone : close_returns tr = []).
  { destruct (close_returns tr) eqn:E; auto.
    destruct Hrd as [_ Hk]; [discriminate|].
    unfold t_Close in Ec. rewrite Hk in Ec. discriminate. }
  assert (Hcl0 : closings tr = []).
  { destruct Hcl as [H|(t' & _ & _ & H)]; [assumption | congruence]. }
  constructor; rewrite ?failures_snoc, ?close_returns_snoc, ?closings_snoc,
                 ?Hnone, ?Hcl0; simpl; rewrite ?app_nil_r; auto.
  - constructor; simpl; rewrite ?Ed, ?Hpd; auto.
  - intros x Hx. destruct (Hq x Hx); auto using In_acts_snoc.
  - intros x Hx. destruct (Hw x (Hpw x Hx)). auto using In_acts_snoc.
  - destruct Hfa as [H|(e & H1 & H2)]; auto. right. exists e. now rewrite H2.
  - intros _. right. discriminate.
  - intros r0 [<-|[]]. reflexivity.
  - right. exists t. repeat split. destruct HW as [H|H]; congruence.
Qed.

Ltac wf_tac :=
  constructor; simpl;
  repeat match goal with
         | H : drain ?s = _ |- context [drain ?s] => rewrite H
         end; simpl;
  try solve [ auto | discriminate | intuition (auto; congruence) ].

Ltac side :=
  simpl;
  try solve [ auto | eauto | discriminate | wf_tac
            | intros; simpl in *; intuition (auto; congruence) ].

Ltac tau_step s :=
  apply run_inv_tau with (s := s); side.

Lemma run_inv_drain w tr s ts s' ts' ev a :
  run_inv w tr s ts ->
  drain_step s ts = Done (s', ts', ev) ->
  run_inv w (tr ++ [(a, ev)]) s' ts'.
Proof.
  intros Hinv Hs.
  pose proof Hinv as [[Hd Hr Hf He] HW Hq Hw Hfa Ho Hre Hrd Hcl].
  unfold drain_step in Hs.
  destruct (drain s) eqn:Ep; simpl in Hd.
  - (* DRange *)
    unfold Chan.recv in Hs.
    destruct (Chan.cbuf (c s)) as [|x rest] eqn:Eb.
    + destruct (Chan.cclosed (c s)) eqn:Ecl.
      * injection Hs as <- <- <-. tau_step s.
      * destruct p; [discriminate|]. injection Hs as <- <- <-. tau_step s.
    + destruct x as [b|]; injection Hs as <- <- <-; tau_step s;
        try solve [intros y Hy; rewrite Eb; simpl; auto].
      intros x Hx. injection Hx as <-. rewrite Eb.
      split; [discriminate | simpl; auto].
  - (* DLen *)
    destruct (0 <? Chan.len (c s)).
    + unfold Chan.recv in Hs.
      destruct (Chan.cbuf (c s)) as [|x rest] eqn:Eb.
      * destruct (Chan.cclosed (c s)); simpl in Hs; [|discriminate].
        injection Hs as <- <- <-. tau_step s; rewrite ?Ep; side.
      * simpl in Hs. injection Hs as <- <- <-. tau_step s; rewrite ?Ep; side;
          try solve [intros y Hy; rewrite Eb; simpl; auto].
    + injection Hs as <- <- <-. tau_step s.
  - (* DSelect *)
    destruct (Chan.cbuf (flushers s)) as [|f rest] eqn:Eb.
    + destruct (Chan.cclosed (flushers s)) eqn:Ecl.
      * specialize (Hf eq_refl). discriminate.
      * injection Hs as <- <- <-. tau_step s.
    + injection Hs as <- <- <-. tau_step s.
  - (* DAck *)
    destruct f as [f|]; [|discriminate]. injection Hs as <- <- <-. tau_step s.
  - (* DWrite *)
    destruct (Writer s) as [t|] eqn:EW.
    2:{ injection Hs as <- <- <-. tau_step s. }
    unfold t_Write in Hs. injection Hs as <- <- <-.
    assert (Hnd : done s = false) by congruence.
    assert (Herr : err s = None).
    { destruct (err s) eqn:E; auto.
      destruct He as [H|H]; [discriminate|congruence|discriminate]. }
    assert (Hnf : failures tr = []).
    { destruct Hfa as [H|(e & _ & H)]; [assumption | congruence]. }
    assert (Hnr : close_returns tr = []).
    { destruct (close_returns tr) eqn:E; auto.
      destruct Hrd as [H _]; [discriminate | congruence]. }
    assert (Hnc : closings tr = []).
    { destruct Hcl as [H|(t' & _ & _ & H)]; [assumption | congruence]. }
    constructor; rewrite ?failures_snoc, ?close_returns_snoc, ?closings_snoc,
                   ?Hnf, ?Hnr, ?Hnc; simpl; auto.
    + destruct (hd None (wres (tget ts t))); wf_tac.
    + rewrite EW. auto.
    + intros x Hx. destruct (Hq x Hx); auto using In_acts_snoc.
    + intros x Hx. destruct (hd None (wres (tget ts t))); discriminate.
    + destruct (hd None (wres (tget ts t))) as [e|]; simpl; eauto.
    + destruct (hd None (wres (tget ts t))) as [e|]; simpl.
      * intros _. left. discriminate.
      * intros H. now elim H.
    + intros r [].
    + intros H. now elim H.
  - (* DErrCloseDone *)
    destruct (done s) eqn:Ed; [discriminate|]. injection Hs as <- <- <-.
    tau_step s.
  - (* DErrClose *)
    destruct (sink_Close s ts) as [[[s1 ts1] ev1]| |] eqn:Ec; simpl in Hs;
      try discriminate.
    injection Hs as <- <- <-.
    eapply run_inv_Close; eauto.
  - (* DErrRange *)
    unfold Chan.recv in Hs.
    destruct (Chan.cbuf (c s)) as [|x rest] eqn:Eb.
    + destruct (Chan.cclosed (c s)) eqn:Ecl.
      * injection Hs as <- <- <-. tau_step s.
      * destruct p; [discriminate|]. injection Hs as <- <- <-. tau_step s.
    + injection Hs as <- <- <-. tau_step s;
        try solve [intros y Hy; rewrite Eb; simpl; auto].
  - (* DCloseDone *)
    destruct (done s) eqn:Ed; [discriminate|]. injection Hs as <- <- <-.
    tau_step s.
  - (* DCloseFlushers *)
    unfold Chan.close in Hs.
    destruct (Chan.cclosed (flushers s)) eqn:Ecl.
    + specialize (Hf eq_refl). discriminate.
    + injection Hs as <- <- <-. tau_step s.
  - discriminate.
  - discriminate.
Qed.

Lemma run_inv_kind w tr s ts ts' :
  run_inv w tr s ts -> same_kind ts ts' -> run_inv w tr s ts'.
Proof.
  intros [Hwf HW Hq Hw Hfa Ho Hre Hrd Hcl] Hk. constructor; auto.
  intros H. destruct (Hrd H) as [Hd Hc]. split; [assumption|].
  destruct (Writer s); [|exact I]. now rewrite Hk.
Qed.

Lemma set_drain_same s : set_drain s (drain s) = s.
Proof. now destruct s. Qed.

Lemma sink_Close_drain s ts s1 ts1 ev :
  sink_Close s ts = Done (s1, ts1, ev) -> drain s1 = drain s.
Proof.
  unfold sink_Close. destruct (done s); simpl; [|discriminate].
  destruct (Writer s) as [t|]; [destruct (t_Close (tget ts t)) as [[tst r]|]|];
    intros H; injection H as <- <- <-; reflexivity.
Qed.

Lemma run_inv_step w tr s ts a s' ts' ev :
  run_inv w tr s ts ->
  act_step a s ts = Done (s', ts', ev) ->
  (forall o, a = AOther o -> same_kind ts o) ->
  run_inv w (tr ++ [(a, ev)]) s' ts'.
Proof.
  intros Hinv Hs Hother.
  pose proof Hinv as [[Hd Hr Hf He] _ _ _ _ _ _ _ _].
  assert (Hsend : forall x, a = AWriteGap \/ a = AFlushNil \/ a = AWriteTry x ->
            forall ch, Chan.cclosed (c s) = false ->
            ch = Chan.push (c s) x \/ ch = c s -> x = None \/ a = AWriteTry x ->
            run_inv w (tr ++ [(a, Tau)]) (set_c s ch) ts).
  { intros x _ ch Hopen Hch Hx.
    apply run_inv_quiet with (s := s); auto.
    - intros Hp. destruct (Hr Hp). congruence.
    - intros y Hy. destruct Hch as [->| ->]; simpl in Hy; auto.
      apply in_app_iff in Hy. destruct Hy as [Hy|[<-|[]]]; auto. }
  destruct a; simpl in Hs.
  - unfold send_nil, Chan.send in Hs.
    destruct (Chan.cclosed (c s)) eqn:Ec; [discriminate|].
    destruct (Chan.has_room (c s) (parked s)); simpl in Hs; [|discriminate].
    injection Hs as <- <- <-. apply (Hsend None); auto.
  - unfold try_send_buf, Chan.try_send in Hs.
    destruct (Chan.cclosed (c s)) eqn:Ec; [discriminate|].
    destruct (Chan.has_room (c s) (parked s)); simpl in Hs;
      injection Hs as <- <- <-; apply (Hsend buf); auto.
  - unfold register, Chan.send in Hs.
    destruct (Chan.cclosed (flushers s)) eqn:Ec; [discriminate|].
    destruct (Chan.has_room (flushers s) false); simpl in Hs; [|discriminate].
    injection Hs as <- <- <-.
    apply run_inv_quiet with (s := s); auto.
  - unfold send_nil, Chan.send in Hs.
    destruct (Chan.cclosed (c s)) eqn:Ec; [discriminate|].
    destruct (Chan.has_room (c s) (parked s)); simpl in Hs; [|discriminate].
    injection Hs as <- <- <-. apply (Hsend None); auto.
  - unfold Chan.close in Hs.
    destruct (Chan.cclosed (c s)) eqn:Ec; [discriminate|]. simpl in Hs.
    injection Hs as <- <- <-.
    apply run_inv_quiet with (s := s); auto.
    intros Hp. destruct (Hr Hp). congruence.
  - rewrite <- (set_drain_same s'), (sink_Close_drain _ _ Hs).
    eapply run_inv_Close; eauto.
  - eapply run_inv_drain; eauto.
  - injection Hs as <- <- <-.
    apply run_inv_kind with (ts := ts); [|apply Hother; reflexivity].
    apply run_inv_quiet with (s := s); auto.
Qed.

Lemma run_of_inv w n ts0 tr s ts :
  run_of (new_sink w n, ts0) tr (s, ts) -> run_inv w tr s ts.
Proof.
  intros H.
  remember (new_sink w n, ts0) as st0 eqn:E0.
  remember (s, ts) as st eqn:E.
  revert s ts E.
  induction H as [st|st tr s1 ts1 a s2 ts2 ev H IH Hs Ho]; intros s ts E; subst.
  - injection E as <- <-. apply run_inv_new.
  - injection E as <- <-. eapply run_inv_step; eauto.
Qed.

Lemma exec_run_of l : forall st0 tr s ts tr' s' ts',
  run_of st0 tr (s, ts) ->
  exec l tr s ts = Some (tr', s', ts') ->
  run_of st0 tr' (s', ts').
Proof.
  induction l as [|a l IH]; simpl; intros st0 tr s ts tr' s' ts' Hr He.
  - injection He as <- <- <-. assumption.
  - destruct (act_step a s ts) as [[[s1 ts1] ev]| |] eqn:Es;
      try (destruct a; discriminate).
    assert (Hno : forall o, a = AOther o -> same_kind ts o).
    { intros o ->. discriminate. }
    assert (He' : exec l (tr ++ [(a, ev)]) s1 ts1 = Some (tr', s', ts')).
    { destruct a; try assumption. discriminate. }
    eapply IH; [|exact He']. econstructor; eassumption.
Qed.

(** ** What reaches the target (C10) *)

Lemma sink_Close_event s ts s1 ts1 ev :
  sink_Close s ts = Done (s1, ts1, ev) -> exists t e, ev = EvClose t e.
Proof.
  unfold sink_Close. destruct (done s); simpl; [|discriminate].
  destruct (Writer s) as [t|]; [destruct (t_Close (tget ts t)) as [[tst r]|]|];
    intros H; injection H as <- <- <-; eauto.
Qed.

Lemma step_EvWrite a s ts s' ts' t x r :
  act_step a s ts = Done (s', ts', EvWrite t x r) ->
  a = ADrain /\ drain s = DWrite x /\ Writer s = Some t.
Proof.
  destruct a; simpl.
  - destruct (send_nil s); simpl; discriminate.
  - destruct (try_send_buf s buf); simpl; discriminate.
  - destruct (register s f); simpl; discriminate.
  - destruct (send_nil s); simpl; discriminate.
  - destruct (Chan.close (c s)); simpl; discriminate.
  - intros H. destruct (sink_Close_event _ _ H) as (? & ? & ?). discriminate.
  - unfold drain_step. destruct (drain s) eqn:Ep.
    + destruct (Chan.recv (c s)) as [[[[b|]|] ch]| |]; try destruct p; discriminate.
    + destruct (0 <? Chan.len (c s)); [|discriminate].
      destruct (Chan.recv (c s)); simpl; discriminate.
    + destruct (Chan.cbuf (flushers s)); [|discriminate].
      destruct (Chan.cclosed (flushers s)); discriminate.
    + destruct f; discriminate.
    + destruct (Writer s) as [t0|]; [|discriminate].
      unfold t_Write. intros H. injection H as <- <- <- <- <-. auto.
    + destruct (done s); discriminate.
    + destruct (sink_Close s ts) as [[[s1 ts1] ev1]| |] eqn:Ec; simpl;
        try discriminate.
      destruct (sink_Close_event _ _ Ec) as (? & ? & ->). discriminate.
    + destruct (Chan.recv (c s)) as [[[b|] ch]| |]; try destruct p; discriminate.
    + destruct (done s); discriminate.
    + destruct (Chan.close (flushers s)); discriminate.
    + discriminate.
    + discriminate.
  - discriminate.
Qed.

(** C10: in every run of a sink made for the writer [w] -- its drain
    goroutine interleaved in any way with the statements of [sink.Write]
    and [sink.Flush], with the closing of its queue and with calls of its
    [Close] -- each call of a target's [Write] is made by the drain
    goroutine, on [w], with a slice that is not nil and that an earlier
    [select { case s.c <- buf: ... }] of [sink.Write(buf)] had sent: the
    nil markers of [Write] and [Flush] never reach the target. *)
Theorem drain_writes_only_data (w : iface) (n : nat) (ts0 : tstates)
  (tr : list (act * event)) (s : sink) (ts : tstates) :
  run_of (new_sink w n, ts0) tr (s, ts) ->
  forall tr1 a t x r tr2,
    tr = tr1 ++ (a, EvWrite t x r) :: tr2 ->
    a = ADrain /\ x <> None /\ w = Some t /\ In (AWriteTry x) (map fst tr1).
Proof.
  intros H.
  remember (new_sink w n, ts0) as st0 eqn:E0.
  remember (s, ts) as st eqn:E.
  revert s ts E.
  induction H as [st|st tr s1 ts1 a0 s2 ts2 ev H IH Hs Ho];
    intros s ts E tr1 a t x r tr2 Htr; subst.
  - destruct tr1; discriminate.
  - induction tr2 as [|y l _] using rev_ind.
    + apply app_inj_tail in Htr. destruct Htr as [-> Hev].
      injection Hev as -> ->.
      destruct (step_EvWrite _ _ _ Hs) as (-> & Hp & HW).
      destruct (run_of_inv H) as [_ HW' _ Hw _ _ _ _ _].
      destruct (Hw x Hp) as [Hx Hin].
      repeat split; auto. destruct HW'; congruence.
    + rewrite app_comm_cons, app_assoc in Htr.
      apply app_inj_tail in Htr. destruct Htr as [-> _].
      eapply IH; eauto.
Qed.

Lemma err_latched s a ts s' ts' ev e :
  sink_wf s ->
  act_step a s ts = Done (s', ts', ev) ->
  err s = Some e -> err s' = Some e.
Proof.
  intros [Hd Hr Hf He] Hs Ee.
  assert (Hclose : forall s1 ts1 ev1,
            sink_Close s ts = Done (s1, ts1, ev1) -> err s1 = Some e).
  { unfold sink_Close. intros s1 ts1 ev1.
    destruct (done s); simpl; [|discriminate].
    destruct (Writer s) as [t|]; [destruct (t_Close (tget ts t)) as [[tst r]|]|];
      intros H; injection H as <- <- <-; simpl; rewrite ?Ee; auto. }
  destruct a; simpl in Hs.
  - destruct (send_nil s) eqn:E; simpl in Hs; try discriminate.
    injection Hs as <- <- <-. unfold send_nil in E.
    destruct (Chan.send (c s) None (parked s)); simpl in E; try discriminate.
    injection E as <-. exact Ee.
  - destruct (try_send_buf s buf) eqn:E; simpl in Hs; try discriminate.
    injection Hs as <- <- <-. unfold try_send_buf in E.
    destruct (Chan.try_send (c s) buf (parked s)); simpl in E; try discriminate.
    injection E as <-. exact Ee.
  - destruct (register s f) eqn:E; simpl in Hs; try discriminate.
    injection Hs as <- <- <-. unfold register in E.
    destruct (Chan.send (flushers s) f false); simpl in E; try discriminate.
    injection E as <-. exact Ee.
  - destruct (send_nil s) eqn:E; simpl in Hs; try discriminate.
    injection Hs as <- <- <-. unfold send_nil in E.
    destruct (Chan.send (c s) None (parked s)); simpl in E; try discriminate.
    injection E as <-. exact Ee.
  - destruct (Chan.close (c s)); simpl in Hs; try discriminate.
    injection Hs as <- <- <-. exact Ee.
  - eauto.
  - unfold drain_step in Hs. destruct (drain s) eqn:Ep; simpl in Hd.
    + destruct (Chan.recv (c s)) as [[[[b|]|] ch]| |]; try destruct p;
        try discriminate; injection Hs as <- <- <-; exact Ee.
    + destruct (0 <? Chan.len (c s)).
      * destruct (Chan.recv (c s)); simpl in Hs; try discriminate.
        injection Hs as <- <- <-. exact Ee.
      * injection Hs as <- <- <-. exact Ee.
    + destruct (Chan.cbuf (flushers s));
        [destruct (Chan.cclosed (flushers s))|];
        injection Hs as <- <- <-; exact Ee.
    + destruct f; [|discriminate]. injection Hs as <- <- <-. exact Ee.
    + destruct He as [H|H]; congruence.
    + destruct (done s); injection Hs as <- <- <-; exact Ee.
    + destruct (sink_Close s ts) as [[[s1 ts1] ev1]| |] eqn:Ec; simpl in Hs;
        try discriminate.
      injection Hs as <- <- <-. simpl. eauto.
    + destruct (Chan.recv (c s)) as [[[b|] ch]| |]; try destruct p;
        try discriminate; injection Hs as <- <- <-; exact Ee.
    + destruct (done s); injection Hs as <- <- <-; exact Ee.
    + destruct (Chan.close (flushers s)); injection Hs as <- <- <-; exact Ee.
    + discriminate.
    + discriminate.
  - injection Hs as <- <- <-. exact Ee.
Qed.

(** ** The error of a sink (C9) *)

(** C9, as amended: in every run of a sink, at most one write to the
    target fails; from that failure on the sink's error is the error of
    that write, and every call of [Close] returns it, whatever closing the
    target returns.  An error that is set was set by that failed write or,
    when no write failed, by a call of [Close] that returned it.  Once
    set, the error is never changed by any further step.  The target is
    closed at most once, and all calls of [Close] return the same value.
    Calls of [Close] are taken one after the other, none overlapping
    another. *)
Theorem error_latched_once (w : iface) (n : nat) (ts0 : tstates)
  (tr : list (act * event)) (s : sink) (ts : tstates) :
  run_of (new_sink w n, ts0) tr (s, ts) ->
  length (failures tr) <= 1
  /\ (forall e, In e (failures tr) ->
        err s = Some e /\ forall r, In r (close_returns tr) -> r = Some e)
  /\ (forall e, err s = Some e ->
        failures tr = [e] \/ (failures tr = [] /\ In (Some e) (close_returns tr)))
  /\ (forall a s' ts' ev e,
        act_step a s ts = Done (s', ts', ev) ->
        err s = Some e -> err s' = Some e)
  /\ length (closings tr) <= 1
  /\ (forall r1 r2, In r1 (close_returns tr) -> In r2 (close_returns tr) ->
        r1 = r2).
Proof.
  intros H. destruct (run_of_inv H) as [Hwf HW Hq Hw Hfa Ho Hre Hrd Hcl].
  split; [|split; [|split; [|split; [|split]]]].
  - destruct Hfa as [->|(e & -> & _)]; simpl; lia.
  - intros e He. destruct Hfa as [E|(e' & E & Herr)]; rewrite E in He.
    + destruct He.
    + destruct He as [<-|[]]. split; [assumption|].
      intros r Hr. rewrite (Hre r Hr). assumption.
  - intros e Ee. destruct Hfa as [E|(e' & E & Herr)].
    + right. split; [assumption|].
      destruct Ho as [Hx|Hx]; [congruence | congruence |].
      destruct (close_returns tr) as [|r l] eqn:Er; [congruence|].
      left. rewrite <- Ee. apply Hre. now left.
    + left. congruence.
  - intros a s' ts' ev e Hs Ee. eapply err_latched; eauto.
  - destruct Hcl as [->|(t & -> & _)]; simpl; lia.
  - intros r1 r2 H1 H2. rewrite (Hre r1 H1), (Hre r2 H2). reflexivity.
Qed.

Lemma close_error_gets_latched :
  exists tr s ts,
    run_of (new_sink (Some 0) 4, [closing_target]) tr (s, ts)
    /\ failures tr = []
    /\ err s = Some (ErrIO 1).
Proof.
  pose (st0 := (new_sink (Some 0) 4, [closing_target])).
  assert (H0 := run_nil st0).
  assert (H1 := @run_snoc st0 _ _ _ ACloseC _ _ _ H0 eq_refl
                  (fun o E => ltac:(discriminate E))).
  assert (H2 := @run_snoc st0 _ _ _ ADrain _ _ _ H1 eq_refl
                  (fun o E => ltac:(discriminate E))).
  assert (H3 := @run_snoc st0 _ _ _ ADrain _ _ _ H2 eq_refl
                  (fun o E => ltac:(discriminate E))).
  assert (H4 := @run_snoc st0 _ _ _ AClose _ _ _ H3 eq_refl
                  (fun o E => ltac:(discriminate E))).
  do 3 eexists. split; [exact H4|]. split; reflexivity.
Qed.

(** ** Terminal sinks (C5) *)

Lemma calls_tget_upd ts t tst t' :
  calls tst = calls (tget ts t) ->
  calls (tget (upd t tst ts) t') = calls (tget ts t').
Proof.
  unfold tget. revert t t'.
  induction ts as [|x r IH]; intros [|t] [|t'] H; simpl in *; auto.
Qed.

Lemma sink_Close_calls s ts s1 ts1 ev t' :
  sink_Close s ts = Done (s1, ts1, ev) ->
  calls (tget ts1 t') = calls (tget ts t')
  /\ Chan.cbuf (c s1) = Chan.cbuf (c s) /\ done s1 = done s.
Proof.
  unfold sink_Close. destruct (done s) eqn:Ed; simpl; [|discriminate].
  destruct (Writer s) as [t|];
    [destruct (t_Close (tget ts t)) as [[tst r]|] eqn:E|];
    intros H; injection H as <- <- <-; auto.
  split; [|simpl; auto]. apply calls_tget_upd.
  unfold t_Close in E. destruct (closer (tget ts t)); [|discriminate].
  injection E as <- <-. reflexivity.
Qed.

(** The steps of the drain goroutine of a terminal sink. *)
Lemma drain_step_terminal s ts s' ts' ev :
  sink_wf s -> done s = true ->
  drain_step s ts = Done (s', ts', ev) ->
  done s' = true
  /\ length (Chan.cbuf (c s')) <= length (Chan.cbuf (c s))
  /\ forall t, calls (tget ts' t) = calls (tget ts t).
Proof.
  intros [Hd Hr Hf He] Ed Hs. rewrite Ed in Hd.
  unfold drain_step in Hs.
  destruct (drain s) eqn:Ep; simpl in Hd; try discriminate.
  - destruct (sink_Close s ts) as [[[s1 ts1] ev1]| |] eqn:Ec; simpl in Hs;
      try discriminate.
    injection Hs as <- <- <-. simpl.
    split; [|split].
    + destruct (@sink_Close_calls _ _ _ _ _ 0 Ec) as (_ & _ & ->). assumption.
    + destruct (@sink_Close_calls _ _ _ _ _ 0 Ec) as (_ & -> & _). lia.
    + intros t. apply (@sink_Close_calls _ _ _ _ _ t Ec).
  - unfold Chan.recv in Hs.
    destruct (Chan.cbuf (c s)) as [|x rest] eqn:Eb.
    + destruct (Chan.cclosed (c s)); [|destruct p; [discriminate|]];
        injection Hs as <- <- <-; simpl; rewrite Eb; auto.
    + injection Hs as <- <- <-. simpl. auto.
  - unfold Chan.close in Hs.
    destruct (Chan.cclosed (flushers s));
      injection Hs as <- <- <-; simpl; auto.
Qed.

(** Left alone, the drain goroutine of a terminal sink empties the queue. *)
Lemma drain_n_empties s ts :
  sink_wf s -> done s = true ->
  exists k, Chan.cbuf (c (fst (drain_n k s ts))) = [].
Proof.
  intros Hwf Ed.
  assert (Hloop : forall q s ts p,
            Chan.cbuf (c s) = q -> drain s = DErrRange p ->
            Chan.cbuf (c (fst (drain_n (length q) s ts))) = []).
  { induction q as [|x rest IH]; intros s0 ts1 p Eb Ep; simpl; [assumption|].
    unfold drain_step. rewrite Ep. unfold Chan.recv. rewrite Eb.
    apply (IH _ ts1 false); reflexivity. }
  destruct Hwf as [Hd Hr Hf He]. rewrite Ed in Hd.
  destruct (drain s) eqn:Ep; simpl in Hd; try discriminate.
  - exists (S (length (Chan.cbuf (c s)))). simpl.
    unfold drain_step. rewrite Ep.
    destruct (sink_Close s ts) as [[[s1 ts1] ev1]| |] eqn:Ec.
    + simpl. destruct (@sink_Close_calls _ _ _ _ _ 0 Ec) as (_ & <- & _).
      apply (Hloop _ _ ts1 false); reflexivity.
    + unfold sink_Close in Ec. rewrite Ed in Ec. simpl in Ec.
      destruct (Writer s) as [t|];
        [destruct (t_Close (tget ts t)) as [[tst r]|]|]; discriminate.
    + unfold sink_Close in Ec. rewrite Ed in Ec. simpl in Ec.
      destruct (Writer s) as [t|];
        [destruct (t_Close (tget ts t)) as [[tst r]|]|]; discriminate.
  - exists (length (Chan.cbuf (c s))). eapply Hloop; eauto.
  - exists 0. simpl. apply Hr. reflexivity.
  - exists 0. simpl. apply Hr. reflexivity.
Qed.

Lemma op_step_terminal w tr s ts o s' ts' :
  run_inv w tr s ts -> done s = true ->
  op_step o s ts = Done (s', ts') ->
  (exists tr', run_inv w tr' s' ts')
  /\ done s' = true
  /\ length (Chan.cbuf (c s')) <= length (Chan.cbuf (c s))
  /\ forall t, calls (tget ts' t) = calls (tget ts t).
Proof.
  intros Hinv Ed Hs. destruct o; simpl in Hs.
  - unfold sink_Write in Hs. rewrite Ed in Hs. simpl in Hs.
    injection Hs as <- <-. eauto 6.
  - unfold sink_Flush in Hs. rewrite Ed in Hs. simpl in Hs.
    injection Hs as <- <-. eauto 6.
  - destruct (sink_Close s ts) as [[[s1 ts1] ev1]| |] eqn:Ec; simpl in Hs;
      try discriminate.
    injection Hs as <- <-. split; [|split; [|split]].
    + exists (tr ++ [(AClose, ev1)]).
      eapply run_inv_step; [eassumption | exact Ec | discriminate].
    + destruct (@sink_Close_calls _ _ _ _ _ 0 Ec) as (_ & _ & ->). assumption.
    + destruct (@sink_Close_calls _ _ _ _ _ 0 Ec) as (_ & -> & _). lia.
    + intros t. apply (@sink_Close_calls _ _ _ _ _ t Ec).
  - destruct (Chan.close (c s)) as [ch| |] eqn:Ec; simpl in Hs; try discriminate.
    injection Hs as <- <-. split; [|split; [|split]]; auto.
    + exists (tr ++ [(ACloseC, Tau)]).
      eapply run_inv_step; [eassumption | simpl; rewrite Ec; reflexivity | discriminate].
    + unfold Chan.close in Ec. destruct (Chan.cclosed (c s)); [discriminate|].
      injection Ec as <-. simpl. lia.
  - destruct (drain_step s ts) as [[[s1 ts1] ev1]| |] eqn:Ec; simpl in Hs;
      try discriminate.
    injection Hs as <- <-.
    destruct (@drain_step_terminal _ _ _ _ _ (ri_wf Hinv) Ed Ec) as (H1 & H2 & H3).
    split; [|auto].
    exists (tr ++ [(ADrain, ev1)]).
    eapply run_inv_step; [eassumption | exact Ec | discriminate].
Qed.

(** C5: once the done signal of a sink is closed -- however the sink got
    there -- [sink.Write] returns 0 and the sink's error and leaves the
    sink as it is, and [sink.Flush] returns at once; through any further
    calls of [Write], [Flush] and [Close], closing of the queue and steps
    of the drain goroutine, the sink stays terminal, its queue never gets
    longer, [Write] goes on refusing, and no target is written any more;
    and the drain goroutine, left to run, empties the queue. *)
Theorem terminal_sink_refuses_and_drains (w : iface) (n : nat) (ts0 : tstates)
  (tr : list (act * event)) (s : sink) (ts : tstates) :
  run_of (new_sink w n, ts0) tr (s, ts) ->
  done s = true ->
  (forall buf, sink_Write s buf = Done (s, (0, err s)))
  /\ (forall f, sink_Flush s f = Done (s, false))
  /\ (forall l s' ts', ops_of (s, ts) l (s', ts') ->
        done s' = true
        /\ length (Chan.cbuf (c s')) <= length (Chan.cbuf (c s))
        /\ (forall buf, sink_Write s' buf = Done (s', (0, err s')))
        /\ (forall t, calls (tget ts' t) = calls (tget ts t)))
  /\ (exists k, Chan.cbuf (c (fst (drain_n k s ts))) = []).
Proof.
  intros H Ed. pose proof (run_of_inv H) as Hinv.
  assert (HW : forall s0, done s0 = true ->
                forall buf, sink_Write s0 buf = Done (s0, (0, err s0))).
  { intros s0 E buf. unfold sink_Write. now rewrite E. }
  split; [auto|]. split.
  { intros f. unfold sink_Flush. now rewrite Ed. }
  split; [|apply drain_n_empties; [apply (ri_wf Hinv) | assumption]].
  intros l s' ts' Hops.
  assert (Hgen : forall st st', ops_of st l st' ->
            forall tr0, run_inv w tr0 (fst st) (snd st) -> done (fst st) = true ->
            done (fst st') = true
            /\ length (Chan.cbuf (c (fst st'))) <= length (Chan.cbuf (c (fst st)))
            /\ (forall t, calls (tget (snd st') t) = calls (tget (snd st) t))).
  { clear. induction 1 as [st|s ts o s1 ts1 l st Hs Hops IH]; intros tr0 Hinv Ed.
    - auto.
    - simpl in *.
      destruct (@op_step_terminal _ _ _ _ _ _ _ Hinv Ed Hs) as ((tr1 & Hinv1) & Ed1 & Hl & Hc).
      destruct (IH tr1 Hinv1 Ed1) as (H1 & H2 & H3).
      split; [assumption|]. split; [simpl in *; lia|].
      intros t. rewrite H3. apply Hc. }
  destruct (Hgen _ _ Hops tr Hinv Ed) as (H1 & H2 & H3). simpl in *.
  auto.
Qed.

(** ** The registry and the fan-out of writes (C4) *)

Lemma sink_step_refl o sk : sink_step o sk sk.
Proof. split; auto. Qed.

Lemma heap_step_same W V : heap V = heap W -> heap_step W V.
Proof. intros E i sk H. rewrite E. eauto using sink_step_refl. Qed.

Lemma heap_step_upd W V i sk sk' :
  nth_error (heap W) i = Some sk ->
  heap V = upd i sk' (heap W) ->
  sink_step (sending W i) sk sk' ->
  heap_step W V.
Proof.
  intros Hi E Hs j skj Hj. rewrite E.
  destruct (Nat.eq_dec i j) as [<-|Hne].
  - rewrite (nth_error_upd_same _ _ _ Hi). exists sk'. split; [reflexivity|].
    congruence.
  - rewrite nth_error_upd_other by assumption. eauto using sink_step_refl.
Qed.

Lemma heap_step_app W V x : heap V = heap W ++ [x] -> heap_step W V.
Proof.
  intros E i sk H. rewrite E. exists sk. split; [|apply sink_step_refl].
  rewrite nth_error_app1; [assumption|]. apply nth_error_Some. congruence.
Qed.

Lemma key_eqb_eq a b : key_eqb a b = true <-> a = b.
Proof.
  destruct a, b; simpl; try (split; congruence).
  rewrite Nat.eqb_eq. split; congruence.
Qed.

Lemma lookup_In k v m : lookup k m = Some v -> In (k, v) m.
Proof.
  induction m as [|[k' v'] r IH]; simpl; [discriminate|].
  destruct (key_eqb k k') eqn:E.
  - apply key_eqb_eq in E. subst. intros H. injection H as ->. now left.
  - auto.
Qed.

Lemma In_lookup k v m : NoDup (map fst m) -> In (k, v) m -> lookup k m = Some v.
Proof.
  induction m as [|[k' v'] r IH]; simpl; [contradiction|].
  intros Hnd [H|H].
  - injection H as -> ->. now rewrite (proj2 (key_eqb_eq k k) eq_refl).
  - inversion Hnd as [|? ? Hni Hnd']; subst.
    destruct (key_eqb k k') eqn:E; [|auto].
    apply key_eqb_eq in E. subst. elim Hni.
    change k' with (fst (k', v)). now apply in_map.
Qed.

Lemma lookup_None_In k m : lookup k m = None -> forall v, ~ In (k, v) m.
Proof.
  induction m as [|[k' v'] r IH]; simpl; [tauto|].
  destruct (key_eqb k k') eqn:E; [discriminate|].
  intros H v [Hv|Hv]; [|eapply IH; eauto].
  injection Hv as -> ->. rewrite (proj2 (key_eqb_eq k k) eq_refl) in E. discriminate.
Qed.

Lemma In_delete k m x : In x (delete k m) -> In x m /\ fst x <> k.
Proof.
  unfold delete. rewrite filter_In. intros [H E]. split; [assumption|].
  intros <-. rewrite (proj2 (key_eqb_eq (fst x) (fst x)) eq_refl) in E. discriminate.
Qed.

Lemma NoDup_delete k m : NoDup (map fst m) -> NoDup (map fst (delete k m)).
Proof.
  induction m as [|[k' v'] r IH]; simpl; auto.
  intros Hnd. inversion Hnd as [|? ? Hni Hnd']; subst.
  destruct (key_eqb k k'); simpl; auto.
  constructor; auto. intros Hin. apply Hni.
  apply in_map_iff in Hin. destruct Hin as (x & <- & Hx).
  apply In_delete in Hx. apply in_map. tauto.
Qed.

Lemma picks_incl {A} (l : list A) x r : In (x, r) (picks l) -> incl (x :: r) l.
Proof.
  revert x r. induction l as [|y l IH]; simpl; [contradiction|].
  intros x r [H|H].
  - injection H as -> ->. apply incl_refl.
  - apply in_map_iff in H. destruct H as ([x' r'] & E & Hin). simpl in E.
    injection E as -> <-. specialize (IH _ _ Hin).
    intros z [<-|[<-|Hz]].
    + right. apply IH. now left.
    + now left.
    + right. apply IH. now right.
Qed.

Lemma sink_Close_sink_step o s ts s1 ts1 ev :
  sink_Close s ts = Done (s1, ts1, ev) -> sink_step o s s1.
Proof.
  unfold sink_Close. destruct (done s); simpl; [|discriminate].
  destruct (Writer s) as [t|] eqn:EW;
    [destruct (t_Close (tget ts t)) as [[tst r]|]|];
    intros H; injection H as <- <- <-; split; simpl; auto.
Qed.

Lemma drain_step_sink_step o s ts s' ts' ev :
  drain_step s ts = Done (s', ts', ev) -> sink_step o s s'.
Proof.
  assert (Hpop : forall x rest p,
            Chan.cbuf (c s) = x :: rest ->
            sink_step o s (set_drain (set_c s (Chan.Mk rest (Chan.ccap (c s))
                                                 (Chan.cclosed (c s)))) p)).
  { intros x rest p E. split; simpl; auto. rewrite E. simpl. auto. }
  assert (Hpc : forall p, sink_step o s (set_drain s p)).
  { intros p. split; simpl; auto. }
  unfold drain_step. destruct (drain s) eqn:Ep.
  - unfold Chan.recv. destruct (Chan.cbuf (c s)) as [|[b|] rest] eqn:Eb.
    + destruct (Chan.cclosed (c s)); [|destruct p; [discriminate|]];
        intros H; injection H as <- <- <-; auto.
    + intros H; injection H as <- <- <-. eauto.
    + intros H; injection H as <- <- <-. eauto.
  - destruct (0 <? Chan.len (c s)).
    + unfold Chan.recv. destruct (Chan.cbuf (c s)) as [|x rest] eqn:Eb.
      * destruct (Chan.cclosed (c s)); simpl; [|discriminate].
        intros H; injection H as <- <- <-. split; simpl; auto.
      * simpl. intros H; injection H as <- <- <-.
        split; simpl; auto. rewrite Eb. simpl. auto.
    + intros H; injection H as <- <- <-; auto.
  - destruct (Chan.cbuf (flushers s));
      [destruct (Chan.cclosed (flushers s))|];
      intros H; injection H as <- <- <-; auto. split; simpl; auto.
  - destruct f; [|discriminate]. intros H; injection H as <- <- <-; auto.
  - destruct (Writer s) as [t|] eqn:EW.
    + unfold t_Write. intros H; injection H as <- <- <-. split; simpl; auto.
    + intros H; injection H as <- <- <-; auto.
  - destruct (done s); intros H; injection H as <- <- <-; auto.
    split; simpl; auto.
  - destruct (sink_Close s ts) as [[[s1 ts1] ev1]| |] eqn:Ec; simpl;
      try discriminate.
    intros H; injection H as <- <- <-.
    destruct (sink_Close_sink_step o _ _ Ec) as [HW Hq]. split; simpl; auto.
  - unfold Chan.recv. destruct (Chan.cbuf (c s)) as [|x rest] eqn:Eb.
    + destruct (Chan.cclosed (c s)); [|destruct p; [discriminate|]];
        intros H; injection H as <- <- <-; auto.
    + intros H; injection H as <- <- <-. eauto.
  - destruct (done s); intros H; injection H as <- <- <-; auto.
    split; simpl; auto.
  - destruct (Chan.close (flushers s));
      intros H; injection H as <- <- <-; auto. split; simpl; auto.
  - discriminate.
  - discriminate.
Qed.

Ltac break H :=
  repeat (match type of H with
          | context [match ?x with _ => _ end] => destruct x eqn:?
          | context [if ?x then _ else _] => destruct x eqn:?
          end; simpl in H).

Lemma client_Close_frame W s p V :
  In V (client_Close W s p) ->
  sinks V = sinks W /\ cp V = cp W /\ heap_step W V.
Proof.
  unfold client_Close. intros H.
  destruct (nth_error (heap W) s) as [sk|] eqn:Es.
  - destruct (sink_Close sk (targets W)) as [[[sk' ts] ev]| |] eqn:Ec;
      simpl in H; try contradiction; destruct H as [<-|[]]; simpl;
      repeat split; auto using heap_step_same.
    apply heap_step_upd with (i := s) (sk := sk) (sk' := sk');
      [assumption | reflexivity | eapply sink_Close_sink_step; eassumption].
  - destruct H as [<-|[]]; simpl; auto using heap_step_same.
Qed.

Lemma client_step_frame W V :
  In V (client_steps W) ->
  sinks V = sinks W /\ heap_step W V
  /\ (offer_ok (sinks W) (cp W) -> offer_ok (sinks V) (cp V)).
Proof.
  intros H.
  unfold client_steps, Writer_Add, Writer_Remove, Writer_RemoveAndClose,
    Writer_Write, Writer_Flush, Writer_Close, handle_Close in H.
  destruct (prog W) as [|[] p] eqn:Epr; destruct (kp W) eqn:Ek;
    try contradiction;
    try (apply client_Close_frame in H; destruct H as (E1 & E2 & E3);
         rewrite E1, E2; auto);
    unfold cmd_send, run_case in H; break H;
    try contradiction;
    destruct H as [<-|[]]; simpl;
    repeat split;
    try solve [ apply heap_step_same; reflexivity
              | eapply heap_step_app; reflexivity
              | intros; auto using incl_refl
              | intros; match goal with H : cp _ = _ |- _ => rewrite H end;
                simpl; auto ].
Qed.

Lemma on_sink_cases W s f V :
  In V (on_sink W s f) ->
  V = set_cp W CPanic
  \/ exists sk sk' k,
       nth_error (heap W) s = Some sk /\ f sk = Done (sk', k)
       /\ V = set_cp (set_heap W (upd s sk' (heap W))) k.
Proof.
  unfold on_sink. destruct (nth_error (heap W) s) as [sk|].
  - destruct (f sk) as [[sk' k]| |] eqn:E; simpl; intros H;
      try contradiction; destruct H as [<-|[]]; eauto 8.
  - intros [<-|[]]. auto.
Qed.

Lemma reg_inv_panic W : reg_inv W -> reg_inv (set_cp W CPanic).
Proof. intros [H1 H2 H3]. constructor; simpl; auto. Qed.

(** A step of [run] on a sink that keeps its writer and the registry. *)
Lemma reg_inv_on_sink W s sk sk' k :
  reg_inv W ->
  nth_error (heap W) s = Some sk ->
  sink_step (sending W s) sk sk' ->
  offer_ok (sinks W) k ->
  let V := set_cp (set_heap W (upd s sk' (heap W))) k in
  reg_inv V /\ heap_step W V /\ sinks V = sinks W.
Proof.
  intros [H1 H2 H3] Hs Hstep Hk V.
  assert (Hh : heap_step W V).
  { apply heap_step_upd with (i := s) (sk := sk) (sk' := sk'); auto. }
  split; [|auto]. constructor; simpl; auto.
  intros key i Hin. destruct (H2 key i Hin) as (ski & Hi & HW).
  destruct (Hh i ski Hi) as (ski' & Hi' & [HW' _] ).
  exists ski'. split; [exact Hi'|]. destruct HW' as [->| ->]; auto.
Qed.

Lemma send_nil_sink_step o sk sk' : send_nil sk = Done sk' -> sink_step o sk sk'.
Proof.
  unfold send_nil, Chan.send. destruct (Chan.cclosed (c sk)); [discriminate|].
  destruct (Chan.has_room (c sk) (parked sk)); simpl; [|discriminate].
  intros H; injection H as <-. split; simpl; auto.
  intros x Hx. apply in_app_iff in Hx. destruct Hx as [Hx|[Hx|[]]]; [auto|discriminate].
Qed.

Lemma try_send_buf_sink_step sk b sk' :
  try_send_buf sk (Some b) = Done sk' -> sink_step (Some b) sk sk'.
Proof.
  unfold try_send_buf, Chan.try_send. destruct (Chan.cclosed (c sk)); [discriminate|].
  destruct (Chan.has_room (c sk) (parked sk)); simpl;
    intros H; injection H as <-; split; simpl; auto.
  intros x Hx. apply in_app_iff in Hx. destruct Hx as [Hx|[Hx|[]]]; auto.
Qed.

Lemma register_sink_step o sk f sk' : register sk f = Done sk' -> sink_step o sk sk'.
Proof.
  unfold register, Chan.send. destruct (Chan.cclosed (flushers sk)); [discriminate|].
  destruct (Chan.has_room (flushers sk) false); simpl; [|discriminate].
  intros H; injection H as <-. split; simpl; auto.
Qed.

Lemma close_sink_step o sk ch : Chan.close (c sk) = Done ch -> sink_step o sk (set_c sk ch).
Proof.
  unfold Chan.close. destruct (Chan.cclosed (c sk)); [discriminate|].
  intros H; injection H as <-. split; simpl; auto.
Qed.

Lemma obind_Done {A B} (o : outcome A) (k : A -> outcome B) b :
  obind o k = Done b -> exists a, o = Done a /\ k a = Done b.
Proof. destruct o; simpl; try discriminate. eauto. Qed.

Lemma coord_frame_panic W :
  reg_inv W -> coord_frame W (set_cp W CPanic).
Proof.
  intros H. split; [apply reg_inv_panic; assumption|].
  split; [apply heap_step_same; reflexivity|]. split; simpl; auto.
Qed.

Lemma coord_frame_cp W k :
  reg_inv W -> offer_ok (sinks W) k -> (forall w r, cp W <> CRemove w r) ->
  forall V, sinks V = sinks W -> heap V = heap W -> cp V = k ->
  coord_frame W V.
Proof.
  intros [H1 H2 H3] Hk Hn V Es Eh Ec.
  split; [|split; [apply heap_step_same; assumption|split; [auto|]]].
  - constructor; rewrite ?Es, ?Eh, ?Ec; auto.
  - intros w r E. elim (Hn _ _ E).
Qed.

Lemma coord_frame_on_sink W s f V :
  reg_inv W ->
  (forall w r, cp W <> CRemove w r) ->
  (forall sk sk' k, f sk = Done (sk', k) ->
     sink_step (sending W s) sk sk' /\ offer_ok (sinks W) k) ->
  In V (on_sink W s f) ->
  coord_frame W V.
Proof.
  intros Hinv Hn Hf Hin.
  apply on_sink_cases in Hin.
  destruct Hin as [->|(sk & sk' & k & Hs & Hfs & ->)].
  - apply coord_frame_panic; assumption.
  - destruct (Hf _ _ _ Hfs) as [Hstep Hk].
    destruct (@reg_inv_on_sink W s sk sk' k Hinv Hs Hstep Hk) as (H1 & H2 & H3).
    split; [assumption|]. split; [assumption|]. split; [auto|].
    intros w r E. elim (Hn _ _ E).
Qed.

Lemma coord_frame_fresh W V : coord_frame W V -> coord_frame W (fresh_chan V).
Proof.
  intros ([H1 H2 H3] & Hh & Hs & Hr).
  split; [constructor; simpl; auto|]. split; [|split; simpl; auto].
  intros i sk Hi. destruct (Hh i sk Hi) as (sk' & Hi' & Hst). simpl. eauto.
Qed.

Lemma incl_tl_l {A} (x : A) l m : incl (x :: l) m -> incl l m.
Proof. intros H y Hy. apply H. now right. Qed.

Lemma coord_step_frame W V :
  reg_inv W -> In V (coord_steps W) -> coord_frame W V.
Proof.
  intros Hinv Hin. pose proof Hinv as [H1 H2 H3].
  unfold coord_steps in Hin.
  destruct (cp W) eqn:Ec; simpl in H3.
  - (* CRange *)
    destruct (cmd_closed W); [|contradiction]. destruct Hin as [<-|[]].
    apply coord_frame_cp with (k := CShutdown (fanout (sinks W)));
      simpl; auto; congruence.
  - (* CAdd *)
    unfold run_cmdAdd in Hin.
    destruct (nth_error (heap W) s) as [sk|] eqn:Es.
    2:{ destruct Hin as [<-|[]]. apply coord_frame_panic; assumption. }
    destruct (lookup (Writer sk) (sinks W)) as [s0|] eqn:El.
    + destruct (Chan.close (c sk)) as [ch| |] eqn:Ecl; simpl in Hin;
        destruct Hin as [<-|[]]; try (apply coord_frame_panic; assumption).
      assert (Hst := close_sink_step (sending W s) _ Ecl).
      destruct (@reg_inv_on_sink W s sk (set_c sk ch) CRange Hinv Es Hst I)
        as ([G1 G2 G3] & Hh & _).
      split; [constructor; simpl in *; auto|].
      split; [exact Hh|]. split; [simpl; auto|]. intros; congruence.
    + simpl in Hin. destruct Hin as [<-|[]].
      split; [|split; [apply heap_step_same; reflexivity|split; [eauto|]]].
      * constructor; simpl; auto.
        -- constructor; [|apply NoDup_delete; assumption].
           intros Hi. apply in_map_iff in Hi. destruct Hi as (x & Ex & Hx).
           apply In_delete in Hx. tauto.
        -- intros k i [E|Hi].
           ++ injection E as <- <-. eauto.
           ++ apply In_delete in Hi. apply H2. tauto.
      * intros; congruence.
  - (* CRemove *)
    unfold run_cmdRemove in Hin.
    destruct (lookup w (sinks W)) as [s|] eqn:El.
    + destruct (nth_error (heap W) s) as [sk|] eqn:Es.
      2:{ destruct Hin as [<-|[]]. apply coord_frame_panic; assumption. }
      destruct (Chan.close (c sk)) as [ch| |] eqn:Ecl; simpl in Hin;
        destruct Hin as [<-|[]]; try (apply coord_frame_panic; assumption).
      assert (Hst := close_sink_step (sending W s) _ Ecl).
      destruct (@reg_inv_on_sink W s sk (set_c sk ch) CRange Hinv Es Hst I)
        as ([G1 G2 G3] & Hh & _).
      split; [|split; [exact Hh|split; [eauto|]]].
      * constructor; simpl in *; auto using NoDup_delete.
        intros k i Hi. apply In_delete in Hi. apply G2. tauto.
      * intros w' r' E. rewrite Ec in E. injection E as <- <-.
        right. simpl. apply lookup_delete.
    + simpl in Hin. destruct Hin as [<-|[]].
      split; [constructor; simpl; auto|].
      split; [apply heap_step_same; reflexivity|]. split; [eauto|].
      intros w' r' E. rewrite Ec in E. injection E as <- <-. right. exact El.
  - contradiction.
  - destruct Hin as [<-|[]].
    apply coord_frame_cp with (k := CRange); simpl; auto; congruence.
  - (* CFlush *)
    destruct rest as [|x rest].
    { destruct Hin as [<-|[]].
      apply coord_frame_cp with (k := CRange); simpl; auto; congruence. }
    apply in_flat_map in Hin. destruct Hin as ([y rest'] & _ & Hin).
    eapply coord_frame_on_sink; [eassumption | congruence | | exact Hin].
    simpl. intros sk sk' k. destruct (done sk); intros E; injection E as <- <-;
      split; simpl; auto using sink_step_refl.
  - (* CFlushReg *)
    apply in_map_iff in Hin. destruct Hin as (V0 & <- & Hin).
    apply coord_frame_fresh.
    eapply coord_frame_on_sink; [eassumption | congruence | | exact Hin].
    intros sk sk' k E. apply obind_Done in E. destruct E as (sk1 & E1 & E2).
    injection E2 as <- <-. split; simpl; eauto using register_sink_step.
  - (* CFlushNil *)
    eapply coord_frame_on_sink; [eassumption | congruence | | exact Hin].
    intros sk sk' k E. apply obind_Done in E. destruct E as (sk1 & E1 & E2).
    injection E2 as <- <-. split; simpl; eauto using send_nil_sink_step.
  - contradiction.
  - (* CWrite *)
    destruct rest as [|x rest].
    { destruct Hin as [<-|[]].
      apply coord_frame_cp with (k := CRange); simpl; auto; congruence. }
    apply in_flat_map in Hin. destruct Hin as ([y rest'] & Hp & Hin).
    apply picks_incl in Hp.
    eapply coord_frame_on_sink; [eassumption | congruence | | exact Hin].
    simpl. intros sk sk' k. destruct (done sk); intros E; injection E as <- <-;
      split; simpl; auto using sink_step_refl.
    + eapply incl_tran; [|exact H3]. eapply incl_tl_l; eassumption.
    + eapply incl_tran; eassumption.
  - (* CWriteLen *)
    eapply coord_frame_on_sink; [eassumption | congruence | | exact Hin].
    simpl. intros sk sk' k. destruct (near_full (c sk)); intros E; injection E as <- <-;
      split; simpl; auto using sink_step_refl.
  - (* CWriteGap *)
    eapply coord_frame_on_sink; [eassumption | congruence | | exact Hin].
    intros sk sk' k E. apply obind_Done in E. destruct E as (sk1 & E1 & E2).
    injection E2 as <- <-. split; simpl; eauto using send_nil_sink_step, incl_tl_l.
  - (* CWriteTry *)
    eapply coord_frame_on_sink; [eassumption | congruence | | exact Hin].
    intros sk sk' k E. apply obind_Done in E. destruct E as (sk1 & E1 & E2).
    injection E2 as <- <-. split; simpl; eauto using incl_tl_l.
    unfold sending. rewrite Ec, Nat.eqb_refl.
    apply try_send_buf_sink_step. assumption.
  - (* CShutdown *)
    destruct rest as [|x rest].
    { destruct (wdone W); destruct Hin as [<-|[]].
      - apply coord_frame_panic; assumption.
      - apply coord_frame_cp with (k := CExit); simpl; auto; congruence. }
    apply in_flat_map in Hin. destruct Hin as ([y rest'] & _ & Hin).
    eapply coord_frame_on_sink; [eassumption | congruence | | exact Hin].
    intros sk sk' k E. apply obind_Done in E. destruct E as (ch & E1 & E2).
    injection E2 as <- <-. split; simpl; eauto using close_sink_step.
  - contradiction.
  - contradiction.
Qed.

Lemma drain_steps_at_frame W i sk V :
  reg_inv W -> nth_error (heap W) i = Some sk ->
  In V (drain_steps_at W i sk) ->
  reg_inv V /\ heap_step W V /\ sinks V = sinks W.
Proof.
  intros Hinv Hi Hin. pose proof Hinv as [H1 H2 H3].
  unfold drain_steps_at in Hin.
  destruct (drain_step sk (targets W)) as [[[sk' ts] ev]| |] eqn:Ed;
    try contradiction.
  assert (Hst := drain_step_sink_step (sending W i) _ _ Ed).
  assert (Hany : forall k, offer_ok (sinks W) k ->
            let V := set_cp (set_targets (set_heap W (upd i sk' (heap W))) ts) k in
            reg_inv V /\ heap_step W V /\ sinks V = sinks W).
  { intros k Hk.
    destruct (@reg_inv_on_sink W i sk sk' k Hinv Hi Hst Hk) as ([G1 G2 G3] & Hh & Hs).
    split; [constructor; simpl in *; auto|]. split; [|reflexivity].
    intros j skj Hj. destruct (Hh j skj Hj) as (skj' & Hj' & Hstj). simpl in *. eauto. }
  assert (Hsame : let V := set_targets (set_heap W (upd i sk' (heap W))) ts in
            reg_inv V /\ heap_step W V /\ sinks V = sinks W).
  { destruct (Hany (cp W) H3) as ([G1 G2 G3] & Hh & Hs).
    split; [constructor; simpl in *; auto|]. split; [|reflexivity].
    intros j skj Hj. destruct (Hh j skj Hj) as (skj' & Hj' & Hstj). simpl in *. eauto. }
  destruct ev; try (destruct Hin as [<-|[]]; exact Hsame).
  destruct (cp W) eqn:Ec; try contradiction.
  destruct ((s =? i) && match f with Some g => g =? f0 | None => false end);
    [|contradiction].
  destruct Hin as [<-|[]]. apply (Hany (CFlush r rest)). exact I.
Qed.

Lemma drain_steps_from_frame W V : forall l i,
  reg_inv W ->
  (forall j sk, nth_error l j = Some sk -> nth_error (heap W) (i + j) = Some sk) ->
  In V (drain_steps_from W i l) ->
  reg_inv V /\ heap_step W V /\ sinks V = sinks W.
Proof.
  induction l as [|sk l IH]; simpl; intros i Hinv Hl Hin; [contradiction|].
  apply in_app_iff in Hin. destruct Hin as [Hin|Hin].
  - eapply drain_steps_at_frame; eauto.
    specialize (Hl 0 sk eq_refl). now rewrite Nat.add_0_r in Hl.
  - apply (IH (S i)); auto. intros j skj Hj.
    specialize (Hl (S j) skj Hj). now rewrite Nat.add_succ_r in Hl.
Qed.

Lemma step_frame W V :
  reg_inv W -> In V (step W) ->
  reg_inv V /\ heap_step W V
  /\ (sinks V = sinks W \/ (exists s, cp W = CAdd s) \/ (exists w r, cp W = CRemove w r)).
Proof.
  intros Hinv Hin. unfold step in Hin.
  destruct (panicked W); [contradiction|].
  apply in_app_iff in Hin. destruct Hin as [Hin|Hin].
  - apply client_step_frame in Hin. destruct Hin as (Es & Hh & Ho).
    destruct Hinv as [H1 H2 H3].
    split; [|auto].
    constructor; [rewrite Es; exact H1 | | apply Ho; exact H3].
    rewrite Es. intros k i Hi. destruct (H2 k i Hi) as (sk & Hsk & HW).
    destruct (Hh i sk Hsk) as (sk' & Hsk' & [[E|E] _]);
      exists sk'; (split; [assumption|]); [|auto].
    destruct HW; [left|right]; congruence.
  - apply in_app_iff in Hin. destruct Hin as [Hin|Hin].
    + destruct (@coord_step_frame W V Hinv Hin) as (G & Hh & Hs & _). auto.
    + unfold drain_steps in Hin.
      destruct (@drain_steps_from_frame W V (heap W) 0 Hinv (fun j sk H => H) Hin)
        as (G & Hh & Hs). auto.
Qed.

Lemma reg_inv_init n ts p : reg_inv (init n ts p).
Proof.
  constructor; simpl; [constructor | contradiction | exact I].
Qed.

Lemma reachable_reg_inv n ts p W : reachable (init n ts p) W -> reg_inv W.
Proof.
  induction 1 as [|V V' _ IH Hin]; [apply reg_inv_init|].
  apply (@step_frame V V' IH Hin).
Qed.

Lemma In_fanout i m : In i (fanout m) -> exists k, In (k, i) m.
Proof.
  unfold fanout. intros H. apply in_map_iff in H.
  destruct H as ([k j] & E & Hin). simpl in E. subst. eauto.
Qed.

(** C4: in every world that a started Writer can reach, whatever the calls
    of the client: the sink that [run] is offering a written buffer to is
    the one registered, at this moment, for the target it writes to; the
    case [cmdRemove] of [run] leaves the target out of the registry
    (which only the cases [cmdAdd] and [cmdRemove] ever change); and a
    buffer gets into the queue of a sink only by being offered to it.
    So a write dequeued while a target is out of the registry never gets
    into the queue of a sink of that target, drained or not. *)
Theorem write_reaches_only_registered (n : nat) (ts : tstates) (p : list call)
  (W : world) :
  reachable (init n ts p) W ->
  (forall b i sk t,
     offering W = Some (b, i) -> nth_error (heap W) i = Some sk ->
     Writer sk = Some t -> lookup (Some t) (sinks W) = Some i)
  /\ (forall w r V,
        cp W = CRemove w r -> In V (coord_steps W) ->
        cp V = CPanic \/ lookup w (sinks V) = None)
  /\ (forall V, In V (step W) ->
        sinks V = sinks W
        \/ (exists s, cp W = CAdd s) \/ (exists w r, cp W = CRemove w r))
  /\ (forall V i sk x,
        In V (step W) -> nth_error (heap W) i = Some sk ->
        exists sk', nth_error (heap V) i = Some sk'
          /\ (In (Some x) (Chan.cbuf (c sk')) ->
              In (Some x) (Chan.cbuf (c sk)) \/ offering W = Some (x, i))).
Proof.
  intros Hr. pose proof (@reachable_reg_inv n ts p W Hr) as Hinv.
  pose proof Hinv as [H1 H2 H3].
  split; [|split; [|split]].
  - intros b i sk t Ho Hi HW.
    assert (Hin : In i (fanout (sinks W))).
    { unfold offering in Ho. destruct (cp W); try discriminate;
        injection Ho as <- <-; apply H3; now left. }
    apply In_fanout in Hin. destruct Hin as (k & Hk).
    destruct (H2 k i Hk) as (sk' & Hi' & HW').
    rewrite Hi in Hi'. injection Hi' as <-.
    apply In_lookup; [assumption|].
    destruct HW' as [E|E]; congruence.
  - intros w r V Ec Hin.
    destruct (@coord_step_frame W V Hinv Hin) as (_ & _ & _ & Hrm). eauto.
  - intros V Hin. apply (@step_frame W V Hinv Hin).
  - intros V i sk x Hin Hi.
    destruct (@step_frame W V Hinv Hin) as (_ & Hh & _).
    destruct (Hh i sk Hi) as (sk' & Hi' & [_ Hq]).
    exists sk'. split; [assumption|]. intros Hx.
    destruct (Hq x Hx) as [H|H]; [auto|]. right.
    unfold sending in H. unfold offering.
    destruct (cp W); try discriminate.
    destruct (s =? i) eqn:E; [|discriminate].
    apply Nat.eqb_eq in E. subst. simpl. injection H as ->. reflexivity.
Qed.

(** ** The theorems on concrete runs *)

Lemma drain_writes_only_data_witness :
  exists tr s ts,
    exec [AWriteTry (Some [x01]); ADrain; ADrain] [] (new_sink B 4) [buffer]
    = Some (tr, s, ts)
    /\ calls (tget ts 0) = [Some [x01]]
    /\ forall tr1 a t x r tr2,
         tr = tr1 ++ (a, EvWrite t x r) :: tr2 ->
         a = ADrain /\ x <> None /\ B = Some t /\ In (AWriteTry x) (map fst tr1).
Proof.
  do 3 eexists. split; [vm_compute; reflexivity|]. split; [vm_compute; reflexivity|].
  eapply (@drain_writes_only_data B 4 [buffer]).
  eapply (@exec_run_of [AWriteTry (Some [x01]); ADrain; ADrain]
                       (new_sink B 4, [buffer]) [] (new_sink B 4) [buffer]);
    [apply run_nil | vm_compute; reflexivity].
Defined.

Lemma error_latched_once_witness :
  exists tr s ts,
    exec [AWriteTry (Some [x01]); ADrain; ADrain; ADrain; ADrain; AClose] []
         (new_sink B 4) [failing_target]
    = Some (tr, s, ts)
    /\ failures tr = [ErrIO 2]
    /\ err s = Some (ErrIO 2)
    /\ nclose (tget ts 0) = 1
    /\ forall r, In r (close_returns tr) -> r = Some (ErrIO 2).
Proof.
  do 3 eexists. split; [vm_compute; reflexivity|].
  split; [vm_compute; reflexivity|]. split; [vm_compute; reflexivity|]. split; [vm_compute; reflexivity|].
  refine (proj2 (proj1 (proj2
    (@error_latched_once B 4 [failing_target] _ _ _ _)) (ErrIO 2) _)).
  - eapply (@exec_run_of
             [AWriteTry (Some [x01]); ADrain; ADrain; ADrain; ADrain; AClose]
             (new_sink B 4, [failing_target]) [] (new_sink B 4) [failing_target]);
      [apply run_nil | vm_compute; reflexivity].
  - vm_compute. auto.
Defined.

Lemma terminal_sink_refuses_and_drains_witness :
  exists tr s ts,
    exec [AWriteTry (Some [x01]); ACloseC; ADrain; ADrain; ADrain; ADrain] []
         (new_sink B 4) [buffer]
    = Some (tr, s, ts)
    /\ done s = true
    /\ sink_Write s (Some [x02]) = Done (s, (0, None)).
Proof.
  do 3 eexists. split; [vm_compute; reflexivity|]. split; [vm_compute; reflexivity|].
  refine (proj1 (@terminal_sink_refuses_and_drains B 4 [buffer] _ _ _ _ _) (Some [x02])).
  - eapply (@exec_run_of
             [AWriteTry (Some [x01]); ACloseC; ADrain; ADrain; ADrain; ADrain]
             (new_sink B 4, [buffer]) [] (new_sink B 4) [buffer]);
      [apply run_nil | vm_compute; reflexivity].
  - vm_compute; reflexivity.
Defined.

Lemma write_reaches_only_registered_witness :
  exists W sk,
    follow [0; 0; 0; 0; 0; 0] (init 4 [buffer] [Add B; Write (Some [x01])]) = Some W
    /\ offering W = Some ([x01], 0)
    /\ nth_error (heap W) 0 = Some sk
    /\ Writer sk = Some 0
    /\ lookup (Some 0) (sinks W) = Some 0.
Proof.
  do 2 eexists. split; [vm_compute; reflexivity|].
  split; [vm_compute; reflexivity|]. split; [vm_compute; reflexivity|]. split; [vm_compute; reflexivity|].
  refine (proj1 (@write_reaches_only_registered 4 [buffer]
                   [Add B; Write (Some [x01])] _ _) [x01] 0 _ 0 _ _ _).
  - apply (@follow_reachable [0; 0; 0; 0; 0; 0]). vm_compute; reflexivity.
  - vm_compute; reflexivity.
  - vm_compute; reflexivity.
  - vm_compute; reflexivity.
Defined.

(** ** Two more scenarios, explored *)

(** [Remove] followed at once by [Write], with nothing waiting for the
    first write to be drained: the second write never reaches B. *)
Lemma remove_then_write_never_delivered :
  forall k W,
    steps k (init 4 [buffer]
               [Add B; Write (Some [x01]); Remove B; Write (Some [x02]); Close]) W ->
    ~ In (Some [x02]) (calls (tget (targets W) 0)).
Proof.
  intros k W Hs.
  pose (ok := fun V : world =>
    if in_dec (option_eq_dec bytes_eq_dec) (Some [x02]) (calls (tget (targets V) 0))
    then false else true).
  destruct (@explore_sound 60 ok
              [init 4 [buffer]
                 [Add B; Write (Some [x01]); Remove B; Write (Some [x02]); Close]]
              (init 4 [buffer]
                 [Add B; Write (Some [x01]); Remove B; Write (Some [x02]); Close])
              k W) as [HP _];
    [vm_cast_no_check (eq_refl true) | now left | exact Hs |].
  unfold ok in HP. destruct (in_dec _ _ _); [discriminate | assumption].
Qed.

(** A writer added twice is written once: the second sink is never
    registered, and its goroutine ends without touching the target. *)
Lemma added_twice_written_once :
  forall k W,
    steps k (init 4 [buffer] [Add B; Add B; Write (Some [x01]); Flush; Close]) W ->
    (finished W = true -> calls (tget (targets W) 0) = [Some [x01]])
    /\ (finished W = false -> step W <> []).
Proof.
  intros k W Hs.
  pose (ok := fun V : world =>
    if finished V
    then if list_eq_dec (option_eq_dec bytes_eq_dec)
              (calls (tget (targets V) 0)) [Some [x01]]
         then true else false
    else match step V with [] => false | _ => true end).
  destruct (@explore_sound 60 ok
              [init 4 [buffer] [Add B; Add B; Write (Some [x01]); Flush; Close]]
              (init 4 [buffer] [Add B; Add B; Write (Some [x01]); Flush; Close])
              k W) as [HP _];
    [vm_cast_no_check (eq_refl true) | now left | exact Hs |].
  unfold ok in HP. split; intros Hf; rewrite Hf in HP.
  - destruct (list_eq_dec _ _ _); [assumption | discriminate].
  - destruct (step W); [discriminate | discriminate].
Qed.

(** * Further properties *)

(** ** The sink and its drain goroutine, every run *)

Lemma subseq_refl {A} (l : list A) : subseq l l.
Proof. induction l; [apply subseq_nil | now apply subseq_take]. Qed.

Lemma subseq_nil_l {A} (l : list A) : subseq [] l.
Proof. induction l; [apply subseq_nil | now apply subseq_skip]. Qed.

Lemma subseq_app {A} (l1 m1 l2 m2 : list A) :
  subseq l1 m1 -> subseq l2 m2 -> subseq (l1 ++ l2) (m1 ++ m2).
Proof.
  induction 1; simpl; intros H2; auto.
  - apply subseq_skip. auto.
  - apply subseq_take. auto.
Qed.

Lemma subseq_trans {A} (l m : list A) :
  subseq l m -> forall k, subseq m k -> subseq l k.
Proof.
  intros H k Hk. revert l H.
  induction Hk as [|x m k Hk IH|x m k Hk IH]; intros l H.
  - assumption.
  - apply subseq_skip. auto.
  - inversion H; subst.
    + apply subseq_skip. auto.
    + apply subseq_take. auto.
Qed.

Lemma subseq_app_l {A} (l m k : list A) : subseq l m -> subseq l (k ++ m).
Proof. intros H. induction k; simpl; [assumption | now apply subseq_skip]. Qed.

Lemma subseq_app_r {A} (l m k : list A) : subseq l m -> subseq l (m ++ k).
Proof.
  intros H. rewrite <- (app_nil_r l). apply subseq_app; [assumption|].
  apply subseq_nil_l.
Qed.

Lemma written_snoc tr x :
  written (tr ++ [x]) = written tr ++ match snd x with EvWrite _ b _ => [b] | _ => [] end.
Proof. unfold written. rewrite flat_map_app. simpl. now rewrite app_nil_r. Qed.

Lemma offered_snoc tr x :
  offered (tr ++ [x]) = offered tr ++ match fst x with AWriteTry b => [b] | _ => [] end.
Proof. unfold offered. rewrite flat_map_app. simpl. now rewrite app_nil_r. Qed.

(** Case analysis on the innermost tests of a hypothesis. *)
Ltac cases H :=
  repeat (match type of H with
          | context [match ?x with _ => _ end] =>
            lazymatch x with
            | context [match _ with _ => _ end] => fail
            | context [if _ then _ else _] => fail
            | _ => destruct x eqn:?
            end
          | context [if ?x then _ else _] =>
            lazymatch x with
            | context [match _ with _ => _ end] => fail
            | context [if _ then _ else _] => fail
            | _ => destruct x eqn:?
            end
          end; simpl in H).

Ltac act_inv H :=
  unfold act_step, send_nil, try_send_buf, register, drain_step, sink_Close,
         Chan.send, Chan.try_send, Chan.recv, Chan.close, t_Write in H;
  simpl in H; cases H; simpl in H; try discriminate;
  try (injection H as <- <- <-).

Lemma in_flight_step a s ts s' ts' ev :
  act_step a s ts = Done (s', ts', ev) ->
  subseq (match ev with EvWrite _ b _ => [b] | _ => [] end ++ in_flight s')
         (in_flight s ++ match a with AWriteTry b => [b] | _ => [] end).
Proof.
  intros H. unfold in_flight.
  destruct a; act_inv H; simpl;
    repeat match goal with
           | E : drain _ = _ |- _ => rewrite E
           | E : Chan.cbuf _ = _ |- _ => rewrite E
           end; simpl; rewrite ?filter_app; simpl; rewrite ?app_nil_r;
    try apply subseq_refl;
    try (apply subseq_app_r; apply subseq_refl);
    try (apply subseq_skip; apply subseq_refl).
  all: try (destruct buf; simpl; rewrite ?app_nil_r;
            try apply subseq_refl; apply subseq_app_r; apply subseq_refl).
  all: try (apply subseq_app; [apply subseq_refl | apply subseq_nil_l]).
  all: try match goal with |- context [is_data ?i] => destruct i; simpl end;
       try apply subseq_refl; try (apply subseq_skip; apply subseq_refl).
  all: rewrite ?app_nil_r, ?app_assoc;
       try apply subseq_refl; apply subseq_app_r, subseq_refl.
Qed.

(** X1: in every run of a sink, the slices that its drain goroutine has
    passed to the target's [Write], followed by the one it has received
    and not yet written and by the data still in the queue, are what was
    offered to [case s.c <- buf] of [sink.Write] with some of it left out:
    the target is written in the order of the offers, nothing twice and
    nothing that was not offered. *)
Theorem drain_keeps_order w n ts0 tr s ts :
  run_of (new_sink w n, ts0) tr (s, ts) ->
  subseq (written tr ++ in_flight s) (offered tr).
Proof.
  intros H.
  remember (new_sink w n, ts0) as st0 eqn:E0.
  remember (s, ts) as st eqn:E.
  revert s ts E.
  induction H as [st|st tr s1 ts1 a s2 ts2 ev H IH Hs Ho]; intros s ts E; subst.
  - injection E as <- <-. apply subseq_nil.
  - injection E as <- <-.
    rewrite written_snoc, offered_snoc. simpl.
    specialize (IH eq_refl s1 ts1 eq_refl).
    apply in_flight_step in Hs.
    rewrite <- app_assoc.
    eapply subseq_trans;
      [apply subseq_app; [apply subseq_refl | exact Hs]|].
    rewrite app_assoc. apply subseq_app; [exact IH | apply subseq_refl].
Qed.

Lemma failed_step a s ts s' ts' ev :
  act_step a s ts = Done (s', ts', ev) ->
  (failure (a, ev) <> None -> failed (drain s') = true)
  /\ (failed (drain s) = true ->
      failed (drain s') = true
      /\ (forall f, ev <> EvAck f) /\ (forall t b r, ev <> EvWrite t b r)).
Proof.
  intros H.
  destruct a; act_inv H; simpl;
    repeat match goal with
           | E : drain _ = _ |- _ => rewrite E
           end; simpl;
    (split; [intros F; try reflexivity; try (now elim F)
            |intros F; try discriminate; repeat split; auto; discriminate]).
Qed.

Lemma run_failed w n ts0 tr s ts :
  run_of (new_sink w n, ts0) tr (s, ts) ->
  failures tr <> [] -> failed (drain s) = true.
Proof.
  intros H.
  remember (new_sink w n, ts0) as st0 eqn:E0.
  remember (s, ts) as st eqn:E.
  revert s ts E.
  induction H as [st|st tr s1 ts1 a s2 ts2 ev H IH Hs Ho]; intros s ts E; subst.
  - intros F. now elim F.
  - injection E as <- <-. rewrite failures_snoc.
    destruct (failed_step _ _ _ Hs) as [H1 H2].
    destruct (failure (a, ev)) eqn:Ef.
    + intros _. apply H1. discriminate.
    + rewrite app_nil_r. intros F. apply H2. eapply IH; eauto.
Qed.

Lemma failures_app tr1 tr2 : failures (tr1 ++ tr2) = failures tr1 ++ failures tr2.
Proof.
  induction tr1 as [|x r IH]; simpl; [reflexivity|].
  destruct (failure x); simpl; now rewrite IH.
Qed.

(** X2: after a write to the target has failed, the drain goroutine of the
    sink calls the target's [Write] no more and acknowledges no flush, in
    the rest of any run of the sink. *)
Theorem no_ack_after_failure w n ts0 tr s ts :
  run_of (new_sink w n, ts0) tr (s, ts) ->
  forall tr1 x tr2,
    tr = tr1 ++ x :: tr2 -> failure x <> None ->
    forall y, In y tr2 ->
      (forall f, snd y <> EvAck f) /\ (forall t b r, snd y <> EvWrite t b r).
Proof.
  intros H.
  remember (new_sink w n, ts0) as st0 eqn:E0.
  remember (s, ts) as st eqn:E.
  revert s ts E.
  induction H as [st|st tr s1 ts1 a s2 ts2 ev H IH Hs Ho];
    intros s ts E tr1 x tr2 Htr Hx y Hy; subst.
  - destruct tr1; discriminate.
  - induction tr2 as [|z l _] using rev_ind; [contradiction|].
    rewrite app_comm_cons, app_assoc in Htr.
    apply app_inj_tail in Htr. destruct Htr as [-> <-].
    apply in_app_iff in Hy. destruct Hy as [Hy|[<-|[]]].
    + eapply IH; eauto.
    + simpl. destruct (failed_step _ _ _ Hs) as [_ H2].
      apply H2. eapply run_failed; [exact H|].
      rewrite failures_app. simpl. destruct (failure x); [|now elim Hx].
      intros F. apply app_eq_nil in F. destruct F. discriminate.
Qed.

Lemma drain_n_stuck k s ts :
  (forall r, drain_step s ts <> Done r) -> drain_n k s ts = (s, ts).
Proof.
  intros H. destruct k; simpl; [reflexivity|].
  destruct (drain_step s ts) as [[[s1 ts1] ev]| |] eqn:E; auto.
  elim (H _ eq_refl).
Qed.

Lemma drain_n_add a : forall b s ts,
  drain_n (a + b) s ts = drain_n b (fst (drain_n a s ts)) (snd (drain_n a s ts)).
Proof.
  induction a as [|a IH]; simpl; intros b s ts; [reflexivity|].
  destruct (drain_step s ts) as [[[s1 ts1] ev]| |] eqn:E; simpl; auto;
    symmetry; apply drain_n_stuck; intros r; rewrite E; discriminate.
Qed.

Lemma tget_upd_same ts : forall t x, t < length ts -> tget (upd t x ts) t = x.
Proof.
  unfold tget. induction ts as [|y r IH]; simpl; intros [|t] x H; simpl;
    try lia; auto. apply IH. lia.
Qed.

Lemma upd_upd {A} (l : list A) : forall i x y, upd i y (upd i x l) = upd i y l.
Proof.
  induction l as [|z r IH]; intros [|i] x y; simpl; auto. now rewrite IH.
Qed.

Lemma upd_same ts : forall t, t < length ts -> upd t (tget ts t) ts = ts.
Proof.
  unfold tget. induction ts as [|y r IH]; simpl; intros [|t] H; simpl;
    try lia; auto. rewrite IH; [reflexivity | lia].
Qed.

Lemma wrote_nil ts t : t < length ts -> wrote ts t [] = ts.
Proof.
  intros H. unfold wrote. rewrite app_nil_r.
  replace (TState _ _ _ _) with (tget ts t) by (now destruct (tget ts t)).
  now apply upd_same.
Qed.

Lemma wrote_wrote ts t l1 l2 :
  t < length ts -> wrote (wrote ts t l1) t l2 = wrote ts t (l1 ++ l2).
Proof.
  intros H. unfold wrote. rewrite upd_upd, tget_upd_same by assumption.
  simpl. now rewrite app_assoc.
Qed.

Lemma length_wrote ts t l : length (wrote ts t l) = length ts.
Proof. apply length_upd. Qed.

Lemma wres_wrote ts t l : t < length ts -> wres (tget (wrote ts t l) t) = wres (tget ts t).
Proof. intros H. unfold wrote. now rewrite tget_upd_same. Qed.

(** The drain goroutine writes the data at the head of the queue. *)
Lemma drain_n_data t cap cl d fl : forall q1 q e p ts,
  t < length ts -> wres (tget ts t) = [] ->
  drain_n (2 * length q1)
          (Sink (Some t) (Chan.Mk (map Some q1 ++ q) cap cl) d fl e (DRange p)) ts
  = (Sink (Some t) (Chan.Mk q cap cl) d fl
          (match q1 with [] => e | _ => None end)
          (DRange (match q1 with [] => p | _ => false end)),
     wrote ts t (map Some q1)).
Proof.
  induction q1 as [|b q1 IH]; intros q e p ts Ht Hw.
  - simpl. now rewrite wrote_nil.
  - replace (2 * length (b :: q1)) with (2 + 2 * length q1) by (simpl; lia).
    rewrite drain_n_add.
    assert (E : drain_n 2 (Sink (Some t) (Chan.Mk (map Some (b :: q1) ++ q) cap cl)
                                d fl e (DRange p)) ts
                = (Sink (Some t) (Chan.Mk (map Some q1 ++ q) cap cl) d fl None
                        (DRange false), wrote ts t [Some b])).
    { simpl. unfold t_Write. rewrite Hw. simpl. unfold wrote. rewrite Hw.
      reflexivity. }
    rewrite E. simpl fst. simpl snd.
    rewrite IH; rewrite ?length_wrote, ?wres_wrote; auto.
    rewrite wrote_wrote by assumption. simpl.
    destruct q1; reflexivity.
Qed.

(** At a nil marker, it discards all that is behind it in a queue with a
    buffer. *)
Lemma drain_n_discard t cap cl d fl e : forall q ts,
  0 < cap ->
  drain_n (S (length q))
          (Sink t (Chan.Mk q cap cl) d fl e DLen) ts
  = (Sink t (Chan.Mk [] cap cl) d fl e DSelect, ts).
Proof.
  induction q as [|x q IH]; intros ts Hc.
  - simpl. unfold Chan.len. simpl.
    destruct cap; [lia|]. reflexivity.
  - change (S (length (x :: q))) with (S (S (length q))).
    change (drain_n (S (S (length q))) ?s ?ts)
      with (match drain_step s ts with
            | Done (s', ts', _) => drain_n (S (length q)) s' ts'
            | _ => (s, ts)
            end).
    unfold drain_step. simpl drain. unfold Chan.len. simpl c. simpl Chan.ccap.
    destruct cap as [|cap']; [lia|]. simpl.
    apply (IH ts). lia.
Qed.

Lemma ahead_behind q : q = map Some (ahead q) ++ behind q.
Proof. induction q as [|[b|] r IH]; simpl; auto. f_equal. exact IH. Qed.

Lemma ahead_marker q1 q2 : ahead (map Some q1 ++ None :: q2) = q1.
Proof. induction q1 as [|b r IH]; simpl; auto. f_equal. exact IH. Qed.

Lemma ahead_snoc q : ahead (q ++ [None]) = ahead q.
Proof. induction q as [|[b|] r IH]; simpl; auto. f_equal. exact IH. Qed.

Lemma behind_snoc q : exists r, behind (q ++ [None]) = None :: r.
Proof. induction q as [|[b|] r IH]; simpl; eauto. Qed.

Lemma sink_eta s :
  s = Sink (Writer s) (Chan.Mk (Chan.cbuf (c s)) (Chan.ccap (c s)) (Chan.cclosed (c s)))
           (done s) (flushers s) (err s) (drain s).
Proof. destruct s as [w [q cp cl] d fl e p]. reflexivity. Qed.

Lemma tget_upd_other ts : forall t t' x, t' <> t -> tget (upd t x ts) t' = tget ts t'.
Proof.
  unfold tget. induction ts as [|y r IH]; intros [|t] [|t'] x H; simpl; auto.
  congruence.
Qed.

Lemma drain_n_marker s ts t p (q1 : list bytes) (q2 : list item) k :
  drain s = DRange p -> Writer s = Some t ->
  Chan.cbuf (c s) = map Some q1 ++ None :: q2 ->
  0 < Chan.cap (c s) ->
  t < length ts -> wres (tget ts t) = [] ->
  k = 2 * length q1 + (1 + S (length q2)) ->
  drain_n k s ts
  = (Sink (Some t) (Chan.Mk [] (Chan.ccap (c s)) (Chan.cclosed (c s)))
          (done s) (flushers s) (match q1 with [] => err s | _ => None end) DSelect,
     wrote ts t (map Some q1)).
Proof.
  intros Ep EW Eq Hc Ht Hw ->.
  rewrite (sink_eta s) at 1. rewrite Ep, EW, Eq.
  rewrite drain_n_add, drain_n_data by assumption. simpl fst. simpl snd.
  rewrite drain_n_add. simpl (drain_n 1 _ _). simpl fst. simpl snd.
  apply drain_n_discard. exact Hc.
Qed.

Lemma behind_marker q : In None q -> exists r, behind q = None :: r.
Proof.
  induction q as [|[b|] r IH]; simpl; [contradiction| |eauto].
  intros [H|H]; [discriminate | auto].
Qed.

Lemma flushing_alone_step t f s ts :
  flushing_alone t f s ts -> 0 < to_ack s ->
  exists s' ts' ev,
    drain_step s ts = Done (s', ts', ev)
    /\ flushing_alone t f s' ts'
    /\ S (to_ack s') = to_ack s
    /\ calls (tget ts' t) ++ to_write s' = calls (tget ts t) ++ to_write s
    /\ (forall g, ev <> EvAck g).
Proof.
  intros (HW & Ht & Hw & Hc & Hd) Hpos.
  unfold to_ack, to_write in *. unfold flushing_alone, drain_step.
  destruct s as [w [q cap cl] d fl e p]. simpl in *. subst w.
  destruct p; simpl in *; try contradiction; try lia.
  - (* DRange *)
    destruct Hd as [Hn Hf]. unfold Chan.recv. simpl.
    destruct q as [|[b|] r]; simpl in *; [contradiction| |].
    + destruct Hn as [Hn|Hn]; [discriminate|].
      do 3 eexists. split; [reflexivity|]. simpl.
      repeat split; auto; try discriminate; try lia.
    + do 3 eexists. split; [reflexivity|]. simpl.
      repeat split; auto; try discriminate; try lia.
  - (* DLen *)
    unfold Chan.len, Chan.recv. simpl.
    destruct cap as [|cap]; [lia|]. simpl.
    destruct q as [|x r]; simpl.
    + do 3 eexists. split; [reflexivity|]. simpl.
      repeat split; auto; try discriminate; lia.
    + do 3 eexists. split; [reflexivity|]. simpl.
      repeat split; auto; try discriminate; lia.
  - (* DSelect *)
    destruct Hd as [Hq Hf]. rewrite Hf.
    do 3 eexists. split; [reflexivity|]. simpl.
    repeat split; auto; try discriminate.
  - (* DWrite *)
    destruct Hd as [Hn Hf]. unfold t_Write. rewrite Hw. simpl.
    do 3 eexists. split; [reflexivity|]. simpl.
    rewrite tget_upd_same by assumption. simpl.
    rewrite length_upd.
    repeat split; auto; try discriminate; try lia.
    now rewrite <- app_assoc.
Qed.

Lemma flushing_alone_run t f : forall k s ts,
  flushing_alone t f s ts -> to_ack s = k ->
  (forall j, j < k -> forall g, drain (fst (drain_n j s ts)) <> DAck g)
  /\ drain (fst (drain_n k s ts)) = DAck (Some f)
  /\ Chan.cbuf (c (fst (drain_n k s ts))) = []
  /\ calls (tget (snd (drain_n k s ts)) t) = calls (tget ts t) ++ to_write s.
Proof.
  induction k as [|k IH]; intros s ts Hfa Hk.
  - split; [intros j Hj; lia|]. simpl.
    destruct Hfa as (HW & Ht & Hw & Hc & Hd). unfold to_ack, to_write in *.
    destruct (drain s); try contradiction; try lia.
    destruct Hd as (-> & Hq & Hf). rewrite app_nil_r. auto.
  - destruct (@flushing_alone_step t f s ts Hfa) as (s' & ts' & ev & Es & Hfa' & Hm & Hc & Hev);
      [lia|].
    destruct (IH s' ts' Hfa') as (H1 & H2 & H3 & H4); [lia|].
    simpl. rewrite Es. repeat split; auto.
    + intros [|j] Hj g; simpl.
      * intros E. unfold to_ack in Hk. rewrite E in Hk. discriminate.
      * rewrite Es. apply H1. lia.
    + rewrite H4. exact Hc.
Qed.

(** X3: a drain goroutine in its [range] over a queue that holds the data
    [q1], then a nil marker, then [q2], with a target that accepts every
    write: after [2 * length q1 + length q2 + 2] steps it is at the
    [select] on [s.flushers], the queue is empty, the target has been
    passed the slices of [q1] in order and nothing of [q2], and the other
    targets are as they were. *)
Theorem marker_discards_queue (s : sink) (ts : tstates) (t : target) (p : bool)
  (q1 : list bytes) (q2 : list item) :
  drain s = DRange p -> Writer s = Some t ->
  Chan.cbuf (c s) = map Some q1 ++ None :: q2 ->
  0 < Chan.cap (c s) ->
  t < length ts -> wres (tget ts t) = [] ->
  let r := drain_n (2 * length q1 + length q2 + 2) s ts in
  drain (fst r) = DSelect
  /\ Chan.cbuf (c (fst r)) = []
  /\ calls (tget (snd r) t) = calls (tget ts t) ++ map Some q1
  /\ forall t', t' <> t -> tget (snd r) t' = tget ts t'.
Proof.
  intros Ep EW Eq Hc Ht Hw r. subst r.
  rewrite (@drain_n_marker s ts t p q1 q2 _ Ep EW Eq Hc Ht Hw) by lia. simpl.
  repeat split; auto.
  - unfold wrote. now rewrite tget_upd_same.
  - intros t' Hne. unfold wrote. now apply tget_upd_other.
Qed.

(** X4: [sink.Flush] on a sink that has not terminated, whose queue is open
    and has room, whose drain goroutine is in its [range] with no other
    flush registered, and whose target accepts every write: the channel
    [f] is registered and the nil marker queued, and the drain goroutine,
    running on its own, comes to [f <- struct{}{}] only after it has
    written to the target, in order, the data that was queued ahead of
    the first nil marker, the queue being empty by then; it acknowledges
    nothing before. *)
Theorem flush_acknowledged_when_drained (s : sink) (ts : tstates) (t : target)
  (f : chanid) (p : bool) :
  done s = false -> Chan.cclosed (c s) = false ->
  length (Chan.cbuf (c s)) < Chan.cap (c s) ->
  flushers s = Chan.make chanid 1 ->
  drain s = DRange p -> Writer s = Some t ->
  t < length ts -> wres (tget ts t) = [] ->
  exists s1 k,
    sink_Flush s f = Done (s1, true)
    /\ (forall j, j < k -> forall g, drain (fst (drain_n j s1 ts)) <> DAck g)
    /\ drain (fst (drain_n k s1 ts)) = DAck (Some f)
    /\ Chan.cbuf (c (fst (drain_n k s1 ts))) = []
    /\ calls (tget (snd (drain_n k s1 ts)) t)
       = calls (tget ts t) ++ map Some (ahead (Chan.cbuf (c s))).
Proof.
  intros Ed Ecl Hroom Efl Ep EW Ht Hw.
  destruct s as [w [q cap cl] d fl e dp]. simpl in *. subst.
  unfold Chan.cap in Hroom. simpl in Hroom.
  assert (Hr : Chan.has_room (Chan.Mk q cap false) p = true).
  { unfold Chan.has_room. simpl. destruct cap; [lia|]. simpl.
    apply Nat.ltb_lt. lia. }
  pose (s1 := Sink (Some t) (Chan.Mk (q ++ [None]) cap false) false
                   (Chan.Mk [f] 1 false) e (DRange p)).
  assert (Es : sink_Flush (Sink (Some t) (Chan.Mk q cap false) false
                                (Chan.make chanid 1) e (DRange p)) f
               = Done (s1, true)).
  { unfold sink_Flush, register, send_nil, Chan.send, parked. simpl.
    unfold Chan.has_room in *. simpl in *.
    destruct cap as [|cap]; [lia|]. simpl in *.
    rewrite Hr. reflexivity. }
  assert (Hfa : flushing_alone t f s1 ts).
  { unfold flushing_alone, s1. simpl. repeat split; auto; try lia.
    apply in_app_iff. right. now left. }
  exists s1, (to_ack s1). split; [exact Es|].
  destruct (@flushing_alone_run t f (to_ack s1) s1 ts Hfa eq_refl) as (H1 & H2 & H3 & H4).
  repeat split; auto.
  rewrite H4. unfold to_write, s1. simpl. now rewrite ahead_snoc.
Qed.

(** ** The sinks of a reachable world have a run behind them *)

Lemma same_kind_refl ts : same_kind ts ts.
Proof. intros t. reflexivity. Qed.

Lemma acted_other ts ts' sk : same_kind ts ts' -> acted ts ts' sk sk.
Proof.
  intros H. exists (AOther ts'), Tau. split; [reflexivity|].
  intros o E. injection E as <-. exact H.
Qed.

Lemma acted_by a ts ts' sk sk' ev :
  act_step a sk ts = Done (sk', ts', ev) ->
  (forall o, a <> AOther o) ->
  acted ts ts' sk sk'.
Proof. intros H Hn. exists a, ev. split; [exact H|]. intros o E. elim (Hn _ E). Qed.

Lemma act_step_same_kind a s ts s' ts' ev :
  act_step a s ts = Done (s', ts', ev) ->
  (forall o, a = AOther o -> same_kind ts o) ->
  same_kind ts ts'.
Proof.
  intros H Ho.
  destruct a; try (specialize (Ho _ eq_refl); simpl in H; injection H as <- <- <-; exact Ho);
    act_inv H; try apply same_kind_refl;
    intros t'; apply closer_tget_upd; simpl; auto.
  all: try match goal with
           | E : t_Close _ = Some _ |- _ => apply t_Close_closer in E; simpl in E; auto
           end.
Qed.

Lemma heap_acts_same W V :
  heap V = heap W -> targets V = targets W -> heap_acts W V.
Proof.
  intros Eh Et i sk' Hi. left. exists sk'. rewrite <- Eh, Et.
  split; [exact Hi|]. apply acted_other, same_kind_refl.
Qed.

Lemma heap_acts_upd W V i sk sk' :
  nth_error (heap W) i = Some sk ->
  heap V = upd i sk' (heap W) ->
  acted (targets W) (targets V) sk sk' ->
  same_kind (targets W) (targets V) ->
  heap_acts W V.
Proof.
  intros Hi Eh Ha Hk j skj Hj. left. rewrite Eh in Hj.
  destruct (Nat.eq_dec i j) as [<-|Hne].
  - rewrite (nth_error_upd_same _ _ _ Hi) in Hj. injection Hj as <-. eauto.
  - rewrite nth_error_upd_other in Hj by assumption.
    exists skj. split; [exact Hj|]. now apply acted_other.
Qed.

Lemma heap_acts_app W V w :
  heap V = heap W ++ [new_sink w (BufsPerSink W)] ->
  targets V = targets W -> heap_acts W V.
Proof.
  intros Eh Et i sk' Hi. rewrite Eh in Hi.
  destruct (Nat.lt_ge_cases i (length (heap W))) as [Hlt|Hge].
  - rewrite nth_error_app1 in Hi by assumption.
    left. exists sk'. rewrite Et. split; [exact Hi|].
    apply acted_other, same_kind_refl.
  - right. split; [now apply nth_error_None|]. split; [exact Et|].
    rewrite nth_error_app2 in Hi by assumption.
    destruct (i - length (heap W)) as [|k]; simpl in Hi.
    + injection Hi as <-. eauto.
    + destruct k; discriminate.
Qed.

Lemma client_Close_acts W s p V :
  In V (client_Close W s p) -> heap_acts W V /\ BufsPerSink V = BufsPerSink W.
Proof.
  unfold client_Close. intros H.
  destruct (nth_error (heap W) s) as [sk|] eqn:Es.
  - destruct (sink_Close sk (targets W)) as [[[sk' ts] ev]| |] eqn:Ec;
      simpl in H; try contradiction; destruct H as [<-|[]]; simpl;
      (split; [|reflexivity]); try (apply heap_acts_same; reflexivity).
    assert (Ha : act_step AClose sk (targets W) = Done (sk', ts, ev)) by exact Ec.
    apply heap_acts_upd with (i := s) (sk := sk) (sk' := sk'); simpl; auto.
    + eapply acted_by; [exact Ha | discriminate].
    + eapply act_step_same_kind; [exact Ha | discriminate].
  - destruct H as [<-|[]]; simpl. split; [|reflexivity].
    apply heap_acts_same; reflexivity.
Qed.

Lemma client_steps_acts W V :
  In V (client_steps W) -> heap_acts W V /\ BufsPerSink V = BufsPerSink W.
Proof.
  intros H.
  unfold client_steps, Writer_Add, Writer_Remove, Writer_RemoveAndClose,
    Writer_Write, Writer_Flush, Writer_Close, handle_Close in H.
  destruct (prog W) as [|[] p] eqn:Epr; destruct (kp W) eqn:Ek;
    try contradiction;
    try (apply client_Close_acts in H; exact H);
    unfold cmd_send, run_case in H; break H;
    try contradiction;
    destruct H as [<-|[]]; simpl;
    (split; [|reflexivity]);
    try (apply heap_acts_same; reflexivity).
  eapply heap_acts_app; reflexivity.
Qed.

Lemma on_sink_acts W s f V :
  (forall sk sk' k, f sk = Done (sk', k) -> acted (targets W) (targets W) sk sk') ->
  In V (on_sink W s f) -> heap_acts W V /\ BufsPerSink V = BufsPerSink W.
Proof.
  intros Hf Hin. apply on_sink_cases in Hin.
  destruct Hin as [->|(sk & sk' & k & Hs & Hfs & ->)]; simpl;
    (split; [|reflexivity]).
  - apply heap_acts_same; reflexivity.
  - apply heap_acts_upd with (i := s) (sk := sk) (sk' := sk'); simpl; eauto.
    apply same_kind_refl.
Qed.

Lemma acted_close ts sk ch :
  Chan.close (c sk) = Done ch -> acted ts ts sk (set_c sk ch).
Proof.
  intros E. apply acted_by with (a := ACloseC) (ev := Tau); [|discriminate].
  simpl. rewrite E. reflexivity.
Qed.

Lemma coord_steps_acts W V :
  In V (coord_steps W) -> heap_acts W V /\ BufsPerSink V = BufsPerSink W.
Proof.
  intros Hin. unfold coord_steps in Hin.
  assert (Hsame : forall U, heap U = heap W -> targets U = targets W ->
            BufsPerSink U = BufsPerSink W ->
            heap_acts W U /\ BufsPerSink U = BufsPerSink W).
  { intros U E1 E2 E3. split; [now apply heap_acts_same | assumption]. }
  destruct (cp W) eqn:Ec.
  - destruct (cmd_closed W); [|contradiction]. destruct Hin as [<-|[]]. now apply Hsame.
  - unfold run_cmdAdd in Hin.
    destruct (nth_error (heap W) s) as [sk|] eqn:Es.
    2:{ destruct Hin as [<-|[]]. now apply Hsame. }
    destruct (lookup (Writer sk) (sinks W)) as [s0|] eqn:El.
    + destruct (Chan.close (c sk)) as [ch| |] eqn:Ecl; simpl in Hin;
        destruct Hin as [<-|[]]; try (now apply Hsame).
      split; [|reflexivity].
      apply heap_acts_upd with (i := s) (sk := sk) (sk' := set_c sk ch); simpl;
        auto using acted_close, same_kind_refl.
    + simpl in Hin. destruct Hin as [<-|[]]. now apply Hsame.
  - unfold run_cmdRemove in Hin.
    destruct (lookup w (sinks W)) as [s|] eqn:El.
    + destruct (nth_error (heap W) s) as [sk|] eqn:Es.
      2:{ destruct Hin as [<-|[]]. now apply Hsame. }
      destruct (Chan.close (c sk)) as [ch| |] eqn:Ecl; simpl in Hin;
        destruct Hin as [<-|[]]; try (now apply Hsame).
      split; [|reflexivity].
      apply heap_acts_upd with (i := s) (sk := sk) (sk' := set_c sk ch); simpl;
        auto using acted_close, same_kind_refl.
    + simpl in Hin. destruct Hin as [<-|[]]. now apply Hsame.
  - contradiction.
  - destruct Hin as [<-|[]]. now apply Hsame.
  - destruct rest as [|x rest].
    { destruct Hin as [<-|[]]. now apply Hsame. }
    apply in_flat_map in Hin. destruct Hin as ([y rest'] & _ & Hin).
    eapply on_sink_acts; [|exact Hin].
    simpl. intros sk sk' k. destruct (done sk); intros E; injection E as <- <-;
      apply acted_other, same_kind_refl.
  - apply in_map_iff in Hin. destruct Hin as (V0 & <- & Hin).
    assert (H : heap_acts W V0 /\ BufsPerSink V0 = BufsPerSink W).
    { eapply on_sink_acts; [|exact Hin].
      intros sk sk' k E. apply obind_Done in E. destruct E as (sk1 & E1 & E2).
      injection E2 as <- <-.
      apply acted_by with (a := AFlushReg (nextc W)) (ev := Tau); [|discriminate].
      simpl. rewrite E1. reflexivity. }
    destruct H as [H1 H2]. split; [|exact H2].
    intros i sk' Hi. apply (H1 i sk' Hi).
  - eapply on_sink_acts; [|exact Hin].
    intros sk sk' k E. apply obind_Done in E. destruct E as (sk1 & E1 & E2).
    injection E2 as <- <-.
    apply acted_by with (a := AFlushNil) (ev := Tau); [|discriminate].
    simpl. rewrite E1. reflexivity.
  - contradiction.
  - destruct rest as [|x rest].
    { destruct Hin as [<-|[]]. now apply Hsame. }
    apply in_flat_map in Hin. destruct Hin as ([y rest'] & _ & Hin).
    eapply on_sink_acts; [|exact Hin].
    simpl. intros sk sk' k. destruct (done sk); intros E; injection E as <- <-;
      apply acted_other, same_kind_refl.
  - eapply on_sink_acts; [|exact Hin].
    simpl. intros sk sk' k. destruct (near_full (c sk)); intros E; injection E as <- <-;
      apply acted_other, same_kind_refl.
  - eapply on_sink_acts; [|exact Hin].
    intros sk sk' k E. apply obind_Done in E. destruct E as (sk1 & E1 & E2).
    injection E2 as <- <-.
    apply acted_by with (a := AWriteGap) (ev := Tau); [|discriminate].
    simpl. rewrite E1. reflexivity.
  - eapply on_sink_acts; [|exact Hin].
    intros sk sk' k E. apply obind_Done in E. destruct E as (sk1 & E1 & E2).
    injection E2 as <- <-.
    apply acted_by with (a := AWriteTry (Some b)) (ev := Tau); [|discriminate].
    simpl. rewrite E1. reflexivity.
  - destruct rest as [|x rest].
    { destruct (wdone W); destruct Hin as [<-|[]]; now apply Hsame. }
    apply in_flat_map in Hin. destruct Hin as ([y rest'] & _ & Hin).
    eapply on_sink_acts; [|exact Hin].
    intros sk sk' k E. apply obind_Done in E. destruct E as (ch & E1 & E2).
    injection E2 as <- <-. now apply acted_close.
  - contradiction.
  - contradiction.
Qed.

Lemma drain_steps_at_acts W i sk V :
  nth_error (heap W) i = Some sk ->
  In V (drain_steps_at W i sk) -> heap_acts W V /\ BufsPerSink V = BufsPerSink W.
Proof.
  intros Hi Hin. unfold drain_steps_at in Hin.
  destruct (drain_step sk (targets W)) as [[[sk' ts] ev]| |] eqn:Ed;
    try contradiction.
  assert (Ha : act_step ADrain sk (targets W) = Done (sk', ts, ev)) by exact Ed.
  assert (Hany : forall k,
            let V := set_cp (set_targets (set_heap W (upd i sk' (heap W))) ts) k in
            heap_acts W V /\ BufsPerSink V = BufsPerSink W).
  { intros k V0. split; [|reflexivity].
    apply heap_acts_upd with (i := i) (sk := sk) (sk' := sk'); simpl; auto.
    - eapply acted_by; [exact Ha | discriminate].
    - eapply act_step_same_kind; [exact Ha | discriminate]. }
  assert (Hsame : let V := set_targets (set_heap W (upd i sk' (heap W))) ts in
            heap_acts W V /\ BufsPerSink V = BufsPerSink W).
  { destruct (Hany (cp W)) as [H1 H2]. split; [|reflexivity].
    intros j skj Hj. apply (H1 j skj Hj). }
  destruct ev; try (destruct Hin as [<-|[]]; exact Hsame).
  destruct (cp W) eqn:Ec; try contradiction.
  destruct ((s =? i) && match f with Some g => g =? f0 | None => false end);
    [|contradiction].
  destruct Hin as [<-|[]]. apply (Hany (CFlush r rest)).
Qed.

Lemma drain_steps_from_acts W V : forall l i,
  (forall j sk, nth_error l j = Some sk -> nth_error (heap W) (i + j) = Some sk) ->
  In V (drain_steps_from W i l) ->
  heap_acts W V /\ BufsPerSink V = BufsPerSink W.
Proof.
  induction l as [|sk l IH]; simpl; intros i Hl Hin; [contradiction|].
  apply in_app_iff in Hin. destruct Hin as [Hin|Hin].
  - eapply drain_steps_at_acts; eauto.
    specialize (Hl 0 sk eq_refl). now rewrite Nat.add_0_r in Hl.
  - apply (IH (S i)); auto. intros j skj Hj.
    specialize (Hl (S j) skj Hj). now rewrite Nat.add_succ_r in Hl.
Qed.

Lemma step_acts W V :
  In V (step W) -> heap_acts W V /\ BufsPerSink V = BufsPerSink W.
Proof.
  intros Hin. unfold step in Hin.
  destruct (panicked W); [contradiction|].
  apply in_app_iff in Hin. destruct Hin as [Hin|Hin];
    [now apply client_steps_acts|].
  apply in_app_iff in Hin. destruct Hin as [Hin|Hin];
    [now apply coord_steps_acts|].
  unfold drain_steps in Hin.
  apply (@drain_steps_from_acts W V (heap W) 0 (fun j sk H => H) Hin).
Qed.

(** Every sink of the program has a run behind it. *)
Lemma heap_runs n ts p W :
  reachable (init n ts p) W ->
  BufsPerSink W = n
  /\ forall i sk, nth_error (heap W) i = Some sk ->
       exists w ts0 tr, run_of (new_sink w n, ts0) tr (sk, targets W).
Proof.
  induction 1 as [|V V' _ [IHn IH] Hin].
  - split; [reflexivity|]. intros [|i] sk H; discriminate.
  - destruct (step_acts _ _ Hin) as [Ha Hb]. split; [congruence|].
    intros i sk' Hi.
    destruct (Ha i sk' Hi) as [(sk & Hsk & a & ev & Hs & Ho)|(Hn & Et & w & ->)].
    + destruct (IH i sk Hsk) as (w & ts0 & tr & Hr).
      exists w, ts0, (tr ++ [(a, ev)]). econstructor; eauto.
    + exists w, (targets V), []. rewrite Et, IHn. constructor.
Qed.

(** ** The steps of the client and of [run], by what they change *)

Lemma picks_perm {A} (l : list A) x r : In (x, r) (picks l) -> Permutation (x :: r) l.
Proof.
  revert x r. induction l as [|y l IH]; simpl; [contradiction|].
  intros x r [H|H].
  - injection H as -> ->. apply Permutation_refl.
  - apply in_map_iff in H. destruct H as ([x' r'] & E & Hin). simpl in E.
    injection E as -> <-. specialize (IH _ _ Hin).
    eapply Permutation_trans; [apply perm_swap|]. now apply perm_skip.
Qed.

Lemma client_Close_shape W s p V :
  In V (client_Close W s p) ->
  sinks V = sinks W /\ wdone V = wdone W
  /\ ((kp V = KPanic /\ cp V = cp W /\ heap V = heap W /\ targets V = targets W
       /\ cmd_closed V = cmd_closed W /\ prog V = prog W
       /\ nth_error (heap W) s = None)
      \/ exists sk sk' ev,
           nth_error (heap W) s = Some sk
           /\ sink_Close sk (targets W) = Done (sk', targets V, ev)
           /\ heap V = upd s sk' (heap W)
           /\ cp V = cp W /\ cmd_closed V = cmd_closed W /\ kp V = KNext
           /\ prog V = p).
Proof.
  unfold client_Close. intros H.
  destruct (nth_error (heap W) s) as [sk|] eqn:Es.
  - destruct (sink_Close sk (targets W)) as [[[sk' ts] ev]| |] eqn:Ec;
      simpl in H; try contradiction; destruct H as [<-|[]]; simpl;
      (split; [reflexivity|split; [reflexivity|]]).
    + right. exists sk, sk', ev. repeat split; auto.
    + exfalso. unfold sink_Close in Ec. destruct (done sk); simpl in Ec; [|discriminate].
      destruct (Writer sk) as [t|]; [|discriminate].
      destruct (t_Close (tget (targets W) t)) as [[tst r]|]; discriminate.
  - destruct H as [<-|[]]; simpl. split; [reflexivity|split; [reflexivity|]].
    left. repeat split; auto.
Qed.

Lemma client_steps_shape W V :
  In V (client_steps W) ->
  sinks V = sinks W /\ wdone V = wdone W /\ client_shape W V.
Proof.
  intros H.
  unfold client_steps, Writer_Add, Writer_Remove, Writer_RemoveAndClose,
    Writer_Write, Writer_Flush, Writer_Close, handle_Close in H.
  destruct (prog W) as [|[] p] eqn:Epr; destruct (kp W) eqn:Ek;
    try contradiction;
    try (apply client_Close_shape in H;
         destruct H as (E1 & E2 & [(H1 & H2 & H3 & H4 & H5 & H6 & H7)
                                  |(sk & sk' & ev & H1 & H2 & H3 & H4 & H5 & H6 & H7)]);
         (split; [exact E1|split; [exact E2|]]);
         [ apply cs_panic; auto; try congruence; right; eauto 8
         | eapply cs_sink_close; eauto; rewrite Epr; simpl; eauto 6 ]);
    unfold cmd_send in H; break H;
    try contradiction;
    destruct H as [<-|[]]; simpl;
    (split; [reflexivity|split; [first [reflexivity | assumption]|]]).
  all: try solve [ apply cs_panic; simpl; auto; left; split; auto;
                   solve [ left; split; [auto | rewrite Epr; discriminate]
                         | right; eauto ] ].
  all: try solve [ eapply cs_alloc; simpl; eauto ].
  all: try solve [ eapply cs_closing; simpl; eauto ].
  all: try solve [ eapply cs_return; simpl; rewrite ?Epr; simpl; eauto 10 ].
  all: try solve [ eapply cs_got; simpl; rewrite ?Epr; simpl; eauto 8;
                   match goal with H : (_ =? _) = true |- _ =>
                     apply Nat.eqb_eq in H; subst; eauto end ].
  all: try solve [ apply cs_send with (x := cmdAdd s); simpl; rewrite ?Epr; simpl; eauto 8 ].
  all: try solve [ apply cs_send with (x := cmdRemove w (nextc W)); simpl; rewrite ?Epr; simpl; eauto 8 ].
  all: try solve [ apply cs_send with (x := cmdFlush (nextc W)); simpl; rewrite ?Epr; simpl; eauto 8 ].
  all: try solve [ apply cs_send with (x := cmdWrite (copy_of buf)); simpl; rewrite ?Epr; simpl; eauto 8 ].
Qed.

Lemma delete_absent k m : lookup k m = None -> delete k m = m.
Proof.
  induction m as [|[k' v] r IH]; simpl; [reflexivity|].
  destruct (key_eqb k k'); [discriminate|]. simpl. intros H. now rewrite IH.
Qed.

Lemma moves_refl W k h m :
  moves W (set_cp (set_heap (set_sinks W m) h) k) k h m.
Proof. repeat split. Qed.

Lemma on_sink_shape W s f V :
  In V (on_sink W s f) ->
  (moves W V CPanic (heap W) (sinks W)
   /\ bad_sink (heap W) s (fun sk => f sk = Panic))
  \/ exists sk sk' k,
       nth_error (heap W) s = Some sk /\ f sk = Done (sk', k)
       /\ wdone V = wdone W
       /\ moves W V k (upd s sk' (heap W)) (sinks W).
Proof.
  unfold on_sink. destruct (nth_error (heap W) s) as [sk|] eqn:Es.
  - destruct (f sk) as [[sk' k]| |] eqn:E; simpl; intros H;
      try contradiction; destruct H as [<-|[]].
    + right. exists sk, sk', k. repeat split; auto.
    + left. split; [repeat split|]. right. eauto.
  - intros [<-|[]]. left. split; [repeat split|]. now left.
Qed.

Lemma upd_nth_same {A} (l : list A) : forall i x,
  nth_error l i = Some x -> upd i x l = l.
Proof.
  induction l as [|y r IH]; intros [|i] x H; simpl in *; try discriminate.
  - now injection H as ->.
  - now rewrite IH.
Qed.

Lemma picks_In {A} (l : list A) x r : In (x, r) (picks l) -> In x l.
Proof. intros H. apply picks_incl in H. apply H. now left. Qed.

Lemma coord_steps_shape W V : In V (coord_steps W) -> coord_shape W V.
Proof.
  intros Hin. unfold coord_steps in Hin.
  destruct (cp W) eqn:Ec.
  - (* CRange *)
    destruct (cmd_closed W) eqn:Ecl; [|contradiction]. destruct Hin as [<-|[]].
    apply co_shutdown; auto. repeat split; auto.
  - (* CAdd *)
    unfold run_cmdAdd in Hin.
    destruct (nth_error (heap W) s) as [sk|] eqn:Es.
    2:{ destruct Hin as [<-|[]]. apply co_panic; [repeat split|].
        unfold coord_panics. rewrite Ec. now left. }
    destruct (lookup (Writer sk) (sinks W)) as [s0|] eqn:El.
    + destruct (Chan.close (c sk)) as [ch| |] eqn:Ecl; simpl in Hin;
        destruct Hin as [<-|[]].
      * eapply co_add_dup; eauto; [congruence|]. repeat split; auto.
      * unfold Chan.close in Ecl. destruct (Chan.cclosed (c sk)); discriminate.
      * apply co_panic; [repeat split|]. unfold coord_panics. rewrite Ec.
        right. exists sk. split; [assumption|]. split; [congruence|].
        unfold Chan.close in Ecl. destruct (Chan.cclosed (c sk)); [auto|discriminate].
    + simpl in Hin. destruct Hin as [<-|[]].
      eapply co_add_new; eauto. unfold insert. rewrite (delete_absent _ _ El).
      repeat split; auto.
  - (* CRemove *)
    unfold run_cmdRemove in Hin.
    destruct (lookup w (sinks W)) as [s|] eqn:El.
    + destruct (nth_error (heap W) s) as [sk|] eqn:Es.
      2:{ destruct Hin as [<-|[]]. apply co_panic; [repeat split|].
          unfold coord_panics. rewrite Ec. exists s. split; [assumption|]. now left. }
      destruct (Chan.close (c sk)) as [ch| |] eqn:Ecl; simpl in Hin;
        destruct Hin as [<-|[]].
      * eapply co_remove; eauto. repeat split; auto.
      * unfold Chan.close in Ecl. destruct (Chan.cclosed (c sk)); discriminate.
      * apply co_panic; [repeat split|]. unfold coord_panics. rewrite Ec.
        exists s. split; [assumption|]. right. exists sk. split; [assumption|].
        unfold Chan.close in Ecl. destruct (Chan.cclosed (c sk)); [auto|discriminate].
    + simpl in Hin. destruct Hin as [<-|[]].
      eapply co_remove_none; eauto. repeat split; auto.
  - contradiction.
  - destruct Hin as [<-|[]]. apply co_back; eauto. repeat split; auto.
  - (* CFlush *)
    destruct rest as [|x0 rest0].
    { destruct Hin as [<-|[]]. apply co_back; eauto. repeat split; auto. }
    apply in_flat_map in Hin. destruct Hin as ([x rest'] & Hp & Hin).
    apply on_sink_shape in Hin. simpl in Hin.
    destruct Hin as [[E [Hb|(sk & Hs & Hf)]]|(sk & sk' & k & Hs & Hf & Hw & Hm)].
    + apply co_panic; [assumption|]. unfold coord_panics. rewrite Ec.
      exists x. split; [eapply picks_In; eauto | assumption].
    + destruct (done sk); discriminate.
    + eapply co_flush_pick; eauto.
      assert (sk' = sk /\ k = if done sk then CFlush r rest' else CFlushReg x r rest')
        as [-> ->] by (destruct (done sk); injection Hf as <- <-; auto).
      rewrite (upd_nth_same _ _ Hs) in Hm. exact Hm.
  - (* CFlushReg *)
    apply in_map_iff in Hin. destruct Hin as (V0 & <- & Hin).
    apply on_sink_shape in Hin.
    destruct Hin as [[E [Hb|(sk & Hs & Hf)]]|(sk & sk' & k & Hs & Hf & Hw & Hm)].
    + apply co_panic; [assumption|]. unfold coord_panics. rewrite Ec. now left.
    + apply co_panic; [assumption|]. unfold coord_panics. rewrite Ec.
      right. exists sk. split; [assumption|].
      unfold register, Chan.send in Hf.
      destruct (Chan.cclosed (flushers sk)); [reflexivity|].
      destruct (Chan.has_room (flushers sk) false); discriminate.
    + apply obind_Done in Hf. destruct Hf as (sk1 & E1 & E2).
      injection E2 as <- <-.
      eapply co_flush_reg; eauto.
  - (* CFlushNil *)
    apply on_sink_shape in Hin.
    destruct Hin as [[E [Hb|(sk & Hs & Hf)]]|(sk & sk' & k & Hs & Hf & Hw & Hm)].
    + apply co_panic; [assumption|]. unfold coord_panics. rewrite Ec. now left.
    + apply co_panic; [assumption|]. unfold coord_panics. rewrite Ec.
      right. exists sk. split; [assumption|].
      unfold send_nil, Chan.send in Hf.
      destruct (Chan.cclosed (c sk)); [reflexivity|].
      destruct (Chan.has_room (c sk) (parked sk)); discriminate.
    + apply obind_Done in Hf. destruct Hf as (sk1 & E1 & E2).
      injection E2 as <- <-.
      eapply co_flush_nil; eauto.
  - contradiction.
  - (* CWrite *)
    destruct rest as [|x0 rest0].
    { destruct Hin as [<-|[]]. apply co_back; eauto. repeat split; auto. }
    apply in_flat_map in Hin. destruct Hin as ([x rest'] & Hp & Hin).
    apply on_sink_shape in Hin. simpl in Hin.
    destruct Hin as [[E [Hb|(sk & Hs & Hf)]]|(sk & sk' & k & Hs & Hf & Hw & Hm)].
    + apply co_panic; [assumption|]. unfold coord_panics. rewrite Ec.
      exists x. split; [eapply picks_In; eauto | assumption].
    + destruct (done sk); discriminate.
    + eapply co_write_pick; eauto.
      assert (sk' = sk /\ k = if done sk then CWrite b rest' else CWriteLen b x rest')
        as [-> ->] by (destruct (done sk); injection Hf as <- <-; auto).
      rewrite (upd_nth_same _ _ Hs) in Hm. exact Hm.
  - (* CWriteLen *)
    apply on_sink_shape in Hin.
    destruct Hin as [[E [Hb|(sk & Hs & Hf)]]|(sk & sk' & k & Hs & Hf & Hw & Hm)].
    + apply co_panic; [assumption|]. unfold coord_panics. rewrite Ec. assumption.
    + destruct (near_full (c sk)); discriminate.
    + eapply co_write_len; eauto.
      assert (sk' = sk /\ k = if near_full (c sk) then CWriteGap b s rest
                              else CWriteTry b s rest)
        as [-> ->] by (destruct (near_full (c sk)); injection Hf as <- <-; auto).
      rewrite (upd_nth_same _ _ Hs) in Hm. exact Hm.
  - (* CWriteGap *)
    apply on_sink_shape in Hin.
    destruct Hin as [[E [Hb|(sk & Hs & Hf)]]|(sk & sk' & k & Hs & Hf & Hw & Hm)].
    + apply co_panic; [assumption|]. unfold coord_panics. rewrite Ec. now left.
    + apply co_panic; [assumption|]. unfold coord_panics. rewrite Ec.
      right. exists sk. split; [assumption|].
      unfold send_nil, Chan.send in Hf.
      destruct (Chan.cclosed (c sk)); [reflexivity|].
      destruct (Chan.has_room (c sk) (parked sk)); discriminate.
    + apply obind_Done in Hf. destruct Hf as (sk1 & E1 & E2).
      injection E2 as <- <-.
      eapply co_write_gap; eauto.
  - (* CWriteTry *)
    apply on_sink_shape in Hin.
    destruct Hin as [[E [Hb|(sk & Hs & Hf)]]|(sk & sk' & k & Hs & Hf & Hw & Hm)].
    + apply co_panic; [assumption|]. unfold coord_panics. rewrite Ec. now left.
    + apply co_panic; [assumption|]. unfold coord_panics. rewrite Ec.
      right. exists sk. split; [assumption|].
      unfold try_send_buf, Chan.try_send in Hf.
      destruct (Chan.cclosed (c sk)); [reflexivity|].
      destruct (Chan.has_room (c sk) (parked sk)); discriminate.
    + apply obind_Done in Hf. destruct Hf as (sk1 & E1 & E2).
      injection E2 as <- <-.
      eapply co_write_try; eauto.
  - (* CShutdown *)
    destruct rest as [|x0 rest0].
    { destruct (wdone W) eqn:Ew; destruct Hin as [<-|[]].
      - apply co_panic; [repeat split|]. unfold coord_panics. now rewrite Ec.
      - apply co_exit; auto. repeat split; auto. }
    apply in_flat_map in Hin. destruct Hin as ([x rest'] & Hp & Hin).
    apply on_sink_shape in Hin. simpl in Hin.
    destruct Hin as [[E [Hb|(sk & Hs & Hf)]]|(sk & sk' & k & Hs & Hf & Hw & Hm)].
    + apply co_panic; [assumption|]. unfold coord_panics. rewrite Ec.
      exists x. split; [eapply picks_In; eauto | now left].
    + apply co_panic; [assumption|]. unfold coord_panics. rewrite Ec.
      exists x. split; [eapply picks_In; eauto|]. right. exists sk.
      split; [assumption|]. unfold Chan.close in Hf.
      destruct (Chan.cclosed (c sk)); [reflexivity | discriminate].
    + apply obind_Done in Hf. destruct Hf as (ch & E1 & E2).
      injection E2 as <- <-.
      eapply co_shut_pick; eauto.
  - contradiction.
  - contradiction.
Qed.

(** ** The steps of the drain goroutines *)

Lemma drain_steps_at_shape W i sk V :
  nth_error (heap W) i = Some sk ->
  In V (drain_steps_at W i sk) -> drain_shape W V.
Proof.
  intros Hi Hin. unfold drain_steps_at in Hin.
  destruct (drain_step sk (targets W)) as [[[sk' ts] ev]| |] eqn:Ed;
    try contradiction.
  assert (Hq : forall ev0, (forall f, ev0 <> EvAck f) ->
            drain_step sk (targets W) = Done (sk', ts, ev0) ->
            drain_shape W (set_targets (set_heap W (upd i sk' (heap W))) ts)).
  { intros ev0 Hne E0. exists i, sk, sk', ev0. simpl.
    split; [assumption|]. split; [assumption|].
    repeat (split; [reflexivity|]). left. split; [assumption | reflexivity]. }
  destruct ev;
    try (destruct Hin as [<-|[]]; eapply Hq; [|eassumption]; intros ? ?; discriminate).
  destruct (cp W) eqn:Ec; try contradiction.
  destruct f as [g|]; [|rewrite andb_false_r in Hin; contradiction].
  destruct ((s =? i) && (g =? f0)) eqn:E; [|contradiction].
  apply andb_prop in E. destruct E as [E1 E2].
  apply Nat.eqb_eq in E1, E2. subst.
  destruct Hin as [<-|[]]. exists i, sk, sk', (EvAck (Some f0)). simpl.
  split; [assumption|]. split; [assumption|].
  repeat (split; [reflexivity|]). right. exists f0, r, rest. auto.
Qed.

Lemma drain_steps_from_shape W V : forall l i,
  (forall j sk, nth_error l j = Some sk -> nth_error (heap W) (i + j) = Some sk) ->
  In V (drain_steps_from W i l) -> drain_shape W V.
Proof.
  induction l as [|sk l IH]; simpl; intros i Hl Hin; [contradiction|].
  apply in_app_iff in Hin. destruct Hin as [Hin|Hin].
  - eapply drain_steps_at_shape; eauto.
    specialize (Hl 0 sk eq_refl). now rewrite Nat.add_0_r in Hl.
  - apply (IH (S i)); auto. intros j skj Hj.
    specialize (Hl (S j) skj Hj). now rewrite Nat.add_succ_r in Hl.
Qed.

Lemma step_shape W V :
  In V (step W) ->
  panicked W = false
  /\ ((sinks V = sinks W /\ wdone V = wdone W /\ client_shape W V)
      \/ coord_shape W V \/ drain_shape W V).
Proof.
  intros Hin. unfold step in Hin.
  destruct (panicked W); [contradiction|]. split; [reflexivity|].
  apply in_app_iff in Hin. destruct Hin as [Hin|Hin];
    [left; now apply client_steps_shape|].
  apply in_app_iff in Hin. destruct Hin as [Hin|Hin];
    [right; left; now apply coord_steps_shape|].
  right; right. unfold drain_steps in Hin.
  apply (@drain_steps_from_shape W V (heap W) 0 (fun j sk H => H) Hin).
Qed.

(** *** Which queues are open *)

Lemma sink_Close_keeps s ts s1 ts1 ev :
  sink_Close s ts = Done (s1, ts1, ev) ->
  c s1 = c s /\ flushers s1 = flushers s /\ drain s1 = drain s /\ done s1 = done s.
Proof. intros H. act_inv H; simpl; auto. Qed.

Lemma drain_step_queue s ts s' ts' ev :
  drain_step s ts = Done (s', ts', ev) ->
  Chan.cclosed (c s') = Chan.cclosed (c s)
  /\ Chan.ccap (c s') = Chan.ccap (c s)
  /\ length (Chan.cbuf (c s')) <= length (Chan.cbuf (c s)).
Proof.
  intros H. change (act_step ADrain s ts = Done (s', ts', ev)) in H.
  act_inv H; simpl; repeat split; auto;
    repeat match goal with E : Chan.cbuf _ = _ |- _ => rewrite E end; simpl; lia.
Qed.

Lemma send_nil_keeps sk sk' :
  send_nil sk = Done sk' ->
  Chan.cclosed (c sk) = false /\ Chan.cclosed (c sk') = false
  /\ flushers sk' = flushers sk /\ drain sk' = drain sk
  /\ Chan.has_room (c sk) (parked sk) = true.
Proof.
  unfold send_nil, Chan.send. destruct (Chan.cclosed (c sk)) eqn:E; [discriminate|].
  destruct (Chan.has_room (c sk) (parked sk)); simpl; [|discriminate].
  intros H; injection H as <-. simpl. auto.
Qed.

Lemma try_send_buf_keeps sk b sk' :
  try_send_buf sk b = Done sk' ->
  Chan.cclosed (c sk) = false /\ Chan.cclosed (c sk') = false
  /\ flushers sk' = flushers sk /\ drain sk' = drain sk.
Proof.
  unfold try_send_buf, Chan.try_send. destruct (Chan.cclosed (c sk)) eqn:E; [discriminate|].
  destruct (Chan.has_room (c sk) (parked sk)); simpl;
    intros H; injection H as <-; simpl; auto.
Qed.

Lemma register_keeps sk f sk' :
  register sk f = Done sk' ->
  c sk' = c sk /\ drain sk' = drain sk
  /\ Chan.cclosed (flushers sk) = false
  /\ Chan.cbuf (flushers sk') = Chan.cbuf (flushers sk) ++ [f].
Proof.
  unfold register, Chan.send. destruct (Chan.cclosed (flushers sk)) eqn:E; [discriminate|].
  destruct (Chan.has_room (flushers sk) false); simpl; [|discriminate].
  intros H; injection H as <-. simpl. auto.
Qed.

Lemma close_keeps sk ch :
  Chan.close (c sk) = Done ch ->
  Chan.cclosed (c sk) = false /\ Chan.cclosed ch = true
  /\ Chan.cbuf ch = Chan.cbuf (c sk) /\ Chan.ccap ch = Chan.ccap (c sk).
Proof.
  unfold Chan.close. destruct (Chan.cclosed (c sk)) eqn:E; [discriminate|].
  intros H; injection H as <-. simpl. auto.
Qed.

Lemma same_open_eq W V : heap V = heap W -> same_open W V.
Proof. intros E. split; [now rewrite E|]. intros i sk' H. rewrite <- E. eauto. Qed.

Lemma same_open_upd W V s sk sk' :
  heap V = upd s sk' (heap W) -> nth_error (heap W) s = Some sk ->
  Chan.cclosed (c sk') = Chan.cclosed (c sk) ->
  same_open W V.
Proof.
  intros E Hs Hc. split; [rewrite E; apply length_upd|].
  intros i ski Hi. rewrite E in Hi.
  destruct (Nat.eq_dec s i) as [<-|Hne].
  - rewrite (nth_error_upd_same _ _ _ Hs) in Hi. injection Hi as <-. eauto.
  - rewrite nth_error_upd_other in Hi by assumption. eauto.
Qed.

Lemma winv_frame W V :
  winv W ->
  sinks V = sinks W -> pending V = pending W ->
  same_open W V ->
  (forall i, In i (fanout (sinks W)) ->
     ((shutting (cp V) = false \/ In i (visiting (cp V)))
      <-> (shutting (cp W) = false \/ In i (visiting (cp W))))) ->
  NoDup (visiting (cp V)) -> incl (visiting (cp V)) (fanout (sinks W)) ->
  (wdone V = true -> cp V = CExit) ->
  winv V.
Proof.
  intros [H1 H2 H3 H4 H5] Es Ep [El Eh] Ev Hn Hi Hw.
  constructor; rewrite ?Es, ?Ep, ?El; auto.
  intros i sk' Hsk'. destruct (Eh i sk' Hsk') as (sk & Hsk & Ec).
  rewrite Ec, (H3 i sk Hsk). unfold open_now. rewrite Es, Ep.
  split; (intros [H|[Hr Hv]]; [now left|right; split; [assumption|]]);
    now apply Ev.
Qed.

Lemma NoDup_snd_inj {A B} (m : list (A * B)) k k' v :
  NoDup (map snd m) -> In (k, v) m -> In (k', v) m -> k = k'.
Proof.
  induction m as [|[a b] r IH]; simpl; [contradiction|].
  intros Hn H1 H2. inversion Hn as [|? ? Hni Hn']; subst.
  destruct H1 as [H1|H1], H2 as [H2|H2].
  - congruence.
  - injection H1 as -> ->. elim Hni.
    change v with (snd (k', v)). now apply in_map.
  - injection H2 as -> ->. elim Hni.
    change v with (snd (k, v)). now apply in_map.
  - auto.
Qed.

Lemma NoDup_fanout_delete w m : NoDup (fanout m) -> NoDup (fanout (delete w m)).
Proof.
  unfold fanout, delete.
  induction m as [|[k v] r IH]; simpl; auto.
  intros Hn. inversion Hn as [|? ? Hni Hn']; subst.
  destruct (negb (key_eqb w k)); simpl; auto.
  constructor; auto. intros Hin. apply Hni.
  apply in_map_iff in Hin. destruct Hin as (x & <- & Hx).
  apply filter_In in Hx. apply in_map. tauto.
Qed.

Lemma fanout_delete w s m :
  NoDup (map fst m) -> NoDup (fanout m) -> lookup w m = Some s ->
  forall i, In i (fanout (delete w m)) <-> In i (fanout m) /\ i <> s.
Proof.
  intros Hk Hv Hl i. split.
  - intros Hi. apply In_fanout in Hi. destruct Hi as (k & Hi).
    apply In_delete in Hi. destruct Hi as [Hi Hne]. simpl in Hne.
    split.
    + unfold fanout. change i with (snd (k, i)). now apply in_map.
    + intros ->. apply Hne. apply lookup_In in Hl.
      eapply NoDup_snd_inj; eauto.
  - intros [Hi Hne]. apply In_fanout in Hi. destruct Hi as (k & Hi).
    unfold fanout. change i with (snd (k, i)). apply in_map.
    unfold delete. apply filter_In. split; [assumption|]. simpl.
    destruct (key_eqb w k) eqn:E; [|reflexivity].
    apply key_eqb_eq in E. subst k.
    apply (In_lookup _ _ _ Hk) in Hi. congruence.
Qed.

Lemma In_fanout_intro k i m : In (k, i) m -> In i (fanout m).
Proof. intros H. unfold fanout. change i with (snd (k, i)). now apply in_map. Qed.

Lemma NoDup_app_incl {A} (l m m' : list A) :
  NoDup (l ++ m) -> NoDup m' -> incl m' m -> NoDup (l ++ m').
Proof.
  intros H Hn Hi. apply NoDup_app; auto.
  - eapply NoDup_app_remove_r; eauto.
  - intros a Ha Hb. apply Hi in Hb.
    revert H Ha Hb. clear. induction l as [|x l IH]; simpl; [contradiction|].
    intros Hn [->|Ha] Hb.
    + inversion Hn; subst. apply H1. apply in_app_iff. auto.
    + inversion Hn; subst. auto.
Qed.

Lemma NoDup_app_disjoint {A} (l m : list A) a :
  NoDup (l ++ m) -> In a l -> In a m -> False.
Proof.
  induction l as [|x l IH]; simpl; [contradiction|].
  intros Hn [->|Ha] Hb; inversion Hn; subst; auto.
  apply H1. apply in_app_iff. auto.
Qed.

Lemma winv_heap W i :
  winv W -> In i (pending W ++ fanout (sinks W)) ->
  exists sk, nth_error (heap W) i = Some sk.
Proof.
  intros H Hi. apply (wi_valid H) in Hi.
  destruct (nth_error (heap W) i) eqn:E; eauto.
  apply nth_error_None in E. lia.
Qed.

Lemma winv_visiting W s :
  winv W -> In s (visiting (cp W)) ->
  exists sk, nth_error (heap W) s = Some sk /\ Chan.cclosed (c sk) = false.
Proof.
  intros H Hs. pose proof (proj2 (wi_visiting H) s Hs) as Hr.
  destruct (@winv_heap W s H) as (sk & Hsk); [apply in_app_iff; auto|].
  exists sk. split; [assumption|]. apply (wi_status H s Hsk).
  right. auto.
Qed.

Lemma winv_registered W s :
  winv W -> shutting (cp W) = false -> In s (fanout (sinks W)) ->
  exists sk, nth_error (heap W) s = Some sk /\ Chan.cclosed (c sk) = false.
Proof.
  intros H Hsh Hs.
  destruct (@winv_heap W s H) as (sk & Hsk); [apply in_app_iff; auto|].
  exists sk. split; [assumption|]. apply (wi_status H s Hsk).
  right. auto.
Qed.

Lemma winv_pending W s :
  winv W -> In s (pending W) ->
  exists sk, nth_error (heap W) s = Some sk /\ Chan.cclosed (c sk) = false.
Proof.
  intros H Hs.
  destruct (@winv_heap W s H) as (sk & Hsk); [apply in_app_iff; auto|].
  exists sk. split; [assumption|]. apply (wi_status H s Hsk).
  now left.
Qed.

(** [run] does not panic: the sinks it works on are there, the queues it
    closes and sends on are open, and so are the flushers of a sink whose
    queue is open. *)
Lemma winv_no_panic W :
  winv W -> (forall i sk, nth_error (heap W) i = Some sk -> sink_wf sk) ->
  ~ coord_panics W.
Proof.
  intros H Hwf Hp. unfold coord_panics in Hp.
  assert (Hopen : forall s P, In s (visiting (cp W)) ->
            bad_sink (heap W) s P ->
            exists sk, nth_error (heap W) s = Some sk
                       /\ Chan.cclosed (c sk) = false /\ P sk).
  { intros s P Hs [Hb|(sk & Hsk & HP)].
    - destruct (@winv_visiting W s H Hs) as (sk & Hsk & _). congruence.
    - destruct (@winv_visiting W s H Hs) as (sk0 & Hsk0 & Hc).
      exists sk. rewrite Hsk in Hsk0. injection Hsk0 as <-. auto. }
  destruct (cp W) eqn:Ec; try contradiction.
  - (* CAdd *)
    assert (Hs : In s (pending W)).
    { unfold pending. rewrite Ec. apply in_app_iff. right. now left. }
    destruct (@winv_pending W s H Hs) as (sk & Hsk & Hc).
    destruct Hp as [Hp|(sk0 & Hsk0 & _ & Hc0)]; congruence.
  - (* CRemove *)
    destruct Hp as (s & Hl & Hb).
    apply lookup_In, In_fanout_intro in Hl.
    destruct (@winv_registered W s H) as (sk & Hsk & Hc); auto.
    { now rewrite Ec. }
    destruct Hb as [Hb|(sk0 & Hsk0 & Hc0)]; congruence.
  - (* CFlush *)
    destruct Hp as (x & Hx & Hn).
    destruct (@winv_visiting W x H) as (sk & Hsk & _); [now rewrite Ec|]. congruence.
  - (* CFlushReg *)
    destruct (Hopen s _ (or_introl eq_refl) Hp) as (sk & Hsk & Hc & Hf).
    destruct (Hwf _ _ Hsk) as [_ Hr Hfl _].
    specialize (Hfl Hf). rewrite Hfl in Hr. destruct (Hr eq_refl). congruence.
  - destruct (Hopen s _ (or_introl eq_refl) Hp) as (sk & Hsk & Hc & Hf). congruence.
  - (* CWrite *)
    destruct Hp as (x & Hx & Hn).
    destruct (@winv_visiting W x H) as (sk & Hsk & _); [now rewrite Ec|]. congruence.
  - destruct (@winv_visiting W s H) as (sk & Hsk & _); [rewrite Ec; now left|]. congruence.
  - destruct (Hopen s _ (or_introl eq_refl) Hp) as (sk & Hsk & Hc & Hf). congruence.
  - destruct (Hopen s _ (or_introl eq_refl) Hp) as (sk & Hsk & Hc & Hf). congruence.
  - (* CShutdown *)
    destruct rest as [|x0 rest0].
    + apply (wi_wdone H) in Hp. congruence.
    + destruct Hp as (x & Hx & Hb).
      destruct (Hopen x _ Hx Hb) as (sk & Hsk & Hc & Hf). congruence.
Qed.

Lemma winv_nodup_fanout W : winv W -> NoDup (fanout (sinks W)).
Proof. intros H. eapply NoDup_app_remove_l. apply (wi_nodup H). Qed.

Lemma winv_client W V :
  winv W -> cp W <> CPanic ->
  sinks V = sinks W -> wdone V = wdone W -> client_shape W V ->
  cp V <> CPanic /\ (kp V = KPanic \/ winv V).
Proof.
  intros H Hcp Es Ew Hsh.
  assert (Hquiet : forall (Ec : cp V = cp W) (Ep : pending V = pending W),
            same_open W V -> winv V).
  { intros Ec Ep Ho. apply winv_frame with (W := W); auto; rewrite ?Ec.
    - tauto.
    - apply (wi_visiting H).
    - apply (wi_visiting H).
    - rewrite Ew. apply (wi_wdone H). }
  destruct Hsh.
  - (* panic *)
    split; [congruence | now left].
  - (* alloc *)
    split; [congruence|]. right.
    match goal with
    | E1 : kp W = KNext, E2 : kp V = KAddSend _, E3 : heap V = _, E4 : cp V = cp W |- _ =>
      rename E1 into Ek; rename E2 into Ek'; rename E3 into Eh; rename E4 into Ec
    end.
    assert (Ep : pending V = length (heap W) :: pending W).
    { unfold pending. now rewrite Ek, Ek', Ec. }
    assert (Hlt : forall i, In i (pending W ++ fanout (sinks W)) -> i < length (heap W))
      by apply (wi_valid H).
    constructor; rewrite ?Es, ?Ep, ?Ec, ?Ew; try apply H.
    + simpl. constructor; [|apply (wi_nodup H)].
      intros Hin. apply Hlt in Hin. lia.
    + rewrite Eh, length_app. simpl. intros i [<-|Hi]; [lia|].
      apply Hlt in Hi. lia.
    + intros i sk' Hi. rewrite Eh in Hi. unfold open_now. rewrite Es, Ep, Ec.
      destruct (Nat.lt_ge_cases i (length (heap W))) as [Hl|Hg].
      * rewrite nth_error_app1 in Hi by assumption.
        rewrite (wi_status H i Hi). unfold open_now. simpl.
        split; [tauto|]. intros [[E|Hp]|Hr]; auto. lia.
      * rewrite nth_error_app2 in Hi by assumption.
        destruct (i - length (heap W)) as [|k] eqn:Ei; simpl in Hi.
        -- injection Hi as <-. simpl. split; auto. intros _. left. left. lia.
        -- destruct k; discriminate.
  - (* send *)
    match goal with
    | E1 : cp W = CRange, E3 : cp V = run_case W x, E4 : heap V = heap W |- _ =>
      rename E1 into Ec; rename E3 into Ec'; rename E4 into Eh
    end.
    split; [rewrite Ec'; destruct x; discriminate|]. right.
    apply winv_frame with (W := W); auto.
    + unfold pending. rewrite Ec, Ec'.
      destruct x; simpl;
        match goal with Hx : _ /\ _ |- _ => decompose [and] Hx end;
        repeat match goal with E : kp _ = _ |- _ => rewrite E end; reflexivity.
    + now apply same_open_eq.
    + intros i Hi. rewrite Ec, Ec'. destruct x; simpl; tauto.
    + rewrite Ec'. destruct x; simpl; try constructor; apply (winv_nodup_fanout H).
    + rewrite Ec'. destruct x; simpl; try apply incl_refl; intros ? [].
    + rewrite Ew. intros Hw. apply (wi_wdone H) in Hw. congruence.
  - (* the sink removed is received *)
    match goal with
    | E1 : cp W = CRemoveSend _ _, E2 : cp V = CRemoveClose _, E3 : kp W = _,
      E4 : heap V = heap W |- _ =>
      rename E1 into Ec; rename E2 into Ec'; rename E3 into Ek; rename E4 into Eh
    end.
    split; [congruence|]. right.
    apply winv_frame with (W := W); auto.
    + unfold pending. rewrite Ec, Ec', Ek.
      match goal with Hx : _ \/ _ |- _ =>
        destruct Hx as [[_ Ek']|(_ & _ & Ek')]; rewrite Ek'; reflexivity end.
    + now apply same_open_eq.
    + intros i Hi. rewrite Ec, Ec'. simpl. tauto.
    + rewrite Ec'. constructor.
    + rewrite Ec'. intros ? [].
    + rewrite Ew. intros Hw. apply (wi_wdone H) in Hw. congruence.
  - (* return *)
    split; [congruence|]. right. apply Hquiet; auto.
    + unfold pending.
      match goal with E : cp V = cp W |- _ => rewrite E end.
      match goal with E : kp V = KNext |- _ => rewrite E end.
      match goal with Hx : _ \/ _ |- _ =>
        destruct Hx as [(r & w & E & _)|[(r & E & _)|(E & _)]]; rewrite E; reflexivity end.
    + now apply same_open_eq.
  - (* Close begins *)
    split; [congruence|]. right. apply Hquiet; auto.
    + unfold pending.
      match goal with E : cp V = cp W |- _ => rewrite E end.
      match goal with E : kp V = KCloseWait, E' : kp W = KNext |- _ => rewrite E, E' end.
      reflexivity.
    + now apply same_open_eq.
  - (* sink.Close *)
    split; [congruence|]. right. apply Hquiet; auto.
    + unfold pending.
      match goal with E : cp V = cp W |- _ => rewrite E end.
      match goal with E : kp V = KNext |- _ => rewrite E end.
      match goal with Hx : _ \/ _ |- _ =>
        destruct Hx as [[E _]|[E _]]; rewrite E; reflexivity end.
    + match goal with E : sink_Close _ _ = _ |- _ =>
        apply sink_Close_keeps in E; destruct E as (E1 & _) end.
      eapply same_open_upd; eauto. now rewrite E1.
Qed.

Lemma pending_coord W V :
  kp V = kp W -> (forall s, cp W <> CAdd s) -> (forall s, cp V <> CAdd s) ->
  pending V = pending W.
Proof.
  intros Ek H1 H2. unfold pending. rewrite Ek.
  destruct (cp W) eqn:E1; try (now elim (H1 s));
    destruct (cp V) eqn:E2; try (now elim (H2 s0)); try (now elim (H2 s));
    reflexivity.
Qed.

Lemma winv_coord W V :
  winv W -> (forall i sk, nth_error (heap W) i = Some sk -> sink_wf sk) ->
  NoDup (map fst (sinks W)) ->
  coord_shape W V ->
  cp V <> CPanic /\ winv V.
Proof.
  intros H Hwf Hkeys Hsh.
  pose proof (winv_nodup_fanout H) as Hnf.
  pose proof (wi_visiting H) as [Hvn Hvi].
  assert (Hquiet : forall k h,
            moves W V k h (sinks W) -> wdone V = wdone W ->
            (forall s, cp W <> CAdd s) -> (forall s, k <> CAdd s) ->
            k <> CPanic ->
            (length h = length (heap W)
             /\ forall i sk', nth_error h i = Some sk' ->
                  exists sk, nth_error (heap W) i = Some sk
                             /\ Chan.cclosed (c sk') = Chan.cclosed (c sk)) ->
            shutting (cp W) = false -> shutting k = false ->
            NoDup (visiting k) -> incl (visiting k) (fanout (sinks W)) ->
            cp V <> CPanic /\ winv V).
  { intros k h (Ec & Eh & Es & Ek & _) Ew Hc1 Hc2 Hnp Ho Hs1 Hs2 Hn Hi.
    split; [congruence|].
    apply winv_frame with (W := W); auto.
    - apply pending_coord; auto. rewrite Ec. assumption.
    - unfold same_open. now rewrite Eh.
    - intros i _. rewrite Ec, Hs1, Hs2. tauto.
    - now rewrite Ec.
    - now rewrite Ec.
    - rewrite Ew. intros Hw. apply (wi_wdone H) in Hw.
      rewrite Hw in Hs1. discriminate. }
  assert (Hsame : length (heap W) = length (heap W)
            /\ forall i sk', nth_error (heap W) i = Some sk' ->
                 exists sk, nth_error (heap W) i = Some sk
                            /\ Chan.cclosed (c sk') = Chan.cclosed (c sk)) by eauto.
  assert (Hupd : forall s sk sk',
            nth_error (heap W) s = Some sk ->
            Chan.cclosed (c sk') = Chan.cclosed (c sk) ->
            length (upd s sk' (heap W)) = length (heap W)
            /\ forall i ski, nth_error (upd s sk' (heap W)) i = Some ski ->
                 exists sk0, nth_error (heap W) i = Some sk0
                             /\ Chan.cclosed (c ski) = Chan.cclosed (c sk0)).
  { intros s sk sk' Hs Hc. split; [apply length_upd|]. intros i ski Hi.
    destruct (Nat.eq_dec s i) as [<-|Hne].
    - rewrite (nth_error_upd_same _ _ _ Hs) in Hi. injection Hi as <-. eauto.
    - rewrite nth_error_upd_other in Hi by assumption. eauto. }
  assert (Hpick : forall (rest : list sid) x rest',
            visiting (cp W) = rest -> In (x, rest') (picks rest) ->
            NoDup (x :: rest') /\ incl (x :: rest') (fanout (sinks W))).
  { intros rest x rest' E Hp. apply picks_perm in Hp. split.
    - eapply Permutation_NoDup; [apply Permutation_sym; exact Hp|]. now rewrite <- E.
    - intros i Hi. apply Hvi. rewrite E.
      eapply Permutation_in; [exact Hp | exact Hi]. }
  destruct Hsh as
    [ Ep Hp
    | Ec Ecl Ew Hm
    | s sk ch Ec Hs Hl Hcl Ew Hm
    | s sk Ec Hs Hl Ew Hm
    | w r s sk ch Ec Hl Hs Hcl Ew Hm
    | w r Ec Hl Ew Hm
    | Hb Ew Hm
    | r rest x rest' sk Ec Hp Hs Ew Hm
    | s r rest sk sk' Ec Hs Hr Ew Hm
    | s f r rest sk sk' Ec Hs Hr Ew Hm
    | b rest x rest' sk Ec Hp Hs Ew Hm
    | b s rest sk Ec Hs Ew Hm
    | b s rest sk sk' Ec Hs Hr Ew Hm
    | b s rest sk sk' Ec Hs Hr Ew Hm
    | rest x rest' sk ch Ec Hp Hs Hcl Ew Hm
    | Ec Ew Ew' Hm ].
  - (* panic *) elim (winv_no_panic H Hwf Hp).
  - (* the final loop begins *)
    destruct Hm as (Ec' & Eh & Es & Ek & _).
    split; [congruence|].
    apply winv_frame with (W := W); auto.
    + apply pending_coord; auto; congruence.
    + now apply same_open_eq.
    + intros i Hi. rewrite Ec, Ec'. simpl. tauto.
    + now rewrite Ec'.
    + rewrite Ec'. apply incl_refl.
    + rewrite Ew. intros Hw. apply (wi_wdone H) in Hw. congruence.
  - (* Add of a registered target *)
    destruct Hm as (Ec' & Eh & Es & Ek & _).
    split; [congruence|].
    apply close_keeps in Hcl. destruct Hcl as (Hc0 & Hc1 & _).
    assert (Ep : pending W = pending V ++ [s]).
    { unfold pending. rewrite Ek, Ec, Ec'. now rewrite app_nil_r. }
    pose proof (wi_nodup H) as Hn. rewrite Ep, <- app_assoc in Hn. simpl in Hn.
    constructor; rewrite ?Es.
    + eapply NoDup_remove_1; eauto.
    + rewrite Eh, length_upd. intros i Hi. apply (wi_valid H).
      rewrite Ep, <- app_assoc. apply in_app_iff in Hi. apply in_app_iff.
      simpl. tauto.
    + intros i ski Hi. rewrite Eh in Hi. unfold open_now.
      rewrite Es, Ec'. simpl.
      destruct (Nat.eq_dec s i) as [<-|Hne].
      * rewrite (nth_error_upd_same _ _ _ Hs) in Hi. injection Hi as <-.
        simpl. rewrite Hc1. split; [discriminate|].
        intros Hin. exfalso. apply (NoDup_remove_2 _ _ _ Hn).
        apply in_app_iff. tauto.
      * rewrite nth_error_upd_other in Hi by assumption.
        rewrite (wi_status H i Hi). unfold open_now. rewrite Ep, Ec. simpl.
        rewrite in_app_iff. simpl. intuition.
    + rewrite Ec'. simpl. split; [constructor | intros ? []].
    + rewrite Ew. intros Hw. apply (wi_wdone H) in Hw. congruence.
  - (* Add of a new target *)
    destruct Hm as (Ec' & Eh & Es & Ek & _).
    split; [congruence|].
    assert (Ep : pending W = pending V ++ [s]).
    { unfold pending. rewrite Ek, Ec, Ec'. now rewrite app_nil_r. }
    assert (Ef : pending V ++ fanout (sinks V) = pending W ++ fanout (sinks W)).
    { rewrite Ep, Es, <- app_assoc. reflexivity. }
    constructor; rewrite ?Ef, ?Eh; try apply H.
    + intros i ski Hi. rewrite (wi_status H i Hi). unfold open_now.
      rewrite Ep, Es, Ec, Ec'. simpl. rewrite in_app_iff. simpl. intuition.
    + rewrite Ec'. simpl. split; [constructor | intros ? []].
    + rewrite Ew. intros Hw. apply (wi_wdone H) in Hw. congruence.
  - (* Remove of a registered target *)
    destruct Hm as (Ec' & Eh & Es & Ek & _).
    split; [congruence|].
    apply close_keeps in Hcl. destruct Hcl as (Hc0 & Hc1 & _).
    pose proof (@fanout_delete w s (sinks W) Hkeys Hnf Hl) as Hfd.
    assert (Ep : pending V = pending W).
    { apply pending_coord; auto; congruence. }
    assert (Hsf : In s (fanout (sinks W))).
    { apply lookup_In in Hl. eapply In_fanout_intro; eauto. }
    constructor; rewrite ?Es, ?Ep.
    + eapply NoDup_app_incl; [apply (wi_nodup H) | now apply NoDup_fanout_delete|].
      intros i Hi. now apply Hfd in Hi.
    + rewrite Eh, length_upd. intros i Hi. apply (wi_valid H).
      apply in_app_iff in Hi. apply in_app_iff.
      destruct Hi as [Hi|Hi]; [auto|]. apply Hfd in Hi. tauto.
    + intros i ski Hi. rewrite Eh in Hi. unfold open_now.
      rewrite Es, Ep, Ec'. simpl.
      destruct (Nat.eq_dec s i) as [<-|Hne].
      * rewrite (nth_error_upd_same _ _ _ Hs) in Hi. injection Hi as <-.
        simpl. rewrite Hc1. split; [discriminate|].
        intros [Hin|[Hin _]]; exfalso.
        -- eapply NoDup_app_disjoint; [apply (wi_nodup H) | eauto | eauto].
        -- apply Hfd in Hin. tauto.
      * rewrite nth_error_upd_other in Hi by assumption.
        rewrite (wi_status H i Hi). unfold open_now. rewrite Ec. simpl.
        rewrite Hfd. intuition.
    + rewrite Ec'. simpl. split; [constructor | intros ? []].
    + rewrite Ew. intros Hw. apply (wi_wdone H) in Hw. congruence.
  - (* Remove of a target that is not registered *)
    apply (Hquiet _ _ Hm Ew); auto; try congruence; try (rewrite Ec; reflexivity);
      simpl; try constructor; intros ? [].
  - (* back to the loop *)
    apply (Hquiet _ _ Hm Ew); auto; try congruence;
      try (destruct Hb as [[r E]|[[r E]|[b E]]]; rewrite E; try discriminate; reflexivity);
      simpl; try constructor; intros ? [].
  - (* Flush: next sink *)
    destruct (Hpick rest x rest') as [Hn Hi]; [now rewrite Ec | assumption|].
    apply (Hquiet _ _ Hm Ew); auto; try congruence; try (rewrite Ec; reflexivity);
      destruct (done sk); simpl; try discriminate; try reflexivity; auto.
    + now inversion Hn.
    + eapply incl_tl_l; eauto.
  - (* Flush: register *)
    apply register_keeps in Hr. destruct Hr as (E1 & _).
    apply (Hquiet _ _ Hm Ew); auto; try congruence; try (rewrite Ec; reflexivity).
    + apply Hupd with (sk := sk); auto. now rewrite E1.
    + simpl. now rewrite Ec in Hvn.
    + simpl. now rewrite Ec in Hvi.
  - (* Flush: marker *)
    apply send_nil_keeps in Hr. destruct Hr as (E1 & E2 & _).
    apply (Hquiet _ _ Hm Ew); auto; try congruence; try (rewrite Ec; reflexivity).
    + apply Hupd with (sk := sk); auto. congruence.
    + simpl. now rewrite Ec in Hvn.
    + simpl. now rewrite Ec in Hvi.
  - (* Write: next sink *)
    destruct (Hpick rest x rest') as [Hn Hi]; [now rewrite Ec | assumption|].
    apply (Hquiet _ _ Hm Ew); auto; try congruence; try (rewrite Ec; reflexivity);
      destruct (done sk); simpl; try discriminate; try reflexivity; auto.
    + now inversion Hn.
    + eapply incl_tl_l; eauto.
  - (* Write: length *)
    apply (Hquiet _ _ Hm Ew); auto; try congruence; try (rewrite Ec; reflexivity);
      destruct (near_full (c sk)); simpl; try discriminate; try reflexivity;
      rewrite Ec in *; auto.
  - (* Write: marker *)
    apply send_nil_keeps in Hr. destruct Hr as (E1 & E2 & _).
    rewrite Ec in Hvn, Hvi. simpl in Hvn, Hvi.
    apply (Hquiet _ _ Hm Ew); auto; try congruence; try (rewrite Ec; reflexivity).
    + apply Hupd with (sk := sk); auto. congruence.
    + simpl. now inversion Hvn.
    + simpl. eapply incl_tl_l; eauto.
  - (* Write: data *)
    apply try_send_buf_keeps in Hr. destruct Hr as (E1 & E2 & _).
    rewrite Ec in Hvn, Hvi. simpl in Hvn, Hvi.
    apply (Hquiet _ _ Hm Ew); auto; try congruence; try (rewrite Ec; reflexivity).
    + apply Hupd with (sk := sk); auto. congruence.
    + simpl. now inversion Hvn.
    + simpl. eapply incl_tl_l; eauto.
  - (* final loop: next sink *)
    destruct Hm as (Ec' & Eh & Es & Ek & _).
    split; [congruence|].
    apply close_keeps in Hcl. destruct Hcl as (Hc0 & Hc1 & _).
    destruct (Hpick rest x rest') as [Hn Hi]; [now rewrite Ec | assumption|].
    pose proof (picks_perm _ _ _ Hp) as Hperm.
    assert (Ep : pending V = pending W).
    { apply pending_coord; auto; congruence. }
    constructor; rewrite ?Es, ?Ep; try apply H.
    + rewrite Eh, length_upd. apply (wi_valid H).
    + intros i ski Hi'. rewrite Eh in Hi'. unfold open_now.
      rewrite Es, Ep, Ec'. simpl.
      destruct (Nat.eq_dec x i) as [<-|Hne].
      * rewrite (nth_error_upd_same _ _ _ Hs) in Hi'. injection Hi' as <-.
        simpl. rewrite Hc1. split; [discriminate|].
        intros [Hin|[_ [Hin|Hin]]]; exfalso; [|discriminate|].
        -- eapply NoDup_app_disjoint;
             [apply (wi_nodup H) | eauto | apply Hi; now left].
        -- inversion Hn; auto.
      * rewrite nth_error_upd_other in Hi' by assumption.
        rewrite (wi_status H i Hi'). unfold open_now. rewrite Ec. simpl.
        assert (In i rest <-> In i rest').
        { split; intros Hin.
          - apply (Permutation_in _ (Permutation_sym Hperm)) in Hin.
            destruct Hin; [congruence | assumption].
          - apply (Permutation_in _ Hperm). now right. }
        intuition.
    + rewrite Ec'. simpl. split; [now inversion Hn | eapply incl_tl_l; eauto].
    + rewrite Ew. intros Hw. apply (wi_wdone H) in Hw. congruence.
  - (* run returns *)
    destruct Hm as (Ec' & Eh & Es & Ek & _).
    split; [congruence|].
    apply winv_frame with (W := W); auto.
    + apply pending_coord; auto; congruence.
    + now apply same_open_eq.
    + intros i Hi. rewrite Ec, Ec'. simpl. tauto.
    + rewrite Ec'. constructor.
    + rewrite Ec'. intros ? [].
Qed.

Lemma winv_drain W V :
  winv W -> cp W <> CPanic -> drain_shape W V ->
  cp V <> CPanic /\ winv V.
Proof.
  intros H Hcp (i & sk & sk' & ev & Hi & Hd & Eh & Es & Ek & _ & _ & Ew & _ & Hc).
  apply drain_step_queue in Hd. destruct Hd as (Hq & _).
  assert (Ho : same_open W V) by (eapply same_open_upd; eauto).
  destruct Hc as [[_ Ec]|(f & r & rest & _ & Ec & Ec')].
  - split; [congruence|].
    apply winv_frame with (W := W); auto; rewrite ?Ec; try apply H; try tauto.
    + unfold pending. now rewrite Ek, Ec.
    + rewrite Ew. apply H.
  - split; [congruence|].
    pose proof (wi_visiting H) as [Hvn Hvi]. rewrite Ec in Hvn, Hvi. simpl in *.
    apply winv_frame with (W := W); auto; rewrite ?Ec, ?Ec'; simpl.
    + unfold pending. now rewrite Ek, Ec, Ec'.
    + tauto.
    + now inversion Hvn.
    + eapply incl_tl_l; eauto.
    + rewrite Ew. intros Hw. apply (wi_wdone H) in Hw. congruence.
Qed.

Lemma winv_init n ts p : winv (init n ts p).
Proof.
  constructor; simpl.
  - constructor.
  - intros i [].
  - intros [|i] sk E; discriminate.
  - split; [constructor | intros ? []].
  - discriminate.
Qed.

Lemma reachable_wf n ts p W :
  reachable (init n ts p) W ->
  forall i sk, nth_error (heap W) i = Some sk -> sink_wf sk.
Proof.
  intros Hr i sk Hi.
  destruct (heap_runs Hr) as [_ Hh].
  destruct (Hh i sk Hi) as (w & ts0 & tr & Hrun).
  apply run_of_inv in Hrun. apply Hrun.
Qed.

Lemma panicked_false W :
  panicked W = false -> kp W <> KPanic /\ cp W <> CPanic.
Proof.
  unfold panicked. intros H.
  apply orb_false_elim in H. destruct H as [H _].
  apply orb_false_elim in H. destruct H as [H1 H2].
  split; intros E; rewrite E in *; discriminate.
Qed.

(** [run] never panics, whatever the client does, and as long as the
    client has not panicked the queues that are open are those [open_now]
    tells. *)
Lemma reachable_winv n ts p W :
  reachable (init n ts p) W ->
  cp W <> CPanic /\ (kp W = KPanic \/ winv W).
Proof.
  induction 1 as [|V V' Hr [IH1 IH2] Hin].
  - split; [discriminate | right; apply winv_init].
  - destruct (step_shape _ _ Hin) as [Hp Hsh].
    destruct (panicked_false _ Hp) as [Hk _].
    destruct IH2 as [IH2|IH2]; [contradiction|].
    destruct Hsh as [(Es & Ew & Hc)|[Hc|Hd]].
    + now apply winv_client with (W := V).
    + destruct (@winv_coord V V' IH2) as [G1 G2]; auto.
      * eapply reachable_wf; eauto.
      * apply (rg_nodup (reachable_reg_inv Hr)).
    + destruct (@winv_drain V V' IH2) as [G1 G2]; auto.
Qed.

(** ** [case cmdWrite] never waits *)

Lemma near_full_room ch :
  near_full ch = true -> length (Chan.cbuf ch) < Chan.ccap ch.
Proof.
  unfold near_full, Chan.cap, Chan.len. intros H.
  apply andb_prop in H. destruct H as [H1 H2].
  apply Nat.ltb_lt in H1. apply Nat.eqb_eq in H2.
  destruct (Chan.ccap ch =? 0) eqn:E; [apply Nat.eqb_eq in E; lia | lia].
Qed.

Lemma client_shape_sinks W V :
  client_shape W V ->
  forall s sk, nth_error (heap W) s = Some sk ->
    exists sk', nth_error (heap V) s = Some sk'
                /\ c sk' = c sk /\ flushers sk' = flushers sk
                /\ drain sk' = drain sk /\ done sk' = done sk.
Proof.
  intros Hc s sk Hs.
  assert (Hsame : heap V = heap W ->
            exists sk', nth_error (heap V) s = Some sk'
                        /\ c sk' = c sk /\ flushers sk' = flushers sk
                        /\ drain sk' = drain sk /\ done sk' = done sk).
  { intros E. rewrite E. eauto 6. }
  destruct Hc; auto.
  - match goal with E : heap V = _ |- _ => rewrite E end.
    rewrite nth_error_app1 by (apply nth_error_Some; congruence). eauto 6.
  - match goal with E : heap V = _ |- _ => rewrite E end.
    match goal with E : sink_Close _ _ = _ |- _ =>
      apply sink_Close_keeps in E; destruct E as (E1 & E2 & E3 & E4) end.
    destruct (Nat.eq_dec s0 s) as [->|Hne].
    + match goal with E : nth_error (heap W) s = Some sk0 |- _ =>
        rewrite (nth_error_upd_same _ _ _ E); rewrite E in Hs end.
      injection Hs as <-. eauto 6.
    + rewrite nth_error_upd_other by assumption. eauto 6.
Qed.

Lemma client_shape_cp W V :
  client_shape W V ->
  cp V = cp W
  \/ (cp W = CRange /\ exists x, cp V = run_case W x)
  \/ (exists s r, cp W = CRemoveSend s r /\ cp V = CRemoveClose r).
Proof. intros Hc. destruct Hc; eauto 6. Qed.

Lemma gap_step W V :
  winv W -> gap_ok W -> In V (step W) -> gap_ok V.
Proof.
  intros H G Hin. destruct (step_shape _ _ Hin) as [_ Hsh].
  intros b s rest Ec' sk' Hs'.
  destruct Hsh as [(Es & Ew & Hc)|[Hc|Hd]].
  - (* client *)
    assert (Ec : cp W = CWriteGap b s rest).
    { destruct (client_shape_cp Hc) as [E|[(E & x & Ex)|(s0 & r & E & Ex)]];
        try congruence. rewrite Ex in Ec'. destruct x; discriminate. }
    destruct (@winv_visiting W s H) as (sk & Hs & _); [rewrite Ec; now left|].
    destruct (client_shape_sinks Hc _ Hs) as (sk1 & Hs1 & E1 & _).
    rewrite Hs1 in Hs'. injection Hs' as <-. rewrite E1. eauto.
  - (* run *)
    destruct Hc as
      [ Ep Hp
      | Ec Ecl Ew Hm
      | s0 sk ch Ec Hs Hl Hcl Ew Hm
      | s0 sk Ec Hs Hl Ew Hm
      | w r s0 sk ch Ec Hl Hs Hcl Ew Hm
      | w r Ec Hl Ew Hm
      | Hb Ew Hm
      | r rest0 x rest' sk Ec Hp Hs Ew Hm
      | s0 r rest0 sk sk0 Ec Hs Hr Ew Hm
      | s0 f r rest0 sk sk0 Ec Hs Hr Ew Hm
      | b0 rest0 x rest' sk Ec Hp Hs Ew Hm
      | b0 s0 rest0 sk Ec Hs Ew Hm
      | b0 s0 rest0 sk sk0 Ec Hs Hr Ew Hm
      | b0 s0 rest0 sk sk0 Ec Hs Hr Ew Hm
      | rest0 x rest' sk ch Ec Hp Hs Hcl Ew Hm
      | Ec Ew Ew' Hm ];
      try (destruct Ep as (Ec1 & _); congruence);
      try (destruct Hm as (Ec1 & Eh & _); rewrite Ec1 in Ec'); try congruence;
      try (destruct (done sk); discriminate).
    destruct (near_full (c sk)) eqn:En; [|discriminate].
    injection Ec' as <- <- <-. rewrite Eh, Hs in Hs'. injection Hs' as <-.
    now apply near_full_room.
  - (* drain *)
    destruct Hd as (i & sk & sk1 & ev & Hi & Hd & Eh & Es & Ek & _ & _ & Ew & _ & Hc).
    assert (Ec : cp W = CWriteGap b s rest).
    { destruct Hc as [[_ E]|(f & r & rest0 & _ & E & E')]; congruence. }
    apply drain_step_queue in Hd. destruct Hd as (_ & Hcap & Hlen).
    rewrite Eh in Hs'.
    destruct (Nat.eq_dec i s) as [->|Hne].
    + rewrite (nth_error_upd_same _ _ _ Hi) in Hs'. injection Hs' as <-.
      specialize (G _ _ _ Ec _ Hi). lia.
    + rewrite nth_error_upd_other in Hs' by assumption. eauto.
Qed.

Lemma reachable_gap n ts p W :
  reachable (init n ts p) W -> gap_ok W.
Proof.
  induction 1 as [|V V' Hr IH Hin].
  - intros b s rest E. discriminate.
  - destruct (step_shape _ _ Hin) as [Hp _].
    destruct (panicked_false _ Hp) as [Hk _].
    destruct (reachable_winv Hr) as [_ [Hw|Hw]]; [contradiction|].
    eapply gap_step; eauto.
Qed.

Lemma picks_length {A} (l : list A) x r : In (x, r) (picks l) -> S (length r) = length l.
Proof. intros H. apply picks_perm, Permutation_length in H. exact H. Qed.

(** X5: [case cmdWrite] of [run] never waits for a sink: as long as no
    goroutine has panicked, at each of its statements ([for _, s := range
    sinks], the test of [len] and [cap], [s.c <- nil] and the [select])
    [run] has a step to take, whatever the sinks' queues hold and wherever
    their drain goroutines are; none of these steps panics, each brings
    the end of the loop nearer, and after the last one [run] is back at
    [range w.cmd]. *)
Theorem write_never_waits (n : nat) (ts : tstates) (p : list call) (W : world) :
  reachable (init n ts p) W -> panicked W = false ->
  0 < write_left (cp W) ->
  (exists V, In V (coord_steps W))
  /\ forall V, In V (coord_steps W) ->
       cp V <> CPanic
       /\ write_left (cp V) < write_left (cp W)
       /\ (write_left (cp V) = 0 -> cp V = CRange).
Proof.
  intros Hr Hp Hpos.
  destruct (panicked_false _ Hp) as [Hk _].
  destruct (reachable_winv Hr) as [_ [Hw|Hw]]; [contradiction|].
  pose proof (reachable_gap Hr) as Hg.
  pose proof (reachable_wf Hr) as Hwf.
  split.
  - unfold coord_steps.
    destruct (cp W) eqn:Ec; simpl in Hpos; try lia.
    + (* CWrite *)
      destruct rest as [|x rest]; [eexists; now left|].
      destruct (@winv_visiting W x Hw) as (sk & Hs & _); [rewrite Ec; now left|].
      simpl. unfold on_sink at 1. rewrite Hs.
      destruct (done sk); eexists; now left.
    + destruct (@winv_visiting W s Hw) as (sk & Hs & _); [rewrite Ec; now left|].
      unfold on_sink. rewrite Hs.
      destruct (near_full (c sk)); eexists; now left.
    + destruct (@winv_visiting W s Hw) as (sk & Hs & Hc); [rewrite Ec; now left|].
      unfold on_sink. rewrite Hs. unfold send_nil, Chan.send. rewrite Hc.
      specialize (Hg _ _ _ Ec _ Hs).
      assert (Hroom : Chan.has_room (c sk) (parked sk) = true).
      { unfold Chan.has_room.
        destruct (Chan.ccap (c sk) =? 0) eqn:E0;
          [apply Nat.eqb_eq in E0; lia | now apply Nat.ltb_lt]. }
      rewrite Hroom. simpl. eexists; now left.
    + destruct (@winv_visiting W s Hw) as (sk & Hs & Hc); [rewrite Ec; now left|].
      unfold on_sink. rewrite Hs. unfold try_send_buf, Chan.try_send. rewrite Hc.
      destruct (Chan.has_room (c sk) (parked sk)); simpl; eexists; now left.
  - intros V Hin. apply coord_steps_shape in Hin.
    destruct Hin as
      [ Ep Hpn
      | Ec Ecl Ew Hm
      | s0 sk ch Ec Hs Hl Hcl Ew Hm
      | s0 sk Ec Hs Hl Ew Hm
      | w r s0 sk ch Ec Hl Hs Hcl Ew Hm
      | w r Ec Hl Ew Hm
      | Hb Ew Hm
      | r rest0 x rest' sk Ec Hpk Hs Ew Hm
      | s0 r rest0 sk sk0 Ec Hs Hrg Ew Hm
      | s0 f r rest0 sk sk0 Ec Hs Hrg Ew Hm
      | b0 rest0 x rest' sk Ec Hpk Hs Ew Hm
      | b0 s0 rest0 sk Ec Hs Ew Hm
      | b0 s0 rest0 sk sk0 Ec Hs Hrg Ew Hm
      | b0 s0 rest0 sk sk0 Ec Hs Hrg Ew Hm
      | rest0 x rest' sk ch Ec Hpk Hs Hcl Ew Hm
      | Ec Ew Ew' Hm ];
      try (elim (winv_no_panic Hw Hwf Hpn));
      try (rewrite Ec in Hpos; simpl in Hpos; lia);
      try (destruct Hm as (Ec1 & _); rewrite Ec1, Ec; simpl).
    + destruct Hm as (Ec1 & _). rewrite Ec1.
      destruct Hb as [[r E]|[[r E]|[b E]]]; rewrite E in *; simpl in *; try lia.
      repeat split; auto; try discriminate; lia.
    + apply picks_length in Hpk.
      destruct (done sk); simpl; repeat split; try discriminate; lia.
    + destruct (near_full (c sk)); simpl; repeat split; try discriminate; lia.
    + repeat split; try discriminate; lia.
    + repeat split; try discriminate; lia.
Qed.

(** ** A client that keeps to the documentation *)

Lemma acted_writer ts ts' sk sk' :
  acted ts ts' sk sk' -> sink_wf sk ->
  drain sk <> DPanic /\ (done sk = false -> Writer sk <> None) ->
  drain sk' <> DPanic /\ (done sk' = false -> Writer sk' <> None).
Proof.
  intros (a & ev & H & _) Hwf [Hp HW].
  pose proof (wf_done Hwf) as Hd.
  pose proof (wf_flushers Hwf) as Hf.
  destruct a; act_inv H; simpl in *;
    repeat match goal with
           | E : drain sk = _ |- _ => rewrite E in *
           end; simpl in *;
    try solve [ split; [auto; discriminate | auto; try discriminate; congruence] ].
  all: try solve [ exfalso; auto; try discriminate; try congruence ].
  all: try solve [ exfalso; apply HW; congruence ].
  all: destruct (done sk) eqn:Ed; simpl in *; try discriminate;
       split; auto; try discriminate; try congruence.
  specialize (Hf eq_refl). discriminate.
Qed.

Lemma step_length W V :
  In V (step W) ->
  length (heap V) = length (heap W)
  \/ exists w p, prog W = Add w :: p /\ kp W = KNext
                 /\ heap V = heap W ++ [new_sink w (BufsPerSink W)].
Proof.
  intros Hin. destruct (step_shape _ _ Hin) as [_ [(_ & _ & Hc)|[Hc|Hd]]].
  - destruct Hc; try (left; congruence).
    + right. eauto.
    + left. match goal with E : heap V = _ |- _ => rewrite E end. apply length_upd.
  - destruct Hc;
      match goal with Hm : moves _ _ _ _ _ |- _ =>
        destruct Hm as (_ & Eh & _); rewrite Eh end;
      rewrite ?length_upd; auto.
  - destruct Hd as (i & sk & sk' & ev & _ & _ & Eh & _). left.
    rewrite Eh. apply length_upd.
Qed.

Lemma pinv_sinks W V :
  pinv W -> (forall i sk, nth_error (heap W) i = Some sk -> sink_wf sk) ->
  kp W <> KPanic ->
  In V (step W) ->
  forall i sk, nth_error (heap V) i = Some sk ->
    drain sk <> DPanic /\ (done sk = false -> Writer sk <> None).
Proof.
  intros P Hwf Hk Hin i sk' Hi.
  destruct (step_acts _ _ Hin) as [Ha _].
  destruct (Ha i sk' Hi) as [(sk & Hsk & Hact)|(Hn & _ & w' & ->)].
  - eapply acted_writer; eauto. apply (pi_writer P _ Hsk).
  - destruct (step_length _ _ Hin) as [El|(w & p & Ep & Ek & Eh)].
    + apply nth_error_None in Hn. rewrite <- El in Hn.
      apply nth_error_None in Hn. congruence.
    + rewrite Eh in Hi. apply nth_error_None in Hn.
      rewrite nth_error_app2 in Hi by assumption.
      destruct (i - length (heap W)) as [|k]; simpl in Hi;
        [|destruct k; discriminate].
      injection Hi as E. assert (w' = w) by (unfold new_sink in E; congruence).
      subst w'. simpl. split; [discriminate|]. intros _.
      pose proof (pi_proper P) as Hp. rewrite Ep in Hp. simpl in Hp.
      destruct w; [discriminate | discriminate].
Qed.

Lemma proper_tail k x p :
  proper k (x :: p) = true ->
  (forall w, x <> Add w) -> proper k p = true.
Proof.
  destruct x; simpl; intros H Hn; auto.
  - elim (Hn w). reflexivity.
  - apply andb_prop in H. tauto.
  - destruct p; [reflexivity | discriminate].
Qed.

Lemma pinv_client W V :
  pinv W -> winv W -> kp W <> KPanic ->
  sinks V = sinks W -> wdone V = wdone W -> client_shape W V ->
  (forall i sk, nth_error (heap V) i = Some sk ->
     drain sk <> DPanic /\ (done sk = false -> Writer sk <> None)) ->
  kp V <> KPanic /\ pinv V.
Proof.
  intros P Hw Hk Es Ew Hc Hsk.
  pose proof (pi_proper P) as Hpr.
  pose proof (pi_closed P) as Hcl.
  pose proof (pi_handle P) as [Hh1 Hh2].
  destruct Hc as
    [ Ek' Ec Eh Et Ecl Epr Hcause
    | w p Epr Ek Ek' Eh Ec Et Ecl Epr'
    | x Ec Ecl Ec' Eh Et Ecl' Hx
    | s r Ec Ec' Ek Eh Et Ecl Hx
    | Ec Eh Et Ecl Ek' Hx
    | p Epr Ek Ek' Ecl Ecl' Ec Eh Et Epr'
    | s sk sk' ev Hs Hcs Eh Ec Ecl Ek' Epr' Hx ].
  - (* panic: impossible *)
    exfalso. destruct Hcause as [[Hc1 Hc2]|(s & Hn & Hc2)].
    + destruct (Hcl Hc1) as [[E1 E2]|[E1 E2]];
        destruct Hc2 as [[E3 E4]|[s E3]]; congruence.
    + apply nth_error_None in Hn.
      destruct Hc2 as [E|[E (p & Ep)]].
      * specialize (Hh1 _ E). lia.
      * unfold made in Hpr. rewrite E, Ep in Hpr. simpl in Hpr.
        apply andb_prop in Hpr. destruct Hpr as [Hlt _].
        apply Nat.ltb_lt in Hlt. lia.
  - (* alloc *)
    split; [congruence|].
    constructor; auto.
    + unfold made in *. rewrite Ek', Epr'. now rewrite Ek in Hpr.
    + rewrite Ecl. intros Hc1. destruct (Hcl Hc1) as [[E1 E2]|[E1 E2]]; congruence.
    + intros s E. rewrite Ek' in E. injection E as <-.
      rewrite Eh, length_app. simpl. lia.
    + rewrite Eh, length_app, Ec, Ek'. split; [discriminate|].
      intros s r E. specialize (Hh2 _ _ E). lia.
  - (* send *)
    assert (Hnp : kp V <> KPanic /\ proper (made V) (prog V) = true
                  /\ (forall s, kp V <> KAddSend s)
                  /\ (forall s, kp V <> KRACDone s)
                  /\ forall s r, cp V <> CRemoveSend s r).
    { rewrite Ec'. unfold made in *. destruct x; simpl in Hx.
      - destruct Hx as ((w & Ep) & Ek & Ek'). rewrite Ek', Eh.
        rewrite Ek, Ep in Hpr. simpl in Hpr.
        rewrite <- (@pi_add W P s Ek).
        destruct w; [|discriminate].
        repeat split; auto; try discriminate; congruence.
      - destruct Hx as (Ep & Epr & Ek & Ek'). rewrite Ek', Eh, Epr.
        rewrite Ek in Hpr. repeat split; auto; try discriminate; congruence.
      - destruct Hx as ((buf & Ep) & Ek & Ek'). rewrite Ek', Eh.
        rewrite Ek, Ep in Hpr. simpl in Hpr.
        repeat split; auto; try discriminate; congruence.
      - destruct Hx as (Ep & Epr & Ek & Ek'). rewrite Ek', Eh, Epr.
        rewrite Ek in Hpr. repeat split; auto; try discriminate; congruence. }
    destruct Hnp as (G1 & G2 & G3 & G4 & G5).
    split; [assumption|]. constructor; auto.
    + rewrite Ecl'. discriminate.
    + intros s E. elim (G3 _ E).
    + split; [intros s E; elim (G4 _ E) | intros s r E; elim (G5 _ _ E)].
  - (* the sink removed is received *)
    specialize (Hh2 _ _ Ec).
    assert (Hnc : cmd_closed W = false).
    { destruct (cmd_closed W) eqn:E; [|reflexivity].
      destruct (Hcl eq_refl) as [[E1 _]|[E1 _]]; congruence. }
    destruct Hx as [[(w & Ep) Ek']|((w & Ep) & Epr & Ek')].
    + split; [congruence|]. constructor; auto.
      * unfold made in *. rewrite Ek', Eh. rewrite Ek, Ep in Hpr. exact Hpr.
      * rewrite Ecl, Hnc. discriminate.
      * intros s0 E. congruence.
      * rewrite Ek', Ec'. split; intros; discriminate.
    + split; [congruence|]. constructor; auto.
      * unfold made in *. rewrite Ek', Eh, Epr. now rewrite Ek in Hpr.
      * rewrite Ecl, Hnc. discriminate.
      * intros s0 E. congruence.
      * rewrite Ek', Ec', Eh. split; [|intros; discriminate].
        intros s0 E. injection E as <-. exact Hh2.
  - (* return *)
    split; [congruence|].
    assert (Hpr' : proper (length (heap W)) (prog V) = true
                   /\ (cmd_closed W = true -> prog V = [])).
    { unfold made in Hpr.
      destruct Hx as [(r & w & Ek & [Ep|Ep])|[(r & Ek & Ep)|(Ek & Ewd & Ep)]];
        rewrite Ek, Ep in Hpr; split;
        try (eapply proper_tail; [exact Hpr | discriminate]);
        intros Hc1; destruct (Hcl Hc1) as [[E1 E2]|[E1 E2]]; try congruence. }
    destruct Hpr' as [G1 G2].
    constructor; auto.
    + unfold made. now rewrite Ek', Eh.
    + rewrite Ecl. intros Hc1. right. auto.
    + intros s E. congruence.
    + rewrite Ek', Ec, Eh. split; [intros; discriminate | exact Hh2].
  - (* Close begins *)
    split; [congruence|]. constructor; auto.
    + unfold made in *. rewrite Ek', Eh, Epr'. now rewrite Ek in Hpr.
    + intros _. left. split; [assumption|]. rewrite Epr'.
      unfold made in Hpr. rewrite Ek, Epr in Hpr. simpl in Hpr.
      destruct p; [assumption | discriminate].
    + intros s E. congruence.
    + rewrite Ek', Ec, Eh. split; [intros; discriminate | exact Hh2].
  - (* sink.Close *)
    split; [congruence|].
    assert (Hnc : cmd_closed W = false).
    { destruct (cmd_closed W) eqn:E; [|reflexivity].
      destruct (Hcl eq_refl) as [[E1 E2]|[E1 E2]];
        destruct Hx as [[E3 (p & E4)]|[E3 (w & p & E4)]]; congruence. }
    constructor; auto.
    + unfold made in *. rewrite Ek', Eh, length_upd, Epr'.
      destruct Hx as [[E3 (p & E4)]|[E3 (w & p & E4)]]; rewrite E3, E4 in Hpr;
        rewrite E4; simpl; (eapply proper_tail; [exact Hpr | discriminate]).
    + rewrite Ecl, Hnc. discriminate.
    + intros s0 E. congruence.
    + rewrite Ek', Ec, Eh, length_upd. split; [intros; discriminate | exact Hh2].
Qed.

Lemma pinv_frame W V :
  pinv W ->
  kp V = kp W -> prog V = prog W -> cmd_closed V = cmd_closed W ->
  length (heap V) = length (heap W) ->
  (forall s r, cp V = CRemoveSend s r -> s < length (heap W)) ->
  (forall i sk, nth_error (heap V) i = Some sk ->
     drain sk <> DPanic /\ (done sk = false -> Writer sk <> None)) ->
  pinv V.
Proof.
  intros [H1 H2 H3 [H4 H5] H6] Ek Ep Ec El Hh Hs.
  constructor; unfold made in *; rewrite ?Ek, ?Ep, ?Ec, ?El; auto.
Qed.

Lemma pinv_coord W V :
  pinv W -> coord_shape W V ->
  (forall i sk, nth_error (heap V) i = Some sk ->
     drain sk <> DPanic /\ (done sk = false -> Writer sk <> None)) ->
  pinv V.
Proof.
  intros P Hc Hs.
  pose proof (pi_handle P) as [_ Hh].
  destruct Hc;
    match goal with Hm : moves _ _ _ _ _ |- _ =>
      destruct Hm as (Ec' & Eh & _ & Ek & Ep & Ecl & _)
    end;
    (apply pinv_frame with (W := W); auto;
     [ rewrite Eh, ?length_upd; reflexivity
     | rewrite Ec'; intros s' r' E;
       try discriminate;
       try (destruct (done sk); discriminate);
       try (destruct (near_full (c sk)); discriminate) ]).
  injection E as <- <-. apply nth_error_Some. congruence.
Qed.

Lemma pinv_drain W V :
  pinv W -> drain_shape W V ->
  (forall i sk, nth_error (heap V) i = Some sk ->
     drain sk <> DPanic /\ (done sk = false -> Writer sk <> None)) ->
  pinv V.
Proof.
  intros P (i & sk & sk' & ev & Hi & Hd & Eh & Es & Ek & Ep & Ecl & Ew & _ & Hc) Hs.
  pose proof (pi_handle P) as [_ Hh].
  apply pinv_frame with (W := W); auto.
  - rewrite Eh. apply length_upd.
  - destruct Hc as [[_ Ec]|(f & r & rest & _ & Ec & Ec')].
    + rewrite Ec. exact Hh.
    + rewrite Ec'. discriminate.
Qed.

Lemma pinv_init n ts p : proper 0 p = true -> pinv (init n ts p).
Proof.
  intros H. constructor; simpl; auto; try discriminate.
  - split; intros; discriminate.
  - intros [|i] sk E; discriminate.
Qed.

Lemma reachable_pinv n ts p W :
  proper 0 p = true ->
  reachable (init n ts p) W ->
  kp W <> KPanic /\ pinv W.
Proof.
  intros Hp. induction 1 as [|V V' Hr [IH1 IH2] Hin].
  - split; [discriminate | now apply pinv_init].
  - destruct (reachable_winv Hr) as [_ [Hw|Hw]]; [contradiction|].
    pose proof (reachable_wf Hr) as Hwf.
    pose proof (@pinv_sinks V V' IH2 Hwf IH1 Hin) as Hs.
    destruct (step_shape _ _ Hin) as [_ [(Es & Ew & Hc)|[Hc|Hd]]].
    + now apply pinv_client with (W := V).
    + split; [|now apply pinv_coord with (W := V)].
      destruct Hc;
        match goal with Hm : moves _ _ _ _ _ |- _ =>
          destruct Hm as (_ & _ & _ & Ek & _) end; congruence.
    + split; [|now apply pinv_drain with (W := V)].
      destruct Hd as (i & sk & sk' & ev & _ & _ & _ & _ & Ek & _). congruence.
Qed.

Lemma existsb_false {A} (f : A -> bool) l :
  (forall x, In x l -> f x = false) -> existsb f l = false.
Proof.
  induction l as [|x l IH]; simpl; intros H; [reflexivity|].
  rewrite (H x (or_introl eq_refl)). apply IH. auto.
Qed.

(** X6: with a client that adds no nil writer, calls [Close] of a handle
    only on a sink that [Add] has made, and calls nothing after
    [Writer.Close], no goroutine ever panics: no channel is closed twice,
    nothing is sent on a closed channel, and no sink is missing, whatever
    the targets do, whatever [BufsPerSink] and whatever the interleaving. *)
Theorem proper_client_never_panics (n : nat) (ts : tstates) (p : list call)
  (W : world) :
  proper 0 p = true ->
  reachable (init n ts p) W ->
  panicked W = false.
Proof.
  intros Hp Hr.
  destruct (reachable_pinv Hp Hr) as [Hk P].
  destruct (reachable_winv Hr) as [Hc _].
  unfold panicked.
  destruct (kp W); try (now elim Hk);
    destruct (cp W); try (now elim Hc); simpl;
    apply existsb_false; intros sk Hin;
    apply In_nth_error in Hin; destruct Hin as (i & Hi);
    destruct (@pi_writer W P i sk Hi) as [Hd _];
    destruct (drain sk); try reflexivity; now elim Hd.
Qed.

(** ** The flush that [run] has registered *)

Lemma drain_step_flush sk ts sk' ts' ev :
  drain_step sk ts = Done (sk', ts', ev) -> sink_wf sk ->
  (exists f, ev = EvAck (Some f) /\ drain sk = DAck (Some f)
             /\ drain sk' = DSelect /\ flushers sk' = flushers sk)
  \/ ((forall g, ev <> EvAck g)
      /\ ((exists f r, Chan.cbuf (flushers sk) = f :: r
                       /\ Chan.cbuf (flushers sk') = r
                       /\ drain sk = DSelect /\ drain sk' = DAck (Some f))
          \/ (Chan.cbuf (flushers sk') = Chan.cbuf (flushers sk)
              /\ (forall g, drain sk <> DAck g)
              /\ (forall g, drain sk' <> DAck g)))).
Proof.
  intros H Hwf. pose proof (wf_flushers Hwf) as Hf.
  change (act_step ADrain sk ts = Done (sk', ts', ev)) in H.
  act_inv H; simpl;
    repeat match goal with
           | E : drain sk = _ |- _ => rewrite E in *
           end;
    try solve [ right; split; [discriminate|]; right; simpl;
                repeat split; auto; discriminate ].
  - specialize (Hf eq_refl). discriminate.
  - right. split; [discriminate|]. left. eauto 8.
  - left. eauto.
Qed.

Lemma finv_new W i w n :
  winv W -> nth_error (heap W) i = None ->
  forall k, k = cp W \/ visiting k = [] -> flush_ok k i (new_sink w n).
Proof.
  intros H Hn k Hk. unfold flush_ok.
  assert (E : flushing k i = None).
  { unfold flushing. destruct Hk as [->|Hk].
    - destruct (cp W) eqn:Ec; auto;
        (destruct (s =? i) eqn:E; [|reflexivity]);
        apply Nat.eqb_eq in E; subst;
        (destruct (@winv_visiting W i H) as (sk & Hs & _);
         [rewrite Ec; now left | congruence]).
    - destruct k; auto; discriminate. }
  rewrite E. simpl. split; [reflexivity | discriminate].
Qed.

Lemma flush_ok_same k k' i sk sk' :
  flush_ok k i sk -> flushing k' i = flushing k i ->
  flushers sk' = flushers sk -> drain sk' = drain sk ->
  flush_ok k' i sk'.
Proof. unfold flush_ok. intros H -> -> ->. exact H. Qed.

Lemma finv_client W V :
  winv W -> finv W -> client_shape W V -> finv V.
Proof.
  intros H F Hc i sk' Hi.
  assert (Hfl : flushing (cp V) i = flushing (cp W) i).
  { destruct (client_shape_cp Hc) as [E|[(E & x & Ex)|(s & r & E & Ex)]];
      rewrite ?E, ?Ex; auto. destruct x; reflexivity. }
  assert (Hold : forall sk, nth_error (heap W) i = Some sk ->
            nth_error (heap V) i = Some sk' -> flush_ok (cp V) i sk').
  { intros sk Hs _.
    destruct (client_shape_sinks Hc _ Hs) as (sk1 & Hs1 & _ & E2 & E3 & _).
    rewrite Hs1 in Hi. injection Hi as <-.
    eapply flush_ok_same; eauto. }
  destruct (nth_error (heap W) i) as [sk|] eqn:Hs; [eauto|].
  destruct Hc;
    try (match goal with E : heap V = heap W |- _ => rewrite E in Hi end; congruence).
  - (* alloc *)
    match goal with E : heap V = _ |- _ => rewrite E in Hi end.
    apply nth_error_None in Hs.
    rewrite nth_error_app2 in Hi by assumption.
    destruct (i - length (heap W)) as [|k]; simpl in Hi;
      [|destruct k; discriminate].
    injection Hi as <-. eapply finv_new; eauto.
    now apply nth_error_None.
  - match goal with E : heap V = _ |- _ => rewrite E in Hi end.
    apply nth_error_None in Hs. rewrite <- (length_upd (heap W) s sk'0) in Hs.
    apply nth_error_None in Hs. congruence.
Qed.

Lemma finv_upd W V s sk sk' :
  finv W -> heap V = upd s sk' (heap W) -> nth_error (heap W) s = Some sk ->
  (forall i, i <> s -> flushing (cp V) i = flushing (cp W) i) ->
  (flush_ok (cp W) s sk -> flush_ok (cp V) s sk') ->
  finv V.
Proof.
  intros F Eh Hs Hfl Hok i ski Hi. rewrite Eh in Hi.
  destruct (Nat.eq_dec s i) as [<-|Hne].
  - rewrite (nth_error_upd_same _ _ _ Hs) in Hi. injection Hi as <-.
    apply Hok. apply F. assumption.
  - rewrite nth_error_upd_other in Hi by assumption.
    unfold flush_ok. rewrite Hfl by auto. apply (F i ski Hi).
Qed.

Lemma finv_same W V :
  finv W -> heap V = heap W ->
  (forall i, flushing (cp V) i = flushing (cp W) i) ->
  finv V.
Proof.
  intros F Eh Hfl i ski Hi. rewrite Eh in Hi.
  unfold flush_ok. rewrite Hfl. apply (F i ski Hi).
Qed.

Lemma finv_coord W V :
  finv W -> ~ coord_panics W -> coord_shape W V -> finv V.
Proof.
  intros F Hnp Hc.
  destruct Hc as
    [ Ep Hp
    | Ec Ecl Ew Hm
    | s sk ch Ec Hs Hl Hcl Ew Hm
    | s sk Ec Hs Hl Ew Hm
    | w r s sk ch Ec Hl Hs Hcl Ew Hm
    | w r Ec Hl Ew Hm
    | Hb Ew Hm
    | r rest x rest' sk Ec Hp Hs Ew Hm
    | s r rest sk sk' Ec Hs Hr Ew Hm
    | s f r rest sk sk' Ec Hs Hr Ew Hm
    | b rest x rest' sk Ec Hp Hs Ew Hm
    | b s rest sk Ec Hs Ew Hm
    | b s rest sk sk' Ec Hs Hr Ew Hm
    | b s rest sk sk' Ec Hs Hr Ew Hm
    | rest x rest' sk ch Ec Hp Hs Hcl Ew Hm
    | Ec Ew Ew' Hm ];
    try contradiction;
    destruct Hm as (Ec' & Eh & _).
  - apply finv_same with (W := W); auto. intros i. now rewrite Ec, Ec'.
  - eapply finv_upd; eauto.
    + intros i _. now rewrite Ec, Ec'.
    + intros Hok. eapply flush_ok_same; eauto. now rewrite Ec, Ec'.
  - apply finv_same with (W := W); auto. intros i. now rewrite Ec, Ec'.
  - eapply finv_upd; eauto.
    + intros i _. now rewrite Ec, Ec'.
    + intros Hok. eapply flush_ok_same; eauto. now rewrite Ec, Ec'.
  - apply finv_same with (W := W); auto. intros i. now rewrite Ec, Ec'.
  - apply finv_same with (W := W); auto. intros i. rewrite Ec'.
    destruct Hb as [[r E]|[[r E]|[b E]]]; now rewrite E.
  - apply finv_same with (W := W); auto. intros i. rewrite Ec, Ec'.
    now destruct (done sk).
  - (* register *)
    apply register_keeps in Hr. destruct Hr as (E1 & E2 & _ & E4).
    eapply finv_upd; eauto.
    + intros i Hne. rewrite Ec, Ec'. simpl.
      destruct (s =? i) eqn:E; [apply Nat.eqb_eq in E; congruence | reflexivity].
    + unfold flush_ok. rewrite Ec, Ec'. simpl. rewrite Nat.eqb_refl.
      intros [Hq Hd]. left. rewrite E4, Hq, E2. auto.
  - (* marker *)
    apply send_nil_keeps in Hr. destruct Hr as (_ & _ & E3 & E4 & _).
    eapply finv_upd; eauto.
    + intros i _. now rewrite Ec, Ec'.
    + intros Hok. eapply flush_ok_same; eauto. now rewrite Ec, Ec'.
  - apply finv_same with (W := W); auto. intros i. rewrite Ec, Ec'.
    now destruct (done sk).
  - apply finv_same with (W := W); auto. intros i. rewrite Ec, Ec'.
    now destruct (near_full (c sk)).
  - apply send_nil_keeps in Hr. destruct Hr as (_ & _ & E3 & E4 & _).
    eapply finv_upd; eauto.
    + intros i _. now rewrite Ec, Ec'.
    + intros Hok. eapply flush_ok_same; eauto. now rewrite Ec, Ec'.
  - apply try_send_buf_keeps in Hr. destruct Hr as (_ & _ & E3 & E4).
    eapply finv_upd; eauto.
    + intros i _. now rewrite Ec, Ec'.
    + intros Hok. eapply flush_ok_same; eauto. now rewrite Ec, Ec'.
  - eapply finv_upd; eauto.
    + intros i _. now rewrite Ec, Ec'.
    + intros Hok. eapply flush_ok_same; eauto. now rewrite Ec, Ec'.
  - apply finv_same with (W := W); auto. intros i. now rewrite Ec, Ec'.
Qed.

Lemma finv_drain W V :
  finv W -> (forall i sk, nth_error (heap W) i = Some sk -> sink_wf sk) ->
  drain_shape W V -> finv V.
Proof.
  intros F Hwf (i & sk & sk' & ev & Hi & Hd & Eh & Es & Ek & _ & _ & Ew & _ & Hc).
  destruct (@drain_step_flush sk (targets W) sk' (targets V) ev Hd (Hwf _ _ Hi))
    as [(f & -> & D1 & D2 & D3)|(Hne & [(f & r & Q1 & Q2 & D1 & D2)|(Q & D1 & D2)])].
  - (* acknowledgement *)
    destruct Hc as [[Hn _]|(f' & r & rest & E & Ec & Ec')]; [now elim (Hn (Some f))|].
    injection E as <-.
    eapply finv_upd; eauto.
    + intros j Hj. rewrite Ec, Ec'. simpl.
      destruct (i =? j) eqn:E; [apply Nat.eqb_eq in E; congruence | reflexivity].
    + unfold flush_ok. rewrite Ec, Ec'. simpl. rewrite Nat.eqb_refl.
      intros [[_ Hn]|[Hq _]]; [now elim (Hn (Some f))|].
      rewrite D2, D3, Hq. split; [reflexivity | discriminate].
  - (* the flusher is taken *)
    destruct Hc as [[_ Ec]|(f' & r' & rest & E & _)]; [|now elim (Hne (Some f'))].
    eapply finv_upd; eauto.
    + intros j _. now rewrite Ec.
    + unfold flush_ok. rewrite Ec.
      destruct (flushing (cp W) i) as [f0|].
      * intros [[Hq Hn]|[Hq Hn]]; [|congruence].
        rewrite Hq in Q1. injection Q1 as <- <-. right. auto.
      * intros [Hq _]. congruence.
  - destruct Hc as [[_ Ec]|(f' & r' & rest & E & _)]; [|now elim (Hne (Some f'))].
    eapply finv_upd; eauto.
    + intros j _. now rewrite Ec.
    + unfold flush_ok. rewrite Ec, Q.
      destruct (flushing (cp W) i) as [f0|].
      * intros [[Hq Hn]|[Hq Hn]]; [left; auto | now elim (D1 (Some f0))].
      * intros [Hq _]. auto.
Qed.

Lemma reachable_finv n ts p W :
  reachable (init n ts p) W -> finv W.
Proof.
  induction 1 as [|V V' Hr IH Hin].
  - intros [|i] sk E; discriminate.
  - destruct (step_shape _ _ Hin) as [Hp Hsh].
    destruct (panicked_false _ Hp) as [Hk _].
    destruct (reachable_winv Hr) as [_ [Hw|Hw]]; [contradiction|].
    pose proof (reachable_wf Hr) as Hwf.
    destruct Hsh as [(Es & Ew & Hc)|[Hc|Hd]].
    + eapply finv_client; eauto.
    + eapply finv_coord; eauto. now apply winv_no_panic.
    + eapply finv_drain; eauto.
Qed.

(** ** The drain goroutine of a closed queue comes to its end *)

Lemma winding_up_step s ts :
  winding_up s -> drain s <> DExit ->
  exists s' ts' ev,
    drain_step s ts = Done (s', ts', ev) /\ drain_left s' < drain_left s.
Proof.
  intros (Hwf & Hc & Hf & Ha & Hp & HW) He.
  pose proof (wf_done Hwf) as Hd.
  pose proof (wf_flushers Hwf) as Hfl.
  unfold drain_left, drain_step.
  destruct s as [w [q cap cl] d fl e p]. simpl in *. subst cl.
  destruct p; simpl in *; try (now elim He); try (now elim Hp);
    try (now elim (Ha f)).
  - (* DRange *)
    unfold Chan.recv. simpl. destruct q as [|[b|] r]; simpl;
      do 3 eexists; (split; [reflexivity|]); simpl; lia.
  - (* DLen *)
    unfold Chan.len, Chan.recv. simpl.
    destruct (cap =? 0); simpl.
    + do 3 eexists; (split; [reflexivity|]); simpl; lia.
    + destruct q as [|x r]; simpl;
        do 3 eexists; (split; [reflexivity|]); simpl; lia.
  - (* DSelect *)
    rewrite Hf. destruct (Chan.cclosed fl) eqn:E.
    + specialize (Hfl eq_refl). discriminate.
    + do 3 eexists; (split; [reflexivity|]); simpl; lia.
  - (* DWrite *)
    subst d. destruct w as [t|]; [|now elim (HW eq_refl)].
    unfold t_Write. destruct (hd None (wres (tget ts t)));
      do 3 eexists; (split; [reflexivity|]); simpl; lia.
  - subst d. do 3 eexists; (split; [reflexivity|]); simpl; lia.
  - (* DErrClose *)
    subst d. unfold sink_Close. simpl.
    destruct w as [t|]; [destruct (t_Close (tget ts t)) as [[tst r]|]|]; simpl;
      do 3 eexists; (split; [reflexivity|]); simpl; lia.
  - (* DErrRange *)
    unfold Chan.recv. simpl. destruct q as [|x r]; simpl;
      do 3 eexists; (split; [reflexivity|]); simpl; lia.
  - subst d. do 3 eexists; (split; [reflexivity|]); simpl; lia.
  - (* DCloseFlushers *)
    unfold Chan.close. destruct (Chan.cclosed fl) eqn:E.
    + specialize (Hfl eq_refl). discriminate.
    + do 3 eexists; (split; [reflexivity|]); simpl; lia.
Qed.

Lemma winding_up_kept w n ts0 tr s ts s' ts' ev :
  run_of (new_sink w n, ts0) tr (s, ts) ->
  winding_up s ->
  drain_step s ts = Done (s', ts', ev) ->
  winding_up s'.
Proof.
  intros Hr (Hwf & Hc & Hf & Ha & Hp & HW) Hs.
  assert (Hr' : run_of (new_sink w n, ts0) (tr ++ [(ADrain, ev)]) (s', ts')).
  { econstructor; eauto. discriminate. }
  apply run_of_inv in Hr'.
  assert (Hact : acted ts ts' s s').
  { apply acted_by with (a := ADrain) (ev := ev); [exact Hs | discriminate]. }
  destruct (acted_writer Hact Hwf (conj Hp HW)) as [Hp' HW'].
  destruct (drain_step_queue _ _ Hs) as (Hc' & _).
  destruct (@drain_step_flush s ts s' ts' ev Hs Hwf)
    as [(f & _ & D1 & _)|(_ & [(f & r & Q1 & _)|(Q & D1 & D2)])].
  - now elim (Ha (Some f)).
  - congruence.
  - unfold winding_up. split; [apply Hr'|]. split; [congruence|].
    split; [congruence|]. auto.
Qed.

Lemma winding_up_exits w n ts0 : forall m tr s ts,
  drain_left s <= m ->
  run_of (new_sink w n, ts0) tr (s, ts) ->
  winding_up s ->
  exists k, drain (fst (drain_n k s ts)) = DExit.
Proof.
  induction m as [|m IH]; intros tr s ts Hm Hr Hw.
  - exists 0. simpl. unfold drain_left in Hm.
    destruct Hw as (_ & _ & _ & Ha & Hp & _).
    destruct (drain s); simpl in Hm; try lia; auto.
    + now elim (Ha f).
    + now elim Hp.
  - destruct (dpc_eq_dec (drain s) DExit) as [E|E]; [exists 0; exact E|].
    destruct (@winding_up_step s ts Hw E) as (s' & ts' & ev & Hs & Hl).
    destruct (IH (tr ++ [(ADrain, ev)]) s' ts') as (k & Hk).
    + lia.
    + econstructor; eauto. discriminate.
    + eapply winding_up_kept; eauto.
    + exists (S k). simpl. rewrite Hs. exact Hk.
Qed.

(** ** After [Writer.Close], and after [sink.Close] *)

Lemma shut_step W V :
  (shutting (cp W) = true -> cmd_closed W = true) ->
  In V (step W) ->
  shutting (cp V) = true -> cmd_closed V = true.
Proof.
  intros H Hin Hs. destruct (step_shape _ _ Hin) as [_ [(_ & _ & Hc)|[Hc|Hd]]].
  - destruct Hc;
      repeat match goal with
             | E : cp V = _ |- _ => rewrite E in Hs
             | E : cmd_closed V = _ |- _ => rewrite E
             end; auto;
      try (destruct x; discriminate); try discriminate.
  - destruct Hc;
      match goal with Hm : moves _ _ _ _ _ |- _ =>
        destruct Hm as (Ec' & _ & _ & _ & _ & Ecl & _) end;
      rewrite Ecl; rewrite Ec' in Hs; auto;
      try discriminate;
      try (destruct (done sk); discriminate);
      try (destruct (near_full (c sk)); discriminate);
      try (apply H; match goal with E : cp W = _ |- _ => rewrite E end; reflexivity).
  - destruct Hd as (i & sk & sk' & ev & _ & _ & _ & _ & _ & _ & Ecl & _ & _ & Hc).
    rewrite Ecl. apply H.
    destruct Hc as [[_ Ec]|(f & r & rest & _ & _ & Ec')]; [congruence|].
    rewrite Ec' in Hs. discriminate.
Qed.

Lemma reachable_shut n ts p W :
  reachable (init n ts p) W -> shutting (cp W) = true -> cmd_closed W = true.
Proof.
  induction 1 as [|V V' Hr IH Hin]; [discriminate|].
  eapply shut_step; eauto.
Qed.

(** X7: once [run] has closed [w.done] (so when [Writer.Close] is about to
    return), with a client that keeps to the documentation ([proper]),
    the queue of every sink ever made by [Add] is closed, and its drain
    goroutine, given the steps, comes to its end: [Writer.Close] leaves
    no drain goroutine waiting for ever. *)
Theorem Close_ends_every_drain (n : nat) (ts : tstates) (p : list call) (W : world) :
  proper 0 p = true ->
  reachable (init n ts p) W ->
  wdone W = true ->
  forall i sk, nth_error (heap W) i = Some sk ->
    Chan.cclosed (c sk) = true
    /\ exists k, drain (fst (drain_n k sk (targets W))) = DExit.
Proof.
  intros Hp Hr Hd i sk Hi.
  destruct (reachable_pinv Hp Hr) as [Hk P].
  destruct (reachable_winv Hr) as [_ [Hw|Hw]]; [contradiction|].
  pose proof (wi_wdone Hw Hd) as Ec.
  assert (Hcl : cmd_closed W = true).
  { apply (reachable_shut Hr). now rewrite Ec. }
  assert (Hc : Chan.cclosed (c sk) = true).
  { destruct (Chan.cclosed (c sk)) eqn:E; [reflexivity|]. exfalso.
    apply (wi_status Hw i Hi) in E. unfold open_now, pending in E.
    rewrite Ec in E. simpl in E.
    destruct (pi_closed P Hcl) as [[Ek _]|[Ek _]]; rewrite Ek in E; simpl in E;
      intuition discriminate. }
  split; [exact Hc|].
  destruct (heap_runs Hr) as [_ Hh].
  destruct (Hh i sk Hi) as (w & ts0 & tr & Hrun).
  apply (@winding_up_exits w n ts0 (drain_left sk) tr sk (targets W));
    [lia | exact Hrun|].
  pose proof (reachable_finv Hr i Hi) as Hf. unfold flush_ok in Hf.
  rewrite Ec in Hf. simpl in Hf. destruct Hf as [Hf1 Hf2].
  destruct (@pi_writer W P i sk Hi) as [Hp1 Hp2].
  unfold winding_up. split; [apply (reachable_wf Hr i Hi)|]. auto 6.
Qed.

(** *** The error of a sink and its control point *)

Lemma error_path_step a s ts s' ts' ev :
  act_step a s ts = Done (s', ts', ev) ->
  (on_error_path (drain s) = true -> err s <> None) ->
  on_error_path (drain s') = true -> err s' <> None.
Proof.
  intros H.
  destruct a; act_inv H; simpl;
    repeat match goal with
           | E : drain s = _ |- _ => rewrite E in *
           | E : err s = _ |- _ => rewrite E in *
           end; simpl in *; auto; try discriminate;
    intros; try discriminate; auto.
Qed.

Lemma run_error_path w n ts0 tr s ts :
  run_of (new_sink w n, ts0) tr (s, ts) ->
  on_error_path (drain s) = true -> err s <> None.
Proof.
  intros H.
  remember (new_sink w n, ts0) as st0 eqn:E0.
  remember (s, ts) as st eqn:E.
  revert s ts E.
  induction H as [st|st tr s1 ts1 a s2 ts2 ev H IH Hs Ho]; intros s ts E; subst.
  - injection E as <- <-. discriminate.
  - injection E as <- <-. eapply error_path_step; eauto.
Qed.

(** X8: when the [sink.Close] called by [RemoveAndClose], or by the client
    on a handle got from [Remove], returns, [s.done] is closed; the client
    is given the error of the sink, which is the error of the failed write
    if a write had failed; and if it is given nil, the queue of the sink
    is closed and empty and its drain goroutine has left its loop with
    nothing in hand: all that was queued has been passed to the target or
    dropped at a nil marker.  The target, if it is an [io.Closer], is
    forgotten by the sink. *)
Theorem Close_returns_after_drain (n : nat) (ts : tstates) (p : list call)
  (W V : world) (s : sid) (sk : sink) :
  reachable (init n ts p) W ->
  kp W = KRACDone s \/ (kp W = KNext /\ exists q, prog W = CloseHandle s :: q) ->
  nth_error (heap W) s = Some sk ->
  In V (client_steps W) ->
  exists sk' e,
    nth_error (heap V) s = Some sk'
    /\ kp V = KNext /\ rets V = rets W ++ [RetErr e]
    /\ done sk = true /\ err sk' = e
    /\ (err sk <> None -> e = err sk)
    /\ (e = None ->
        Chan.cbuf (c sk') = [] /\ Chan.cclosed (c sk') = true
        /\ in_flight sk' = []
        /\ (drain sk' = DCloseFlushers \/ drain sk' = DExit))
    /\ match Writer sk' with
       | None => True
       | Some t => closer (tget (targets V) t) = None
       end.
Proof.
  intros Hr Ek Hs Hin.
  destruct (heap_runs Hr) as [_ Hh].
  destruct (Hh s sk Hs) as (w & ts0 & tr & Hrun).
  pose proof (run_of_inv Hrun) as Hinv.
  pose proof (ri_wf Hinv) as Hwf.
  pose proof (run_error_path Hrun) as Herr.
  assert (Hcl : exists q, In V (client_Close W s q)).
  { unfold client_steps in Hin. destruct Ek as [Ek|(Ek & q' & Ep)].
    - destruct (prog W) as [|[] q]; try contradiction;
        unfold Writer_Add, Writer_Remove, Writer_RemoveAndClose, Writer_Write,
          Writer_Flush, Writer_Close, handle_Close in Hin;
        rewrite Ek in Hin; try contradiction.
      exists q. exact Hin.
    - rewrite Ep in Hin. unfold handle_Close in Hin. rewrite Ek in Hin.
      exists q'. exact Hin. }
  clear Hin. destruct Hcl as (q & Hin).
  unfold client_Close in Hin. rewrite Hs in Hin.
  destruct (sink_Close sk (targets W)) as [[[sk' ts'] ev]| |] eqn:Ec;
    try contradiction.
  2:{ exfalso. unfold sink_Close in Ec. destruct (done sk); simpl in Ec; [|discriminate].
      destruct (Writer sk) as [t|]; [|discriminate].
      destruct (t_Close (tget (targets W) t)) as [[tst r]|]; discriminate. }
  destruct Hin as [<-|[]]. simpl.
  rewrite (nth_error_upd_same _ _ _ Hs).
  exists sk', (returned ev). split; [reflexivity|]. split; [reflexivity|].
  split; [reflexivity|].
  assert (Hd : done sk = true).
  { unfold sink_Close in Ec. destruct (done sk); [reflexivity | discriminate]. }
  assert (Hq : err sk = None ->
            Chan.cbuf (c sk) = [] /\ Chan.cclosed (c sk) = true
            /\ in_flight sk = []
            /\ (drain sk = DCloseFlushers \/ drain sk = DExit)).
  { intros He. pose proof (wf_done Hwf) as Hpd. rewrite Hd in Hpd.
    assert (Hpr : past_range (drain sk) = true
                  /\ (drain sk = DCloseFlushers \/ drain sk = DExit)).
    { destruct (drain sk); simpl in *; try discriminate; auto;
        elim (Herr eq_refl He). }
    destruct Hpr as [Hpr Hdr].
    destruct (wf_range Hwf Hpr) as [Hb Hc].
    repeat split; auto. unfold in_flight. rewrite Hb.
    destruct Hdr as [-> | ->]; reflexivity. }
  split; [exact Hd|].
  unfold sink_Close in Ec. rewrite Hd in Ec. simpl in Ec.
  destruct (Writer sk) as [t|] eqn:EW.
  - destruct (t_Close (tget (targets W) t)) as [[tst r]|] eqn:Et.
    + injection Ec as <- <- <-. simpl.
      split; [reflexivity|]. split.
      * intros He. destruct (err sk); [reflexivity | now elim He].
      * split; [|exact I]. intros He. apply Hq.
        destruct (err sk); [discriminate | reflexivity].
    + injection Ec as <- <- <-. simpl. rewrite EW.
      split; [reflexivity|]. split; [auto|]. split; [exact Hq|].
      now apply t_Close_None.
  - injection Ec as <- <- <-. simpl. rewrite EW.
    split; [reflexivity|]. split; [auto|]. split; [exact Hq | exact I].
Qed.

(** ** The registry changes only at [cmdAdd] and [cmdRemove] *)

Lemma lookup_delete_other k w m : k <> w -> lookup k (delete w m) = lookup k m.
Proof.
  intros Hne. induction m as [|[k' v] r IH]; simpl; [reflexivity|].
  destruct (key_eqb w k') eqn:E1; simpl.
  - apply key_eqb_eq in E1. subst k'.
    destruct (key_eqb k w) eqn:E2; [apply key_eqb_eq in E2; congruence | exact IH].
  - destruct (key_eqb k k'); [reflexivity | exact IH].
Qed.

Lemma registered_step (W V : world) (k : iface) (s : sid) :
  In V (step W) ->
  lookup k (sinks W) = Some s ->
  lookup k (sinks V) = Some s \/ exists r, cp W = CRemove k r.
Proof.
  intros Hin Hl. destruct (step_shape _ _ Hin) as [_ [(Es & _ & _)|[Hc|Hd]]].
  - left. congruence.
  - destruct Hc;
      match goal with Hm : moves _ _ _ _ _ |- _ =>
        destruct Hm as (_ & _ & Es & _) end;
      rewrite Es; auto.
    + (* Add of a new target *)
      left. simpl. destruct (key_eqb k (Writer sk)) eqn:E; [|assumption].
      apply key_eqb_eq in E. congruence.
    + (* Remove *)
      destruct (option_eq_dec Nat.eq_dec k w) as [->|Hne]; [right; eauto|].
      left. now rewrite lookup_delete_other.
  - left. destruct Hd as (i & sk & sk' & ev & _ & _ & _ & Es & _). congruence.
Qed.

(** X9: a sink registered for a target stays registered for it, under the
    same handle, until [run] takes up a [cmdRemove] for that very target:
    no failed write, no second [Add], no [Flush] and no [Close] of the
    Writer takes it out of the map or puts another sink in its place. *)
Theorem registered_until_removed (W V : world) (k : iface) (s : sid) :
  reachable W V ->
  lookup k (sinks W) = Some s ->
  lookup k (sinks V) = Some s
  \/ exists U r, reachable W U /\ reachable U V /\ cp U = CRemove k r.
Proof.
  intros Hr Hl. induction Hr as [|V V' Hr IH Hin]; [now left|].
  destruct IH as [IH|(U & r & H1 & H2 & H3)].
  - destruct (@registered_step V V' k s Hin IH) as [E|(r & E)]; [now left|].
    right. exists V, r. split; [assumption|]. split; [|assumption].
    eapply reach_step; [apply reach_refl | assumption].
  - right. exists U, r. split; [assumption|]. split; [|assumption].
    eapply reach_step; eassumption.
Qed.

(** ** Writes in a row, with the drain goroutine held up *)

Lemma near_full_false (q : list item) n cl :
  length q + 1 <> n -> near_full (Chan.Mk q n cl) = false.
Proof.
  intros H. unfold near_full, Chan.cap, Chan.len. simpl.
  destruct (n =? 0) eqn:E.
  - apply Nat.eqb_eq in E. subst. reflexivity.
  - apply andb_false_iff. right. apply Nat.eqb_neq. lia.
Qed.

Lemma near_full_true (q : list item) n cl :
  1 < n -> length q + 1 = n -> near_full (Chan.Mk q n cl) = true.
Proof.
  intros H1 H2. unfold near_full, Chan.cap, Chan.len. simpl.
  replace (n =? 0) with false by (symmetry; apply Nat.eqb_neq; lia).
  apply andb_true_iff. split; [apply Nat.ltb_lt; lia | apply Nat.eqb_eq; lia].
Qed.

Lemma has_room_true {A} (q : list A) n cl p :
  length q < n -> Chan.has_room (Chan.Mk q n cl) p = true.
Proof.
  intros H. unfold Chan.has_room. simpl.
  replace (n =? 0) with false by (symmetry; apply Nat.eqb_neq; lia).
  apply Nat.ltb_lt. lia.
Qed.

Lemma has_room_false {A} (q : list A) n cl p :
  0 < n -> n <= length q -> Chan.has_room (Chan.Mk q n cl) p = false.
Proof.
  intros H0 H. unfold Chan.has_room. simpl.
  replace (n =? 0) with false by (symmetry; apply Nat.eqb_neq; lia).
  apply Nat.ltb_ge. lia.
Qed.

Lemma sink_Write_room w q n fl e p b :
  length q + 1 <> n -> length q < n ->
  sink_Write (Sink w (Chan.Mk q n false) false fl e p) b
  = Done (Sink w (Chan.Mk (q ++ [b]) n false) false fl e p, (go_len b, None)).
Proof.
  intros H1 H2. unfold sink_Write. simpl.
  rewrite near_full_false by assumption.
  unfold try_send_buf, Chan.try_send. simpl.
  rewrite has_room_true by assumption. reflexivity.
Qed.

Lemma sink_Write_full w q n fl e p b :
  0 < n -> length q = n ->
  sink_Write (Sink w (Chan.Mk q n false) false fl e p) b
  = Done (Sink w (Chan.Mk q n false) false fl e p, (go_len b, None)).
Proof.
  intros H1 H2. unfold sink_Write. simpl.
  rewrite near_full_false by lia.
  unfold try_send_buf, Chan.try_send. simpl.
  rewrite has_room_false by lia. reflexivity.
Qed.

Lemma sink_Write_gap w q n fl e p b :
  1 < n -> length q + 1 = n ->
  sink_Write (Sink w (Chan.Mk q n false) false fl e p) b
  = Done (Sink w (Chan.Mk (q ++ [None]) n false) false fl e p, (go_len b, None)).
Proof.
  intros H1 H2. unfold sink_Write. simpl.
  rewrite near_full_true by assumption.
  unfold send_nil, Chan.send. simpl.
  rewrite has_room_true by lia. reflexivity.
Qed.

Lemma sink_Writes_cons s b r :
  sink_Writes s (b :: r)
  = (x <- sink_Write s b ;; y <- sink_Writes (fst x) r ;;
     Done (fst y, snd x :: snd y)).
Proof. reflexivity. Qed.

Lemma sink_Writes_fill w fl e p n : forall (q1 : list bytes) (q : list item),
  length q + length q1 < n ->
  sink_Writes (Sink w (Chan.Mk q n false) false fl e p) (map Some q1)
  = Done (Sink w (Chan.Mk (q ++ map Some q1) n false) false fl e p,
          map (fun x => (go_len x, None)) (map Some q1)).
Proof.
  induction q1 as [|b q1 IH]; intros q Hl.
  - simpl. now rewrite app_nil_r.
  - simpl in Hl. change (map Some (b :: q1)) with (Some b :: map Some q1).
    rewrite sink_Writes_cons, sink_Write_room by lia.
    cbn [obind fst snd].
    rewrite IH by (rewrite length_app; simpl; lia).
    simpl. rewrite <- app_assoc. reflexivity.
Qed.

Lemma sink_Writes_full w fl e p n q : forall (more : list item),
  0 < n -> length q = n ->
  sink_Writes (Sink w (Chan.Mk q n false) false fl e p) more
  = Done (Sink w (Chan.Mk q n false) false fl e p,
          map (fun x => (go_len x, None)) more).
Proof.
  intros more Hn Hl. induction more as [|b more IH]; [reflexivity|].
  rewrite sink_Writes_cons, sink_Write_full by assumption.
  cbn [obind fst snd]. rewrite IH. reflexivity.
Qed.

Lemma sink_Writes_app s l1 : forall l2 s1 r1,
  sink_Writes s l1 = Done (s1, r1) ->
  sink_Writes s (l1 ++ l2)
  = (y <- sink_Writes s1 l2 ;; Done (fst y, r1 ++ snd y)).
Proof.
  revert s. induction l1 as [|b l1 IH]; intros s l2 s1 r1 H; simpl in *.
  - injection H as <- <-. destruct (sink_Writes s l2) as [[s2 r2]| |]; reflexivity.
  - destruct (sink_Write s b) as [[s' x]| |]; simpl in *; try discriminate.
    destruct (sink_Writes s' l1) as [[s2 r2]| |] eqn:E; simpl in *; try discriminate.
    injection H as <- <-. rewrite (IH _ l2 _ _ E).
    destruct (sink_Writes s2 l2) as [[s3 r3]| |]; reflexivity.
Qed.

(** X10: calls of [sink.Write] on a new sink of capacity [n >= 2] whose
    drain goroutine takes no step in between: the first [n - 1] slices are
    queued, the next call queues the nil marker in place of its slice, and
    every later slice is dropped; each call returns the length of its
    slice and a nil error all the same. *)
Theorem slow_sink_keeps_first_writes (w : iface) (n : nat) (q1 : list bytes)
  (b : item) (more : list item) :
  2 <= n -> S (length q1) = n ->
  sink_Writes (new_sink w n) (map Some q1 ++ b :: more)
  = Done (set_c (new_sink w n) (Chan.Mk (map Some q1 ++ [None]) n false),
          map (fun x => (go_len x, None)) (map Some q1 ++ b :: more)).
Proof.
  intros Hn Hl.
  etransitivity.
  { apply sink_Writes_app. unfold new_sink, Chan.make.
    apply sink_Writes_fill. simpl. lia. }
  rewrite sink_Writes_cons. simpl app.
  rewrite sink_Write_gap by (rewrite ?length_map; lia).
  cbn [obind fst snd].
  rewrite sink_Writes_full by (rewrite ?length_app, ?length_map; simpl; lia).
  simpl. unfold set_c. simpl. f_equal. f_equal.
  now rewrite map_app.
Qed.

(** *** A flush that is never acknowledged *)

Lemma stuck_client_cp W V :
  client_shape W V ->
  (forall s r, cp W <> CRemoveSend s r) -> cp W <> CRange ->
  cp V = cp W.
Proof.
  intros Hc H1 H2.
  destruct (client_shape_cp Hc) as [E|[(E & _)|(s & r & E & _)]]; auto.
  - contradiction.
  - elim (H1 _ _ E).
Qed.

(** X11: if the target's write fails while [run] is in [sink.Flush] at
    [<-done], [run] stays there for ever: the drain goroutine never sends
    on [done], the registry stays as it is, and no later command is taken
    up. *)
Theorem flush_hangs_after_failure (W V : world) (s : sid) (f r : chanid)
  (rest : list sid) (sk : sink) :
  cp W = CFlushWait s f r rest ->
  nth_error (heap W) s = Some sk -> failed (drain sk) = true ->
  reachable W V ->
  cp V = CFlushWait s f r rest
  /\ sinks V = sinks W
  /\ exists sk', nth_error (heap V) s = Some sk' /\ failed (drain sk') = true.
Proof.
  intros Ec Hs Hf Hr.
  induction Hr as [|V V' Hr (IH1 & IH2 & sk1 & IH3 & IH4) Hin]; [eauto|].
  destruct (step_shape _ _ Hin) as [_ [(Es & _ & Hc)|[Hc|Hd]]].
  - (* client *)
    destruct (client_shape_sinks Hc _ IH3) as (sk2 & Hs2 & _ & _ & Ed & _).
    split; [|split; [congruence|]].
    + rewrite <- IH1. apply stuck_client_cp; auto; rewrite IH1; discriminate.
    + exists sk2. split; [assumption|]. now rewrite Ed.
  - (* run has no step *)
    exfalso. destruct Hc; unfold coord_panics in *;
      repeat match goal with
             | H : _ \/ _ |- _ => destruct H
             | H : exists _, _ |- _ => destruct H
             end;
      try congruence;
      match goal with H : context [cp V] |- _ => rewrite IH1 in H end;
      try contradiction.
  - (* drain *)
    destruct Hd as (i & ski & ski' & ev & Hi & Hd & Eh & Es & _ & _ & _ & _ & _ & Hc).
    assert (Hact : act_step ADrain ski (targets V) = Done (ski', targets V', ev))
      by exact Hd.
    destruct (Nat.eq_dec i s) as [->|Hne].
    + rewrite IH3 in Hi. injection Hi as <-.
      destruct (failed_step _ _ _ Hact) as [_ H2].
      destruct (H2 IH4) as (Hf' & Hna & _).
      split; [|split; [congruence|]].
      * destruct Hc as [[_ E]|(f' & r' & rest' & E & _)]; [congruence|].
        now elim (Hna (Some f')).
      * exists ski'. split; [|assumption].
        rewrite Eh. apply (nth_error_upd_same _ _ _ IH3).
    + split; [|split; [congruence|]].
      * destruct Hc as [[_ E]|(f' & r' & rest' & _ & E & _)]; congruence.
      * exists sk1. split; [|assumption].
        rewrite Eh. now rewrite nth_error_upd_other.
Qed.

(** X12: if the drain goroutine, still in the loop over [s.flushers] of an
    earlier marker, has received the channel of a flush whose marker
    [run] has yet to send, and the queue has no room for the marker, then
    neither moves again: [run] stays at [s.c <- nil] and the drain
    goroutine at [f <- struct{}{}], with the queue as it is. *)
Theorem flush_deadlocks_on_early_ack (W V : world) (s : sid) (f r : chanid)
  (rest : list sid) (sk : sink) :
  cp W = CFlushNil s f r rest ->
  nth_error (heap W) s = Some sk ->
  drain sk = DAck (Some f) ->
  Chan.cclosed (c sk) = false -> Chan.has_room (c sk) false = false ->
  reachable W V ->
  cp V = CFlushNil s f r rest
  /\ exists sk', nth_error (heap V) s = Some sk'
                 /\ drain sk' = DAck (Some f) /\ c sk' = c sk.
Proof.
  intros Ec Hs Hd Hcl Hroom Hr.
  induction Hr as [|V V' Hr (IH1 & sk1 & IH2 & IH3 & IH4) Hin]; [eauto|].
  destruct (step_shape _ _ Hin) as [_ [(Es & _ & Hc)|[Hc|Hdr]]].
  - (* client *)
    destruct (client_shape_sinks Hc _ IH2) as (sk2 & Hs2 & E1 & _ & E3 & _).
    split.
    + rewrite <- IH1. apply stuck_client_cp; auto; rewrite IH1; discriminate.
    + exists sk2. repeat split; congruence.
  - (* run cannot send its marker *)
    exfalso.
    destruct Hc as
      [ Ep Hp
      | Ec0 Ecl Ew Hm
      | s0 sk0 ch Ec0 Hs0 Hl Hcl0 Ew Hm
      | s0 sk0 Ec0 Hs0 Hl Ew Hm
      | w r0 s0 sk0 ch Ec0 Hl Hs0 Hcl0 Ew Hm
      | w r0 Ec0 Hl Ew Hm
      | Hb Ew Hm
      | r0 rest0 x rest' sk0 Ec0 Hp Hs0 Ew Hm
      | s0 r0 rest0 sk0 sk0' Ec0 Hs0 Hrg Ew Hm
      | s0 f0 r0 rest0 sk0 sk0' Ec0 Hs0 Hrg Ew Hm
      | b rest0 x rest' sk0 Ec0 Hp Hs0 Ew Hm
      | b s0 rest0 sk0 Ec0 Hs0 Ew Hm
      | b s0 rest0 sk0 sk0' Ec0 Hs0 Hrg Ew Hm
      | b s0 rest0 sk0 sk0' Ec0 Hs0 Hrg Ew Hm
      | rest0 x rest' sk0 ch Ec0 Hp Hs0 Hcl0 Ew Hm
      | Ec0 Ew Ew' Hm ];
      try congruence;
      try (destruct Hb as [[? E]|[[? E]|[? E]]]; congruence).
    + unfold coord_panics in Hp. rewrite IH1 in Hp.
      destruct Hp as [Hp|(sk0 & Hs0 & Hp)]; congruence.
    + rewrite IH1 in Ec0. injection Ec0 as <- <- <- <-.
      rewrite IH2 in Hs0. injection Hs0 as <-.
      apply send_nil_keeps in Hrg. destruct Hrg as (_ & _ & _ & _ & Hroom').
      unfold parked in Hroom'. rewrite IH3, IH4 in Hroom'. congruence.
  - (* drain *)
    destruct Hdr as (i & ski & ski' & ev & Hi & Hd' & Eh & Es & _ & _ & _ & _ & _ & Hc).
    destruct (Nat.eq_dec i s) as [->|Hne].
    + exfalso. rewrite IH2 in Hi. injection Hi as <-.
      unfold drain_step in Hd'. rewrite IH3 in Hd'. injection Hd' as _ _ <-.
      destruct Hc as [[Hn _]|(f' & r' & rest' & _ & E & _)]; [|congruence].
      now elim (Hn (Some f)).
    + split.
      * destruct Hc as [[_ E]|(f' & r' & rest' & _ & E & _)]; congruence.
      * exists sk1. split; [|auto]. rewrite Eh. now rewrite nth_error_upd_other.
Qed.

(** ** The scenario of [TestRemoveAndClose] *)

Lemma rac_ok_spec W :
  rac_ok W = true ->
  (finished W = true ->
   calls (tget (targets W) 0) = [Some [x01; x02; x03]]
   /\ rets W = [RetWrite 3 None; RetErr None; RetWrite 3 None; RetErr None])
  /\ (finished W = false -> step W <> [])
  /\ ~ In (Some [x04; x05; x06]) (calls (tget (targets W) 0))
  /\ panicked W = false.
Proof.
  unfold rac_ok. intros H. apply andb_prop in H. destruct H as [Hc Hf].
  apply andb_prop in Hc. destruct Hc as [Hp Hc].
  apply negb_true_iff in Hp.
  repeat split; try exact Hp.
  - rewrite H in Hf. apply andb_prop in Hf. destruct Hf as [Hf _]. clear Hc.
    destruct (list_eq_dec _ _ _); [assumption | discriminate].
  - rewrite H in Hf. apply andb_prop in Hf. destruct Hf as [_ Hf].
    destruct (list_eq_dec ret_eq_dec _ _); [assumption | discriminate].
  - intros E. rewrite E in Hf. destruct (step W); discriminate.
  - repeat match type of Hc with
           | (if ?d then _ else _) = true => destruct d as [->|_]
           end; try discriminate; simpl; intuition discriminate.
Qed.

Lemma rac_explored n :
  1 <= n <= 3 -> explore 40 rac_ok [init n [buffer] rac_scenario] = true.
Proof.
  intros H. assert (n = 1 \/ n = 2 \/ n = 3) as [->|[->| ->]] by lia;
    vm_cast_no_check (eq_refl true).
Qed.

Lemma rac_explored_roomy :
  explore 40 rac_roomy [init 4 [buffer] rac_scenario] = true.
Proof. vm_cast_no_check (eq_refl true). Qed.

(** X13: on a started Writer whose queue depth is at least 1, whatever the
    interleaving, the scenario of [TestRemoveAndClose] comes to its end
    within 40 steps without getting stuck: the target B has then been
    passed [1,2,3] once and nothing else, [RemoveAndClose] and [Close] have
    returned nil and both writes (3, nil); the write made after
    [RemoveAndClose(B)] never reaches B, and no goroutine panics. *)
Theorem RemoveAndClose_scenario (n : nat) (Hn : 1 <= n) :
  (exists W, reachable (init n [buffer] rac_scenario) W /\ finished W = true)
  /\ forall k W, steps k (init n [buffer] rac_scenario) W ->
       k < 40
       /\ (finished W = true ->
           calls (tget (targets W) 0) = [Some [x01; x02; x03]]
           /\ rets W = [RetWrite 3 None; RetErr None; RetWrite 3 None; RetErr None])
       /\ (finished W = false -> step W <> [])
       /\ ~ In (Some [x04; x05; x06]) (calls (tget (targets W) 0))
       /\ panicked W = false.
Proof.
  pose (sched := repeat 0 23).
  destruct (le_lt_dec n 3) as [Hle|Hgt].
  - split.
    + assert (H : exists W, follow sched (init n [buffer] rac_scenario) = Some W
                            /\ finished W = true).
      { assert (n = 1 \/ n = 2 \/ n = 3) as [->|[->| ->]] by lia;
          vm_compute; eexists; split; reflexivity. }
      destruct H as (W & HW & Hf). exists W. split; [|assumption].
      eapply follow_reachable; eassumption.
    + intros k W Hs.
      destruct (@explore_sound 40 rac_ok [init n [buffer] rac_scenario]
                               (init n [buffer] rac_scenario) k W)
        as [HP Hk]; [apply rac_explored; lia | now left | assumption |].
      split; [assumption | apply rac_ok_spec; assumption].
  - assert (Hroomy : forall j U, steps j (init 4 [buffer] rac_scenario) U ->
                       rac_ok U = true /\ roomy U = true /\ j < 40).
    { intros j U HU.
      destruct (@explore_sound 40 rac_roomy [init 4 [buffer] rac_scenario]
                               (init 4 [buffer] rac_scenario) j U)
        as [HP Hj]; [apply rac_explored_roomy | now left | assumption |].
      apply andb_prop in HP. tauto. }
    change (init n [buffer] rac_scenario)
      with (recap n (init 4 [buffer] rac_scenario)).
    split.
    + assert (H : exists W, follow sched (init 4 [buffer] rac_scenario) = Some W
                            /\ finished W = true).
      { vm_compute; eexists; split; reflexivity. }
      destruct H as (W & HW & Hf).
      apply follow_reachable, reachable_steps in HW. destruct HW as [k Hk].
      exists (recap n W). split; [|exact Hf].
      apply steps_reachable with (k := k).
      apply steps_recap_fwd; [lia | assumption |].
      intros j U HU. apply (Hroomy j U HU).
    + intros k W Hs.
      destruct (@steps_recap n ltac:(lia) k (init 4 [buffer] rac_scenario) W)
        as (V0 & Hs0 & ->); [|assumption|].
      { intros j U HU. apply (Hroomy j U HU). }
      destruct (Hroomy k V0 Hs0) as (Hok & Hr & Hk).
      split; [assumption|].
      destruct (rac_ok_spec _ Hok) as (H1 & H2 & H3 & H4).
      split; [exact H1|]. split; [|split; [exact H3|]].
      * intros Hf. rewrite (@step_recap n ltac:(lia) V0 Hr).
        specialize (H2 Hf). destruct (step V0); [congruence | discriminate].
      * rewrite panicked_recap. exact H4.
Qed.

Lemma RemoveAndClose_scenario_witness :
  1 <= 2
  /\ exists W, reachable (init 2 [buffer] rac_scenario) W
               /\ finished W = true
               /\ calls (tget (targets W) 0) = [Some [x01; x02; x03]].
Proof.
  split; [lia|].
  destruct (@RemoveAndClose_scenario 2 ltac:(lia)) as [(W & Hr & Hf) Hall].
  exists W. split; [exact Hr|]. split; [exact Hf|].
  destruct (reachable_steps Hr) as [k Hk].
  apply (proj1 (proj2 (Hall k W Hk)) Hf).
Defined.

(** ** The theorems on concrete runs, continued *)

Lemma drain_keeps_order_witness :
  exists tr s ts,
    exec [AWriteTry (Some [x01]); AWriteTry (Some [x02]); ADrain; ADrain] []
         (new_sink B 4) [buffer]
    = Some (tr, s, ts)
    /\ written tr = [Some [x01]]
    /\ in_flight s = [Some [x02]]
    /\ subseq (written tr ++ in_flight s) (offered tr).
Proof.
  do 3 eexists. split; [vm_compute; reflexivity|].
  split; [vm_compute; reflexivity|]. split; [vm_compute; reflexivity|].
  eapply (@drain_keeps_order B 4 [buffer]).
  eapply (@exec_run_of [AWriteTry (Some [x01]); AWriteTry (Some [x02]); ADrain; ADrain]
                       (new_sink B 4, [buffer]) [] (new_sink B 4) [buffer]);
    [apply run_nil | vm_compute; reflexivity].
Defined.

Lemma no_ack_after_failure_witness :
  exists tr s ts,
    exec [AWriteTry (Some [x01]); AFlushReg 5; AFlushNil;
          ADrain; ADrain; ADrain; ADrain; ADrain; ADrain] []
         (new_sink B 4) [failing_target]
    = Some (tr, s, ts)
    /\ failures tr = [ErrIO 2]
    /\ Chan.cbuf (flushers s) = [5]
    /\ forall tr1 x tr2,
         tr = tr1 ++ x :: tr2 -> failure x <> None ->
         forall y, In y tr2 ->
           (forall f, snd y <> EvAck f) /\ (forall t b r, snd y <> EvWrite t b r).
Proof.
  do 3 eexists. split; [vm_compute; reflexivity|].
  split; [vm_compute; reflexivity|]. split; [vm_compute; reflexivity|].
  eapply (@no_ack_after_failure B 4 [failing_target]).
  eapply (@exec_run_of
            [AWriteTry (Some [x01]); AFlushReg 5; AFlushNil;
             ADrain; ADrain; ADrain; ADrain; ADrain; ADrain]
            (new_sink B 4, [failing_target]) [] (new_sink B 4) [failing_target]);
    [apply run_nil | vm_compute; reflexivity].
Defined.

Lemma flush_acknowledged_when_drained_witness :
  let s := set_c (new_sink B 4) (Chan.Mk [Some [x01]; Some [x02]] 4 false) in
  exists s1 k,
    sink_Flush s 7 = Done (s1, true)
    /\ (forall j, j < k -> forall g, drain (fst (drain_n j s1 [buffer])) <> DAck g)
    /\ drain (fst (drain_n k s1 [buffer])) = DAck (Some 7)
    /\ Chan.cbuf (c (fst (drain_n k s1 [buffer]))) = []
    /\ calls (tget (snd (drain_n k s1 [buffer])) 0) = [Some [x01]; Some [x02]].
Proof.
  intros s.
  apply (@flush_acknowledged_when_drained s [buffer] 0 7 false);
    try reflexivity; simpl; lia.
Defined.

Lemma marker_discards_queue_witness :
  let s := set_c (new_sink B 4)
                 (Chan.Mk [Some [x01]; None; Some [x02]; Some [x03]] 4 false) in
  let r := drain_n 6 s [buffer] in
  drain (fst r) = DSelect
  /\ Chan.cbuf (c (fst r)) = []
  /\ calls (tget (snd r) 0) = [Some [x01]]
  /\ forall t', t' <> 0 -> tget (snd r) t' = tget [buffer] t'.
Proof.
  intros s.
  apply (@marker_discards_queue s [buffer] 0 false [[x01]] [Some [x02]; Some [x03]]);
    try reflexivity; simpl; lia.
Defined.

Lemma write_never_waits_witness :
  exists W,
    follow [0; 0; 0; 0] (init 4 [buffer] [Add B; Write (Some [x01])]) = Some W
    /\ cp W = CWrite [x01] [0]
    /\ (exists V, In V (coord_steps W))
    /\ forall V, In V (coord_steps W) ->
         cp V <> CPanic
         /\ write_left (cp V) < write_left (cp W)
         /\ (write_left (cp V) = 0 -> cp V = CRange).
Proof.
  eexists. split; [vm_compute; reflexivity|]. split; [vm_compute; reflexivity|].
  apply (@write_never_waits 4 [buffer] [Add B; Write (Some [x01])]).
  - apply (@follow_reachable [0; 0; 0; 0]). vm_compute; reflexivity.
  - vm_compute; reflexivity.
  - vm_compute; lia.
Defined.

Lemma proper_client_never_panics_witness :
  exists W,
    follow [0; 0; 0; 0; 0; 0; 0; 0] (init 4 [failing_target] scenario) = Some W
    /\ panicked W = false.
Proof.
  eexists. split; [vm_compute; reflexivity|].
  apply (@proper_client_never_panics 4 [failing_target] scenario).
  - vm_compute; reflexivity.
  - apply (@follow_reachable [0; 0; 0; 0; 0; 0; 0; 0]). vm_compute; reflexivity.
Defined.

Lemma Close_ends_every_drain_witness :
  exists W sk,
    follow (repeat 0 12) (init 4 [buffer] [Add B; Write (Some [x01]); Close]) = Some W
    /\ nth_error (heap W) 0 = Some sk
    /\ Chan.cclosed (c sk) = true
    /\ exists k, drain (fst (drain_n k sk (targets W))) = DExit.
Proof.
  do 2 eexists. split; [vm_compute; reflexivity|]. split; [vm_compute; reflexivity|].
  refine (@Close_ends_every_drain 4 [buffer] [Add B; Write (Some [x01]); Close]
            _ _ _ _ 0 _ _).
  - vm_compute; reflexivity.
  - apply (@follow_reachable (repeat 0 12)). vm_compute; reflexivity.
  - vm_compute; reflexivity.
  - vm_compute; reflexivity.
Defined.

Lemma Close_returns_after_drain_witness :
  exists W V sk,
    follow [0; 0; 0; 0; 0; 0; 0; 0; 0; 0; 0; 1; 1; 1; 1]
           (init 4 [buffer] rac_scenario) = Some W
    /\ kp W = KRACDone 0
    /\ nth_error (heap W) 0 = Some sk
    /\ In V (client_steps W)
    /\ exists sk' e,
         nth_error (heap V) 0 = Some sk'
         /\ kp V = KNext /\ rets V = rets W ++ [RetErr e]
         /\ done sk = true /\ err sk' = e
         /\ (err sk <> None -> e = err sk)
         /\ (e = None ->
             Chan.cbuf (c sk') = [] /\ Chan.cclosed (c sk') = true
             /\ in_flight sk' = []
             /\ (drain sk' = DCloseFlushers \/ drain sk' = DExit))
         /\ match Writer sk' with
            | None => True
            | Some t => closer (tget (targets V) t) = None
            end.
Proof.
  pose (W0 := init 4 [buffer] rac_scenario).
  pose (sched := [0; 0; 0; 0; 0; 0; 0; 0; 0; 0; 0; 1; 1; 1; 1]).
  assert (HW : exists W, follow sched W0 = Some W
                         /\ kp W = KRACDone 0
                         /\ exists sk, nth_error (heap W) 0 = Some sk
                         /\ exists V, In V (client_steps W)).
  { vm_compute. eexists. split; [reflexivity|]. split; [reflexivity|].
    eexists. split; [reflexivity|]. eexists. left. reflexivity. }
  destruct HW as (W & HW & Hk & sk & Hs & V & HV).
  exists W, V, sk.
  split; [exact HW|]. split; [exact Hk|]. split; [exact Hs|]. split; [exact HV|].
  exact (@Close_returns_after_drain 4 [buffer] rac_scenario W V 0 sk
           (@follow_reachable sched _ _ HW) (or_introl Hk) Hs HV).
Defined.

Lemma registered_until_removed_witness :
  exists W V,
    follow (repeat 0 4) (init 4 [failing_target] [Add B; Write (Some [x01]); Flush])
    = Some W
    /\ follow (repeat 0 10) W = Some V
    /\ lookup B (sinks W) = Some 0
    /\ (lookup B (sinks V) = Some 0
        \/ exists U r, reachable W U /\ reachable U V /\ cp U = CRemove B r).
Proof.
  do 2 eexists. split; [vm_compute; reflexivity|]. split; [vm_compute; reflexivity|].
  split; [vm_compute; reflexivity|].
  apply registered_until_removed.
  - apply (@follow_reachable (repeat 0 10)). vm_compute; reflexivity.
  - vm_compute; reflexivity.
Defined.

Lemma slow_sink_keeps_first_writes_witness :
  sink_Writes (new_sink B 3)
              [Some [x01]; Some [x02]; Some [x03]; Some [x04]]
  = Done (set_c (new_sink B 3) (Chan.Mk [Some [x01]; Some [x02]; None] 3 false),
          [(1, None); (1, None); (1, None); (1, None)]).
Proof.
  apply (@slow_sink_keeps_first_writes B 3 [[x01]; [x02]] (Some [x03]) [Some [x04]]);
    simpl; lia.
Defined.

Lemma flush_hangs_after_failure_witness :
  exists W,
    follow (repeat 0 14)
           (init 4 [failing_target] [Add B; Write (Some [x01]); Flush]) = Some W
    /\ kp W = KFlushWait 0
    /\ forall V, reachable W V ->
         cp V = CFlushWait 0 1 0 []
         /\ sinks V = sinks W
         /\ exists sk', nth_error (heap V) 0 = Some sk' /\ failed (drain sk') = true.
Proof.
  eexists. split; [vm_compute; reflexivity|]. split; [vm_compute; reflexivity|].
  intros V. eapply flush_hangs_after_failure; vm_compute; reflexivity.
Defined.

Lemma flush_deadlocks_on_early_ack_witness :
  exists W sk,
    follow (repeat 0 22)
           (init 1 [buffer] [Add B; Flush; Write (Some [x01]); Flush]) = Some W
    /\ nth_error (heap W) 0 = Some sk
    /\ Chan.cbuf (c sk) = [Some [x01]]
    /\ forall V, reachable W V ->
         cp V = CFlushNil 0 3 2 []
         /\ exists sk', nth_error (heap V) 0 = Some sk'
                        /\ drain sk' = DAck (Some 3) /\ c sk' = c sk.
Proof.
  do 2 eexists. split; [vm_compute; reflexivity|]. split; [vm_compute; reflexivity|].
  split; [vm_compute; reflexivity|].
  intros V. eapply flush_deadlocks_on_early_ack; vm_compute; reflexivity.
Defined.

(** ** A client that never calls [Flush] is never stuck *)

(** *** The reply channels *)

Lemma client_steps_chans W V :
  In V (client_steps W) ->
  closed V = closed W
  /\ nextc W <= nextc V
  /\ (forall r, kp V = KRemoveWait r ->
        kp W = KRemoveWait r
        \/ (r = nextc W /\ nextc V = S r /\ exists w, cp V = CRemove w r))
  /\ (kp V = KCloseWait -> cmd_closed V = true)
  /\ (forall r s r', kp W = KRemoveWait r -> cp W = CRemoveSend s r' ->
        r' = r /\ cp V = CRemoveClose r)
  /\ (forall r, kp W = KRemoveWait r ->
        (exists s, cp W = CRemoveSend s r) \/ is_closed W r = true).
Proof.
  intros H.
  unfold client_steps, Writer_Add, Writer_Remove, Writer_RemoveAndClose,
    Writer_Write, Writer_Flush, Writer_Close, handle_Close, client_Close in H.
  destruct (prog W) as [|[] p] eqn:Epr; destruct (kp W) eqn:Ek;
    try contradiction;
    unfold cmd_send, run_case in H; break H;
    try contradiction;
    destruct H as [<-|[]]; simpl;
    (split; [reflexivity|]); (split; [lia|]);
    (split; [intros ? E; try discriminate; try (left; exact E);
             try (injection E as <-; right; split; [reflexivity|];
                  split; [reflexivity|]; eexists; reflexivity)|]);
    (split; [intros E; try discriminate; auto|]);
    (split; [intros ? ? ? E1 E2; try discriminate|intros ? E1; try discriminate]).
  all: try (injection E1 as <-); try (injection E2 as <- <-).
  all: try match goal with
           | H : (_ =? _) = true |- _ => apply Nat.eqb_eq in H; subst
           end.
  all: eauto.
Qed.

Lemma on_sink_chans W s f V :
  In V (on_sink W s f) -> closed V = closed W /\ nextc V = nextc W.
Proof.
  intros Hin. apply on_sink_cases in Hin.
  destruct Hin as [->|(sk & sk' & k & _ & _ & ->)]; simpl; auto.
Qed.

Lemma coord_steps_chans W V :
  In V (coord_steps W) ->
  nextc W <= nextc V
  /\ match cp W with
     | CRemoveClose r | CFlush r [] => closed V = r :: closed W
     | _ => closed V = closed W
     end.
Proof.
  intros Hin. unfold coord_steps in Hin.
  destruct (cp W) eqn:Ec;
    try contradiction;
    try (apply on_sink_chans in Hin; destruct Hin as [-> ->]; split; [lia|reflexivity]).
  - destruct (cmd_closed W); [|contradiction]. destruct Hin as [<-|[]]. simpl. auto.
  - destruct (run_cmdAdd (sinks W) (heap W) s) as [[m h]| |];
      destruct Hin as [<-|[]]; simpl; auto.
  - destruct (run_cmdRemove (sinks W) (heap W) w) as [[[m h] [x|]]| |];
      destruct Hin as [<-|[]]; simpl; auto.
  - destruct Hin as [<-|[]]. simpl. auto.
  - destruct rest as [|x rest]; [destruct Hin as [<-|[]]; simpl; auto|].
    apply in_flat_map in Hin. destruct Hin as (y & _ & Hin).
    apply on_sink_chans in Hin. destruct Hin as [-> ->]. split; [lia|reflexivity].
  - apply in_map_iff in Hin. destruct Hin as (V0 & <- & Hin).
    apply on_sink_chans in Hin. destruct Hin as [E1 E2]. simpl.
    rewrite E1, E2. split; [lia|reflexivity].
  - destruct rest as [|x rest]; [destruct Hin as [<-|[]]; simpl; auto|].
    apply in_flat_map in Hin. destruct Hin as (y & _ & Hin).
    apply on_sink_chans in Hin. destruct Hin as [-> ->]. split; [lia|reflexivity].
  - destruct rest as [|x rest].
    { destruct (wdone W); destruct Hin as [<-|[]]; simpl; auto. }
    apply in_flat_map in Hin. destruct Hin as (y & _ & Hin).
    apply on_sink_chans in Hin. destruct Hin as [-> ->]. split; [lia|reflexivity].
Qed.

Lemma drain_steps_from_chans W V : forall l i,
  In V (drain_steps_from W i l) -> closed V = closed W /\ nextc V = nextc W.
Proof.
  induction l as [|sk l IH]; simpl; intros i Hin; [contradiction|].
  apply in_app_iff in Hin. destruct Hin as [Hin|Hin]; [|eapply IH; eauto].
  unfold drain_steps_at in Hin.
  destruct (drain_step sk (targets W)) as [[[sk' ts] ev]| |]; try contradiction.
  destruct ev; try (destruct Hin as [<-|[]]; simpl; auto).
  destruct (cp W); try contradiction.
  destruct ((s =? i) && match f with Some g => g =? f0 | None => false end);
    [|contradiction].
  destruct Hin as [<-|[]]. simpl. auto.
Qed.

(** *** A closed queue stays closed *)

Lemma act_step_closed a s ts s' ts' ev :
  act_step a s ts = Done (s', ts', ev) ->
  Chan.cclosed (c s) = true -> Chan.cclosed (c s') = true.
Proof.
  intros H Hc. destruct a; act_inv H; simpl; auto; congruence.
Qed.

Lemma closed_stays W V s sk :
  In V (step W) ->
  nth_error (heap W) s = Some sk -> Chan.cclosed (c sk) = true ->
  exists sk', nth_error (heap V) s = Some sk' /\ Chan.cclosed (c sk') = true.
Proof.
  intros Hin Hs Hc.
  assert (Hlt : s < length (heap V)).
  { assert (s < length (heap W)) by (apply nth_error_Some; congruence).
    destruct (step_length _ _ Hin) as [E|(w & p & _ & _ & E)];
      rewrite E; [|rewrite length_app]; lia. }
  destruct (nth_error (heap V) s) as [sk'|] eqn:Es';
    [|apply nth_error_None in Es'; lia].
  exists sk'. split; [reflexivity|].
  destruct (step_acts _ _ Hin) as [Ha _].
  destruct (Ha s sk' Es') as [(sk0 & Hs0 & a & ev & Hact & _)|(Hn & _)];
    [|congruence].
  rewrite Hs in Hs0. injection Hs0 as <-.
  eapply act_step_closed; eauto.
Qed.

(** *** Goroutines that have a step *)

Lemma drain_steps_from_in W sk sk' ts ev : forall l i j,
  nth_error l j = Some sk ->
  drain_step sk (targets W) = Done (sk', ts, ev) ->
  (forall f, ev <> EvAck f) ->
  drain_steps_from W i l <> [].
Proof.
  induction l as [|x l IH]; intros i [|j] Hj Hd He; try discriminate; simpl.
  - injection Hj as ->. unfold drain_steps_at. rewrite Hd.
    destruct ev; try discriminate. now elim (He f).
  - simpl in Hj. intros E. apply app_eq_nil in E. destruct E as [_ E].
    revert E. eapply IH; eauto.
Qed.

Lemma drain_step_ack s ts s' ts' f :
  drain_step s ts = Done (s', ts', EvAck f) -> drain s = DAck f.
Proof.
  intros H. unfold drain_step, sink_Close, Chan.recv, Chan.close, t_Write in H.
  simpl in H. cases H; simpl in H; try discriminate.
  injection H as _ _ E. congruence.
Qed.

Lemma coord_ready W :
  gap_ok W ->
  (forall s, In s (visiting (cp W)) ->
     exists sk, nth_error (heap W) s = Some sk /\ Chan.cclosed (c sk) = false) ->
  busy (cp W) = true -> coord_steps W <> [].
Proof.
  intros Hg Hv Hb. unfold coord_steps.
  destruct (cp W) eqn:Ec; try discriminate.
  - destruct (run_cmdAdd (sinks W) (heap W) s) as [[m h]| |]; discriminate.
  - destruct (run_cmdRemove (sinks W) (heap W) w) as [[[m h] [x|]]| |]; discriminate.
  - destruct rest as [|x rest]; [discriminate|].
    simpl. unfold on_sink at 1.
    destruct (nth_error (heap W) x); [destruct (done s)|]; discriminate.
  - unfold on_sink. destruct (nth_error (heap W) s); [|discriminate].
    destruct (near_full (c s0)); discriminate.
  - destruct (Hv s) as (sk & Hs & Hc); [simpl; now left|].
    unfold on_sink. rewrite Hs. unfold send_nil, Chan.send. rewrite Hc.
    specialize (Hg _ _ _ Ec _ Hs).
    assert (Hroom : Chan.has_room (c sk) (parked sk) = true).
    { unfold Chan.has_room.
      destruct (Chan.ccap (c sk) =? 0) eqn:E0;
        [apply Nat.eqb_eq in E0; lia | now apply Nat.ltb_lt]. }
    rewrite Hroom. discriminate.
  - unfold on_sink. destruct (nth_error (heap W) s) as [sk|]; [|discriminate].
    unfold try_send_buf, Chan.try_send.
    destruct (Chan.cclosed (c sk)); [discriminate|].
    destruct (Chan.has_room (c sk) (parked sk)); discriminate.
  - destruct rest as [|x rest]; [destruct (wdone W); discriminate|].
    simpl. unfold on_sink at 1.
    destruct (nth_error (heap W) x) as [sk|]; [|discriminate].
    unfold Chan.close. destruct (Chan.cclosed (c sk)); discriminate.
Qed.

(** *** The protocol of the client and [run] without [Flush] *)

Lemma is_closed_fresh W r :
  (forall x, In x (closed W) -> x < r) -> is_closed W r = false.
Proof.
  intros H. unfold is_closed. apply existsb_false. intros x Hx.
  apply Nat.eqb_neq. specialize (H x Hx). lia.
Qed.

Lemma noflush_tail x q :
  existsb is_flush (x :: q) = false -> existsb is_flush q = false.
Proof. simpl. intros H. apply orb_false_elim in H. tauto. Qed.

Lemma linv_client W V :
  linv W -> kp V <> KPanic -> In V (step W) -> In V (client_steps W) -> linv V.
Proof.
  intros [Lp [Lf1 Lf2] (La & Lb & Lc) Lw Lk Lg Lcl Lx] Hk Hstep Hin.
  destruct (client_steps_chans _ _ Hin) as (Ecl & Hn & Hfr & Hcw & Hgot & Hret).
  destruct (client_steps_shape _ _ Hin) as (Es & Ewd & Hc).
  assert (Hfresh : forall x, In x (closed V) -> x < nextc V).
  { intros x Hx. rewrite Ecl in Hx. specialize (La x Hx). lia. }
  assert (Hgone : forall s, kp V = KRACDone s \/ (exists r, cp V = CRemoveSend s r) ->
            (kp W = KRACDone s \/ (exists r, cp W = CRemoveSend s r)) ->
            exists sk, nth_error (heap V) s = Some sk /\ Chan.cclosed (c sk) = true).
  { intros s _ H. destruct (Lg s H) as (sk & Hs & Hcs).
    eapply closed_stays; eauto. }
  destruct Hc as
    [ Ekp Ecp Eh Et Ecc Epr Hcause
    | w p Epr Ekw Ekv Eh Ecp Et Ecc Epv
    | x Ecw Ecc Ecp Eh Et Ecv Hx
    | s r Ecw Ecp Ekw Eh Et Ecc Hx
    | Ecp Eh Et Ecc Ekv Hx
    | p Epr Ekw Ekv Ecc Ecv Ecp Eh Et Epv
    | s sk sk' ev Hs Hcl Eh Ecp Ecc Ekv Epv Hx ].
  - contradiction.
  - (* Add: the sink is made *)
    constructor.
    + unfold kp_prog. rewrite Ekv, Epv. eauto.
    + rewrite Epv, Ecp. auto.
    + repeat split; auto.
      * intros r E. congruence.
      * intros r E. rewrite Ecp in E. specialize (Lc r E). lia.
    + intros r E. congruence.
    + intros r E N. rewrite Ecp in E, N. destruct (Lk r E N). congruence.
    + intros s [E|(r & E)]; [congruence|].
      apply Hgone; [eauto | right; exists r; congruence].
    + intros E. congruence.
    + intros E. rewrite Ewd. apply Lx. congruence.
  - (* a command is sent *)
    destruct x as [s|w r|b|r].
    + destruct Hx as ((w & Epr) & Ekw & Ekv).
      constructor; rewrite ?Ecp; simpl.
      * unfold kp_prog. now rewrite Ekv.
      * rewrite Epr in Lf1. apply noflush_tail in Lf1. auto.
      * repeat split; auto; [congruence | discriminate].
      * congruence.
      * discriminate.
      * intros s0 [E|(r & E)]; [congruence | discriminate].
      * congruence.
      * discriminate.
    + destruct Hx as (Epr & Epv & Ekw & Ekv).
      destruct (Hfr r Ekv) as [E|(-> & En & _)]; [congruence|].
      constructor; rewrite ?Ecp; simpl.
      * unfold kp_prog. rewrite Ekv, Epv.
        destruct Epr as [E|E]; rewrite E; eauto.
      * rewrite Epv. auto.
      * repeat split; auto.
        -- intros r E. rewrite Ekv in E. injection E as <-. lia.
        -- intros r E. injection E as <-. lia.
      * intros r E. rewrite Ekv in E. injection E as <-. now left.
      * intros r E _. injection E as <-. split; [exact Ekv|].
        apply is_closed_fresh. rewrite Ecl. exact La.
      * intros s0 [E|(r & E)]; [congruence | discriminate].
      * congruence.
      * discriminate.
    + destruct Hx as ((buf & Epr) & Ekw & Ekv).
      constructor; rewrite ?Ecp; simpl.
      * unfold kp_prog. now rewrite Ekv.
      * rewrite Epr in Lf1. apply noflush_tail in Lf1. auto.
      * repeat split; auto; [congruence | discriminate].
      * congruence.
      * discriminate.
      * intros s0 [E|(r & E)]; [congruence | discriminate].
      * congruence.
      * discriminate.
    + destruct Hx as (Epr & _). rewrite Epr in Lf1. discriminate.
  - (* the sink removed is received *)
    constructor; rewrite ?Ecp; simpl.
    + unfold kp_prog.
      destruct Hx as [(_ & E)|((w & Epr) & Epv & E)]; rewrite E; [exact I|].
      rewrite Epv. eauto.
    + split; [|reflexivity].
      destruct Hx as [((w & Epr) & _)|(_ & Epv & _)]; [|congruence].
      rewrite Epr in Lf1. now apply noflush_tail in Lf1.
    + repeat split; auto.
      * intros r0 E. destruct Hx as [(_ & E')|(_ & _ & E')]; congruence.
      * intros r0 E. injection E as <-.
        assert (r < nextc W) by (apply Lc; rewrite Ecw; reflexivity). lia.
    + intros r0 E. destruct Hx as [(_ & E')|(_ & _ & E')]; congruence.
    + intros r0 E N. injection E as <-. now elim N.
    + intros s0 [E|(r0 & E)]; [|discriminate].
      destruct Hx as [(_ & E')|(_ & _ & E')]; [congruence|].
      rewrite E' in E. injection E as <-.
      apply Hgone; [now left | right; eauto].
    + destruct Hx as [(_ & E')|(_ & _ & E')]; congruence.
    + discriminate.
  - (* a call returns *)
    assert (Hno : forall r, reply_of (cp W) = Some r -> cp W <> CRemoveClose r -> False).
    { intros r E N. destruct (Lk r E N) as [E1 E2].
      destruct Hx as [(r0 & w & E0 & _)|[(r0 & E0 & _)|(E0 & _)]]; try congruence.
      rewrite E1 in E0. injection E0 as <-.
      destruct (Hret r E1) as [(s & E3)|E3]; [|congruence].
      destruct (Hgot r s r E1 E3) as [_ E4]. congruence. }
    assert (Epr : exists x, prog W = x :: prog V /\ is_flush x = false).
    { destruct Hx as [(r0 & w & _ & [E|E])|[(r0 & E0 & E)|(_ & _ & E)]];
        try (eexists; split; [exact E|reflexivity]).
      rewrite E in Lf1. discriminate. }
    destruct Epr as (x & Epr & _).
    constructor.
    + unfold kp_prog. now rewrite Ekv.
    + rewrite Ecp. split; [|assumption].
      rewrite Epr in Lf1. now apply noflush_tail in Lf1.
    + repeat split; auto.
      * intros r E. congruence.
      * intros r E. rewrite Ecp in E. specialize (Lc r E). lia.
    + intros r E. congruence.
    + intros r E N. rewrite Ecp in E, N. elim (Hno r E N).
    + intros s [E|(r & E)]; [congruence|].
      apply Hgone; [eauto | right; exists r; congruence].
    + congruence.
    + intros E. rewrite Ewd. apply Lx. congruence.
  - (* Close: w.cmd is closed *)
    constructor.
    + unfold kp_prog. rewrite Ekv, Epv, Epr. eauto.
    + rewrite Epv, Ecp. auto.
    + repeat split; auto.
      * intros r E. congruence.
      * intros r E. rewrite Ecp in E. specialize (Lc r E). lia.
    + intros r E. congruence.
    + intros r E N. rewrite Ecp in E, N. destruct (Lk r E N). congruence.
    + intros s [E|(r & E)]; [congruence|].
      apply Hgone; [eauto | right; exists r; congruence].
    + auto.
    + intros E. rewrite Ewd. apply Lx. congruence.
  - (* sink.Close *)
    assert (Hno : forall r, reply_of (cp W) = Some r -> cp W <> CRemoveClose r -> False).
    { intros r E N. destruct (Lk r E N) as [E1 E2].
      destruct Hx as [(E0 & _)|(E0 & _)]; congruence. }
    constructor.
    + unfold kp_prog. now rewrite Ekv.
    + rewrite Ecp. split; [|assumption]. rewrite Epv.
      destruct (prog W) as [|x q]; [reflexivity|]. now apply noflush_tail in Lf1.
    + repeat split; auto.
      * intros r E. congruence.
      * intros r E. rewrite Ecp in E. specialize (Lc r E). lia.
    + intros r E. congruence.
    + intros r E N. rewrite Ecp in E, N. elim (Hno r E N).
    + intros s0 [E|(r & E)]; [congruence|].
      apply Hgone; [eauto | right; exists r; congruence].
    + congruence.
    + intros E. rewrite Ewd. apply Lx. congruence.
Qed.

Lemma is_closed_cons W V r x :
  closed V = x :: closed W -> is_closed W r = true -> is_closed V r = true.
Proof.
  unfold is_closed. intros -> H. simpl. rewrite H. apply orb_true_r.
Qed.

(** A step of [run] or of a drain goroutine. *)
Lemma linv_keep W V :
  linv W -> In V (step W) ->
  kp V = kp W -> prog V = prog W -> cmd_closed V = cmd_closed W ->
  nextc W <= nextc V ->
  (closed V = closed W
   \/ exists r, closed V = r :: closed W /\ cp W = CRemoveClose r) ->
  flush_cp (cp V) = false ->
  (forall r, reply_of (cp V) = Some r ->
     reply_of (cp W) = Some r /\ (cp V <> CRemoveClose r -> cp W <> CRemoveClose r)) ->
  (forall r, reply_of (cp W) = Some r ->
     reply_of (cp V) = Some r \/ closed V = r :: closed W) ->
  (forall s r, cp V = CRemoveSend s r ->
     exists sk, nth_error (heap V) s = Some sk /\ Chan.cclosed (c sk) = true) ->
  (cp V = CExit -> wdone V = true) ->
  linv V.
Proof.
  intros [Lp [Lf1 Lf2] (La & Lb & Lc) Lw Lk Lg Lcl Lx]
         Hstep Ek Epr Ecc Hn Hcl Hf Hrep Hrep' Hsend Hexit.
  constructor.
  - unfold kp_prog in *. now rewrite Ek, Epr.
  - rewrite Epr. auto.
  - repeat split.
    + intros x Hx. destruct Hcl as [E|(r & E & Ec)]; rewrite E in Hx.
      * specialize (La x Hx). lia.
      * destruct Hx as [<-|Hx]; [|specialize (La x Hx); lia].
        assert (r < nextc W) by (apply Lc; rewrite Ec; reflexivity). lia.
    + intros r E. rewrite Ek in E. specialize (Lb r E). lia.
    + intros r E. destruct (Hrep r E) as [E' _]. specialize (Lc r E'). lia.
  - intros r E. rewrite Ek in E.
    destruct (Lw r E) as [H|H].
    + destruct (Hrep' r H) as [H'|H']; [now left|].
      right. unfold is_closed. rewrite H'. simpl. now rewrite Nat.eqb_refl.
    + right. destruct Hcl as [Ecl|(r0 & Ecl & _)].
      * unfold is_closed in *. now rewrite Ecl.
      * eapply is_closed_cons; eauto.
  - intros r E N. destruct (Hrep r E) as [E' Hnc].
    destruct (Lk r E' (Hnc N)) as [E1 E2]. split; [congruence|].
    destruct Hcl as [Ecl|(r0 & _ & Ec)].
    + unfold is_closed in *. now rewrite Ecl.
    + exfalso. rewrite Ec in E'. injection E' as <-. now elim (Hnc N).
  - intros s [E|(r & E)].
    + rewrite Ek in E. destruct (Lg s (or_introl E)) as (sk & Hs & Hc).
      eapply closed_stays; eauto.
    + eapply Hsend; eauto.
  - intros E. rewrite Ecc. apply Lcl. congruence.
  - exact Hexit.
Qed.

Lemma linv_coord W V :
  linv W -> cp V <> CPanic -> In V (step W) -> In V (coord_steps W) -> linv V.
Proof.
  intros L Hp Hstep Hin.
  pose proof L as [Lp [Lf1 Lf2] (La & Lb & Lc) Lw Lk Lg Lcl Lx].
  destruct (coord_steps_chans _ _ Hin) as [Hn Hcl].
  apply coord_steps_shape in Hin.
  destruct Hin as
      [ Hm Hpn
      | Ec Ecl Ew Hm
      | s0 sk ch Ec Hs Hl Hcc Ew Hm
      | s0 sk Ec Hs Hl Ew Hm
      | w r s0 sk ch Ec Hl Hs Hcc Ew Hm
      | w r Ec Hl Ew Hm
      | Hb Ew Hm
      | r rest0 x rest' sk Ec Hpk Hs Ew Hm
      | s0 r rest0 sk sk0 Ec Hs Hrg Ew Hm
      | s0 f r rest0 sk sk0 Ec Hs Hrg Ew Hm
      | b0 rest0 x rest' sk Ec Hpk Hs Ew Hm
      | b0 s0 rest0 sk Ec Hs Ew Hm
      | b0 s0 rest0 sk sk0 Ec Hs Hrg Ew Hm
      | b0 s0 rest0 sk sk0 Ec Hs Hrg Ew Hm
      | rest0 x rest' sk ch Ec Hpk Hs Hcc Ew Hm
      | Ec Ew Ew' Hm ];
    destruct Hm as (Ecv & Ehv & Esv & Ekv & Eprv & Eccv & Etv & Ebv);
    try (rewrite Ec in Lf2; discriminate);
    try contradiction.
  all: try (rewrite Ec in Hcl).
  all: try (apply linv_keep with (W := W); auto;
            [ rewrite Ecv; try reflexivity
            | intros r'; rewrite Ecv; try discriminate
            | intros r'; rewrite Ec; try discriminate
            | intros s' r'; rewrite Ecv; try discriminate
            | rewrite Ecv; try discriminate ]).
  all: try (destruct (done sk); reflexivity).
  all: try (destruct (done sk); discriminate).
  all: try (destruct (near_full (c sk)); reflexivity).
  all: try (destruct (near_full (c sk)); discriminate).
  - (* Remove of a registered target *)
    intros E. injection E as <-. rewrite Ec. split; [reflexivity | discriminate].
  - intros E. injection E as <-. rewrite Ecv. now left.
  - intros E. injection E as <- <-. rewrite Ehv.
    exists (set_c sk ch). split; [apply (nth_error_upd_same _ _ _ Hs)|].
    simpl. apply close_keeps in Hcc. tauto.
  - (* Remove of a target that is not registered *)
    intros E. injection E as <-. rewrite Ec. split; [reflexivity|].
    intros N. now elim N.
  - intros E. injection E as <-. rewrite Ecv. now left.
  - (* back to the loop *)
    destruct Hb as [(r & Ec)|[(r & Ec)|(b & Ec)]].
    + rewrite Ec in Hcl.
      apply linv_keep with (W := W); auto; rewrite ?Ecv; try discriminate; eauto.
      intros r0 E. rewrite Ec in E. injection E as <-. now right.
    + rewrite Ec in Lf2. discriminate.
    + rewrite Ec in Hcl.
      apply linv_keep with (W := W); auto; rewrite ?Ecv; try discriminate; auto.
      intros r'; rewrite Ec; discriminate.
  - (* the end of run *)
    apply linv_keep with (W := W); auto; rewrite ?Ecv; try discriminate; auto.
    intros r'; rewrite Ec; discriminate.
Qed.

Lemma linv_drain W V :
  linv W -> In V (step W) -> In V (drain_steps W) -> linv V.
Proof.
  intros L Hstep Hin.
  pose proof L as [Lp [Lf1 Lf2] (La & Lb & Lc) Lw Lk Lg Lcl Lx].
  destruct (@drain_steps_from_chans W V (heap W) 0 Hin) as [Ecl En].
  apply (@drain_steps_from_shape W V (heap W) 0 (fun j sk H => H)) in Hin.
  destruct Hin as (i & sk & sk' & ev & Hi & Hd & Eh & Es & Ek & Epr & Ecc & Ew & Eb & Hc).
  assert (Ec : cp V = cp W).
  { destruct Hc as [[_ E]|(f & r & rest & _ & E & _)]; [exact E|].
    rewrite E in Lf2. discriminate. }
  apply linv_keep with (W := W); auto; rewrite ?Ec; auto; try lia.
  - intros s r E. destruct (Lg s) as (sk0 & Hs0 & Hc0); [right; eauto|].
    eapply closed_stays; eauto.
  - intros E. rewrite Ew. auto.
Qed.

Lemma linv_init n ts p : existsb is_flush p = false -> linv (init n ts p).
Proof.
  intros H. constructor; simpl; auto; try discriminate.
  - exact I.
  - repeat split; intros; try contradiction; discriminate.
  - intros s [E|(r & E)]; discriminate.
Qed.

Lemma reachable_linv n ts p W :
  proper 0 p = true -> existsb is_flush p = false ->
  reachable (init n ts p) W -> linv W.
Proof.
  intros Hp Hf Hr. induction Hr as [|V V' Hr IH Hin]; [now apply linv_init|].
  assert (Hr' : reachable (init n ts p) V') by (eapply reach_step; eauto).
  destruct (reachable_pinv Hp Hr') as [Hk _].
  destruct (reachable_winv Hr') as [Hc _].
  pose proof Hin as Hstep. unfold step in Hin.
  destruct (panicked V); [contradiction|].
  apply in_app_iff in Hin. destruct Hin as [Hin|Hin];
    [now apply linv_client with (W := V)|].
  apply in_app_iff in Hin. destruct Hin as [Hin|Hin];
    [now apply linv_coord with (W := V) | now apply linv_drain with (W := V)].
Qed.

(** *** Some goroutine can always move *)

Lemma sink_Close_ready sk ts :
  done sk = true -> sink_Close sk ts <> Blocked.
Proof.
  intros Hd. unfold sink_Close. rewrite Hd. simpl.
  destruct (Writer sk) as [t|]; [|discriminate].
  destruct (t_Close (tget ts t)) as [[tst r]|]; discriminate.
Qed.

Lemma close_or_drain W s sk q :
  nth_error (heap W) s = Some sk -> winding_up sk ->
  client_Close W s q <> [] \/ drain_steps W <> [].
Proof.
  intros Hs Hw.
  destruct (dpc_eq_dec (drain sk) DExit) as [E|E].
  - left. unfold client_Close. rewrite Hs.
    destruct Hw as (Hwf & _).
    assert (Hd : done sk = true) by (rewrite (wf_done Hwf), E; reflexivity).
    pose proof (@sink_Close_ready sk (targets W) Hd) as Hn.
    destruct (sink_Close sk (targets W)) as [[[sk' ts'] ev]| |];
      [discriminate | now elim Hn | discriminate].
  - right. destruct (@winding_up_step sk (targets W) Hw E) as (s' & ts' & ev & Hd & _).
    unfold drain_steps.
    apply (@drain_steps_from_in W sk s' ts' ev (heap W) 0 s Hs Hd).
    intros f Ef. subst ev. apply drain_step_ack in Hd.
    destruct Hw as (_ & _ & _ & Ha & _). now elim (Ha f).
Qed.

Lemma noflush_winding_up n ts p W s sk :
  proper 0 p = true -> existsb is_flush p = false ->
  reachable (init n ts p) W ->
  nth_error (heap W) s = Some sk -> Chan.cclosed (c sk) = true ->
  winding_up sk.
Proof.
  intros Hp Hf Hr Hs Hc.
  destruct (reachable_linv Hp Hf Hr) as [_ [_ Lf2] _ _ _ _ _ _].
  destruct (reachable_pinv Hp Hr) as [_ P].
  pose proof (@reachable_finv n ts p W Hr s sk Hs) as F.
  unfold flush_ok in F.
  assert (E : flushing (cp W) s = None) by (destruct (cp W); try reflexivity; discriminate).
  rewrite E in F. destruct F as [F1 F2].
  destruct (@pi_writer W P s sk Hs) as [P1 P2].
  split; [apply (@reachable_wf n ts p W Hr s sk Hs)|].
  split; [exact Hc|]. split; [exact F1|]. split; [exact F2|].
  split; [exact P1 | exact P2].
Qed.

(** X14: with a client that keeps to the documentation and never calls
    [Flush], the program never comes to a standstill before the client is
    through: in every state it can reach in which the client has a call
    to make or to come back from, some goroutine has a step to take,
    whatever the interleaving, the targets and [BufsPerSink].  A [Close]
    on a handle is taken to be made on a sink whose queue is closed, as
    is the sink that [Remove] returns. *)
Theorem no_flush_no_deadlock (n : nat) (ts : tstates) (p : list call) (W : world) :
  proper 0 p = true -> existsb is_flush p = false ->
  reachable (init n ts p) W ->
  finished W = false ->
  (forall s q, kp W = KNext -> prog W = CloseHandle s :: q ->
     exists sk, nth_error (heap W) s = Some sk /\ Chan.cclosed (c sk) = true) ->
  step W <> [].
Proof.
  intros Hp Hf Hr Hfin Hh.
  pose proof (reachable_linv Hp Hf Hr) as L.
  pose proof L as [Lp [Lf1 Lf2] _ Lw Lk Lg Lcl Lx].
  destruct (reachable_pinv Hp Hr) as [Hk P].
  destruct (reachable_winv Hr) as [Hc [Hw|Hw]]; [contradiction|].
  assert (Hpan : panicked W = false).
  { unfold panicked.
    destruct (kp W); try (now elim Hk);
      destruct (cp W); try (now elim Hc); simpl;
      apply existsb_false; intros sk Hin;
      apply In_nth_error in Hin; destruct Hin as (i & Hi);
      destruct (@pi_writer W P i sk Hi) as [Hd _];
      destruct (drain sk); try reflexivity; now elim Hd. }
  assert (Hsome : client_steps W <> [] \/ coord_steps W <> [] \/ drain_steps W <> []).
  2:{ unfold step. rewrite Hpan. intros E.
      apply app_eq_nil in E. destruct E as [E1 E].
      apply app_eq_nil in E. destruct E as [E2 E3]. tauto. }
  assert (Hcd : forall s q, (exists sk, nth_error (heap W) s = Some sk
                                        /\ Chan.cclosed (c sk) = true) ->
            client_Close W s q <> [] \/ drain_steps W <> []).
  { intros s q (sk & Hs & Hcs). apply close_or_drain with (sk := sk); auto.
    eapply noflush_winding_up; eauto. }
  destruct (busy (cp W)) eqn:Eb.
  { right; left. apply coord_ready; auto.
    - eapply reachable_gap; eauto.
    - intros s Hs. now apply winv_visiting. }
  unfold kp_prog in Lp. unfold finished in Hfin.
  unfold client_steps, Writer_Add, Writer_Remove, Writer_RemoveAndClose,
    Writer_Write, Writer_Flush, Writer_Close, handle_Close, cmd_send, coord_steps.
  destruct (cp W) eqn:Ec; try discriminate; try (now elim Hc).
  - (* run waits for a command *)
    destruct (cmd_closed W) eqn:Ecc; [right; left; discriminate|].
    destruct (kp W) eqn:Ekp; try (now elim Hk).
    + destruct (prog W) as [|[w|w|w|s|buf| |] q] eqn:Epr; try discriminate;
        try (left; discriminate).
      destruct (Hcd s q (Hh s q eq_refl eq_refl)) as [H|H]; auto.
    + destruct Lp as (w & q & ->). left. discriminate.
    + destruct Lp as (q & E). rewrite E in Lf1. discriminate.
    + destruct (Lw r eq_refl) as [H|H]; [discriminate|].
      destruct Lp as (w & q & [-> | ->]); rewrite H; left; discriminate.
    + destruct Lp as (w & q & ->).
      destruct (Hcd s q (Lg s (or_introl eq_refl))) as [H|H]; auto.
    + specialize (Lcl eq_refl). discriminate.
  - (* run waits for the client to take the sink *)
    destruct (Lk r eq_refl ltac:(discriminate)) as [Ekp _].
    rewrite Ekp. unfold kp_prog in Lp. rewrite Ekp in Lp.
    destruct Lp as (w & q & [-> | ->]); rewrite Nat.eqb_refl; left; discriminate.
  - (* run has come to its end *)
    pose proof (reachable_shut Hr) as Hsh. rewrite Ec in Hsh.
    specialize (Hsh eq_refl).
    destruct (pi_closed P Hsh) as [(Ekp & Epr)|(Ekp & Epr)].
    + rewrite Ekp, Epr, (Lx eq_refl). left. discriminate.
    + rewrite Ekp, Epr in Hfin. discriminate.
Qed.

Lemma no_flush_no_deadlock_witness :
  exists W,
    follow (repeat 0 11)
           (init 4 [buffer]
              [Add B; Write (Some [x01]); Remove B; CloseHandle 0; Close]) = Some W
    /\ prog W = [CloseHandle 0; Close]
    /\ step W <> [].
Proof.
  eexists. split; [vm_compute; reflexivity|]. split; [vm_compute; reflexivity|].
  apply (@no_flush_no_deadlock 4 [buffer]
           [Add B; Write (Some [x01]); Remove B; CloseHandle 0; Close]).
  - vm_compute; reflexivity.
  - vm_compute; reflexivity.
  - apply (@follow_reachable (repeat 0 11)). vm_compute; reflexivity.
  - vm_compute; reflexivity.
  - intros s q _ E. vm_compute in E. injection E as <- _.
    eexists. split; vm_compute; reflexivity.
Defined.

(** ** Writes to a sink that keeps up *)

Lemma sink_Write_empty w n b :
  1 <= n ->
  sink_Write (new_sink w n) b
  = Done (set_c (new_sink w n) (Chan.Mk [b] n false), (go_len b, None)).
Proof.
  intros Hn. unfold new_sink, Chan.make.
  destruct (Nat.eq_dec n 1) as [->|Hne].
  - reflexivity.
  - apply (@sink_Write_room w [] n); simpl; lia.
Qed.

Lemma feed_cons s ts b r :
  feed s ts (b :: r)
  = (x <- sink_Write s (Some b) ;;
     z <- feed (fst (drain_n 2 (fst x) ts)) (snd (drain_n 2 (fst x) ts)) r ;;
     Done (fst (fst z), snd (fst z), snd x :: snd z)).
Proof. reflexivity. Qed.

Lemma feed_one (t : target) (n : nat) (b : bytes) (ts : tstates) :
  1 <= n -> t < length ts -> wres (tget ts t) = [] ->
  exists s1,
    sink_Write (new_sink (Some t) n) (Some b) = Done (s1, (length b, None))
    /\ drain_n 2 s1 ts = (new_sink (Some t) n, wrote ts t [Some b]).
Proof.
  intros Hn Ht Hw. eexists. split.
  - apply (@sink_Write_empty (Some t) n (Some b) Hn).
  - apply (@drain_n_data t n false false (Chan.make chanid 1) [b] [] None false ts Ht Hw).
Qed.

(** X15: calls of [sink.Write] on a new sink of capacity at least 1 whose
    drain goroutine, between two calls, receives what was queued and
    passes it to a target that accepts every write: every slice is passed
    to the target, in the order of the calls, each call returns the length
    of its slice and a nil error, and the sink is afterwards as it was
    made, its queue empty. *)
Theorem fast_sink_gets_every_write (t : target) (n : nat) (bufs : list bytes) :
  forall ts : tstates,
  1 <= n -> t < length ts -> wres (tget ts t) = [] ->
  feed (new_sink (Some t) n) ts bufs
  = Done (new_sink (Some t) n, wrote ts t (map Some bufs),
          map (fun b => (length b, None)) bufs).
Proof.
  induction bufs as [|b r IH]; intros ts Hn Ht Hw.
  - simpl. now rewrite wrote_nil.
  - destruct (@feed_one t n b ts Hn Ht Hw) as (s1 & E1 & E2).
    rewrite feed_cons, E1. cbn [obind fst snd]. rewrite E2. cbn [fst snd].
    rewrite IH; [|assumption | now rewrite length_wrote | now rewrite wres_wrote].
    cbn [obind fst snd map]. rewrite wrote_wrote by assumption. reflexivity.
Qed.

Lemma fast_sink_gets_every_write_witness :
  feed (new_sink B 1) [buffer] [[x01]; [x02; x03]; []]
  = Done (new_sink B 1, wrote [buffer] 0 [Some [x01]; Some [x02; x03]; Some []],
          [(1, None); (2, None); (0, None)]).
Proof.
  apply (@fast_sink_gets_every_write 0 1 [[x01]; [x02; x03]; []] [buffer]);
    simpl; auto.
Defined.

(** ** A client that never calls [Flush] comes to its end *)

Lemma drain_due_step s ts s' ts' ev :
  drain_step s ts = Done (s', ts', ev) ->
  Chan.cbuf (flushers s) = [] ->
  (Chan.cclosed (flushers s) = true -> drain s = DExit) ->
  (forall g, drain s <> DAck g) ->
  drain_due s' < drain_due s.
Proof.
  intros H Hf Hc Ha. unfold drain_due.
  unfold drain_step, sink_Close, Chan.recv, Chan.close, t_Write, Chan.len in H.
  destruct (drain s) eqn:Ed; simpl in H; try (now elim (Ha f));
    cases H; simpl in H; try discriminate;
    try (injection H as <- <- <-); simpl;
    repeat match goal with
           | E : Chan.cbuf _ = _ |- _ => rewrite E in *
           | E : drain _ = _ |- _ => rewrite E in *
           end; simpl in *; try lia; try discriminate.
  all: try (specialize (Hc eq_refl); discriminate).
  all: destruct p; lia.
Qed.

Lemma sum_upd {A} (f : A -> nat) : forall l i x y,
  nth_error l i = Some x ->
  list_sum (map f (upd i y l)) + f x = list_sum (map f l) + f y.
Proof.
  induction l as [|z l IH]; intros [|i] x y H; simpl in *; try discriminate.
  - injection H as ->. lia.
  - specialize (IH i x y H). lia.
Qed.

Lemma due_upd W V i sk sk' :
  nth_error (heap W) i = Some sk -> heap V = upd i sk' (heap W) ->
  list_sum (map drain_due (heap V)) + drain_due sk
  = list_sum (map drain_due (heap W)) + drain_due sk'
  /\ length (heap V) = length (heap W).
Proof.
  intros Hi ->. split; [now apply sum_upd | apply length_upd].
Qed.

Lemma send_nil_due sk sk' :
  send_nil sk = Done sk' -> drain_due sk' = drain_due sk + 8.
Proof.
  unfold send_nil, Chan.send, Chan.push, drain_due.
  destruct (Chan.cclosed (c sk)); [discriminate|].
  destruct (Chan.has_room (c sk) (parked sk)); [|discriminate].
  simpl. intros H. injection H as <-. simpl. rewrite length_app. simpl. lia.
Qed.

Lemma try_send_buf_due sk b sk' :
  try_send_buf sk b = Done sk' -> drain_due sk' <= drain_due sk + 8.
Proof.
  unfold try_send_buf, Chan.try_send, Chan.push, drain_due.
  destruct (Chan.cclosed (c sk)); [discriminate|].
  destruct (Chan.has_room (c sk) (parked sk)); simpl;
    intros H; injection H as <-; simpl; rewrite ?length_app; simpl; lia.
Qed.

Lemma close_due sk ch :
  Chan.close (c sk) = Done ch -> drain_due (set_c sk ch) = drain_due sk.
Proof.
  intros H. apply close_keeps in H. destruct H as (_ & _ & E & _).
  unfold drain_due. simpl. now rewrite E.
Qed.

Lemma sink_Close_due s ts s1 ts1 ev :
  sink_Close s ts = Done (s1, ts1, ev) -> drain_due s1 = drain_due s.
Proof.
  intros H. apply sink_Close_keeps in H. destruct H as (E1 & _ & E2 & _).
  unfold drain_due. now rewrite E1, E2.
Qed.

Lemma NoDup_bounded (l : list nat) n :
  NoDup l -> (forall x, In x l -> x < n) -> length l <= n.
Proof.
  intros Hn Hb. rewrite <- (length_seq n 0).
  apply NoDup_incl_length; [assumption|].
  intros x Hx. apply in_seq. specialize (Hb x Hx). lia.
Qed.

Lemma fanout_bounded W :
  winv W -> length (fanout (sinks W)) <= length (heap W).
Proof.
  intros H. apply NoDup_bounded.
  - pose proof (wi_nodup H) as Hn. apply NoDup_app_remove_l in Hn. exact Hn.
  - intros x Hx. apply (wi_valid H). apply in_app_iff. now right.
Qed.

Lemma fanout_delete_le w m : length (fanout (delete w m)) <= length (fanout m).
Proof.
  unfold fanout, delete. rewrite !length_map. apply filter_length_le.
Qed.

Lemma run_due_eq W V :
  cp V = cp W -> sinks V = sinks W -> run_due V = run_due W.
Proof. intros E1 E2. unfold run_due. now rewrite E1, E2. Qed.

(** *** Every step brings the end nearer *)

Lemma due_client W V :
  winv W -> linv W -> kp V <> KPanic ->
  In V (client_steps W) -> due V < due W.
Proof.
  intros Hw [_ [Lf1 _] _ _ _ _ _ _] Hk Hin.
  destruct (client_steps_shape _ _ Hin) as (Es & _ & Hc).
  pose proof (fanout_bounded Hw) as Hb.
  unfold due, client_due.
  destruct Hc as
    [ Ekp Ecp Eh Et Ecc Epr Hcause
    | w p Epr Ekw Ekv Eh Ecp Et Ecc Epv
    | x Ecw Ecc Ecp Eh Et Ecv Hx
    | s r Ecw Ecp Ekw Eh Et Ecc Hx
    | Ecp Eh Et Ecc Ekv Hx
    | p Epr Ekw Ekv Ecc Ecv Ecp Eh Et Epv
    | s sk sk' ev Hs Hcl Eh Ecp Ecc Ekv Epv Hx ].
  - contradiction.
  - rewrite (@run_due_eq W V Ecp Es), Ekw, Ekv, Epv, Epr, Eh.
    rewrite map_app, list_sum_app, length_app. simpl.
    replace (length (heap W) + 1) with (S (length (heap W))) by lia.
    unfold drain_due. simpl. lia.
  - rewrite Eh. unfold run_due. rewrite Ecp, Ecw, Es.
    destruct x as [s|w r|b|r]; simpl.
    + destruct Hx as ((w & Epr) & Ekw & Ekv). rewrite Ekw, Ekv, Epr. simpl. lia.
    + destruct Hx as (Epr & Epv & Ekw & Ekv). rewrite Ekw, Ekv, Epv.
      destruct Epr as [E|E]; rewrite E; simpl; lia.
    + destruct Hx as ((buf & Epr) & Ekw & Ekv). rewrite Ekw, Ekv, Epr. simpl.
      nia.
    + destruct Hx as (Epr & _). rewrite Epr in Lf1. discriminate.
  - rewrite Eh. unfold run_due. rewrite Ecp, Ecw, Es, Ekw. simpl.
    destruct Hx as [((w & Epr) & Ekv)|((w & Epr) & Epv & Ekv)].
    + rewrite Ekv, Epr. simpl. lia.
    + rewrite Ekv, Epv, Epr. simpl. lia.
  - rewrite (@run_due_eq W V Ecp Es), Eh, Ekv.
    destruct Hx as [(r & w & Ekw & [Epr|Epr])|[(r & Ekw & Epr)|(Ekw & _ & Epr)]];
      rewrite Ekw; try (rewrite Epr in Lf1; discriminate);
      rewrite Epr; simpl; lia.
  - rewrite (@run_due_eq W V Ecp Es), Eh, Ekw, Ekv, Epv, Epr. simpl. lia.
  - rewrite (@run_due_eq W V Ecp Es), Ekv, Epv.
    destruct (@due_upd W V s sk sk' Hs Eh) as [E1 E2]. rewrite E2.
    rewrite (@sink_Close_due _ _ _ _ _ Hcl) in E1.
    destruct Hx as [(Ekw & q & Epr)|(Ekw & w & q & Epr)];
      rewrite Ekw, Epr; simpl; lia.
Qed.

Lemma client_due_eq W V :
  kp V = kp W -> prog V = prog W -> length (heap V) = length (heap W) ->
  client_due V = client_due W.
Proof. intros E1 E2 E3. unfold client_due. now rewrite E1, E2, E3. Qed.

Lemma due_coord W V :
  linv W -> cp V <> CPanic -> In V (coord_steps W) -> due V < due W.
Proof.
  intros [_ [_ Lf2] _ _ _ _ _ _] Hp Hin.
  apply coord_steps_shape in Hin.
  unfold due.
  destruct Hin as
      [ Hm Hpn
      | Ec Ecl Ew Hm
      | s0 sk ch Ec Hs Hl Hcc Ew Hm
      | s0 sk Ec Hs Hl Ew Hm
      | w r s0 sk ch Ec Hl Hs Hcc Ew Hm
      | w r Ec Hl Ew Hm
      | Hb Ew Hm
      | r rest0 x rest' sk Ec Hpk Hs Ew Hm
      | s0 r rest0 sk sk0 Ec Hs Hrg Ew Hm
      | s0 f r rest0 sk sk0 Ec Hs Hrg Ew Hm
      | b0 rest0 x rest' sk Ec Hpk Hs Ew Hm
      | b0 s0 rest0 sk Ec Hs Ew Hm
      | b0 s0 rest0 sk sk0 Ec Hs Hrg Ew Hm
      | b0 s0 rest0 sk sk0 Ec Hs Hrg Ew Hm
      | rest0 x rest' sk ch Ec Hpk Hs Hcc Ew Hm
      | Ec Ew Ew' Hm ];
    destruct Hm as (Ecv & Ehv & Esv & Ekv & Eprv & Eccv & Etv & Ebv);
    try (rewrite Ec in Lf2; discriminate);
    try contradiction.
  all: try (pose proof (@due_upd W V _ _ _ Hs Ehv) as [E1 E2]).
  all: try (assert (E2 : length (heap V) = length (heap W)) by now rewrite Ehv).
  all: rewrite (@client_due_eq W V Ekv Eprv E2).
  all: try rewrite Ehv in E1.
  all: unfold run_due; rewrite Ecv, Esv; try rewrite Ec; try rewrite Ehv; simpl.
  - lia.
  - rewrite (close_due _ Hcc) in E1. lia.
  - lia.
  - rewrite (close_due _ Hcc) in E1. pose proof (fanout_delete_le w (sinks W)). lia.
  - lia.
  - destruct Hb as [(r & Ec)|[(r & Ec)|(b & Ec)]]; rewrite Ec in *; simpl;
      try discriminate; lia.
  - apply picks_length in Hpk. rewrite <- Hpk. destruct (done sk); simpl; lia.
  - destruct (near_full (c sk)); simpl; lia.
  - rewrite (@send_nil_due sk sk0 Hrg) in E1. lia.
  - pose proof (@try_send_buf_due sk (Some b0) sk0 Hrg). lia.
  - apply picks_length in Hpk. rewrite <- Hpk.
    rewrite (close_due _ Hcc) in E1. simpl. lia.
  - lia.
Qed.

Lemma due_drain W V :
  linv W -> finv W ->
  (forall i sk, nth_error (heap W) i = Some sk -> sink_wf sk) ->
  In V (drain_steps W) -> due V < due W.
Proof.
  intros [_ [_ Lf2] _ _ _ _ _ _] F Hwf Hin.
  apply (@drain_steps_from_shape W V (heap W) 0 (fun j sk H => H)) in Hin.
  destruct Hin as (i & sk & sk' & ev & Hi & Hd & Eh & Es & Ek & Epr & Ecc & Ew & Eb & Hc).
  assert (Ec : cp V = cp W).
  { destruct Hc as [[_ E]|(f & r & rest & _ & E & _)]; [exact E|].
    rewrite E in Lf2. discriminate. }
  pose proof (F i sk Hi) as Fi. unfold flush_ok in Fi.
  assert (E : flushing (cp W) i = None)
    by (destruct (cp W); try reflexivity; discriminate).
  rewrite E in Fi. destruct Fi as [F1 F2].
  pose proof (@drain_due_step sk (targets W) sk' (targets V) ev Hd F1
                (wf_flushers (Hwf i sk Hi)) F2) as Hlt.
  destruct (@due_upd W V i sk sk' Hi Eh) as [E1 E2].
  unfold due. rewrite (@client_due_eq W V Ek Epr E2), (@run_due_eq W V Ec Es). lia.
Qed.

Lemma due_step n ts p W V :
  proper 0 p = true -> existsb is_flush p = false ->
  reachable (init n ts p) W -> In V (step W) -> due V < due W.
Proof.
  intros Hp Hf Hr Hin.
  assert (Hr' : reachable (init n ts p) V) by (eapply reach_step; eauto).
  destruct (reachable_pinv Hp Hr') as [Hk' _].
  destruct (reachable_pinv Hp Hr) as [Hk _].
  destruct (reachable_winv Hr') as [Hc' _].
  destruct (reachable_winv Hr) as [_ [Hw|Hw]]; [contradiction|].
  pose proof (reachable_linv Hp Hf Hr) as L.
  unfold step in Hin. destruct (panicked W); [contradiction|].
  apply in_app_iff in Hin. destruct Hin as [Hin|Hin];
    [now apply due_client|].
  apply in_app_iff in Hin. destruct Hin as [Hin|Hin];
    [now apply due_coord|].
  apply due_drain; auto.
  - eapply reachable_finv; eauto.
  - eapply reachable_wf; eauto.
Qed.

Lemma due_steps n ts p :
  proper 0 p = true -> existsb is_flush p = false ->
  forall k W U, reachable (init n ts p) W -> steps k W U -> k + due U <= due W.
Proof.
  intros Hp Hf. induction k as [|k IH]; intros W U Hr Hs; inversion Hs; subst.
  - lia.
  - assert (Hr' : reachable (init n ts p) V) by (eapply reach_step; eauto).
    pose proof (@due_step n ts p W V Hp Hf Hr H0). specialize (IH V U Hr' H1). lia.
Qed.

(** X16: with a client that keeps to the documentation and never calls
    [Flush], every run comes to an end: the steps that the client, [run]
    and the drain goroutines take together are bounded, by a number that
    depends on the calls alone ([calls_due]), whatever the interleaving,
    the targets and [BufsPerSink]. *)
Theorem no_flush_terminates (n : nat) (ts : tstates) (p : list call) :
  proper 0 p = true -> existsb is_flush p = false ->
  forall k W, steps k (init n ts p) W -> k <= calls_due 0 p + 3.
Proof.
  intros Hp Hf k W Hs.
  pose proof (@due_steps n ts p Hp Hf k (init n ts p) W (reach_refl _) Hs) as H.
  assert (E : due (init n ts p) = calls_due 0 p + 3).
  { unfold due, client_due, run_due. simpl. lia. }
  lia.
Qed.

Lemma no_flush_terminates_witness :
  proper 0 rac_scenario = true
  /\ existsb is_flush rac_scenario = false
  /\ forall k W, steps k (init 4 [buffer] rac_scenario) W -> k <= 50.
Proof.
  split; [reflexivity|]. split; [reflexivity|].
  intros k W Hs.
  exact (@no_flush_terminates 4 [buffer] rac_scenario eq_refl eq_refl k W Hs).
Defined.
